(** * Chart parsing for context-free grammars: CKY and Earley

    A shallow embedding of the parsing code of the course notes
    (morphological-patterns/operations.qmd and cky-parsing.qmd):
    the grammar classes, the CKY chart and its probabilistic filler,
    the Earley chart entries and the predict / scan / complete
    operations, together with the properties stated about them.

    Conventions.
    - A Python call either returns a value or raises: [Py.Result].
    - A Python [set] is a list without duplicates, kept in insertion
      order; membership of a set is decided by the [__eq__] of its
      elements ([Py.Eq]).  Statements are phrased through membership,
      so they do not depend on the order in which a set is iterated.
    - Python integers used as indices are [Z] where the code receives
      them from a caller (negative indices count from the end) and
      [nat] where the code produces them with [range]. *)

From Stdlib Require Import List String ZArith Lia Bool Arith PeanoNat.
Import ListNotations.
Open Scope string_scope.
Open Scope list_scope.
Set Warnings "-register-all".

(* ================================================================= *)
(** * Part I: the program                                             *)
(* ================================================================= *)

(** ** The Python run time the code relies on *)

Module Py.

Inductive Exception : Type :=
| ValueError (msg : string)
| IndexError
| KeyError
| AttributeError (msg : string)
| RuntimeError (msg : string)
| NotImplementedError.

Inductive Result (A : Type) : Type :=
| Ok (a : A)
| Raise (e : Exception).
Arguments Ok {A} a.
Arguments Raise {A} e.

Definition bind {A B} (c : Result A) (k : A -> Result B) : Result B :=
  match c with
  | Ok a => k a
  | Raise e => Raise e
  end.

Definition returns {A} (c : Result A) : Prop := exists a, c = Ok a.

(** [for x in xs: body] over a state that the body may update. *)
Fixpoint for_ {A S} (xs : list A) (body : A -> S -> Result S) (s : S)
  : Result S :=
  match xs with
  | [] => Ok s
  | x :: xs' => bind (body x s) (for_ xs' body)
  end.

(** [range(a, b)] *)
Definition range (a b : nat) : list nat := seq a (b - a).

(** [l[i]] for a Python list: negative indices count from the end,
    anything else out of range raises IndexError. *)
Definition getitem {A} (l : list A) (i : Z) : Result A :=
  let n := Z.of_nat (List.length l) in
  let k := if (i <? 0)%Z then (n + i)%Z else i in
  if ((0 <=? k) && (k <? n))%Z
  then match nth_error l (Z.to_nat k) with
       | Some a => Ok a
       | None => Raise IndexError
       end
  else Raise IndexError.

(** [l[i] = a] *)
Fixpoint update {A} (l : list A) (k : nat) (a : A) : list A :=
  match l, k with
  | [], _ => []
  | _ :: l', O => a :: l'
  | x :: l', S k' => x :: update l' k' a
  end.

Definition setitem {A} (l : list A) (i : Z) (a : A) : Result (list A) :=
  let n := Z.of_nat (List.length l) in
  let k := if (i <? 0)%Z then (n + i)%Z else i in
  if ((0 <=? k) && (k <? n))%Z
  then Ok (update l (Z.to_nat k) a)
  else Raise IndexError.

(** The [__eq__] of a class, as used by [set] and [in]. *)
Class Eq (A : Type) := eqb : A -> A -> bool.

(** A class whose [__eq__] compares every field. *)
Class EqLaws (A : Type) `{Eq A} :=
  eqb_eq : forall x y : A, eqb x y = true <-> x = y.

Section Sets.
Context {A : Type} `{Eq A}.

(** [x in s] *)
Definition mem (x : A) (s : list A) : bool := existsb (eqb x) s.

(** [s.add(x)]: a set keeps the element it already holds. *)
Definition add (x : A) (s : list A) : list A :=
  if mem x s then s else s ++ [x].

(** [s.remove(x)]: KeyError when [x] is not a member. *)
Definition remove (x : A) (s : list A) : Result (list A) :=
  if mem x s then Ok (filter (fun y => negb (eqb x y)) s)
  else Raise KeyError.

(** [set(xs)] and set comprehensions *)
Definition of_list (xs : list A) : list A :=
  fold_left (fun s x => add x s) xs [].

(** [a & b] *)
Definition inter (a b : list A) : list A :=
  filter (fun x => mem x b) a.
End Sets.

#[export] Instance string_Eq : Eq string := String.eqb.
#[export] Instance nat_Eq : Eq nat := Nat.eqb.

#[export] Instance prod_Eq {A B} `{Eq A} `{Eq B} : Eq (A * B) :=
  fun p q => eqb (fst p) (fst q) && eqb (snd p) (snd q).

Fixpoint list_eqb {A} `{Eq A} (l l' : list A) : bool :=
  match l, l' with
  | [], [] => true
  | x :: r, y :: r' => eqb x y && list_eqb r r'
  | _, _ => false
  end.

#[export] Instance list_Eq {A} `{Eq A} : Eq (list A) := list_eqb.

End Py.

Import Py.

Declare Scope py_scope.
Notation "x <- c ;; k" := (Py.bind c (fun x => k))
  (at level 61, c at next level, right associativity) : py_scope.
Notation "c ;;; k" := (Py.bind c (fun _ => k))
  (at level 61, right associativity) : py_scope.
Open Scope py_scope.

(** ** Rules and grammars (operations.qmd) *)

(** [class Rule]: a left side and a tuple of right-side symbols;
    [__eq__] compares both. *)
Record Rule : Type := mkRule {
  left_side : string;
  right_side : list string
}.

#[export] Instance Rule_Eq : Py.Eq Rule :=
  fun r r' => eqb (left_side r) (left_side r')
              && eqb (right_side r) (right_side r').

Definition is_unary (r : Rule) : bool := Nat.eqb (List.length (right_side r)) 1.
Definition is_binary (r : Rule) : bool := Nat.eqb (List.length (right_side r)) 2.

(** Modelled from the spec: [class Tree] is used by the notes
    ([Tree(symbol, children)]) and not defined in them.  The
    specification describes a parse tree as an ordered tree whose nodes
    are labelled with grammar symbols, a leaf having no children; two
    trees are equal when labels and children are. *)
Inductive Tree : Type :=
| Node (data : string) (children : list Tree).

Fixpoint Tree_eqb (t t' : Tree) {struct t} : bool :=
  match t, t' with
  | Node d cs, Node d' cs' =>
      String.eqb d d' &&
      (fix all2 (l : list Tree) (l' : list Tree) {struct l} : bool :=
         match l, l' with
         | [], [] => true
         | x :: r, y :: r' => Tree_eqb x y && all2 r r'
         | _, _ => false
         end) cs cs'
  end.

#[export] Instance Tree_Eq : Py.Eq Tree := Tree_eqb.

Module ContextFreeGrammar.

Record t : Type := mk {
  alphabet : list string;
  variables : list string;
  _rules : list Rule;
  start_variable : string
}.

Definition _validate_variables (alphabet variables : list string)
           (start_variable : string) : Result unit :=
  match Py.inter alphabet variables with
  | _ :: _ =>
      Raise (ValueError "alphabet and variables must not share elements")
  | [] =>
      if negb (Py.mem start_variable variables)
      then Raise (ValueError "start variable must be in set of variables")
      else Ok tt
  end.

Definition _validate_rules (rules : list Rule) : Result unit := Ok tt.

(** The constructor.  [parser_class] only selects the parser that
    [__call__] delegates to; it plays no part in validation. *)
Definition __init__ (alphabet variables : list string)
           (rules : list Rule) (start_variable : string) : Result t :=
  _validate_variables alphabet variables start_variable ;;;
  _validate_rules rules ;;;
  Ok (mk alphabet variables rules start_variable).

(** [rules(left_side)] with a left side given *)
Definition rules (g : t) (left : string) : list Rule :=
  filter (fun r => eqb (left_side r) left) (_rules g).

(** [reduce] applied to the symbols of a right side *)
Definition reduce (g : t) (right : list string) : list string :=
  Py.of_list
    (map left_side
         (filter (fun r => eqb (right_side r) right) (_rules g))).

End ContextFreeGrammar.

(** ** The parser interface (cky-parsing.qmd) *)

(** [ContextFreeGrammarParser]: [__call__] dispatches on the mode
    string to the [_recognize] and [_parse] of the subclass.  The
    input is a list of tokens; the [str] that [_recognize] and [_parse]
    would first split into tokens is not modelled. *)
Class ContextFreeGrammarParser (G Recognized Parsed : Type) := {
  _recognize : G -> list string -> Result Recognized;
  _parse : G -> list string -> Result Parsed
}.

Inductive Answer (Recognized Parsed : Type) : Type :=
| recognized (r : Recognized)
| parsed (p : Parsed).
Arguments recognized {Recognized Parsed} r.
Arguments parsed {Recognized Parsed} p.

Definition __call__ {G R P} `{ContextFreeGrammarParser G R P}
           (grammar : G) (string : list string) (mode : String.string)
  : Result (Answer R P) :=
  if eqb mode "recognize" then
    r <- _recognize grammar string ;; Ok (recognized r)
  else if eqb mode "parse" then
    p <- _parse grammar string ;; Ok (parsed p)
  else Raise (ValueError "mode must be 'parse' or 'recognize'").

(** ** The CKY chart (cky-parsing.qmd)

    The notes define [CKYChart] twice, once for the plain parser and
    once for the probabilistic one, with the same [__init__],
    [__getitem__], [__setitem__] and [_validate_index]; the chart is
    therefore generic in the type of its entries. *)

Module CKYChart.
Section Chart.
Context {E : Type}.

Record t : Type := mk {
  _input_size : nat;
  _chart : list (list (list E))
}.

Definition __init__ (input_size : nat) : t :=
  mk input_size
     (map (fun _ => map (fun _ => []) (Py.range 0 (input_size + 1)))
          (Py.range 0 (input_size + 1))).

Definition _validate_index (c : t) (i j : Z) : Result unit :=
  if negb (i <? j)%Z then
    Raise (ValueError "cannot index into the lower triangle of the chart")
  else
    match Py.getitem (_chart c) i with
    | Raise IndexError => Raise (ValueError "row index is too large")
    | Raise e => Raise e
    | Ok row =>
        match Py.getitem row j with
        | Raise IndexError =>
            Raise (ValueError "column index is too large")
        | Raise e => Raise e
        | Ok _ => Ok tt
        end
    end.

Definition __getitem__ (c : t) (index : Z * Z) : Result (list E) :=
  let '(i, j) := index in
  _validate_index c i j ;;;
  row <- Py.getitem (_chart c) i ;;
  Py.getitem row j.

Definition __setitem__ (c : t) (key : Z * Z) (item : list E)
  : Result t :=
  let '(i, j) := key in
  row <- Py.getitem (_chart c) i ;;
  row' <- Py.setitem row j item ;;
  rows <- Py.setitem (_chart c) i row' ;;
  Ok (mk (_input_size c) rows).

(** The set held at row [i], column [j], and its update in place
    (what [chart[i, j].add(x)] does to the set object it got). *)
Definition cell (c : t) (i j : nat) : list E :=
  nth j (nth i (_chart c) []) [].

Definition store (c : t) (i j : nat) (s : list E) : t :=
  mk (_input_size c)
     (Py.update (_chart c) i (Py.update (nth i (_chart c) []) j s)).
End Chart.
Arguments t E : clear implicits.
End CKYChart.

(** ** The plain CKY parser (cky-parsing.qmd) *)

Module CKY.

(** [CKYBackPointer = tuple[str, SpanIndices]] *)
Definition CKYBackPointer : Type := string * (Z * Z).

Record CKYChartEntry : Type := entry {
  symbol : string;
  backpointers : list CKYBackPointer
}.

Definition Chart : Type := CKYChart.t CKYChartEntry.

Section Parser.
(** [CKYChart.parses] rebuilds trees from a filled chart.  This
    parser never produces one (its [_fill_chart] is left as an
    assignment and raises), so the property is a parameter. *)
Variable parses : Chart -> Result (list Tree).

Definition _fill_chart (g : ContextFreeGrammar.t) (string : list string)
  : Result Chart :=
  Raise NotImplementedError.

Definition CKY_parse (g : ContextFreeGrammar.t) (string : list string)
  : Result (list Tree) :=
  chart <- _fill_chart g string ;;
  parses chart.

Definition CKY_recognize (g : ContextFreeGrammar.t) (string : list string)
  : Result bool :=
  chart <- _fill_chart g string ;;
  top <- CKYChart.__getitem__ chart (0%Z, Z.of_nat (List.length string)) ;;
  Ok (existsb
        (fun e => eqb (symbol e) (ContextFreeGrammar.start_variable g))
        top).

Definition CKYParser
  : ContextFreeGrammarParser ContextFreeGrammar.t bool (list Tree) :=
  {| _recognize := CKY_recognize; _parse := CKY_parse |}.
End Parser.

End CKY.

(** ** Probabilistic grammars and the inside algorithm (cky-parsing.qmd) *)

(** Log-probabilities are Python floats.  The code uses them through
    the operations below only; what the proofs need from them is
    stated where it is used ([LogProbLaws]). *)
Class LogProb : Type := {
  logprob : Type;
  lp_zero : logprob;                          (* [0.0] *)
  neg_inf : logprob;                          (* [float('-inf')] *)
  lp_add : logprob -> logprob -> logprob;     (* [a + b] *)
  logsumexp : list logprob -> logprob;        (* [scipy.special.logsumexp] *)
  lp_eqb : logprob -> logprob -> bool;        (* [a == b] *)
  gt_neg_inf : logprob -> bool;               (* [a > float('-inf')] *)
  (* [np.isclose(np.exp(logsumexp(lps)), 1.0, rtol=1e-5)] *)
  sums_to_one : list logprob -> bool
}.

Module PCFG.
Section WithLogProb.
Context {LP : LogProb}.

#[local] Instance logprob_Eq : Py.Eq logprob := lp_eqb.

(** [class ProbabilisticRule(Rule)]: [__eq__] and [__hash__] are
    those of [Rule] and ignore the log-probability. *)
Record ProbabilisticRule : Type := mkPRule {
  rule : Rule;
  rule_logprob : logprob
}.

Record ProbabilisticContextFreeGrammar : Type := mkPCFG {
  alphabet : list string;
  variables : list string;
  rules : list ProbabilisticRule;
  start_variable : string
}.

(** The two [try: assert ... except AssertionError: raise ValueError]
    blocks. *)
Definition _validate_variables (alphabet variables : list string)
           (start_variable : string) : Result unit :=
  match Py.inter alphabet variables with
  | _ :: _ =>
      Raise (ValueError "alphabet and variables must not share elements")
  | [] =>
      if Py.mem start_variable variables then Ok tt
      else Raise (ValueError "start variable must be in set of variables")
  end.

(** [log_probs[r.left_side].append(r.logprob)] on a dict kept in
    insertion order. *)
Fixpoint dict_append (d : list (string * list logprob))
         (k : string) (v : logprob) : list (string * list logprob) :=
  match d with
  | [] => [(k, [v])]
  | (k', vs) :: d' =>
      if eqb k' k then (k', vs ++ [v]) :: d'
      else (k', vs) :: dict_append d' k v
  end.

Section Validation.
(** [Rule.validate] is called by the notes and not defined in
    them: a parameter.  The message of the ValueError raised for
    a non-terminal [nt] also prints the sum, a float; it is
    abridged here. *)
Variable validate :
  ProbabilisticRule -> list string -> list string -> Result unit.

Definition _validate_rules (alphabet variables : list string)
           (rules : list ProbabilisticRule) : Result unit :=
  Py.for_ rules (fun r _ => validate r alphabet variables) tt ;;;
  let log_probs :=
    fold_left
      (fun d r => dict_append d (left_side (rule r)) (rule_logprob r))
      rules [] in
  Py.for_ log_probs
    (fun '(nt, lps) _ =>
       if sums_to_one lps then Ok tt
       else Raise (ValueError
                    (String.append "Rules for "
                       (String.append nt " do not sum to 1.0"))))
    tt.

Definition __init__ (alphabet variables : list string)
           (rules : list ProbabilisticRule) (start_variable : string)
  : Result ProbabilisticContextFreeGrammar :=
  _validate_variables alphabet variables start_variable ;;;
  _validate_rules alphabet variables rules ;;;
  Ok (mkPCFG alphabet variables rules start_variable).
End Validation.

(** [reduce]: the (left side, log-probability) pairs of the rules
    with the given right side. *)
Definition reduce (g : ProbabilisticContextFreeGrammar)
           (right : list string) : list (string * logprob) :=
  Py.of_list
    (map (fun r => (left_side (rule r), rule_logprob r))
         (filter (fun r => eqb (right_side (rule r)) right) (rules g))).

(** [class CKYChartEntry]: the backpointers are the child entries
    themselves; [__eq__] compares symbol and backpointers. *)
Inductive CKYChartEntry : Type :=
| entry (symbol : string) (logprob_ : logprob)
        (backpointers : list CKYChartEntry).

Definition symbol (e : CKYChartEntry) : string :=
  let 'entry s _ _ := e in s.
Definition logprob_of (e : CKYChartEntry) : logprob :=
  let 'entry _ l _ := e in l.
Definition backpointers (e : CKYChartEntry) : list CKYChartEntry :=
  let 'entry _ _ b := e in b.

Fixpoint CKYChartEntry_eqb (e e' : CKYChartEntry) {struct e} : bool :=
  match e, e' with
  | entry s _ bs, entry s' _ bs' =>
      String.eqb s s' &&
      (fix all2 (l l' : list CKYChartEntry) {struct l} : bool :=
         match l, l' with
         | [], [] => true
         | x :: r, y :: r' => CKYChartEntry_eqb x y && all2 r r'
         | _, _ => false
         end) bs bs'
  end.

#[local] Instance CKYChartEntry_Eq : Py.Eq CKYChartEntry :=
  CKYChartEntry_eqb.

Definition Chart : Type := CKYChart.t CKYChartEntry.

(** [chart[i, j].add(e)] *)
Definition chart_add (chart : Chart) (i j : nat) (e : CKYChartEntry)
  : Result Chart :=
  s <- CKYChart.__getitem__ chart (Z.of_nat i, Z.of_nat j) ;;
  Ok (CKYChart.store chart i j (Py.add e s)).

(** [chart[i, j].remove(e)] *)
Definition chart_remove (chart : Chart) (i j : nat) (e : CKYChartEntry)
  : Result Chart :=
  s <- CKYChart.__getitem__ chart (Z.of_nat i, Z.of_nat j) ;;
  s' <- Py.remove e s ;;
  Ok (CKYChart.store chart i j s').

(** The body of the base-case loop, for one [j]. *)
Definition base_step (g : ProbabilisticContextFreeGrammar)
           (string : list string) (j : nat) (chart : Chart)
  : Result Chart :=
  let i := j - 1 in
  w <- Py.getitem string (Z.of_nat i) ;;
  Py.for_ (reduce g [w])
    (fun '(symbol, logprob) chart =>
       w <- Py.getitem string (Z.of_nat i) ;;
       chart_add chart i j (entry symbol logprob [entry w lp_zero []]))
    chart.

(** The body of the innermost loop: one rule [parent -> B C] applied
    to a pair of entries of [chart[i, k]] and [chart[k, j]]. *)
Definition combine (keep_backtraces : bool) (i j : nat)
           (left_entry right_entry : CKYChartEntry)
           (parent : string) (rule_logprob : logprob) (chart : Chart)
  : Result Chart :=
  let entry_logprob :=
    lp_add (lp_add rule_logprob (logprob_of left_entry))
           (logprob_of right_entry) in
  if keep_backtraces then
    chart_add chart i j
              (entry parent entry_logprob [left_entry; right_entry])
  else
    s <- CKYChart.__getitem__ chart (Z.of_nat i, Z.of_nat j) ;;
    match filter (fun e => eqb (symbol e) parent) s with
    | existing :: _ =>
        let old_logprob := logprob_of existing in
        let new_logprob := logsumexp [old_logprob; entry_logprob] in
        chart <- chart_remove chart i j existing ;;
        chart_add chart i j (entry parent new_logprob [])
    | [] =>
        chart_add chart i j (entry parent entry_logprob [])
    end.

(** The body of the loop over split points, for one [k]. *)
Definition recursive_step (g : ProbabilisticContextFreeGrammar)
           (keep_backtraces : bool) (i j k : nat) (chart : Chart)
  : Result Chart :=
  lefts <- CKYChart.__getitem__ chart (Z.of_nat i, Z.of_nat k) ;;
  Py.for_ lefts
    (fun left_entry chart =>
       rights <- CKYChart.__getitem__ chart (Z.of_nat k, Z.of_nat j) ;;
       Py.for_ rights
         (fun right_entry chart =>
            Py.for_ (reduce g [symbol left_entry; symbol right_entry])
              (fun '(parent, rule_logprob) chart =>
                 combine keep_backtraces i j left_entry right_entry
                         parent rule_logprob chart)
              chart)
         chart)
    chart.

Definition _fill_chart (g : ProbabilisticContextFreeGrammar)
           (string : list string) (keep_backtraces : bool)
  : Result Chart :=
  let input_size := List.length string in
  let chart := CKYChart.__init__ input_size in
  chart <- Py.for_ (Py.range 1 (input_size + 1)) (base_step g string)
                   chart ;;
  Py.for_ (Py.range 2 (input_size + 1))
    (fun length chart =>
       Py.for_ (Py.range 0 (input_size - length + 1))
         (fun i chart =>
            let j := i + length in
            Py.for_ (Py.range (i + 1) j)
                    (recursive_step g keep_backtraces i j)
                    chart)
         chart)
    chart.

Fixpoint _build_tree (e : CKYChartEntry) : Tree :=
  match e with
  | entry s _ bps => Node s (map _build_tree bps)
  end.

Definition PCKY_parse (g : ProbabilisticContextFreeGrammar)
           (string : list string) : Result (list (Tree * logprob)) :=
  chart <- _fill_chart g string true ;;
  top <- CKYChart.__getitem__ chart (0%Z, Z.of_nat (List.length string)) ;;
  Ok (map (fun e => (_build_tree e, logprob_of e))
          (filter (fun e => eqb (symbol e) (start_variable g)) top)).

Definition PCKY_recognize (g : ProbabilisticContextFreeGrammar)
           (string : list string) : Result logprob :=
  chart <- _fill_chart g string false ;;
  top <- CKYChart.__getitem__ chart (0%Z, Z.of_nat (List.length string)) ;;
  match map logprob_of
            (filter (fun e => eqb (symbol e) (start_variable g)) top) with
  | [] => Ok neg_inf
  | logprobs => Ok (logsumexp logprobs)
  end.

(** [CKYParser.__call__] of the probabilistic parser, which the
    notes define anew rather than inherit. *)
Definition CKYParser__call__ (g : ProbabilisticContextFreeGrammar)
           (string : list string) (mode : String.string)
  : Result (Answer logprob (list (Tree * logprob))) :=
  if eqb mode "recognize" then
    r <- PCKY_recognize g string ;; Ok (recognized r)
  else if eqb mode "parse" then
    p <- PCKY_parse g string ;; Ok (parsed p)
  else Raise (ValueError "mode must be 'parse' or 'recognize'").

(** [ProbabilisticContextFreeGrammar.__call__] *)
Definition PCFG__call__ (g : ProbabilisticContextFreeGrammar)
           (string : list string) (mode : String.string) :=
  CKYParser__call__ g string mode.

End WithLogProb.
End PCFG.

(** ** The Earley parser (operations.qmd) *)

Module Earley.

Definition SpanIndices : Type := nat * nat.

(** [class DottedRule(Rule)]: [to_tuple] is (rule, span, dot). *)
Record DottedRule : Type := mkDotted {
  rule : Rule;
  span : SpanIndices;
  dot : nat
}.

#[export] Instance DottedRule_Eq : Py.Eq DottedRule :=
  fun d d' => eqb (rule d) (rule d') && eqb (span d) (span d')
              && eqb (dot d) (dot d').

Definition DottedRule_complete (d : DottedRule) (new_left_edge : nat)
  : DottedRule :=
  mkDotted (rule d) (fst (span d), new_left_edge) (dot d + 1).

Definition DottedRule_is_complete (d : DottedRule) : bool :=
  Nat.eqb (dot d) (List.length (right_side (rule d))).

Definition DottedRule_next_symbol (d : DottedRule) : Result string :=
  if DottedRule_is_complete d
  then Raise (AttributeError "dotted rule is already complete")
  else Py.getitem (right_side (rule d)) (Z.of_nat (dot d)).

Definition EarleyBackPointer : Type := string * nat.

(** [class EarleyChartEntry]: [to_tuple] is (dotted rule,
    backpointers). *)
Record EarleyChartEntry : Type := mkEntry {
  dotted_rule : DottedRule;
  backpointers : list EarleyBackPointer
}.

#[export] Instance EarleyChartEntry_Eq : Py.Eq EarleyChartEntry :=
  fun e e' => eqb (dotted_rule e) (dotted_rule e')
              && eqb (backpointers e) (backpointers e').

Definition next_symbol (e : EarleyChartEntry) : Result string :=
  DottedRule_next_symbol (dotted_rule e).

Definition is_complete (e : EarleyChartEntry) : bool :=
  DottedRule_is_complete (dotted_rule e).

(** [EarleyChartEntry.complete]: the argument [entry] is not used by
    the method. *)
Definition complete (self entry : EarleyChartEntry) (new_left_edge : nat)
  : Result EarleyChartEntry :=
  let new_dotted_rule := DottedRule_complete (dotted_rule self) new_left_edge in
  sym <- DottedRule_next_symbol (dotted_rule self) ;;
  let bp := (sym, snd (span (dotted_rule self))) in
  Ok (mkEntry new_dotted_rule (backpointers self ++ [bp])).

Definition is_completion_of (self other : EarleyChartEntry) : Result bool :=
  sym <- DottedRule_next_symbol (dotted_rule other) ;;
  Ok (eqb (left_side (rule (dotted_rule self))) sym).

(** [class EarleyChart] *)
Record EarleyChart : Type := mkChart {
  _start_variable : string;
  _chart : list (list EarleyChartEntry)
}.

Definition EarleyChart__init__ (input_size : nat) (start_variable : string)
  : EarleyChart :=
  mkChart start_variable (map (fun _ => []) (Py.range 0 (input_size + 1))).

Definition __getitem__ (c : EarleyChart) (index : Z)
  : Result (list EarleyChartEntry) :=
  Py.getitem (_chart c) index.

Definition __setitem__ (c : EarleyChart) (key : Z)
           (item : list EarleyChartEntry) : Result EarleyChart :=
  rows <- Py.setitem (_chart c) key item ;;
  Ok (mkChart (_start_variable c) rows).

Definition input_size (c : EarleyChart) : nat := List.length (_chart c) - 1.

(** The set at a position and [chart[position].add(e)]. *)
Definition cell (c : EarleyChart) (position : nat) : list EarleyChartEntry :=
  nth position (_chart c) [].

Definition chart_add (c : EarleyChart) (position : nat)
           (e : EarleyChartEntry) : Result EarleyChart :=
  s <- __getitem__ c (Z.of_nat position) ;;
  Ok (mkChart (_start_variable c)
              (Py.update (_chart c) position (Py.add e s))).

Section Parses.
(** [EarleyChart._construct_parses] is one of the methods left to
    the reader; [parses] uses it as given. *)
Variable _construct_parses : EarleyChart -> EarleyChartEntry -> Tree.

Definition parses (c : EarleyChart) : Result (list Tree) :=
  last <- Py.getitem (_chart c) (-1)%Z ;;
  Ok (fold_left
        (fun _parses entry =>
           let is_start :=
             eqb (left_side (rule (dotted_rule entry))) (_start_variable c) in
           let covers_string :=
             eqb (span (dotted_rule entry)) (0, input_size c) in
           let is_complete := is_complete entry in
           if is_start && covers_string && is_complete
           then Py.add (_construct_parses c entry) _parses
           else _parses)
        last []).
End Parses.

(** *** [class EarleyParser] *)

Definition _predict (g : ContextFreeGrammar.t) (chart : EarleyChart)
           (entry : EarleyChartEntry) (position : nat) : Result EarleyChart :=
  sym <- next_symbol entry ;;
  Py.for_ (ContextFreeGrammar.rules g sym)
    (fun rule chart =>
       let span := (position, position) in
       let dotted_rule := mkDotted rule span 0 in
       let new_entry := mkEntry dotted_rule [] in
       chart_add chart position new_entry)
    chart.

Definition _scan (string : list string) (chart : EarleyChart)
           (entry : EarleyChartEntry) (position : nat) : Result EarleyChart :=
  word <- Py.getitem string (Z.of_nat position) ;;
  expected <- next_symbol entry ;;
  if eqb word expected then
    let rule := mkRule expected [word] in
    let span := (position, position + 1) in
    let dotted_rule := mkDotted rule span 1 in
    let terminal_entry := mkEntry dotted_rule [] in
    chart <- chart_add chart (position + 1) terminal_entry ;;
    completed_entry <- complete entry terminal_entry (position + 1) ;;
    chart_add chart (position + 1) completed_entry
  else Ok chart.

(** The loop of [_complete] iterates over the set [chart[start]]
    itself while its body adds to [chart[position]].  When both are
    the same set and an addition has made it grow, Python raises
    RuntimeError as soon as the iterator is advanced again (also when
    no element is left). *)
Fixpoint complete_loop (prevs : list EarleyChartEntry) (grown : bool)
         (entry : EarleyChartEntry) (start end_ position : nat)
         (chart : EarleyChart) : Result EarleyChart :=
  if grown then Raise (RuntimeError "Set changed size during iteration")
  else
    match prevs with
    | [] => Ok chart
    | prev_entry :: rest =>
        waits <- (if negb (is_complete prev_entry)
                  then is_completion_of entry prev_entry
                  else Ok false) ;;
        if (waits : bool) then
          completed_entry <- complete prev_entry entry end_ ;;
          chart' <- chart_add chart position completed_entry ;;
          let grown' :=
            Nat.eqb start position
            && negb (Nat.eqb (List.length (cell chart' position))
                             (List.length (cell chart position))) in
          complete_loop rest grown' entry start end_ position chart'
        else complete_loop rest false entry start end_ position chart
    end.

Definition _complete (chart : EarleyChart) (entry : EarleyChartEntry)
           (position : nat) : Result EarleyChart :=
  let '(start, end_) := span (dotted_rule entry) in
  prevs <- __getitem__ chart (Z.of_nat start) ;;
  complete_loop prevs false entry start end_ position chart.

(** *** [_fill_chart]

    [EarleyParser._fill_chart] is left as an assignment; the notes
    give it as pseudocode (operations.qmd, "Implementations to
    Complete") and the specification describes the same closure: the
    start rules are entered at position 0, then at each position
    predict, scan and complete are applied to the entries of that
    position until the position no longer changes. *)

(** Modelled from the spec: the body of the loop of [_fill_chart]
    over the entries of [chart[i]], which is not in the notes as
    code: predict for an incomplete entry whose next symbol is a
    non-terminal, scan when it is a terminal and input is left,
    complete for a complete entry. *)
Definition process (g : ContextFreeGrammar.t) (string : list string)
           (i : nat) (entry : EarleyChartEntry) (chart : EarleyChart)
  : Result EarleyChart :=
  if negb (is_complete entry) then
    sym <- next_symbol entry ;;
    if Py.mem sym (ContextFreeGrammar.variables g) then
      _predict g chart entry i
    else if Py.mem sym (ContextFreeGrammar.alphabet g)
            && Nat.ltb i (List.length string) then
      _scan string chart entry i
    else Ok chart
  else _complete chart entry i.

(** Modelled from the spec: one pass of [_fill_chart] over the
    entries that [chart[i]] holds when the pass begins. *)
Definition pass (g : ContextFreeGrammar.t) (string : list string)
           (i : nat) (chart : EarleyChart) : Result EarleyChart :=
  entries <- __getitem__ chart (Z.of_nat i) ;;
  Py.for_ entries (process g string i) chart.

(** Modelled from the spec: the loop of [_fill_chart] that repeats
    the pass until [chart[i]] does not change; entries are only ever
    added, so the set is unchanged exactly when its size is.  [None]
    stands for a loop that is still running when the fuel is spent. *)
Fixpoint closure (fuel : nat) (g : ContextFreeGrammar.t)
         (string : list string) (i : nat) (chart : EarleyChart)
  : option (Result EarleyChart) :=
  match fuel with
  | O => None
  | S fuel' =>
      match pass g string i chart with
      | Raise e => Some (Raise e)
      | Ok chart' =>
          if Nat.eqb (List.length (cell chart' i)) (List.length (cell chart i))
          then Some (Ok chart')
          else closure fuel' g string i chart'
      end
  end.

(** Modelled from the spec: the loop of [_fill_chart] over the
    positions [0 .. len(string)]. *)
Fixpoint positions (fuel : nat) (g : ContextFreeGrammar.t)
         (string : list string) (todo : list nat) (chart : EarleyChart)
  : option (Result EarleyChart) :=
  match todo with
  | [] => Some (Ok chart)
  | i :: todo' =>
      match closure fuel g string i chart with
      | None => None
      | Some (Raise e) => Some (Raise e)
      | Some (Ok chart') => positions fuel g string todo' chart'
      end
  end.

(** Modelled from the spec: the beginning of [_fill_chart], a new
    chart with the dotted start rules entered at position 0. *)
Definition initial_chart (g : ContextFreeGrammar.t) (string : list string)
  : Result EarleyChart :=
  let start := ContextFreeGrammar.start_variable g in
  Py.for_ (ContextFreeGrammar.rules g start)
    (fun rule chart => chart_add chart 0 (mkEntry (mkDotted rule (0, 0) 0) []))
    (EarleyChart__init__ (List.length string) start).

(** Modelled from the spec: [_fill_chart], with a bound on the
    number of passes of each closure loop. *)
Definition _fill_chart_fuel (fuel : nat) (g : ContextFreeGrammar.t)
           (string : list string) : option (Result EarleyChart) :=
  match initial_chart g string with
  | Raise e => Some (Raise e)
  | Ok chart =>
      positions fuel g string (Py.range 0 (List.length string + 1)) chart
  end.

(** Every entry that can appear in a chart for [string]: a rule of
    the grammar or the rule [a -> a] of a scanned token, a span
    within the input, a dot within the right side, and at most one
    backpointer (right-side symbol, position) per symbol passed. *)
Fixpoint lists_upto {X} (A : list X) (k : nat) : list (list X) :=
  match k with
  | O => [[]]
  | S k' => [] :: flat_map (fun x => map (cons x) (lists_upto A k')) A
  end.

Definition all_rules (g : ContextFreeGrammar.t) (string : list string)
  : list Rule :=
  ContextFreeGrammar._rules g ++ map (fun w => mkRule w [w]) string.

Definition universe (g : ContextFreeGrammar.t) (string : list string)
  : list EarleyChartEntry :=
  let ps := seq 0 (List.length string + 1) in
  flat_map (fun r =>
    flat_map (fun s =>
      flat_map (fun e =>
        flat_map (fun d =>
          map (fun bps => mkEntry (mkDotted r (s, e) d) bps)
              (lists_upto (list_prod (right_side r) ps)
                          (List.length (right_side r))))
          (seq 0 (List.length (right_side r) + 1)))
        ps)
      ps)
    (all_rules g string).

(** A number of passes within which every closure loop has stopped
    (lemma [closure_stops] below). *)
Definition enough_fuel (g : ContextFreeGrammar.t) (string : list string)
  : nat :=
  S (List.length (universe g string)).

(** Modelled from the spec: [EarleyParser._fill_chart].  The second
    branch is never taken (lemma [fill_chart_is_fuel]). *)
Definition _fill_chart (g : ContextFreeGrammar.t) (string : list string)
  : Result EarleyChart :=
  match _fill_chart_fuel (enough_fuel g string) g string with
  | Some r => r
  | None => Raise (RuntimeError "closure loop still running")
  end.

Section Parser.
Variable _construct_parses : EarleyChart -> EarleyChartEntry -> Tree.

Definition Earley_parse (g : ContextFreeGrammar.t) (string : list string)
  : Result (list Tree) :=
  chart <- _fill_chart g string ;;
  parses _construct_parses chart.

Definition Earley_recognize (g : ContextFreeGrammar.t)
           (string : list string) : Result bool :=
  chart <- _fill_chart g string ;;
  last <- __getitem__ chart (-1)%Z ;;
  Ok (existsb
        (fun entry =>
           let is_start :=
             eqb (left_side (rule (dotted_rule entry)))
                 (ContextFreeGrammar.start_variable g) in
           let covers_string :=
             eqb (span (dotted_rule entry)) (0, List.length string) in
           let is_complete := is_complete entry in
           is_start && covers_string && is_complete)
        last).

Definition EarleyParser
  : ContextFreeGrammarParser ContextFreeGrammar.t bool (list Tree) :=
  {| _recognize := Earley_recognize; _parse := Earley_parse |}.
End Parser.


End Earley.

(** ** Exact log-probabilities

    An instance of [LogProb] in which arithmetic is exact: a
    log-probability is represented by the probability [num / den] it
    is the logarithm of.  [float('-inf')] is the probability 0 and
    [0.0] the probability 1; adding log-probabilities multiplies the
    probabilities and [logsumexp] adds them. *)

Module Exact.

Record Prob : Type := mkProb { num : N; den : positive }.

Definition one : Prob := mkProb 1 1.
Definition zero : Prob := mkProb 0 1.

Definition mul (p q : Prob) : Prob :=
  mkProb (num p * num q) (den p * den q).

Definition plus (p q : Prob) : Prob :=
  mkProb (num p * Npos (den q) + num q * Npos (den p)) (den p * den q).

Definition sum (ps : list Prob) : Prob := fold_right plus zero ps.

Definition Prob_eqb (p q : Prob) : bool :=
  N.eqb (num p * Npos (den q)) (num q * Npos (den p)).

Definition positive_ (p : Prob) : bool := N.ltb 0 (num p).

(** [|s - 1| <= 1e-8 + 1e-5 * |1|] *)
Definition isclose_one (s : Prob) : bool :=
  let n := Z.of_N (num s) in
  let d := Zpos (den s) in
  (Z.abs (n - d) * 100000000 <=? 1001 * d)%Z.

#[export] Instance ExactLogProb : LogProb := {|
  logprob := Prob;
  lp_zero := one;
  neg_inf := zero;
  lp_add := mul;
  logsumexp := sum;
  lp_eqb := Prob_eqb;
  gt_neg_inf := positive_;
  sums_to_one := fun lps => isclose_one (sum lps)
|}.

End Exact.

(** ** Predicates used in the statements *)

(** A CKY table for an input of [n] tokens: [n + 1] rows of [n + 1]
    cells, as [CKYChart.__init__] builds it. *)
Definition CKY_shaped {E} (n : nat) (c : CKYChart.t E) : Prop :=
  List.length (CKYChart._chart c) = n + 1 /\
  Forall (fun row => List.length row = n + 1) (CKYChart._chart c).

(** An Earley chart for an input of [n] tokens: [n + 1] positions. *)
Definition Earley_shaped (n : nat) (c : Earley.EarleyChart) : Prop :=
  List.length (Earley._chart c) = n + 1.

(** [extends c c']: the chart [c'] holds every entry that [c] holds,
    at the same position, and has the same positions and start
    variable. *)
Definition Earley_extends (c c' : Earley.EarleyChart) : Prop :=
  Earley._start_variable c' = Earley._start_variable c /\
  List.length (Earley._chart c') = List.length (Earley._chart c) /\
  forall p e, In e (Earley.cell c p) -> In e (Earley.cell c' p).

(** The entry is a complete dotted rule for [start] spanning
    [[0, n)]. *)
Definition Earley_accepting (start : string) (n : nat)
           (entry : Earley.EarleyChartEntry) : Prop :=
  Earley.is_complete entry = true /\
  left_side (Earley.rule (Earley.dotted_rule entry)) = start /\
  Earley.span (Earley.dotted_rule entry) = (0, n).

(** What every entry of a chart for [string] satisfies: its rule is a
    rule of the grammar or the rule of a scanned token, its span lies
    within the input, there is at most one backpointer per symbol
    before the dot, and a backpointer names a right-side symbol and a
    position of the input. *)
Definition Earley_wf_entry (g : ContextFreeGrammar.t) (string : list string)
           (e : Earley.EarleyChartEntry) : Prop :=
  let d := Earley.dotted_rule e in
  let rhs := right_side (Earley.rule d) in
  let n := List.length string in
  In (Earley.rule d) (Earley.all_rules g string) /\
  fst (Earley.span d) <= n /\ snd (Earley.span d) <= n /\
  List.length (Earley.backpointers e) <= Earley.dot d /\
  Earley.dot d <= List.length rhs /\
  Forall (fun bp => In (fst bp) rhs /\ snd bp <= n) (Earley.backpointers e).

(** A chart as the filler keeps it: one set per position, each
    without duplicates and holding well-formed entries only. *)
Definition Earley_chart_ok (g : ContextFreeGrammar.t) (string : list string)
           (c : Earley.EarleyChart) : Prop :=
  Earley_shaped (List.length string) c /\
  forall p, NoDup (Earley.cell c p) /\
            Forall (Earley_wf_entry g string) (Earley.cell c p).

(** [CKY_extends c c']: every entry of a cell of [c] is in the same
    cell of [c']. *)
Definition CKY_extends {E} (c c' : CKYChart.t E) : Prop :=
  forall i j e, In e (CKYChart.cell c i j) -> In e (CKYChart.cell c' i j).

(** The symbols a cell of a probabilistic CKY chart holds. *)
Definition CKY_symbols {LP : LogProb} (c : PCFG.Chart) (i j : nat)
  : list string :=
  map PCFG.symbol (CKYChart.cell c i j).

(** What the proofs assume of log-probabilities: [-inf] is not above
    itself, a sum of log-probabilities above [-inf] is above [-inf]
    (no overflow), and so is the [logsumexp] of a non-empty list of
    them. *)
Class LogProbLaws (LP : LogProb) : Prop := {
  neg_inf_not_gt : gt_neg_inf neg_inf = false;
  lp_add_gt : forall a b,
      gt_neg_inf a = true -> gt_neg_inf b = true ->
      gt_neg_inf (lp_add a b) = true;
  logsumexp_gt : forall l,
      l <> [] -> Forall (fun a => gt_neg_inf a = true) l ->
      gt_neg_inf (logsumexp l) = true
}.

(** The symbols that one step of the recursive case derives for the
    span [(i, j)] split at [k], from the chart [c] it starts with. *)
Definition CKY_derived {LP : LogProb} (g : PCFG.ProbabilisticContextFreeGrammar)
           (c : PCFG.Chart) (i j k : nat) (x : string) : Prop :=
  exists l r lp,
    In l (CKYChart.cell c i k) /\ In r (CKYChart.cell c k j) /\
    In (x, lp) (PCFG.reduce g [PCFG.symbol l; PCFG.symbol r]).

(** What holds of the chart [c1] throughout such a step: only the cell
    [(i, j)] differs from [c], and it holds derived symbols only. *)
Definition CKY_step_inv {LP : LogProb} (g : PCFG.ProbabilisticContextFreeGrammar)
           (n i j k : nat) (c c1 : PCFG.Chart) : Prop :=
  CKY_shaped n c1 /\
  (forall i' j', (i', j') <> (i, j) ->
                 CKYChart.cell c1 i' j' = CKYChart.cell c i' j') /\
  (forall x, In x (CKY_symbols c1 i j) ->
             In x (CKY_symbols c i j) \/ CKY_derived g c i j k x).

Definition CKY_grows {LP : LogProb} (i j : nat) (c1 c2 : PCFG.Chart) : Prop :=
  forall x, In x (CKY_symbols c1 i j) -> In x (CKY_symbols c2 i j).

(** Two charts of the same shape whose cells hold the same symbols. *)
Definition CKY_same_symbols {LP : LogProb} (n : nat) (c1 c2 : PCFG.Chart)
  : Prop :=
  CKY_shaped n c1 /\ CKY_shaped n c2 /\
  forall i j x, In x (CKY_symbols c1 i j) <-> In x (CKY_symbols c2 i j).

(** Every entry of the chart has a log-probability above [-inf]. *)
Definition CKY_all_above {LP : LogProb} (c : PCFG.Chart) : Prop :=
  forall i j e, In e (CKYChart.cell c i j) ->
                gt_neg_inf (PCFG.logprob_of e) = true.


(** ** The grammars of the worked examples *)

Module Examples.

(** The grammar of "Detailed Example: Parsing unhappiness". *)
Definition unhappiness : ContextFreeGrammar.t :=
  ContextFreeGrammar.mk
    ["un"; "happy"; "ness"]
    ["Word"; "Adj"; "N"; "Prefix"; "Suffix"]
    [mkRule "Adj" ["happy"];
     mkRule "Prefix" ["un"];
     mkRule "Suffix" ["ness"];
     mkRule "Adj" ["Prefix"; "Adj"];
     mkRule "N" ["Adj"; "Suffix"];
     mkRule "Word" ["N"]]
    "Word".


(** A left-recursive grammar and two grammars with an empty rule. *)
Definition left_recursive : ContextFreeGrammar.t :=
  ContextFreeGrammar.mk ["a"] ["S"]
    [mkRule "S" ["S"; "a"]; mkRule "S" ["a"]] "S".


Definition nullable : ContextFreeGrammar.t :=
  ContextFreeGrammar.mk ["a"] ["S"; "A"]
    [mkRule "S" ["A"]; mkRule "A" []] "S".

(** Probabilistic grammars over exact log-probabilities. *)
Definition prule (l : string) (r : list string) (n : N) (d : positive)
  : @PCFG.ProbabilisticRule Exact.ExactLogProb :=
  @PCFG.mkPRule Exact.ExactLogProb (mkRule l r) (Exact.mkProb n d).

Definition pentry (symbol : string) (n : N) (d : positive)
           (backpointers : list (@PCFG.CKYChartEntry Exact.ExactLogProb))
  : @PCFG.CKYChartEntry Exact.ExactLogProb :=
  @PCFG.entry Exact.ExactLogProb symbol (Exact.mkProb n d) backpointers.

(** [S -> A B] and [S -> A C] both derive "a b". *)
Definition two_derivations
  : @PCFG.ProbabilisticContextFreeGrammar Exact.ExactLogProb :=
  @PCFG.mkPCFG Exact.ExactLogProb
    ["a"; "b"] ["S"; "A"; "B"; "C"]
    [prule "S" ["A"; "B"] 1 2; prule "S" ["A"; "C"] 1 2;
     prule "A" ["a"] 1 1; prule "B" ["b"] 1 1; prule "C" ["b"] 1 1]
    "S".

(** The chart for "a b" after the base case, after [S -> A B] has
    been applied in aggregate mode, and after [S -> A C] has. *)
Definition entry_A := pentry "A" 1 1 [pentry "a" 1 1 []].
Definition entry_B := pentry "B" 1 1 [pentry "b" 1 1 []].
Definition entry_C := pentry "C" 1 1 [pentry "b" 1 1 []].

Definition ab_chart (top : list (@PCFG.CKYChartEntry Exact.ExactLogProb))
  : @PCFG.Chart Exact.ExactLogProb :=
  CKYChart.mk 2 [[[]; [entry_A]; top];
                 [[]; []; [entry_B; entry_C]];
                 [[]; []; []]].

Definition ab_base := ab_chart [].
Definition ab_first := ab_chart [pentry "S" 1 2 []].
Definition ab_second := ab_chart [pentry "S" 4 4 []].

(** The "unhappiness" grammar with probabilities: the two rules for
    [Adj] share its mass. *)
Definition unhappiness_pcfg
  : @PCFG.ProbabilisticContextFreeGrammar Exact.ExactLogProb :=
  @PCFG.mkPCFG Exact.ExactLogProb
    ["un"; "happy"; "ness"]
    ["Word"; "Adj"; "N"; "Prefix"; "Suffix"]
    [prule "Adj" ["happy"] 1 2;
     prule "Prefix" ["un"] 1 1;
     prule "Suffix" ["ness"] 1 1;
     prule "Adj" ["Prefix"; "Adj"] 1 2;
     prule "N" ["Adj"; "Suffix"] 1 1;
     prule "Word" ["N"] 1 1]
    "Word".

(** [S -> a] has probability 0 (log-probability [-inf]) and [S -> b]
    probability 1. *)
Definition zero_probability_rule
  : @PCFG.ProbabilisticContextFreeGrammar Exact.ExactLogProb :=
  @PCFG.mkPCFG Exact.ExactLogProb
    ["a"; "b"] ["S"]
    [prule "S" ["a"] 0 1; prule "S" ["b"] 1 1]
    "S".

End Examples.



(** ** What the charts record

    The statements about the fillers are phrased against derivations
    over the tokens of the input.  [slice l i j] is the Python slice
    [l[i:j]] for [0 <= i <= j]. *)

Definition slice {A} (l : list A) (i j : nat) : list A :=
  firstn (j - i) (skipn i l).

(** The derivations that the probabilistic CKY filler follows: its
    base case applies a rule whose right side is the token itself, its
    recursive case a rule with two symbols on its right side to two
    adjacent spans.  Rules of any other shape play no part. *)
Inductive CKY_derives {LP : LogProb}
          (g : PCFG.ProbabilisticContextFreeGrammar)
  : string -> list string -> Prop :=
| CKY_derives_token (r : PCFG.ProbabilisticRule) (w : string) :
    In r (PCFG.rules g) -> right_side (PCFG.rule r) = [w] ->
    CKY_derives g (left_side (PCFG.rule r)) [w]
| CKY_derives_pair (r : PCFG.ProbabilisticRule) (B C : string)
                   (u v : list string) :
    In r (PCFG.rules g) -> right_side (PCFG.rule r) = [B; C] ->
    CKY_derives g B u -> CKY_derives g C v ->
    CKY_derives g (left_side (PCFG.rule r)) (u ++ v).

(** The same derivations as trees, with the log-probability that the
    filler computes for them: that of the rule for a token, and
    [rule + left + right], added in this order, for a pair. *)
Inductive CKY_tree {LP : LogProb}
          (g : PCFG.ProbabilisticContextFreeGrammar)
  : Tree -> string -> list string -> logprob -> Prop :=
| CKY_tree_token (r : PCFG.ProbabilisticRule) (w : string) :
    In r (PCFG.rules g) -> right_side (PCFG.rule r) = [w] ->
    CKY_tree g (Node (left_side (PCFG.rule r)) [Node w []])
             (left_side (PCFG.rule r)) [w] (PCFG.rule_logprob r)
| CKY_tree_pair (r : PCFG.ProbabilisticRule) (B C : string)
                (u v : list string) (tl tr : Tree) (lpl lpr : logprob) :
    In r (PCFG.rules g) -> right_side (PCFG.rule r) = [B; C] ->
    CKY_tree g tl B u lpl -> CKY_tree g tr C v lpr ->
    CKY_tree g (Node (left_side (PCFG.rule r)) [tl; tr])
             (left_side (PCFG.rule r)) (u ++ v)
             (lp_add (lp_add (PCFG.rule_logprob r) lpl) lpr).

(** Every entry of the chart stands for a derivation tree of the span
    of its cell, and carries the log-probability of that tree. *)
Definition CKY_entries_sound {LP : LogProb}
           (g : PCFG.ProbabilisticContextFreeGrammar) (s : list string)
           (c : PCFG.Chart) : Prop :=
  forall i j e, In e (CKYChart.cell c i j) ->
    i < j <= List.length s /\
    CKY_tree g (PCFG._build_tree e) (PCFG.symbol e) (slice s i j)
             (PCFG.logprob_of e).

(** The cell [(i, j)] holds an entry for every derivation tree of the
    span. *)
Definition CKY_covers {LP : LogProb}
           (g : PCFG.ProbabilisticContextFreeGrammar) (s : list string)
           (c : PCFG.Chart) (i j : nat) : Prop :=
  forall t A lp, CKY_tree g t A (slice s i j) lp ->
    exists e, In e (CKYChart.cell c i j) /\ PCFG._build_tree e = t.

(** Every cell for a span shorter than [L] holds an entry for every
    derivation tree of its span. *)
Definition CKY_covers_below {LP : LogProb}
           (g : PCFG.ProbabilisticContextFreeGrammar) (s : list string)
           (L : nat) (c : PCFG.Chart) : Prop :=
  forall i j, i < j -> j <= List.length s -> j - i < L -> CKY_covers g s c i j.

(** The cell [(i, j)] holds an entry for every derivation tree of the
    span whose two subtrees meet at [k]. *)
Definition CKY_split_covers {LP : LogProb}
           (g : PCFG.ProbabilisticContextFreeGrammar) (s : list string)
           (c : PCFG.Chart) (i j k : nat) : Prop :=
  forall r B C tl tr lpl lpr,
    In r (PCFG.rules g) -> right_side (PCFG.rule r) = [B; C] ->
    CKY_tree g tl B (slice s i k) lpl -> CKY_tree g tr C (slice s k j) lpr ->
    exists e, In e (CKYChart.cell c i j) /\
              PCFG._build_tree e = Node (left_side (PCFG.rule r)) [tl; tr].

(** A chart filled with [keep_backtraces=False]: a cell for a span of
    two tokens or more holds one entry for each of its symbols, and
    these entries have no backpointers. *)
Definition CKY_aggregated {LP : LogProb} (c : PCFG.Chart) : Prop :=
  forall i j, i + 2 <= j ->
    NoDup (CKY_symbols c i j) /\
    Forall (fun e => PCFG.backpointers e = []) (CKYChart.cell c i j).

(** The position that the index [i] denotes in a Python list of
    length [len]: a negative index counts from the end. *)
Definition list_position (len : nat) (i : Z) : nat :=
  Z.to_nat (if (i <? 0)%Z then Z.of_nat len + i else i).

(** ** Exact probabilities as rational numbers

    Statements about the values that the probabilistic parser computes
    over [Exact.Prob] are phrased through the rational number a
    probability stands for. *)

From Stdlib Require QArith.

Module ExactQ.
Import Exact.

(** The rational number that the probability [num / den] stands
    for. *)
Definition toQ (p : Prob) : QArith_base.Q :=
  QArith_base.Qmake (Z.of_N (num p)) (den p).

(** The sum of a rational-valued function over a list. *)
Fixpoint total {A} (f : A -> QArith_base.Q) (l : list A) : QArith_base.Q :=
  match l with
  | [] => QArith_base.Qmake 0 1
  | x :: l' => QArith_base.Qplus (f x) (total f l')
  end.

End ExactQ.

(** ** The probability mass of a cell

    Over exact probabilities: the total probability of the entries of
    a cell for a symbol, and the sums that the recursive case of the
    filler runs over. *)

Module Inside.
Import ExactQ.

Abbreviation Entry := (@PCFG.CKYChartEntry Exact.ExactLogProb).
Abbreviation Grammar :=
  (@PCFG.ProbabilisticContextFreeGrammar Exact.ExactLogProb).
Abbreviation Chart := (@PCFG.Chart Exact.ExactLogProb).

Definition weight (e : Entry) : QArith_base.Q := toQ (PCFG.logprob_of e).

(** The total probability of the entries of [cell] for the symbol
    [X]. *)
Definition mass (cell : list Entry) (X : string) : QArith_base.Q :=
  total weight (filter (fun e => Py.eqb (PCFG.symbol e) X) cell).

(** The probability [rule * left * right] of each rule [X -> B C] for
    the symbols [B] and [C] of the two entries. *)
Definition contribution (g : Grammar) (X : string) (l r : Entry)
  : QArith_base.Q :=
  total (fun yp : string * Exact.Prob =>
           if Py.eqb (fst yp) X
           then toQ (Exact.mul (Exact.mul (snd yp) (PCFG.logprob_of l))
                               (PCFG.logprob_of r))
           else QArith_base.Qmake 0 1)
        (PCFG.reduce g [PCFG.symbol l; PCFG.symbol r]).

(** The same summed over the pairs of entries of the cells [(i, k)]
    and [(k, j)], and over the split points [k] of a span. *)
Definition split_mass (g : Grammar) (c : Chart) (i j k : nat) (X : string)
  : QArith_base.Q :=
  total (fun l => total (fun r => contribution g X l r) (CKYChart.cell c k j))
        (CKYChart.cell c i k).

Definition span_mass (g : Grammar) (c : Chart) (i j : nat) (X : string)
  : QArith_base.Q :=
  total (fun k => split_mass g c i j k X) (Py.range (i + 1) j).

(** The cells for spans of two tokens or more obey the recurrence of
    the inside algorithm. *)
Definition recurrence (g : Grammar) (n : nat) (c : Chart) : Prop :=
  forall i j X, i + 2 <= j -> j <= n ->
    QArith_base.Qeq (mass (CKYChart.cell c i j) X) (span_mass g c i j X).

(** While the filler works on the cell [(i, j)], from the chart [c0]:
    the chart has its shape, holds aggregated entries, and differs
    from [c0] in that cell only. *)
Definition framed (n i j : nat) (c0 c : Chart) : Prop :=
  CKY_shaped n c /\ CKY_aggregated c /\
  forall i' j', (i', j') <> (i, j) ->
                CKYChart.cell c i' j' = CKYChart.cell c0 i' j'.

(** What holds of the chart when the filler has done the spans
    shorter than [L] and the spans of length [L] that begin before
    [m], from the chart [c0] of the base case: the cells done obey the
    recurrence, the cells to come are empty, and the cells of the
    single tokens are those of [c0]. *)
Definition filled (g : Grammar) (n : nat) (c0 : Chart) (L m : nat)
           (c : Chart) : Prop :=
  CKY_shaped n c /\ CKY_aggregated c /\
  (forall i j X, i + 2 <= j -> j <= n -> j - i < L \/ (j - i = L /\ i < m) ->
                 QArith_base.Qeq (mass (CKYChart.cell c i j) X)
                                 (span_mass g c i j X)) /\
  (forall i j, 2 <= j - i -> L < j - i \/ (j - i = L /\ m <= i) ->
               CKYChart.cell c i j = []) /\
  (forall i j, j - i < 2 -> CKYChart.cell c i j = CKYChart.cell c0 i j).

(** The total probability of the rules [X -> B C]. *)
Definition rule_mass (g : Grammar) (X B C : string) : QArith_base.Q :=
  total (fun yp : string * Exact.Prob =>
           if Py.eqb (fst yp) X then toQ (snd yp)
           else QArith_base.Qmake 0 1)
        (PCFG.reduce g [B; C]).

(** What the recursive case of the filler combines for the symbol [X]
    and the span [(i, j)]: two entries of adjacent cells and the
    probability of a rule from [X] to their symbols. *)
Definition candidates (g : Grammar) (c : Chart) (i j : nat) (X : string)
  : list (Entry * Entry * Exact.Prob) :=
  flat_map
    (fun k =>
       flat_map
         (fun l =>
            flat_map
              (fun r =>
                 map (fun yp : string * Exact.Prob => (l, r, snd yp))
                     (filter (fun yp => Py.eqb (fst yp) X)
                             (PCFG.reduce g [PCFG.symbol l; PCFG.symbol r])))
              (CKYChart.cell c k j))
         (CKYChart.cell c i k))
    (Py.range (i + 1) j).

(** The tree and the probability of the entry that
    [keep_backtraces=True] adds for a candidate. *)
Definition candidate_tree (X : string) (x : Entry * Entry * Exact.Prob)
  : Tree :=
  Node X [PCFG._build_tree (fst (fst x)); PCFG._build_tree (snd (fst x))].

Definition candidate_weight (x : Entry * Entry * Exact.Prob)
  : QArith_base.Q :=
  toQ (Exact.mul (Exact.mul (snd x) (PCFG.logprob_of (fst (fst x))))
                 (PCFG.logprob_of (snd (fst x)))).

End Inside.


(** ** The language of a grammar

    A terminal derives itself; a symbol derives what the right side of
    one of its rules derives, symbol by symbol ("Overview of
    Context-Free Grammars", operations.qmd). *)
Inductive CFG_derives (g : ContextFreeGrammar.t)
  : string -> list string -> Prop :=
| CFG_derives_terminal (a : string) :
    In a (ContextFreeGrammar.alphabet g) -> CFG_derives g a [a]
| CFG_derives_rule (r : Rule) (w : list string) :
    In r (ContextFreeGrammar._rules g) ->
    CFG_derives_seq g (right_side r) w ->
    CFG_derives g (left_side r) w
with CFG_derives_seq (g : ContextFreeGrammar.t)
  : list string -> list string -> Prop :=
| CFG_derives_nil : CFG_derives_seq g [] []
| CFG_derives_cons (x : string) (xs : list string) (u v : list string) :
    CFG_derives g x u -> CFG_derives_seq g xs v ->
    CFG_derives_seq g (x :: xs) (u ++ v).

Scheme CFG_derives_mut := Minimality for CFG_derives Sort Prop
  with CFG_derives_seq_mut := Minimality for CFG_derives_seq Sort Prop.
Combined Scheme CFG_derives_mutind from CFG_derives_mut, CFG_derives_seq_mut.

(** What an entry at position [p] of an Earley chart asserts: its rule
    is a rule of the grammar (or the rule of a scanned terminal), its
    span ends at [p], and the symbols before the dot derive the tokens
    of the span. *)
Definition Earley_sound_entry (g : ContextFreeGrammar.t) (s : list string)
           (p : nat) (e : Earley.EarleyChartEntry) : Prop :=
  let d := Earley.dotted_rule e in
  (In (Earley.rule d) (ContextFreeGrammar._rules g) \/
   exists w, In w (ContextFreeGrammar.alphabet g) /\
             Earley.rule d = mkRule w [w]) /\
  fst (Earley.span d) <= p /\ snd (Earley.span d) = p /\
  p <= List.length s /\
  CFG_derives_seq g (firstn (Earley.dot d) (right_side (Earley.rule d)))
                  (slice s (fst (Earley.span d)) p).

Definition Earley_sound (g : ContextFreeGrammar.t) (s : list string)
           (c : Earley.EarleyChart) : Prop :=
  forall p e, In e (Earley.cell c p) -> Earley_sound_entry g s p e.

(** A grammar as the formal definition has it: the start variable is a
    variable, the left side of every rule is a variable and every
    symbol of a right side is a variable or a terminal.  (The
    constructor checks the first of these; [_validate_rules] checks
    nothing.) *)
Definition CFG_wellformed (g : ContextFreeGrammar.t) : Prop :=
  In (ContextFreeGrammar.start_variable g) (ContextFreeGrammar.variables g) /\
  (forall r, In r (ContextFreeGrammar._rules g) ->
             In (left_side r) (ContextFreeGrammar.variables g)) /\
  (forall r x, In r (ContextFreeGrammar._rules g) -> In x (right_side r) ->
               In x (ContextFreeGrammar.variables g) \/
               In x (ContextFreeGrammar.alphabet g)).

(** ** Charts on which the Earley operations have nothing left to do *)

(** The chart holds, at position [q], the entry [e] with its dot moved
    over one symbol and its span extended to [q] (with whatever
    backpointers). *)
Definition Earley_advanced (c : Earley.EarleyChart)
           (e : Earley.EarleyChartEntry) (q : nat) : Prop :=
  exists ce, In ce (Earley.cell c q) /\
             Earley.dotted_rule ce
             = Earley.DottedRule_complete (Earley.dotted_rule e) q.

(** What predict, scan and complete are to add for the entry [e] of
    position [p] is in the chart [c]: the dotted rules of the
    non-terminal after the dot, the entry advanced over the token at
    [p], and, when [e] is complete, the advanced entries of those that
    wait for its left side where its span begins. *)
Definition Earley_saturated_at (g : ContextFreeGrammar.t) (s : list string)
           (c : Earley.EarleyChart) (p : nat) (e : Earley.EarleyChartEntry)
  : Prop :=
  (forall sym r,
      Earley.next_symbol e = Ok sym ->
      In sym (ContextFreeGrammar.variables g) ->
      In r (ContextFreeGrammar.rules g sym) ->
      In (Earley.mkEntry (Earley.mkDotted r (p, p) 0) []) (Earley.cell c p)) /\
  (forall sym,
      Earley.next_symbol e = Ok sym ->
      In sym (ContextFreeGrammar.alphabet g) ->
      nth_error s p = Some sym ->
      Earley_advanced c e (p + 1)) /\
  (Earley.is_complete e = true ->
   forall prev,
     In prev (Earley.cell c (fst (Earley.span (Earley.dotted_rule e)))) ->
     Earley.next_symbol prev
     = Ok (left_side (Earley.rule (Earley.dotted_rule e))) ->
     Earley_advanced c prev p).

Definition Earley_saturated (g : ContextFreeGrammar.t) (s : list string)
           (c : Earley.EarleyChart) : Prop :=
  forall p e, In e (Earley.cell c p) -> Earley_saturated_at g s c p e.

(** A chart that the three operations leave as it is, applied as the
    filler applies them: predict to an entry whose next symbol is a
    variable, scan to one whose next symbol is a terminal while input
    is left, complete to a complete entry. *)
Definition Earley_closed (g : ContextFreeGrammar.t) (s : list string)
           (c : Earley.EarleyChart) : Prop :=
  forall p e, In e (Earley.cell c p) ->
    (forall sym, Earley.next_symbol e = Ok sym ->
                 In sym (ContextFreeGrammar.variables g) ->
                 Earley._predict g c e p = Ok c) /\
    (forall sym, Earley.next_symbol e = Ok sym ->
                 In sym (ContextFreeGrammar.alphabet g) ->
                 p < List.length s ->
                 Earley._scan s c e p = Ok c) /\
    (Earley.is_complete e = true -> Earley._complete c e p = Ok c).

(** Every entry is stored at the position where its span ends. *)
Definition Earley_positioned (c : Earley.EarleyChart) : Prop :=
  forall p e, In e (Earley.cell c p) ->
              snd (Earley.span (Earley.dotted_rule e)) = p.

(** The chart holds the dotted start rules at position 0. *)
Definition Earley_started (g : ContextFreeGrammar.t)
           (c : Earley.EarleyChart) : Prop :=
  forall r,
    In r (ContextFreeGrammar.rules g (ContextFreeGrammar.start_variable g)) ->
    In (Earley.mkEntry (Earley.mkDotted r (0, 0) 0) []) (Earley.cell c 0).

(** A grammar without empty rules. *)
Definition CFG_no_empty_rule (g : ContextFreeGrammar.t) : Prop :=
  forall r, In r (ContextFreeGrammar._rules g) -> right_side r <> [].

(** What the constructor of a grammar checks. *)
Definition CFG_valid (g : ContextFreeGrammar.t) : Prop :=
  (forall x, In x (ContextFreeGrammar.alphabet g) ->
             ~ In x (ContextFreeGrammar.variables g)) /\
  In (ContextFreeGrammar.start_variable g) (ContextFreeGrammar.variables g).

(** [Earley_stable i c c']: the chart [c'] extends [c] and has the
    same entries as [c] at the positions before [i]. *)
Definition Earley_stable (i : nat) (c c' : Earley.EarleyChart) : Prop :=
  Earley_extends c c' /\
  forall q, q < i -> Earley.cell c' q = Earley.cell c q.

(** What the filler keeps of its chart: the shape, sets of well-formed
    entries without duplicates, and entries that assert derivable
    facts only. *)
Definition Earley_filler_inv (g : ContextFreeGrammar.t) (s : list string)
           (c : Earley.EarleyChart) : Prop :=
  Earley_chart_ok g s c /\ Earley_sound g s c.

(** The entries that the operations build: the dotted rule that
    [_predict] enters for a rule, the entry that [_scan] enters for
    the token, and an entry with its dot moved over [sym] and its span
    extended to [q], as [EarleyChartEntry.complete] returns it. *)
Definition Earley_predicted (r : Rule) (p : nat) : Earley.EarleyChartEntry :=
  Earley.mkEntry (Earley.mkDotted r (p, p) 0) [].

Definition Earley_token (w : string) (p : nat) : Earley.EarleyChartEntry :=
  Earley.mkEntry (Earley.mkDotted (mkRule w [w]) (p, p + 1) 1) [].

Definition Earley_moved (e : Earley.EarleyChartEntry) (sym : string)
           (q : nat) : Earley.EarleyChartEntry :=
  Earley.mkEntry
    (Earley.DottedRule_complete (Earley.dotted_rule e) q)
    (Earley.backpointers e
     ++ [(sym, snd (Earley.span (Earley.dotted_rule e)))]).

(** The chart object after a call of [_complete].  Every
    [chart[position].add] that has run has changed the set, also when
    the call then raises: the iterator finds that the set has grown
    only when it is advanced again.  [Earley.complete_loop] gives what
    the call returns or raises; this is the same loop, followed for
    the chart that it leaves. *)
Fixpoint Earley_complete_loop_leaves
         (prevs : list Earley.EarleyChartEntry) (grown : bool)
         (entry : Earley.EarleyChartEntry) (start end_ position : nat)
         (chart : Earley.EarleyChart) : Earley.EarleyChart :=
  if grown then chart
  else
    match prevs with
    | [] => chart
    | prev_entry :: rest =>
        match (if negb (Earley.is_complete prev_entry)
               then Earley.is_completion_of entry prev_entry
               else Ok false) with
        | Raise _ => chart
        | Ok false =>
            Earley_complete_loop_leaves rest false entry start end_ position
                                        chart
        | Ok true =>
            match Earley.complete prev_entry entry end_ with
            | Raise _ => chart
            | Ok completed_entry =>
                match Earley.chart_add chart position completed_entry with
                | Raise _ => chart
                | Ok chart' =>
                    let grown' :=
                      Nat.eqb start position
                      && negb (Nat.eqb
                                 (List.length (Earley.cell chart' position))
                                 (List.length (Earley.cell chart position))) in
                    Earley_complete_loop_leaves rest grown' entry start end_
                                                position chart'
                end
            end
        end
    end.

Definition Earley_complete_leaves (chart : Earley.EarleyChart)
           (entry : Earley.EarleyChartEntry) (position : nat)
  : Earley.EarleyChart :=
  let '(start, end_) := Earley.span (Earley.dotted_rule entry) in
  match Earley.__getitem__ chart (Z.of_nat start) with
  | Raise _ => chart
  | Ok prevs =>
      Earley_complete_loop_leaves prevs false entry start end_ position chart
  end.


(** ** Operations on grammars (operations.qmd)

    The methods that "Implementing the Operations in the
    ContextFreeGrammar Class" adds to [ContextFreeGrammar], and the
    accessors [parts_of_speech] and [phrase_variables] of the class
    itself.  [parts_of_speech] is given without its [lru_cache]: it is
    a function of the rule set as it is when it is called.
    [phrase_variables] is given with the attribute in which it keeps
    its result. *)

Module Grammars.
Import ContextFreeGrammar.

(** [a | b] on sets *)
Definition set_union {A} `{Py.Eq A} (a b : list A) : list A :=
  fold_left (fun s x => Py.add x s) b a.

(** [while <new_start in use>: new_start += "_"], with a bound on the
    number of times the condition is evaluated; [None] stands for a
    loop that is still running when the bound is reached. *)
Fixpoint fresh_loop (fuel : nat) (in_use : string -> bool)
         (new_start : string) : option string :=
  match fuel with
  | O => None
  | S fuel' =>
      if in_use new_start
      then fresh_loop fuel' in_use (String.append new_start "_")
      else Some new_start
  end.

(** The names that the loop tries in turn: [new_start] followed by
    [k] underscores. *)
Fixpoint candidate (new_start : string) (k : nat) : string :=
  match k with
  | O => new_start
  | S k' => String.append (candidate new_start k') "_"
  end.

(** The loop over the variables [vs], a finite set: it has stopped
    after [len(vs) + 1] evaluations of its condition (lemma
    [fresh_loop_stops]), so the second branch is never taken. *)
Definition fresh_start (vs : list string) (new_start : string)
  : Result string :=
  match fresh_loop (S (List.length vs)) (fun x => Py.mem x vs) new_start with
  | Some x => Ok x
  | None => Raise (RuntimeError "loop still running")
  end.

(** [union]: the loop tests [new_start in self.variables or new_start
    in other.variables], that is membership of either list. *)
Definition union (self other : t) : Result t :=
  new_start <- fresh_start (variables self ++ variables other) "S_union" ;;
  let variables :=
    set_union (set_union (variables self) (variables other)) [new_start] in
  let alphabet := set_union (alphabet self) (alphabet other) in
  let rules := set_union (_rules self) (_rules other) in
  let rules :=
    set_union rules
              (Py.of_list [mkRule new_start [start_variable self];
                           mkRule new_start [start_variable other]]) in
  __init__ alphabet variables rules new_start.

Definition concatenate (self other : t) : Result t :=
  new_start <- fresh_start (variables self ++ variables other) "S_concat" ;;
  let variables :=
    set_union (set_union (variables self) (variables other)) [new_start] in
  let alphabet := set_union (alphabet self) (alphabet other) in
  let rules := set_union (_rules self) (_rules other) in
  let rules :=
    Py.add (mkRule new_start [start_variable self; start_variable other])
           rules in
  __init__ alphabet variables rules new_start.

Definition __or__ (self other : t) : Result t := union self other.
Definition __add__ (self other : t) : Result t := concatenate self other.

(** [kleene_star]: [rules = self.rules()] is the rule set of the
    receiver itself, not a copy, and the two [rules.add] change it in
    place before the new grammar is constructed.  The function returns
    the receiver as the call leaves it, and the result of the call. *)
Definition kleene_star (self : t) : t * Result t :=
  match fresh_start (variables self) "S_star" with
  | Raise e => (self, Raise e)
  | Ok new_start =>
      let variables := set_union (variables self) [new_start] in
      let alphabet := alphabet self in
      let rules := _rules self in
      let rules :=
        Py.add (mkRule new_start [new_start; start_variable self]) rules in
      let rules := Py.add (mkRule new_start []) rules in
      (mk (ContextFreeGrammar.alphabet self) (ContextFreeGrammar.variables self)
          rules (start_variable self),
       __init__ alphabet variables rules new_start)
  end.

(** [rule.right_side[0]], evaluated by the accessors only for a rule
    that [is_unary]. *)
Definition first_symbol (r : Rule) : string := hd "" (right_side r).

(** [parts_of_speech(word)]: [None] for a call without a word. *)
Definition parts_of_speech (g : t) (word : option string) : list string :=
  match word with
  | None =>
      Py.of_list
        (map left_side
             (filter (fun rule => is_unary rule
                                  && Py.mem (first_symbol rule) (alphabet g))
                     (_rules g)))
  | Some word =>
      Py.of_list
        (map left_side
             (filter (fun rule => is_unary rule
                                  && eqb (first_symbol rule) word)
                     (_rules g)))
  end.

(** [phrase_variables]: [try: return self._phrase_variables], and on
    AttributeError the set is computed, kept in the attribute and
    returned.  [kept] is the attribute, [None] while the object has
    none; the function gives the attribute after the read, and the set
    returned. *)
Definition phrase_variables (g : t) (kept : option (list string))
  : option (list string) * list string :=
  match kept with
  | Some _phrase_variables => (kept, _phrase_variables)
  | None =>
      let _phrase_variables :=
        Py.of_list
          (map left_side
               (filter (fun rule =>
                          negb (is_unary rule)
                          || negb (Py.mem (first_symbol rule) (alphabet g)))
                       (_rules g))) in
      (Some _phrase_variables, _phrase_variables)
  end.

End Grammars.


(** ** Further example grammars *)

Module OperationExamples.

(** The two grammars of "Example: Morphological Operations"
    (operations.qmd). *)
Definition adj_grammar : ContextFreeGrammar.t :=
  ContextFreeGrammar.mk
    ["happy"; "kind"; "un"; "ly"]
    ["Word"; "Adj"; "Adv"; "Prefix"]
    [mkRule "Adj" ["happy"];
     mkRule "Adj" ["kind"];
     mkRule "Word" ["Adj"];
     mkRule "Word" ["Adv"];
     mkRule "Adj" ["Prefix"; "Adj"];
     mkRule "Adv" ["Adj"; "ly"];
     mkRule "Prefix" ["un"]]
    "Word".

Definition noun_grammar : ContextFreeGrammar.t :=
  ContextFreeGrammar.mk
    ["happy"; "kind"; "ness"; "ity"]
    ["Word"; "Adj"; "N"; "Suffix"]
    [mkRule "Adj" ["happy"];
     mkRule "Adj" ["kind"];
     mkRule "Word" ["N"];
     mkRule "N" ["Adj"; "Suffix"];
     mkRule "Suffix" ["ness"];
     mkRule "Suffix" ["ity"]]
    "Word".

(** Two grammars without a variable in common. *)
Definition only_a : ContextFreeGrammar.t :=
  ContextFreeGrammar.mk ["a"] ["A"] [mkRule "A" ["a"]] "A".

Definition only_b : ContextFreeGrammar.t :=
  ContextFreeGrammar.mk ["b"] ["B"] [mkRule "B" ["b"]] "B".

(** A grammar one of whose terminals is a variable of [only_a]. *)
Definition clashing : ContextFreeGrammar.t :=
  ContextFreeGrammar.mk ["A"] ["C"] [mkRule "C" ["A"]] "C".

(** A grammar that already has a variable [S_union]. *)
Definition taken : ContextFreeGrammar.t :=
  ContextFreeGrammar.mk ["a"] ["S_union"] [mkRule "S_union" ["a"]] "S_union".

(** The union of [only_a] and [only_b]. *)
Definition union_ab : ContextFreeGrammar.t :=
  ContextFreeGrammar.mk ["a"; "b"] ["A"; "B"; "S_union"]
    [mkRule "A" ["a"]; mkRule "B" ["b"];
     mkRule "S_union" ["A"]; mkRule "S_union" ["B"]]
    "S_union".

(** The concatenation of [only_a] and [only_b], and the Kleene closure
    of [only_a]. *)
Definition concat_ab : ContextFreeGrammar.t :=
  ContextFreeGrammar.mk ["a"; "b"] ["A"; "B"; "S_concat"]
    [mkRule "A" ["a"]; mkRule "B" ["b"]; mkRule "S_concat" ["A"; "B"]]
    "S_concat".

Definition star_a : ContextFreeGrammar.t :=
  ContextFreeGrammar.mk ["a"] ["A"; "S_star"]
    [mkRule "A" ["a"]; mkRule "S_star" ["S_star"; "A"]; mkRule "S_star" []]
    "S_star".

(** The Earley chart of [only_a] for the input "a", and a chart of
    [Examples.nullable] for the empty input in which the empty rule of
    "A" has been predicted. *)
Definition only_a_chart : Earley.EarleyChart :=
  Earley.mkChart "A"
    [[Earley_predicted (mkRule "A" ["a"]) 0];
     [Earley_token "a" 0;
      Earley_moved (Earley_predicted (mkRule "A" ["a"]) 0) "a" 1]].

Definition nullable_chart : Earley.EarleyChart :=
  Earley.mkChart "S"
    [[Earley_predicted (mkRule "S" ["A"]) 0;
      Earley_predicted (mkRule "A" []) 0]].

End OperationExamples.
(* ================================================================= *)
(** * Part II: properties                                             *)
(* ================================================================= *)

(** ** Facts about the run time *)

Module PyFacts.

Lemma bind_Ok {A B} (c : Result A) (k : A -> Result B) (b : B) :
  Py.bind c k = Ok b -> exists a, c = Ok a /\ k a = Ok b.
Proof. destruct c; simpl; [eauto | discriminate]. Qed.

Definition in_range (len : nat) (i : Z) : Prop :=
  (- Z.of_nat len <= i < Z.of_nat len)%Z.

Lemma getitem_nat {A} (l : list A) (i : nat) (d : A) :
  i < List.length l -> Py.getitem l (Z.of_nat i) = Ok (nth i l d).
Proof.
  intros Hi. unfold Py.getitem.
  destruct (Z.ltb_spec (Z.of_nat i) 0); [lia|].
  destruct (Z.leb_spec 0 (Z.of_nat i)); [|lia].
  destruct (Z.ltb_spec (Z.of_nat i) (Z.of_nat (List.length l))); [|lia].
  simpl. rewrite Nat2Z.id.
  destruct (nth_error l i) eqn:E.
  - now rewrite (nth_error_nth _ _ d E).
  - apply nth_error_None in E. lia.
Qed.

Lemma getitem_in_range {A} (l : list A) (i : Z) :
  in_range (List.length l) i -> exists a, Py.getitem l i = Ok a.
Proof.
  unfold in_range, Py.getitem. intros Hr.
  set (n := Z.of_nat (List.length l)) in *.
  set (k := if (i <? 0)%Z then (n + i)%Z else i).
  assert (Hk : (0 <= k < n)%Z)
    by (subst k; destruct (Z.ltb_spec i 0); lia).
  destruct (Z.leb_spec 0 k); [|lia].
  destruct (Z.ltb_spec k n); [|lia]. simpl.
  destruct (nth_error l (Z.to_nat k)) eqn:E; [eauto|].
  apply nth_error_None in E. lia.
Qed.

Lemma getitem_out_of_range {A} (l : list A) (i : Z) :
  ~ in_range (List.length l) i -> Py.getitem l i = Raise IndexError.
Proof.
  unfold in_range, Py.getitem. intros Hr.
  set (n := Z.of_nat (List.length l)) in *.
  destruct (Z.ltb_spec i 0).
  - destruct (Z.leb_spec 0 (n + i)); simpl; [|reflexivity].
    destruct (Z.ltb_spec (n + i) n); [lia | reflexivity].
  - destruct (Z.leb_spec 0 i); simpl; [|reflexivity].
    destruct (Z.ltb_spec i n); [lia | reflexivity].
Qed.

Lemma getitem_raises {A} (l : list A) (i : Z) (e : Exception) :
  Py.getitem l i = Raise e -> e = IndexError /\ ~ in_range (List.length l) i.
Proof.
  intros Hg. assert (Hn : ~ in_range (List.length l) i).
  { intros Hr. destruct (getitem_in_range l i Hr) as [a Ha]. congruence. }
  rewrite (getitem_out_of_range l i Hn) in Hg. split; [congruence | exact Hn].
Qed.

Lemma getitem_last {A} (l : list A) (d : A) :
  l <> [] -> Py.getitem l (-1)%Z = Ok (nth (List.length l - 1) l d).
Proof.
  intros Hl.
  assert (Hn : 0 < List.length l) by (destruct l; simpl; [congruence | lia]).
  rewrite <- (getitem_nat l (List.length l - 1) d) by lia.
  unfold Py.getitem.
  destruct (Z.ltb_spec (-1) 0); [|lia].
  destruct (Z.ltb_spec (Z.of_nat (List.length l - 1)) 0); [lia|].
  replace (Z.of_nat (List.length l) + -1)%Z
    with (Z.of_nat (List.length l - 1)) by lia.
  reflexivity.
Qed.

Lemma update_length {A} (l : list A) (k : nat) (a : A) :
  List.length (Py.update l k a) = List.length l.
Proof.
  revert k; induction l as [|x l IH]; intros [|k]; simpl; auto.
Qed.

Lemma nth_update_eq {A} (l : list A) (k : nat) (a d : A) :
  k < List.length l -> nth k (Py.update l k a) d = a.
Proof.
  revert k; induction l as [|x l IH]; intros [|k]; simpl; intros Hk;
    try lia; auto. apply IH. lia.
Qed.

Lemma nth_update_neq {A} (l : list A) (k k' : nat) (a d : A) :
  k <> k' -> nth k' (Py.update l k a) d = nth k' l d.
Proof.
  revert k k'; induction l as [|x l IH]; intros [|k] [|k']; simpl;
    intros Hk; try congruence; auto.
Qed.

(** [for] loops: an invariant of the body is an invariant of the
    loop, and a body that returns makes the loop return. *)
Lemma for_inv {A S} (P : S -> Prop) (xs : list A)
      (body : A -> S -> Result S) :
  (forall x s1 s2, In x xs -> P s1 -> body x s1 = Ok s2 -> P s2) ->
  forall s s', P s -> Py.for_ xs body s = Ok s' -> P s'.
Proof.
  induction xs as [|x xs IH]; simpl; intros Hb s s' Hs Hf.
  - congruence.
  - apply bind_Ok in Hf. destruct Hf as (s1 & H1 & H2).
    apply (IH (fun y a b Hy => Hb y a b (or_intror Hy)) s1 s'); eauto.
Qed.

Lemma for_total {A S} (P : S -> Prop) (xs : list A)
      (body : A -> S -> Result S) :
  (forall x s1, In x xs -> P s1 -> exists s2, body x s1 = Ok s2 /\ P s2) ->
  forall s, P s -> exists s', Py.for_ xs body s = Ok s' /\ P s'.
Proof.
  induction xs as [|x xs IH]; simpl; intros Hb s Hs.
  - eauto.
  - destruct (Hb x s (or_introl eq_refl) Hs) as (s1 & H1 & P1).
    rewrite H1. simpl.
    apply (IH (fun y a Hy => Hb y a (or_intror Hy)) s1 P1).
Qed.

Section SetFacts.
Context {A : Type} `{Py.Eq A}.

Lemma In_add (x y : A) (s : list A) : In x s -> In x (Py.add y s).
Proof.
  unfold Py.add. destruct (Py.mem y s); auto.
  intros Hx. apply in_or_app. now left.
Qed.

Lemma add_elim (x y : A) (s : list A) :
  In x (Py.add y s) -> In x s \/ (x = y /\ Py.mem y s = false).
Proof.
  unfold Py.add. destruct (Py.mem y s); auto.
  intros Hx. apply in_app_or in Hx. destruct Hx as [Hx|[Hx|[]]]; auto.
Qed.

Lemma length_add (y : A) (s : list A) :
  List.length (Py.add y s) =
  if Py.mem y s then List.length s else S (List.length s).
Proof.
  unfold Py.add. destruct (Py.mem y s); auto.
  rewrite length_app. simpl. lia.
Qed.

Context {L : Py.EqLaws A}.

Lemma mem_In (x : A) (s : list A) : Py.mem x s = true <-> In x s.
Proof.
  unfold Py.mem. rewrite existsb_exists. split.
  - intros (y & Hy & Hxy). apply eqb_eq in Hxy. now subst.
  - intros Hx. exists x. split; auto. now apply eqb_eq.
Qed.

Lemma mem_false (x : A) (s : list A) : Py.mem x s = false <-> ~ In x s.
Proof.
  rewrite <- mem_In. destruct (Py.mem x s); split; congruence.
Qed.

Lemma add_In (y : A) (s : list A) : In y (Py.add y s).
Proof.
  unfold Py.add. destruct (Py.mem y s) eqn:E.
  - now apply mem_In.
  - apply in_or_app. right. now left.
Qed.

Lemma NoDup_add (y : A) (s : list A) : NoDup s -> NoDup (Py.add y s).
Proof.
  intros Hs. unfold Py.add. destruct (Py.mem y s) eqn:E; auto.
  apply mem_false in E. apply NoDup_app; auto.
  - constructor; [intros [] | constructor].
  - intros a Ha [<-|[]]. contradiction.
Qed.
End SetFacts.

#[export] Instance string_EqLaws : Py.EqLaws string.
Proof. intros x y. apply String.eqb_eq. Qed.

#[export] Instance nat_EqLaws : Py.EqLaws nat.
Proof. intros x y. apply Nat.eqb_eq. Qed.

#[export] Instance prod_EqLaws {A B} `{Py.EqLaws A} `{Py.EqLaws B}
  : Py.EqLaws (A * B).
Proof.
  intros [a b] [a' b']. unfold eqb, Py.prod_Eq. simpl.
  rewrite andb_true_iff, !eqb_eq. split; [intros [-> ->] | intros [= -> ->]]; auto.
Qed.

#[export] Instance list_EqLaws {A} `{Py.EqLaws A} : Py.EqLaws (list A).
Proof.
  intros l. unfold eqb, Py.list_Eq.
  induction l as [|x l IH]; intros [|y l']; simpl; split; try congruence.
  - rewrite andb_true_iff, eqb_eq, IH. now intros [-> ->].
  - intros [= -> ->]. rewrite andb_true_iff, eqb_eq, IH. auto.
Qed.

#[export] Instance Rule_EqLaws : Py.EqLaws Rule.
Proof.
  intros [l r] [l' r']. unfold eqb at 1, Rule_Eq. simpl.
  rewrite andb_true_iff, !eqb_eq. split; [intros [-> ->] | intros [= -> ->]]; auto.
Qed.

End PyFacts.

Import PyFacts.

(** ** Dispatch on the mode argument *)

(** C10.  A mode other than "recognize" and "parse" makes the call
    raise ValueError, whatever the grammar and the input: for the base
    parser this holds for every subclass (its [_recognize] and [_parse],
    which build and fill the chart, are not run: the plain CKY parser,
    whose filler raises NotImplementedError, answers ValueError too),
    and the probabilistic CKY parser does the same. *)
Theorem invalid_mode_raises_ValueError (m : String.string) :
  m <> "recognize" -> m <> "parse" ->
  (forall G R P (parser : ContextFreeGrammarParser G R P)
          (grammar : G) (string : list string),
      exists msg, __call__ grammar string m = Raise (ValueError msg)) /\
  (forall (LP : LogProb) (grammar : PCFG.ProbabilisticContextFreeGrammar)
          (string : list string),
      exists msg,
        PCFG.CKYParser__call__ grammar string m = Raise (ValueError msg)).
Proof.
  intros Hr Hp.
  apply String.eqb_neq in Hr. apply String.eqb_neq in Hp.
  split; intros; eexists.
  - unfold __call__, eqb, Py.string_Eq. rewrite Hr, Hp. reflexivity.
  - unfold PCFG.CKYParser__call__, eqb, Py.string_Eq. rewrite Hr, Hp.
    reflexivity.
Qed.

Lemma invalid_mode_raises_ValueError_witness :
  "generate" <> "recognize" /\ "generate" <> "parse" /\
  exists msg,
    @__call__ _ _ _ (CKY.CKYParser (fun _ => Ok []))
              (ContextFreeGrammar.mk ["a"] ["S"] [mkRule "S" ["a"]] "S")
              ["a"] "generate"
    = Raise (ValueError msg).
Proof.
  assert (H1 : "generate" <> "recognize") by discriminate.
  assert (H2 : "generate" <> "parse") by discriminate.
  split; [exact H1 | split; [exact H2 |]].
  exact (proj1 (invalid_mode_raises_ValueError "generate" H1 H2) _ _ _ _ _ _).
Defined.

(** ** Validation of a grammar at construction *)

Lemma inter_nonempty (a b : list string) (x : string) :
  In x a -> In x b -> Py.inter a b <> [].
Proof.
  intros Ha Hb Hi.
  assert (Hx : In x (Py.inter a b)).
  { unfold Py.inter. apply filter_In. split; auto. now apply mem_In. }
  rewrite Hi in Hx. destruct Hx.
Qed.

Lemma CFG_validate_variables_raises (alphabet variables : list string)
      (start : string) :
  (exists x, In x alphabet /\ In x variables) \/ ~ In start variables ->
  exists msg,
    ContextFreeGrammar._validate_variables alphabet variables start
    = Raise (ValueError msg).
Proof.
  unfold ContextFreeGrammar._validate_variables. intros [(x & Ha & Hv)|Hs].
  - pose proof (inter_nonempty _ _ _ Ha Hv).
    destruct (Py.inter alphabet variables); [congruence | eauto].
  - destruct (Py.inter alphabet variables); [|eauto].
    apply mem_false in Hs. rewrite Hs. simpl. eauto.
Qed.

Lemma PCFG_validate_variables_raises {LP : LogProb}
      (alphabet variables : list string) (start : string) :
  (exists x, In x alphabet /\ In x variables) \/ ~ In start variables ->
  exists msg,
    PCFG._validate_variables alphabet variables start = Raise (ValueError msg).
Proof.
  unfold PCFG._validate_variables. intros [(x & Ha & Hv)|Hs].
  - pose proof (inter_nonempty _ _ _ Ha Hv).
    destruct (Py.inter alphabet variables); [congruence | eauto].
  - destruct (Py.inter alphabet variables); [|eauto].
    apply mem_false in Hs. rewrite Hs. eauto.
Qed.

(** C7.  Constructing a grammar, plain or probabilistic, raises
    ValueError when the alphabet and the variables share an element or
    the start variable is not among the variables; no grammar value is
    returned, so the error cannot surface later, during a parse. *)
Theorem grammar_construction_validation
        (LP : LogProb) (alphabet variables : list string) (start : string)
        (rules : list Rule) (prules : list PCFG.ProbabilisticRule)
        (validate : PCFG.ProbabilisticRule -> list string -> list string
                    -> Result unit) :
  (exists x, In x alphabet /\ In x variables) \/ ~ In start variables ->
  (exists msg, ContextFreeGrammar.__init__ alphabet variables rules start
               = Raise (ValueError msg)) /\
  (exists msg, PCFG.__init__ validate alphabet variables prules start
               = Raise (ValueError msg)).
Proof.
  intros H. split.
  - destruct (CFG_validate_variables_raises _ _ _ H) as [msg Hm].
    exists msg. unfold ContextFreeGrammar.__init__. now rewrite Hm.
  - destruct (PCFG_validate_variables_raises _ _ _ H) as [msg Hm].
    exists msg. unfold PCFG.__init__. now rewrite Hm.
Qed.

Lemma grammar_construction_validation_witness :
  ~ In "Word" ["N"; "Adj"] /\
  (exists msg, ContextFreeGrammar.__init__ ["happy"] ["N"; "Adj"]
                 [mkRule "Adj" ["happy"]] "Word"
               = Raise (ValueError msg)) /\
  (exists msg, PCFG.__init__ (LP := Exact.ExactLogProb) (fun _ _ _ => Ok tt)
                 ["happy"] ["N"; "Adj"]
                 [@PCFG.mkPRule Exact.ExactLogProb (mkRule "Adj" ["happy"])
                                Exact.one] "Word"
               = Raise (ValueError msg)).
Proof.
  assert (H : ~ In "Word" ["N"; "Adj"]).
  { simpl. intros [H|[H|[]]]; discriminate. }
  split; [exact H |].
  exact (grammar_construction_validation Exact.ExactLogProb
           ["happy"] ["N"; "Adj"] "Word" _ _ _ (or_intror H)).
Defined.

(** ** Span validation *)

Lemma CKY_getitem_spec {E} (n : nat) (c : CKYChart.t E) (i j : Z) :
  CKY_shaped n c ->
  ((i < j)%Z /\ in_range (n + 1) i /\ in_range (n + 1) j ->
   exists s, CKYChart.__getitem__ c (i, j) = Ok s) /\
  (~ ((i < j)%Z /\ in_range (n + 1) i /\ in_range (n + 1) j) ->
   exists msg, CKYChart.__getitem__ c (i, j) = Raise (ValueError msg)).
Proof.
  intros [Hlen Hrows]. unfold CKYChart.__getitem__, CKYChart._validate_index.
  destruct (Z.ltb_spec i j) as [Hij|Hij]; simpl.
  2:{ split; [intros (H & _); lia | intros _; eexists; reflexivity]. }
  destruct (Py.getitem (CKYChart._chart c) i) as [row|e] eqn:Hrow.
  2:{ apply getitem_raises in Hrow. destruct Hrow as [-> Hr].
      rewrite Hlen in Hr. split; [tauto | intros _; eexists; reflexivity]. }
  assert (Hi : in_range (n + 1) i).
  { rewrite <- Hlen. destruct (Z_lt_dec i (Z.of_nat (List.length (CKYChart._chart c))));
      destruct (Z_le_dec (- Z.of_nat (List.length (CKYChart._chart c))) i);
      try (split; assumption);
      rewrite getitem_out_of_range in Hrow by (unfold in_range; lia);
      discriminate. }
  assert (Hr : List.length row = n + 1).
  { rewrite Forall_forall in Hrows. apply Hrows.
    unfold Py.getitem in Hrow.
    destruct ((0 <=? _) && _)%Z; [|discriminate].
    destruct (nth_error _ _) eqn:En; [|discriminate].
    injection Hrow as <-. eapply nth_error_In; eauto. }
  destruct (Py.getitem row j) as [s|e] eqn:Hcell.
  - simpl. rewrite Hcell. split; [eauto|].
    intros Hn. exfalso. apply Hn. repeat split; try apply Hi; try lia;
      destruct (Z_lt_dec j (Z.of_nat (List.length row)));
      destruct (Z_le_dec (- Z.of_nat (List.length row)) j);
      try (rewrite getitem_out_of_range in Hcell by (unfold in_range; lia);
           discriminate);
      unfold in_range; lia.
  - apply getitem_raises in Hcell. destruct Hcell as [-> Hj].
    rewrite Hr in Hj. split; [tauto | intros _; eexists; reflexivity].
Qed.

Lemma CKY_init_shaped {E} (n : nat) : CKY_shaped n (@CKYChart.__init__ E n).
Proof.
  unfold CKY_shaped, CKYChart.__init__, Py.range. simpl.
  rewrite length_map, length_seq. split; [lia|].
  apply Forall_forall. intros row Hrow. apply in_map_iff in Hrow.
  destruct Hrow as (x & <- & _). rewrite length_map, length_seq. lia.
Qed.

Lemma Earley_init_shaped (n : nat) (start : string) :
  Earley_shaped n (Earley.EarleyChart__init__ n start).
Proof.
  unfold Earley_shaped, Earley.EarleyChart__init__, Py.range. simpl.
  rewrite length_map, length_seq. lia.
Qed.

(** ** The Earley chart only grows *)

Module EarleyFacts.
Import Earley.

#[export] Instance DottedRule_EqLaws : Py.EqLaws DottedRule.
Proof.
  intros [r s d] [r' s' d']. unfold eqb at 1, DottedRule_Eq. simpl.
  rewrite !andb_true_iff, !eqb_eq.
  split; [intros [[-> ->] ->] | intros [= -> -> ->]]; auto.
Qed.

#[export] Instance EarleyChartEntry_EqLaws : Py.EqLaws EarleyChartEntry.
Proof.
  intros [d b] [d' b']. unfold eqb at 1, EarleyChartEntry_Eq. simpl.
  rewrite !andb_true_iff, !eqb_eq.
  split; [intros [-> ->] | intros [= -> ->]]; auto.
Qed.

Lemma extends_refl (c : EarleyChart) : Earley_extends c c.
Proof. repeat split; auto. Qed.

Lemma extends_trans (c1 c2 c3 : EarleyChart) :
  Earley_extends c1 c2 -> Earley_extends c2 c3 -> Earley_extends c1 c3.
Proof.
  intros (S1 & L1 & M1) (S2 & L2 & M2). repeat split; try congruence; auto.
Qed.

Lemma chart_add_spec (c c' : EarleyChart) (p : nat) (e : EarleyChartEntry) :
  chart_add c p e = Ok c' ->
  p < List.length (_chart c) /\
  _start_variable c' = _start_variable c /\
  List.length (_chart c') = List.length (_chart c) /\
  cell c' p = Py.add e (cell c p) /\
  (forall q, q <> p -> cell c' q = cell c q).
Proof.
  unfold chart_add, __getitem__. intros H.
  apply bind_Ok in H. destruct H as (s & Hs & Hc).
  assert (Hp : p < List.length (_chart c)).
  { destruct (Nat.lt_ge_cases p (List.length (_chart c))); auto.
    rewrite getitem_out_of_range in Hs; [discriminate|].
    unfold in_range. lia. }
  rewrite (getitem_nat _ _ [] Hp) in Hs. injection Hs as <-.
  injection Hc as <-. unfold cell. simpl.
  repeat split; auto.
  - apply update_length.
  - now apply nth_update_eq.
  - intros q Hq. apply nth_update_neq. congruence.
Qed.

Lemma chart_add_total (c : EarleyChart) (p : nat) (e : EarleyChartEntry) :
  p < List.length (_chart c) -> exists c', chart_add c p e = Ok c'.
Proof.
  intros Hp. unfold chart_add, __getitem__.
  rewrite (getitem_nat _ _ [] Hp). simpl. eauto.
Qed.

Lemma chart_add_extends (c c' : EarleyChart) (p : nat) (e : EarleyChartEntry) :
  chart_add c p e = Ok c' -> Earley_extends c c'.
Proof.
  intros H. apply chart_add_spec in H.
  destruct H as (Hp & Hs & Hl & Hc & Ho).
  repeat split; auto. intros q x Hx.
  destruct (Nat.eq_dec q p) as [->|Hq].
  - rewrite Hc. now apply In_add.
  - now rewrite Ho.
Qed.

Lemma for_extends {A} (xs : list A)
      (body : A -> EarleyChart -> Result EarleyChart) :
  (forall x c c', In x xs -> body x c = Ok c' -> Earley_extends c c') ->
  forall c c', Py.for_ xs body c = Ok c' -> Earley_extends c c'.
Proof.
  intros Hb c c' Hf.
  apply (for_inv (Earley_extends c) xs body) with (s := c);
    auto using extends_refl.
  intros x s1 s2 Hx H1 H2. eapply extends_trans; eauto.
Qed.

Lemma predict_extends g c e p c' :
  _predict g c e p = Ok c' -> Earley_extends c c'.
Proof.
  unfold _predict. intros H. apply bind_Ok in H. destruct H as (sym & _ & H).
  revert H. apply for_extends. intros r c1 c2 _. apply chart_add_extends.
Qed.

Lemma scan_extends s c e p c' :
  _scan s c e p = Ok c' -> Earley_extends c c'.
Proof.
  unfold _scan. intros H.
  apply bind_Ok in H. destruct H as (word & _ & H).
  apply bind_Ok in H. destruct H as (expected & _ & H).
  destruct (eqb word expected).
  - apply bind_Ok in H. destruct H as (c1 & H1 & H).
    apply bind_Ok in H. destruct H as (ce & _ & H).
    eapply extends_trans; eapply chart_add_extends; eauto.
  - injection H as <-. apply extends_refl.
Qed.

Lemma complete_loop_extends prevs grown e start end_ p c c' :
  complete_loop prevs grown e start end_ p c = Ok c' -> Earley_extends c c'.
Proof.
  revert grown c. induction prevs as [|prev rest IH]; intros grown c;
    simpl; destruct grown; try discriminate.
  - intros [= <-]. apply extends_refl.
  - intros H. apply bind_Ok in H. destruct H as (waits & _ & H).
    destruct waits.
    + apply bind_Ok in H. destruct H as (ce & _ & H).
      apply bind_Ok in H. destruct H as (c1 & H1 & H).
      eapply extends_trans; [eapply chart_add_extends; eauto | eauto].
    + eauto.
Qed.

Lemma complete_extends c e p c' :
  _complete c e p = Ok c' -> Earley_extends c c'.
Proof.
  unfold _complete. destruct (span (dotted_rule e)) as [start end_].
  intros H. apply bind_Ok in H. destruct H as (prevs & _ & H).
  eapply complete_loop_extends; eauto.
Qed.

Lemma process_extends g s i e c c' :
  process g s i e c = Ok c' -> Earley_extends c c'.
Proof.
  unfold process. destruct (negb (is_complete e)).
  - intros H. apply bind_Ok in H. destruct H as (sym & _ & H).
    destruct (Py.mem sym (ContextFreeGrammar.variables g)).
    + eapply predict_extends; eauto.
    + destruct (_ && _).
      * eapply scan_extends; eauto.
      * injection H as <-. apply extends_refl.
  - apply complete_extends.
Qed.

Lemma pass_extends g s i c c' :
  pass g s i c = Ok c' -> Earley_extends c c'.
Proof.
  unfold pass. intros H. apply bind_Ok in H. destruct H as (es & _ & H).
  revert H. apply for_extends. intros e c1 c2 _. apply process_extends.
Qed.

Lemma closure_extends fuel g s i c c' :
  closure fuel g s i c = Some (Ok c') -> Earley_extends c c'.
Proof.
  revert c. induction fuel as [|fuel IH]; intros c; simpl; [discriminate|].
  destruct (pass g s i c) as [c1|] eqn:Hp; [|discriminate].
  apply pass_extends in Hp.
  destruct (Nat.eqb _ _).
  - intros [= <-]. exact Hp.
  - intros H. eapply extends_trans; eauto.
Qed.

Lemma positions_extends fuel g s todo c c' :
  positions fuel g s todo c = Some (Ok c') -> Earley_extends c c'.
Proof.
  revert c. induction todo as [|i todo IH]; intros c; simpl.
  - intros [= <-]. apply extends_refl.
  - destruct (closure fuel g s i c) as [[c1|]|] eqn:Hc; try discriminate.
    intros H. eapply extends_trans; [eapply closure_extends|]; eauto.
Qed.

Lemma initial_chart_extends g s c :
  initial_chart g s = Ok c ->
  Earley_extends
    (EarleyChart__init__ (List.length s) (ContextFreeGrammar.start_variable g)) c.
Proof.
  unfold initial_chart. apply for_extends.
  intros r c1 c2 _. apply chart_add_extends.
Qed.

Lemma fill_chart_fuel_shape fuel g s c :
  _fill_chart_fuel fuel g s = Some (Ok c) ->
  Earley_shaped (List.length s) c /\
  _start_variable c = ContextFreeGrammar.start_variable g.
Proof.
  unfold _fill_chart_fuel.
  destruct (initial_chart g s) as [c0|] eqn:H0; [|discriminate].
  intros H. apply positions_extends in H. apply initial_chart_extends in H0.
  destruct (extends_trans _ _ _ H0 H) as (Hs & Hl & _).
  split; [|exact Hs]. unfold Earley_shaped. rewrite Hl.
  apply Earley_init_shaped.
Qed.

Lemma fill_chart_shape g s c :
  _fill_chart g s = Ok c ->
  Earley_shaped (List.length s) c /\
  _start_variable c = ContextFreeGrammar.start_variable g.
Proof.
  unfold _fill_chart.
  destruct (_fill_chart_fuel _ g s) as [r|] eqn:H; [|discriminate].
  intros ->. eapply fill_chart_fuel_shape; eauto.
Qed.

(** The last position of a chart for [n] tokens is position [n]. *)
Lemma getitem_last_position n c :
  Earley_shaped n c -> __getitem__ c (-1)%Z = Ok (cell c n).
Proof.
  unfold Earley_shaped, __getitem__, cell. intros Hl.
  rewrite (getitem_last _ []) by (destruct (_chart c); simpl in *; [lia | congruence]).
  rewrite Hl. do 2 f_equal. lia.
Qed.

Lemma accepting_test (start : string) (n : nat) (entry : EarleyChartEntry) :
  eqb (left_side (rule (dotted_rule entry))) start
  && eqb (span (dotted_rule entry)) (0, n) && is_complete entry = true
  <-> Earley_accepting start n entry.
Proof.
  unfold Earley_accepting. rewrite !andb_true_iff, !eqb_eq. tauto.
Qed.

Lemma recognize_spec g s b :
  Earley_recognize g s = Ok b <->
  exists chart, _fill_chart g s = Ok chart /\
    b = existsb (fun entry =>
                   eqb (left_side (rule (dotted_rule entry)))
                       (ContextFreeGrammar.start_variable g)
                   && eqb (span (dotted_rule entry)) (0, List.length s)
                   && is_complete entry)
                (cell chart (List.length s)).
Proof.
  unfold Earley_recognize. split.
  - intros H. apply bind_Ok in H. destruct H as (chart & Hc & H).
    exists chart. split; auto.
    destruct (fill_chart_shape _ _ _ Hc) as [Hsh _].
    rewrite (getitem_last_position _ _ Hsh) in H. simpl in H. congruence.
  - intros (chart & Hc & ->). rewrite Hc. simpl.
    destruct (fill_chart_shape _ _ _ Hc) as [Hsh _].
    now rewrite (getitem_last_position _ _ Hsh).
Qed.

Lemma recognize_true g s :
  Earley_recognize g s = Ok true <->
  exists chart, _fill_chart g s = Ok chart /\
    exists entry, In entry (cell chart (List.length s)) /\
      Earley_accepting (ContextFreeGrammar.start_variable g) (List.length s) entry.
Proof.
  rewrite recognize_spec. split.
  - intros (chart & Hc & Hb). exists chart. split; auto.
    symmetry in Hb. apply existsb_exists in Hb. destruct Hb as (e & He & Ht).
    exists e. split; auto. now apply accepting_test.
  - intros (chart & Hc & e & He & Ha). exists chart. split; auto.
    symmetry. apply existsb_exists. exists e. split; auto.
    now apply accepting_test.
Qed.

Section Parses.
Variable _construct_parses : EarleyChart -> EarleyChartEntry -> Tree.

Lemma add_nonempty {A} `{Py.Eq A} (x : A) (s : list A) : Py.add x s <> [].
Proof.
  unfold Py.add. destruct (Py.mem x s) eqn:E.
  - destruct s; [discriminate | congruence].
  - destruct s; discriminate.
Qed.

Lemma parses_nonempty n c :
  Earley_shaped n c ->
  exists trees, parses _construct_parses c = Ok trees /\
    (trees <> [] <->
     exists entry, In entry (cell c n) /\
                   Earley_accepting (_start_variable c) n entry).
Proof.
  intros Hsh. unfold parses.
  pose proof (getitem_last_position _ _ Hsh) as Hl.
  unfold __getitem__ in Hl. rewrite Hl. simpl. eexists. split; [reflexivity|].
  assert (Hn : input_size c = n).
  { unfold input_size. unfold Earley_shaped in Hsh. lia. }
  rewrite Hn.
  set (step := fun (_parses : list Tree) (entry : EarleyChartEntry) => _).
  assert (Hgen : forall l acc,
             fold_left step l acc <> [] <->
             acc <> [] \/
             exists entry, In entry l /\
                           Earley_accepting (_start_variable c) n entry).
  { induction l as [|e l IH]; intros acc; simpl.
    - split; [auto | intros [H|(e & [] & _)]; auto].
    - rewrite IH. unfold step.
      destruct (_ && _ && _) eqn:Et.
      + apply accepting_test in Et. split.
        * intros _. right. exists e. auto.
        * intros _. left. apply add_nonempty.
      + split.
        * intros [H|(e' & He' & Ha)]; auto. right. exists e'. auto.
        * intros [H|(e' & [<-|He'] & Ha)]; auto.
          -- apply accepting_test in Ha. congruence.
          -- right. exists e'. auto. }
  rewrite Hgen. split; [intros [H|H]; [congruence | exact H] | auto].
Qed.

(** Recognition and parsing agree for the Earley parser, whatever
    tree each accepting entry is turned into. *)
Lemma Earley_recognize_iff_parse g s :
  Earley_recognize g s = Ok true <->
  exists trees, Earley_parse _construct_parses g s = Ok trees /\ trees <> [].
Proof.
  rewrite recognize_true. unfold Earley_parse. split.
  - intros (chart & Hc & Hacc). rewrite Hc. simpl.
    destruct (fill_chart_shape _ _ _ Hc) as [Hsh Hst].
    destruct (parses_nonempty _ _ Hsh) as (trees & Ht & Hne).
    exists trees. split; auto. apply Hne. now rewrite Hst.
  - intros (trees & Hp & Hne).
    apply bind_Ok in Hp. destruct Hp as (chart & Hc & Hp).
    exists chart. split; auto.
    destruct (fill_chart_shape _ _ _ Hc) as [Hsh Hst].
    destruct (parses_nonempty _ _ Hsh) as (trees' & Ht & Hne').
    rewrite <- Hst. apply Hne'. congruence.
Qed.
End Parses.

End EarleyFacts.

(** ** The closure loop of the Earley filler stops *)

Module EarleyTermination.
Import Earley EarleyFacts.

Lemma getitem_nat_Ok {A} (l : list A) (i : nat) (a : A) :
  Py.getitem l (Z.of_nat i) = Ok a ->
  i < List.length l /\ nth_error l i = Some a.
Proof.
  intros H. destruct (Nat.lt_ge_cases i (List.length l)) as [Hi|Hi].
  - split; auto. rewrite (getitem_nat l i a Hi) in H. injection H as <-.
    apply nth_error_nth'. exact Hi.
  - rewrite getitem_out_of_range in H; [discriminate|].
    unfold in_range. lia.
Qed.

Lemma lists_upto_complete {X} (A : list X) (k : nat) (l : list X) :
  Forall (fun x => In x A) l -> List.length l <= k -> In l (lists_upto A k).
Proof.
  revert l. induction k as [|k IH]; intros l Hl Hk.
  - destruct l; simpl in *; [auto | lia].
  - destruct l as [|x l]; simpl; [auto|]. right.
    inversion Hl; subst. apply in_flat_map. exists x. split; auto.
    apply in_map. apply IH; auto. simpl in Hk. lia.
Qed.

Lemma wf_in_universe g s e :
  Earley_wf_entry g s e -> In e (universe g s).
Proof.
  destruct e as [[r [a b] d] bps].
  unfold Earley_wf_entry. simpl. intros (Hr & Ha & Hb & Hl & Hd & Hbps).
  unfold universe.
  apply in_flat_map. exists r. split; auto.
  apply in_flat_map. exists a. split; [apply in_seq; lia|].
  apply in_flat_map. exists b. split; [apply in_seq; lia|].
  apply in_flat_map. exists d. split; [apply in_seq; lia|].
  apply in_map. apply lists_upto_complete; [|lia].
  eapply Forall_impl; [|exact Hbps].
  intros [x p] [Hx Hp]. apply in_prod; auto. apply in_seq. simpl in *. lia.
Qed.

Lemma cell_bounded g s c p :
  Earley_chart_ok g s c ->
  List.length (cell c p) <= List.length (universe g s).
Proof.
  intros [_ H]. destruct (H p) as [Hn Hw].
  apply NoDup_incl_length; auto.
  intros e He. apply wf_in_universe. rewrite Forall_forall in Hw. auto.
Qed.

Lemma chart_add_ok g s c p e c' :
  Earley_chart_ok g s c -> Earley_wf_entry g s e ->
  chart_add c p e = Ok c' -> Earley_chart_ok g s c'.
Proof.
  intros [Hsh Hc] He H. apply chart_add_spec in H.
  destruct H as (Hp & Hs & Hl & Hcell & Ho).
  split; [unfold Earley_shaped in *; congruence|].
  intros q. destruct (Nat.eq_dec q p) as [->|Hq].
  - rewrite Hcell. destruct (Hc p) as [Hn Hw]. split.
    + now apply NoDup_add.
    + apply Forall_forall. intros x Hx. apply add_elim in Hx.
      destruct Hx as [Hx|[-> _]]; auto.
      rewrite Forall_forall in Hw. auto.
  - rewrite Ho by auto. apply Hc.
Qed.

Lemma for_ok {A} g s (xs : list A)
      (body : A -> EarleyChart -> Result EarleyChart) :
  (forall x c c', In x xs -> Earley_chart_ok g s c -> body x c = Ok c' ->
                  Earley_chart_ok g s c') ->
  forall c c', Earley_chart_ok g s c -> Py.for_ xs body c = Ok c' ->
               Earley_chart_ok g s c'.
Proof. intros Hb c c'. apply for_inv. exact Hb. Qed.

Lemma next_symbol_Ok e sym :
  next_symbol e = Ok sym ->
  is_complete e = false /\
  dot (dotted_rule e) < List.length (right_side (rule (dotted_rule e))) /\
  In sym (right_side (rule (dotted_rule e))).
Proof.
  unfold next_symbol, DottedRule_next_symbol, is_complete.
  destruct (DottedRule_is_complete _); [discriminate|].
  intros H. apply getitem_nat_Ok in H. destruct H as [Hd Hn].
  repeat split; auto. eapply nth_error_In; eauto.
Qed.

Lemma complete_wf g s self entry edge ce :
  Earley_wf_entry g s self -> edge <= List.length s ->
  complete self entry edge = Ok ce -> Earley_wf_entry g s ce.
Proof.
  unfold complete. intros (Hr & Ha & Hb & Hl & Hd & Hbps) He H.
  apply bind_Ok in H. destruct H as (sym & Hsym & H). injection H as <-.
  apply next_symbol_Ok in Hsym. destruct Hsym as (_ & Hlt & Hin).
  unfold Earley_wf_entry. simpl. repeat split; auto; try lia.
  - rewrite length_app. simpl. lia.
  - apply Forall_app. split; auto.
Qed.

Lemma predict_ok g s c e p c' :
  Earley_chart_ok g s c -> p <= List.length s ->
  _predict g c e p = Ok c' -> Earley_chart_ok g s c'.
Proof.
  unfold _predict. intros Hc Hp H.
  apply bind_Ok in H. destruct H as (sym & _ & H).
  revert H. apply for_ok; auto.
  intros r c1 c2 Hr Hc1. apply chart_add_ok; auto.
  unfold ContextFreeGrammar.rules in Hr. apply filter_In in Hr.
  unfold Earley_wf_entry, all_rules. simpl.
  repeat split; auto; try lia. apply in_or_app. left. tauto.
Qed.

Lemma scan_ok g s c e p c' :
  Earley_chart_ok g s c -> Earley_wf_entry g s e ->
  _scan s c e p = Ok c' -> Earley_chart_ok g s c'.
Proof.
  unfold _scan. intros Hc He H.
  apply bind_Ok in H. destruct H as (word & Hw & H).
  apply bind_Ok in H. destruct H as (expected & Hx & H).
  apply getitem_nat_Ok in Hw. destruct Hw as [Hp Hw].
  apply nth_error_In in Hw.
  destruct (eqb word expected) eqn:Eq.
  2:{ injection H as <-. exact Hc. }
  apply eqb_eq in Eq. subst expected.
  apply bind_Ok in H. destruct H as (c1 & H1 & H).
  apply bind_Ok in H. destruct H as (ce & Hce & H).
  eapply chart_add_ok; [| |exact H].
  - eapply chart_add_ok; [exact Hc| |exact H1].
    unfold Earley_wf_entry, all_rules. simpl.
    repeat split; auto; try lia.
    apply in_or_app. right. apply in_map_iff. exists word. auto.
  - eapply complete_wf; [exact He| |exact Hce]. lia.
Qed.

Lemma complete_loop_ok g s prevs grown e start end_ p c c' :
  Earley_chart_ok g s c -> Forall (Earley_wf_entry g s) prevs ->
  end_ <= List.length s ->
  complete_loop prevs grown e start end_ p c = Ok c' ->
  Earley_chart_ok g s c'.
Proof.
  intros Hc Hprevs He. revert grown c Hc.
  induction Hprevs as [|prev rest Hprev Hrest IH]; intros grown c Hc;
    simpl; destruct grown; try discriminate.
  - now intros [= <-].
  - intros H. apply bind_Ok in H. destruct H as (waits & _ & H).
    destruct waits.
    + apply bind_Ok in H. destruct H as (ce & Hce & H).
      apply bind_Ok in H. destruct H as (c1 & H1 & H).
      eapply IH; [|exact H].
      eapply chart_add_ok; [exact Hc| |exact H1].
      eapply complete_wf; eauto.
    + eapply IH; eauto.
Qed.

Lemma cell_of_getitem c p es :
  __getitem__ c (Z.of_nat p) = Ok es -> es = cell c p.
Proof.
  unfold __getitem__, cell. intros H.
  apply getitem_nat_Ok in H. destruct H as [Hp Hn].
  symmetry. now apply nth_error_nth.
Qed.

Lemma complete_ok g s c e p c' :
  Earley_chart_ok g s c -> Earley_wf_entry g s e ->
  _complete c e p = Ok c' -> Earley_chart_ok g s c'.
Proof.
  unfold _complete. intros Hc He.
  pose proof He as (_ & _ & Hend & _).
  destruct (span (dotted_rule e)) as [start end_]. simpl in Hend.
  intros H. apply bind_Ok in H. destruct H as (prevs & Hp & H).
  apply cell_of_getitem in Hp. subst prevs.
  eapply complete_loop_ok; [exact Hc| |exact Hend|exact H].
  apply Hc.
Qed.

Lemma process_ok g s i e c c' :
  Earley_chart_ok g s c -> Earley_wf_entry g s e -> i <= List.length s ->
  process g s i e c = Ok c' -> Earley_chart_ok g s c'.
Proof.
  unfold process. intros Hc He Hi.
  destruct (negb (is_complete e)).
  - intros H. apply bind_Ok in H. destruct H as (sym & _ & H).
    destruct (Py.mem sym (ContextFreeGrammar.variables g)).
    + eapply predict_ok; eauto.
    + destruct (_ && _).
      * eapply scan_ok; eauto.
      * now injection H as <-.
  - eapply complete_ok; eauto.
Qed.

Lemma pass_ok g s i c c' :
  Earley_chart_ok g s c -> i <= List.length s ->
  pass g s i c = Ok c' -> Earley_chart_ok g s c'.
Proof.
  unfold pass. intros Hc Hi H.
  apply bind_Ok in H. destruct H as (es & Hes & H).
  apply cell_of_getitem in Hes. subst es.
  revert H. apply for_ok; auto.
  intros e c1 c2 He Hc1. apply process_ok; auto.
  destruct Hc as [_ Hc]. destruct (Hc i) as [_ Hw].
  rewrite Forall_forall in Hw. auto.
Qed.

(** A pass leaves at least as many entries at each position as it
    found. *)
Lemma pass_grows g s i c c' p :
  Earley_chart_ok g s c -> pass g s i c = Ok c' ->
  List.length (cell c p) <= List.length (cell c' p).
Proof.
  intros [_ Hc] H. apply pass_extends in H. destruct H as (_ & _ & Hm).
  apply NoDup_incl_length; [apply Hc | intros e; apply Hm].
Qed.

Lemma closure_stops g s i :
  i <= List.length s ->
  forall fuel c,
    Earley_chart_ok g s c ->
    List.length (universe g s) - List.length (cell c i) < fuel ->
    exists r, closure fuel g s i c = Some r /\
              forall c', r = Ok c' -> Earley_chart_ok g s c'.
Proof.
  intros Hi. induction fuel as [|fuel IH]; intros c Hc Hf; [lia|].
  simpl. destruct (pass g s i c) as [c1|e] eqn:Hp.
  2:{ eexists. split; [reflexivity | discriminate]. }
  pose proof (pass_ok _ _ _ _ _ Hc Hi Hp) as Hc1.
  pose proof (pass_grows _ _ _ _ _ i Hc Hp) as Hg.
  pose proof (cell_bounded _ _ _ i Hc1) as Hb.
  destruct (Nat.eqb_spec (List.length (cell c1 i)) (List.length (cell c i))).
  - eexists. split; [reflexivity|]. now intros c' [= <-].
  - apply IH; auto. lia.
Qed.

Lemma positions_stop g s fuel :
  List.length (universe g s) < fuel ->
  forall todo c,
    Forall (fun i => i <= List.length s) todo ->
    Earley_chart_ok g s c ->
    exists r, positions fuel g s todo c = Some r /\
              forall c', r = Ok c' -> Earley_chart_ok g s c'.
Proof.
  intros Hf. induction todo as [|i todo IH]; intros c Ht Hc; simpl.
  - eexists. split; [reflexivity|]. now intros c' [= <-].
  - inversion Ht; subst.
    destruct (closure_stops g s i ltac:(assumption) fuel c Hc) as (r & Hr & Hok);
      [lia|].
    rewrite Hr. destruct r as [c1|e].
    + apply IH; auto.
    + eexists. split; [reflexivity | discriminate].
Qed.

Lemma init_ok g s start :
  Earley_chart_ok g s (EarleyChart__init__ (List.length s) start).
Proof.
  split; [apply Earley_init_shaped|].
  intros p. unfold cell, EarleyChart__init__. simpl.
  assert (H : nth p (map (fun _ : nat => @nil EarleyChartEntry)
                         (Py.range 0 (List.length s + 1))) [] = []).
  { generalize (Py.range 0 (List.length s + 1)). intros l. revert p.
    induction l as [|x l IH]; intros [|p]; simpl; auto. }
  rewrite H. split; constructor.
Qed.

Lemma initial_chart_ok g s c :
  initial_chart g s = Ok c -> Earley_chart_ok g s c.
Proof.
  unfold initial_chart. apply for_ok; [|apply init_ok].
  intros r c1 c2 Hr Hc1. apply chart_add_ok; auto.
  unfold ContextFreeGrammar.rules in Hr. apply filter_In in Hr.
  unfold Earley_wf_entry, all_rules. simpl.
  repeat split; auto; try lia. apply in_or_app. left. tauto.
Qed.

Lemma fill_chart_fuel_stops g s fuel :
  enough_fuel g s <= fuel ->
  exists r, _fill_chart_fuel fuel g s = Some r /\
            forall c, r = Ok c -> Earley_chart_ok g s c.
Proof.
  unfold enough_fuel, _fill_chart_fuel. intros Hf.
  destruct (initial_chart g s) as [c0|e] eqn:H0.
  2:{ eexists. split; [reflexivity | discriminate]. }
  apply positions_stop; [lia| |now apply initial_chart_ok].
  apply Forall_forall. intros i Hi. unfold Py.range in Hi.
  apply in_seq in Hi. lia.
Qed.

Lemma fill_chart_is_fuel g s :
  _fill_chart_fuel (enough_fuel g s) g s = Some (_fill_chart g s).
Proof.
  unfold _fill_chart.
  destruct (fill_chart_fuel_stops g s (enough_fuel g s) (le_n _)) as (r & Hr & _).
  now rewrite Hr.
Qed.


End EarleyTermination.

(** ** The Earley recogniser on the empty input *)

Module EarleyEmpty.
Import Earley EarleyFacts EarleyTermination.

Lemma for_keeps {A S} (P : S -> Prop) (xs : list A) (body : A -> S -> Result S) :
  (forall y s s', P s -> body y s = Ok s' -> P s') ->
  forall s s', P s -> Py.for_ xs body s = Ok s' -> P s'.
Proof. intros Hb. apply for_inv. intros x s1 s2 _. apply Hb. Qed.

(** What the body does for [x] and no later turn undoes holds of
    the result of the loop. *)
Lemma for_cover {A S} (Q : A -> S -> Prop) (xs : list A)
      (body : A -> S -> Result S) :
  (forall x s s', body x s = Ok s' -> Q x s') ->
  (forall x y s s', Q x s -> body y s = Ok s' -> Q x s') ->
  forall s s', Py.for_ xs body s = Ok s' -> forall x, In x xs -> Q x s'.
Proof.
  intros Hq Hk. induction xs as [|y xs IH]; simpl; intros s s' Hf x Hx.
  - destruct Hx.
  - apply bind_Ok in Hf. destruct Hf as (s1 & H1 & Hf).
    destruct Hx as [->|Hx]; [|eauto].
    apply (for_keeps (Q x) xs body (Hk x) s1 s'); eauto.
Qed.









(** The start rules are entered at position 0 and stay there. *)
Lemma fill_chart_start_rules g s c r :
  _fill_chart g s = Ok c ->
  In r (ContextFreeGrammar.rules g (ContextFreeGrammar.start_variable g)) ->
  In (mkEntry (mkDotted r (0, 0) 0) []) (cell c 0).
Proof.
  intros H Hr. pose proof (fill_chart_is_fuel g s) as Hf. rewrite H in Hf.
  unfold _fill_chart_fuel in Hf.
  destruct (initial_chart g s) as [c0|] eqn:H0; [|discriminate].
  apply positions_extends in Hf. destruct Hf as (_ & _ & Hm). apply Hm.
  unfold initial_chart in H0.
  apply (for_cover
           (fun r c => In (mkEntry (mkDotted r (0, 0) 0) []) (cell c 0))
           _ _) with (x := r) in H0; auto.
  - intros x c1 c2 Hadd. apply chart_add_spec in Hadd.
    destruct Hadd as (_ & _ & _ & -> & _). apply add_In.
  - intros x y c1 c2 Hx Hadd. apply chart_add_extends in Hadd.
    destruct Hadd as (_ & _ & Hm'). auto.
Qed.


End EarleyEmpty.

(** ** The CKY chart: cells and updates *)

Module CKYChartFacts.
Section Chart.
Context {E : Type}.
Implicit Types c : CKYChart.t E.

Lemma update_In {A} (l : list A) (k : nat) (a x : A) :
  In x (Py.update l k a) -> In x l \/ (x = a /\ k < List.length l).
Proof.
  revert k. induction l as [|y l IH]; intros [|k]; simpl; try tauto.
  - intros [<-|H]; [right; split; [auto | lia] | auto].
  - intros [<-|H]; auto. destruct (IH _ H) as [H'|[-> H']]; auto.
    right. split; [auto | lia].
Qed.

Lemma store_shaped n c i j s :
  CKY_shaped n c -> CKY_shaped n (CKYChart.store c i j s).
Proof.
  intros [Hl Hr]. unfold CKY_shaped, CKYChart.store. simpl.
  rewrite update_length. split; auto.
  apply Forall_forall. intros row Hrow. rewrite Forall_forall in Hr.
  apply update_In in Hrow. destruct Hrow as [Hrow|[-> Hi]]; auto.
  rewrite update_length. apply Hr. now apply nth_In.
Qed.

Lemma getitem_cell n c i j :
  CKY_shaped n c -> i < j -> j <= n ->
  CKYChart.__getitem__ c (Z.of_nat i, Z.of_nat j) = Ok (CKYChart.cell c i j).
Proof.
  intros [Hl Hr] Hij Hj.
  unfold CKYChart.__getitem__, CKYChart._validate_index, CKYChart.cell.
  destruct (Z.ltb_spec (Z.of_nat i) (Z.of_nat j)); [|lia]. simpl.
  rewrite (getitem_nat _ _ []) by lia.
  assert (Hrow : List.length (nth i (CKYChart._chart c) []) = n + 1).
  { rewrite Forall_forall in Hr. apply Hr. apply nth_In. lia. }
  rewrite (getitem_nat _ _ []) by lia. simpl.
  now rewrite (getitem_nat _ _ []) by lia.
Qed.

(** A read that returns hands out the cell. *)
Lemma getitem_Ok c i j s :
  CKYChart.__getitem__ c (Z.of_nat i, Z.of_nat j) = Ok s ->
  i < List.length (CKYChart._chart c) /\
  j < List.length (nth i (CKYChart._chart c) []) /\
  s = CKYChart.cell c i j.
Proof.
  unfold CKYChart.__getitem__, CKYChart.cell. intros H.
  apply bind_Ok in H. destruct H as (u & _ & H).
  apply bind_Ok in H. destruct H as (row & Hrow & H).
  destruct (Nat.lt_ge_cases i (List.length (CKYChart._chart c))) as [Hi|Hi].
  2:{ rewrite getitem_out_of_range in Hrow; [discriminate|].
      unfold in_range. lia. }
  rewrite (getitem_nat _ _ [] Hi) in Hrow. injection Hrow as <-.
  destruct (Nat.lt_ge_cases j (List.length (nth i (CKYChart._chart c) [])))
    as [Hj|Hj].
  2:{ rewrite getitem_out_of_range in H; [discriminate|].
      unfold in_range. lia. }
  rewrite (getitem_nat _ _ [] Hj) in H. injection H as <-. auto.
Qed.

Lemma cell_store_eq c i j s :
  i < List.length (CKYChart._chart c) ->
  j < List.length (nth i (CKYChart._chart c) []) ->
  CKYChart.cell (CKYChart.store c i j s) i j = s.
Proof.
  intros Hi Hj. unfold CKYChart.cell, CKYChart.store. simpl.
  rewrite nth_update_eq by auto. now rewrite nth_update_eq.
Qed.

Lemma cell_store_neq c i j s i' j' :
  (i', j') <> (i, j) ->
  CKYChart.cell (CKYChart.store c i j s) i' j' = CKYChart.cell c i' j'.
Proof.
  intros Hne. unfold CKYChart.cell, CKYChart.store. simpl.
  destruct (Nat.eq_dec i i') as [<-|Hi].
  - destruct (Nat.lt_ge_cases i (List.length (CKYChart._chart c))) as [Hl|Hl].
    + rewrite nth_update_eq by auto. apply nth_update_neq. congruence.
    + rewrite (nth_overflow (Py.update _ _ _)) by now rewrite update_length.
      now rewrite (nth_overflow (CKYChart._chart c)).
  - now rewrite nth_update_neq.
Qed.
End Chart.
End CKYChartFacts.

(** ** The probabilistic CKY filler, entry by entry *)

Module PCKYFacts.
Import PCFG CKYChartFacts.
Section WithLogProb.
Context {LP : LogProb}.
Existing Instance PCFG.CKYChartEntry_Eq.
Existing Instance PCFG.logprob_Eq.

Lemma chart_add_Ok c i j e c' :
  chart_add c i j e = Ok c' ->
  i < List.length (CKYChart._chart c) /\
  j < List.length (nth i (CKYChart._chart c) []) /\
  c' = CKYChart.store c i j (Py.add e (CKYChart.cell c i j)).
Proof.
  unfold chart_add. intros H.
  apply bind_Ok in H. destruct H as (s & Hs & H).
  apply getitem_Ok in Hs. destruct Hs as (Hi & Hj & ->).
  injection H as <-. auto.
Qed.

Lemma chart_add_CKY_extends c i j e c' :
  chart_add c i j e = Ok c' -> CKY_extends c c'.
Proof.
  intros H. apply chart_add_Ok in H. destruct H as (Hi & Hj & ->).
  intros i' j' x Hx.
  destruct (Nat.eq_dec i' i) as [->|Hi'];
    [destruct (Nat.eq_dec j' j) as [->|Hj']|].
  - rewrite cell_store_eq by auto. now apply In_add.
  - rewrite cell_store_neq by congruence. exact Hx.
  - rewrite cell_store_neq by congruence. exact Hx.
Qed.

Lemma CKY_extends_refl (c : Chart) : CKY_extends c c.
Proof. intros i j e H. exact H. Qed.

Lemma CKY_extends_trans (c1 c2 c3 : Chart) :
  CKY_extends c1 c2 -> CKY_extends c2 c3 -> CKY_extends c1 c3.
Proof. intros H1 H2 i j e H. auto. Qed.

Lemma for_CKY_extends {A} (xs : list A) (body : A -> Chart -> Result Chart) :
  (forall x c c', In x xs -> body x c = Ok c' -> CKY_extends c c') ->
  forall c c', Py.for_ xs body c = Ok c' -> CKY_extends c c'.
Proof.
  intros Hb c c' Hf.
  apply (for_inv (CKY_extends c) xs body) with (s := c);
    auto using CKY_extends_refl.
  intros x s1 s2 Hx H1 H2. eapply CKY_extends_trans; eauto.
Qed.

Lemma base_step_extends g s j c c' :
  base_step g s j c = Ok c' -> CKY_extends c c'.
Proof.
  unfold base_step. intros H.
  apply bind_Ok in H. destruct H as (w & _ & H). revert H.
  apply for_CKY_extends. intros [sym lp] c1 c2 _ H.
  apply bind_Ok in H. destruct H as (w' & _ & H).
  eapply chart_add_CKY_extends; eauto.
Qed.

Lemma combine_backtraces_extends i j l r parent lp c c' :
  combine true i j l r parent lp c = Ok c' -> CKY_extends c c'.
Proof. unfold combine. apply chart_add_CKY_extends. Qed.

Lemma recursive_step_backtraces_extends g i j k c c' :
  recursive_step g true i j k c = Ok c' -> CKY_extends c c'.
Proof.
  unfold recursive_step. intros H.
  apply bind_Ok in H. destruct H as (lefts & _ & H). revert H.
  apply for_CKY_extends. intros l c1 c2 _ H.
  apply bind_Ok in H. destruct H as (rights & _ & H). revert H.
  apply for_CKY_extends. intros r c3 c4 _.
  apply for_CKY_extends. intros [parent lp] c5 c6 _.
  apply combine_backtraces_extends.
Qed.

End WithLogProb.
End PCKYFacts.

(** ** Both modes of the probabilistic filler derive the same symbols *)

Module PCKYAgreement.
Import PCFG CKYChartFacts PCKYFacts.

(** A loop whose body returns, keeps an invariant [P], moves the
    state along a preorder [R] and establishes a fact [Q x] that [R]
    preserves: the loop returns, and [Q x] holds of its result for
    every [x] it went over. *)
Lemma for_spec {A S} (P : S -> Prop) (R : S -> S -> Prop)
      (Q : A -> S -> Prop) (xs : list A) (body : A -> S -> Result S) :
  (forall s, R s s) ->
  (forall a b c, R a b -> R b c -> R a c) ->
  (forall x s s', Q x s -> R s s' -> Q x s') ->
  (forall x s, In x xs -> P s ->
               exists s', body x s = Ok s' /\ P s' /\ R s s' /\ Q x s') ->
  forall s, P s ->
            exists s', Py.for_ xs body s = Ok s' /\ P s' /\ R s s' /\
                       forall x, In x xs -> Q x s'.
Proof.
  intros Rrefl Rtrans Qmono. induction xs as [|x xs IH]; intros Hb s Hs.
  - exists s. simpl. repeat split; auto. intros x [].
  - destruct (Hb x s (or_introl eq_refl) Hs) as (s1 & H1 & P1 & R1 & Q1).
    destruct (IH (fun y a Hy => Hb y a (or_intror Hy)) s1 P1)
      as (s' & H' & P' & R' & Q').
    exists s'. simpl. rewrite H1. simpl. repeat split; eauto.
    intros y [<-|Hy]; eauto.
Qed.

(** Two loops over the same list whose bodies keep a relation
    between their states. *)
Lemma for_sim {A S1 S2} (R : S1 -> S2 -> Prop) (xs : list A)
      (body1 : A -> S1 -> Result S1) (body2 : A -> S2 -> Result S2) :
  (forall x s1 s2, In x xs -> R s1 s2 ->
                   exists s1' s2', body1 x s1 = Ok s1' /\
                                   body2 x s2 = Ok s2' /\ R s1' s2') ->
  forall s1 s2, R s1 s2 ->
                exists s1' s2', Py.for_ xs body1 s1 = Ok s1' /\
                                Py.for_ xs body2 s2 = Ok s2' /\ R s1' s2'.
Proof.
  induction xs as [|x xs IH]; intros Hb s1 s2 Hs.
  - exists s1, s2. simpl. auto.
  - destruct (Hb x s1 s2 (or_introl eq_refl) Hs) as (a & b & Ha & Hb' & Hab).
    destruct (IH (fun y u v Hy => Hb y u v (or_intror Hy)) a b Hab)
      as (s1' & s2' & H1 & H2 & H').
    exists s1', s2'. simpl. rewrite Ha, Hb'. simpl. auto.
Qed.

Section WithLogProb.
Context {LP : LogProb}.
Existing Instance PCFG.CKYChartEntry_Eq.
Existing Instance PCFG.logprob_Eq.

Lemma entry_eqb_refl : forall e : CKYChartEntry, eqb e e = true.
Proof.
  unfold eqb, CKYChartEntry_Eq.
  fix IH 1. intros [s lp bs]. simpl. rewrite String.eqb_refl. simpl.
  induction bs as [|b bs IHbs]; [reflexivity|].
  rewrite IH. simpl. exact IHbs.
Qed.

Lemma entry_eqb_symbol (e e' : CKYChartEntry) :
  eqb e e' = true -> symbol e = symbol e'.
Proof.
  destruct e as [s lp bs], e' as [s' lp' bs'].
  unfold eqb, CKYChartEntry_Eq. simpl.
  intros H. apply andb_true_iff in H. destruct H as [H _].
  now apply String.eqb_eq.
Qed.

Lemma mem_of_In (e : CKYChartEntry) (s : list CKYChartEntry) :
  In e s -> Py.mem e s = true.
Proof.
  intros H. unfold Py.mem. apply existsb_exists. exists e.
  split; [exact H | apply entry_eqb_refl].
Qed.

Lemma symbols_add (e : CKYChartEntry) (s : list CKYChartEntry) (x : string) :
  In x (map symbol (Py.add e s)) <-> In x (map symbol s) \/ x = symbol e.
Proof.
  split.
  - intros H. apply in_map_iff in H. destruct H as (y & <- & Hy).
    apply add_elim in Hy. destruct Hy as [Hy|[-> _]]; auto.
    left. now apply in_map.
  - intros [H| ->].
    + apply in_map_iff in H. destruct H as (y & <- & Hy).
      apply in_map. now apply In_add.
    + unfold Py.add. destruct (Py.mem e s) eqn:Em.
      * unfold Py.mem in Em. apply existsb_exists in Em.
        destruct Em as (y & Hy & Heq). apply entry_eqb_symbol in Heq.
        rewrite Heq. now apply in_map.
      * apply in_map. apply in_or_app. right. now left.
Qed.

Lemma cell_store_shaped n (c : Chart) i j s :
  CKY_shaped n c -> i <= n -> j <= n ->
  CKYChart.cell (CKYChart.store c i j s) i j = s.
Proof.
  intros [Hl Hr] Hi Hj. apply cell_store_eq; [lia|].
  rewrite Forall_forall in Hr. rewrite (Hr (nth i (CKYChart._chart c) [])).
  - lia.
  - apply nth_In. lia.
Qed.

Lemma chart_add_shaped n (c : Chart) i j e :
  CKY_shaped n c -> i < j -> j <= n ->
  chart_add c i j e
  = Ok (CKYChart.store c i j (Py.add e (CKYChart.cell c i j))).
Proof.
  intros Hc Hij Hj. unfold chart_add.
  now rewrite (getitem_cell n c i j Hc Hij Hj).
Qed.

Section Step.
Variable g : ProbabilisticContextFreeGrammar.
Variable n : nat.
Variables i j k : nat.
Hypothesis Hik : i < k.
Hypothesis Hkj : k < j.
Hypothesis Hjn : j <= n.
(** The chart the step starts from. *)
Variable c : Chart.
Hypothesis Hc : CKY_shaped n c.

Local Abbreviation derived := (CKY_derived g c i j k).
Local Abbreviation inv := (CKY_step_inv g n i j k c).
Local Abbreviation grows := (CKY_grows i j).

Lemma inv_start : inv c.
Proof. unfold CKY_step_inv. auto. Qed.

Lemma inv_store c1 s parent :
  inv c1 -> derived parent ->
  (forall x, In x (map symbol s) ->
             In x (CKY_symbols c1 i j) \/ x = parent) ->
  inv (CKYChart.store c1 i j s).
Proof.
  intros (Hs & Ho & Hu) Hd Hsub. split; [now apply store_shaped|]. split.
  - intros i' j' Hne. rewrite cell_store_neq by auto. now apply Ho.
  - intros x Hx. unfold CKY_symbols in Hx.
    rewrite (cell_store_shaped n) in Hx by (auto; lia).
    destruct (Hsub x Hx) as [H| ->]; auto.
Qed.

Lemma combine_spec b l r parent lp c1 :
  inv c1 -> derived parent ->
  exists c2, combine b i j l r parent lp c1 = Ok c2 /\
             inv c2 /\ grows c1 c2 /\ In parent (CKY_symbols c2 i j).
Proof.
  intros Hinv Hd. pose proof Hinv as (Hs & Ho & Hu).
  assert (Hadd : forall e,
             symbol e = parent ->
             exists c2, chart_add c1 i j e = Ok c2 /\
                        inv c2 /\ grows c1 c2 /\
                        In parent (CKY_symbols c2 i j)).
  { intros e He. eexists. split; [apply (chart_add_shaped n); auto; lia|].
    split; [|split].
    - apply inv_store with (parent := parent); auto.
      intros x Hx. apply symbols_add in Hx. rewrite He in Hx. exact Hx.
    - intros x Hx. unfold CKY_symbols.
      rewrite (cell_store_shaped n) by (auto; lia).
      apply symbols_add. now left.
    - unfold CKY_symbols. rewrite (cell_store_shaped n) by (auto; lia).
      apply symbols_add. now right. }
  unfold combine. destruct b; [apply Hadd; reflexivity|].
  rewrite (getitem_cell n c1 i j Hs) by lia. simpl.
  destruct (filter _ (CKYChart.cell c1 i j)) as [|existing rest] eqn:Ef;
    [apply Hadd; reflexivity|].
  assert (Hex : In existing (CKYChart.cell c1 i j) /\
                symbol existing = parent).
  { assert (H : In existing (existing :: rest)) by now left.
    rewrite <- Ef in H. apply filter_In in H. destruct H as [H1 H2].
    split; auto. now apply eqb_eq in H2. }
  destruct Hex as [Hin Hsym].
  unfold chart_remove. rewrite (getitem_cell n c1 i j Hs) by lia. simpl.
  unfold Py.remove. rewrite (mem_of_In _ _ Hin). simpl.
  set (s' := filter (fun y => negb (eqb existing y)) (CKYChart.cell c1 i j)).
  set (c1' := CKYChart.store c1 i j s').
  assert (Hs' : CKY_shaped n c1') by now apply store_shaped.
  rewrite (chart_add_shaped n c1') by (auto; lia).
  unfold c1' at 2. rewrite (cell_store_shaped n) by (auto; lia).
  eexists. split; [reflexivity|].
  assert (Hsub : forall x, In x (map symbol s') -> In x (CKY_symbols c1 i j)).
  { intros x Hx. apply in_map_iff in Hx. destruct Hx as (y & <- & Hy).
    apply filter_In in Hy. apply in_map. tauto. }
  assert (Hinv' : inv c1').
  { apply inv_store with (parent := parent); auto. }
  split; [|split].
  - apply inv_store with (parent := parent); auto.
    intros x Hx. apply symbols_add in Hx. simpl in Hx.
    destruct Hx as [Hx| ->]; auto. left.
    unfold CKY_symbols, c1'. rewrite (cell_store_shaped n) by (auto; lia).
    exact Hx.
  - intros x Hx. unfold CKY_symbols.
    rewrite (cell_store_shaped n) by (auto; lia).
    apply symbols_add. simpl.
    unfold CKY_symbols in Hx. apply in_map_iff in Hx.
    destruct Hx as (y & <- & Hy).
    destruct (eqb existing y) eqn:Eq.
    + right. apply entry_eqb_symbol in Eq. congruence.
    + left. apply in_map. apply filter_In. split; auto. now rewrite Eq.
  - unfold CKY_symbols. rewrite (cell_store_shaped n) by (auto; lia).
    apply symbols_add. now right.
Qed.

Lemma grows_refl c1 : grows c1 c1.
Proof. intros x H. exact H. Qed.

Lemma grows_trans c1 c2 c3 : grows c1 c2 -> grows c2 c3 -> grows c1 c3.
Proof. intros H1 H2 x H. auto. Qed.

Lemma rules_loop_spec b l r c3 :
  In l (CKYChart.cell c i k) -> In r (CKYChart.cell c k j) -> inv c3 ->
  exists c4,
    Py.for_ (reduce g [symbol l; symbol r])
      (fun '(parent, rule_logprob) chart =>
         combine b i j l r parent rule_logprob chart) c3 = Ok c4 /\
    inv c4 /\ grows c3 c4 /\
    forall p, In p (reduce g [symbol l; symbol r]) ->
              In (fst p) (CKY_symbols c4 i j).
Proof.
  intros Hl Hr Hinv3.
  apply (for_spec inv grows
           (fun (p : string * logprob) s => In (fst p) (CKY_symbols s i j)));
    [exact grows_refl | exact grows_trans | | | exact Hinv3].
  - intros p s s' Hq Hg. now apply Hg.
  - intros [parent lp] c5 Hp Hinv5.
    apply combine_spec; auto. exists l, r, lp. auto.
Qed.

Lemma rights_loop_spec b l c1 :
  In l (CKYChart.cell c i k) -> inv c1 ->
  exists c2,
    Py.for_ (CKYChart.cell c k j)
      (fun right_entry chart =>
         Py.for_ (reduce g [symbol l; symbol right_entry])
           (fun '(parent, rule_logprob) chart =>
              combine b i j l right_entry parent rule_logprob chart)
           chart) c1 = Ok c2 /\
    inv c2 /\ grows c1 c2 /\
    forall r, In r (CKYChart.cell c k j) ->
              forall p, In p (reduce g [symbol l; symbol r]) ->
                        In (fst p) (CKY_symbols c2 i j).
Proof.
  intros Hl Hinv1.
  apply (for_spec inv grows
           (fun r s => forall p, In p (reduce g [symbol l; symbol r]) ->
                                 In (fst p) (CKY_symbols s i j)));
    [exact grows_refl | exact grows_trans | | | exact Hinv1].
  - intros r s s' Hq Hg p Hp. apply Hg. auto.
  - intros r c3 Hr Hinv3. now apply rules_loop_spec.
Qed.

Lemma recursive_step_spec b :
  exists c', recursive_step g b i j k c = Ok c' /\
             inv c' /\ grows c c' /\
             forall x, derived x -> In x (CKY_symbols c' i j).
Proof.
  unfold recursive_step.
  rewrite (getitem_cell n c i k Hc) by lia. simpl.
  assert (Hloop :
    exists c',
      Py.for_ (CKYChart.cell c i k)
        (fun left_entry chart =>
           rights <- CKYChart.__getitem__ chart (Z.of_nat k, Z.of_nat j) ;;
           Py.for_ rights
             (fun right_entry chart =>
                Py.for_ (reduce g [symbol left_entry; symbol right_entry])
                  (fun '(parent, rule_logprob) chart =>
                     combine b i j left_entry right_entry
                             parent rule_logprob chart)
                  chart)
             chart) c = Ok c' /\
      inv c' /\ grows c c' /\
      forall l, In l (CKYChart.cell c i k) ->
        forall r, In r (CKYChart.cell c k j) ->
          forall p, In p (reduce g [symbol l; symbol r]) ->
                    In (fst p) (CKY_symbols c' i j)).
  { apply (for_spec inv grows
             (fun l s => forall r, In r (CKYChart.cell c k j) ->
                  forall p, In p (reduce g [symbol l; symbol r]) ->
                            In (fst p) (CKY_symbols s i j)));
      [exact grows_refl | exact grows_trans | | | exact inv_start].
    - intros l s s' Hq Hg r Hr p Hp. apply Hg. eauto.
    - intros l c1 Hl Hinv1. pose proof Hinv1 as (Hs1 & Ho1 & _).
      rewrite (getitem_cell n c1 k j Hs1) by lia. simpl.
      rewrite Ho1 by (intros Heq; inversion Heq; lia).
      now apply rights_loop_spec. }
  destruct Hloop as (c' & Hf & Hinv & Hg & Hq).
  exists c'. split; [exact Hf|]. split; [exact Hinv|]. split; [exact Hg|].
  intros x (l & r & lp & Hl & Hr & Hx). apply (Hq l Hl r Hr (x, lp) Hx).
Qed.
End Step.

Lemma in_range_iff (a b x : nat) : In x (Py.range a b) <-> a <= x < b.
Proof. unfold Py.range. rewrite in_seq. lia. Qed.

Lemma derived_same g n c1 c2 i j k x :
  CKY_same_symbols n c1 c2 ->
  CKY_derived g c1 i j k x -> CKY_derived g c2 i j k x.
Proof.
  intros (_ & _ & Hs) (l & r & lp & Hl & Hr & Hx).
  assert (Hl' : In (symbol l) (CKY_symbols c2 i k))
    by (apply Hs; now apply in_map).
  assert (Hr' : In (symbol r) (CKY_symbols c2 k j))
    by (apply Hs; now apply in_map).
  apply in_map_iff in Hl'. destruct Hl' as (l' & El & Hl').
  apply in_map_iff in Hr'. destruct Hr' as (r' & Er & Hr').
  exists l', r', lp. rewrite El, Er. auto.
Qed.

Lemma same_symbols_sym n c1 c2 :
  CKY_same_symbols n c1 c2 -> CKY_same_symbols n c2 c1.
Proof.
  intros (H1 & H2 & H). split; [exact H2|]. split; [exact H1|].
  intros i j x. symmetry. apply H.
Qed.

(** One step in aggregate mode and one in backtrace mode, taken
    from charts with the same symbols, both return and leave
    charts with the same symbols. *)
Lemma recursive_step_sim g n i j k c1 c2 :
  i < k -> k < j -> j <= n -> CKY_same_symbols n c1 c2 ->
  exists c1' c2',
    recursive_step g false i j k c1 = Ok c1' /\
    recursive_step g true i j k c2 = Ok c2' /\
    CKY_same_symbols n c1' c2'.
Proof.
  intros Hik Hkj Hjn Hsim. pose proof Hsim as (Hs1 & Hs2 & Hs).
  destruct (recursive_step_spec g n i j k Hik Hkj Hjn c1 Hs1 false)
    as (c1' & Hf1 & (Hsh1 & Ho1 & Hu1) & Hg1 & Hd1).
  destruct (recursive_step_spec g n i j k Hik Hkj Hjn c2 Hs2 true)
    as (c2' & Hf2 & (Hsh2 & Ho2 & Hu2) & Hg2 & Hd2).
  exists c1', c2'. split; [exact Hf1|]. split; [exact Hf2|].
  split; [exact Hsh1|]. split; [exact Hsh2|].
  intros i' j' x.
  destruct (Nat.eq_dec i' i) as [->|Hi];
    [destruct (Nat.eq_dec j' j) as [->|Hj]|].
  - split; intros Hx.
    + destruct (Hu1 x Hx) as [H|H].
      * apply Hg2. now apply Hs.
      * apply Hd2. eapply derived_same; eauto.
    + destruct (Hu2 x Hx) as [H|H].
      * apply Hg1. now apply Hs.
      * apply Hd1. eapply derived_same; [apply same_symbols_sym|]; eauto.
  - unfold CKY_symbols. rewrite Ho1, Ho2 by congruence. apply Hs.
  - unfold CKY_symbols. rewrite Ho1, Ho2 by congruence. apply Hs.
Qed.

Lemma chart_add_keeps_shape n (c c' : Chart) i j e :
  CKY_shaped n c -> chart_add c i j e = Ok c' -> CKY_shaped n c'.
Proof.
  intros Hc H. apply chart_add_Ok in H. destruct H as (_ & _ & ->).
  now apply store_shaped.
Qed.

Lemma base_phase_shaped g s n c :
  Py.for_ (Py.range 1 (n + 1)) (base_step g s) (CKYChart.__init__ n) = Ok c ->
  CKY_shaped n c.
Proof.
  apply for_inv; [|apply CKY_init_shaped].
  intros j c1 c2 _ H1 H. unfold base_step in H.
  apply bind_Ok in H. destruct H as (w & _ & H). revert H.
  apply for_inv; auto.
  intros [sym lp] c3 c4 _ H3 H.
  apply bind_Ok in H. destruct H as (w' & _ & H).
  eapply chart_add_keeps_shape; eauto.
Qed.

(** The two modes fill charts with the same symbols, or raise the
    same exception. *)
Lemma fill_chart_modes g s :
  (exists c1 c2,
      _fill_chart g s false = Ok c1 /\ _fill_chart g s true = Ok c2 /\
      CKY_same_symbols (List.length s) c1 c2) \/
  (exists e, _fill_chart g s false = Raise e /\
             _fill_chart g s true = Raise e).
Proof.
  unfold _fill_chart. set (n := List.length s).
  destruct (Py.for_ (Py.range 1 (n + 1)) (base_step g s) (CKYChart.__init__ n))
    as [c0|e] eqn:Hbase; [|right; exists e; auto].
  left. simpl.
  assert (H0 : CKY_same_symbols n c0 c0).
  { apply base_phase_shaped in Hbase. split; [auto|]. split; [auto|]. tauto. }
  apply (for_sim (CKY_same_symbols n)); [|exact H0].
  intros len a b Hlen Hab. apply in_range_iff in Hlen.
  apply (for_sim (CKY_same_symbols n)); [|exact Hab].
  intros i a1 b1 Hi Hab1. apply in_range_iff in Hi.
  apply (for_sim (CKY_same_symbols n)); [|exact Hab1].
  intros k a2 b2 Hk Hab2. apply in_range_iff in Hk.
  apply recursive_step_sim; auto; lia.
Qed.

(** In aggregate mode a step may replace an entry, but every
    symbol a cell holds stays in the cell. *)
Lemma recursive_step_keeps_symbols g n i j k b c c' :
  CKY_shaped n c -> i < k -> k < j -> j <= n ->
  recursive_step g b i j k c = Ok c' ->
  forall i' j' x, In x (CKY_symbols c i' j') -> In x (CKY_symbols c' i' j').
Proof.
  intros Hc Hik Hkj Hjn Hstep.
  destruct (recursive_step_spec g n i j k Hik Hkj Hjn c Hc b)
    as (c1 & Hf & (_ & Ho & _) & Hg & _).
  assert (c1 = c') by congruence. subst c1.
  intros i' j' x Hx.
  destruct (Nat.eq_dec i' i) as [->|Hi];
    [destruct (Nat.eq_dec j' j) as [->|Hj]|].
  - now apply Hg.
  - unfold CKY_symbols. now rewrite Ho by congruence.
  - unfold CKY_symbols. now rewrite Ho by congruence.
Qed.

(** *** Log-probabilities above [-inf] *)

Lemma of_list_In {A} `{Py.Eq A} (xs : list A) (x : A) :
  In x (Py.of_list xs) -> In x xs.
Proof.
  unfold Py.of_list.
  assert (Hgen : forall acc, In x (fold_left (fun s y => Py.add y s) xs acc) ->
                             In x acc \/ In x xs).
  { induction xs as [|y xs IH]; intros acc; simpl; auto.
    intros Hx. destruct (IH _ Hx) as [Ha|Hb]; auto.
    apply add_elim in Ha. destruct Ha as [Ha|[-> _]]; auto. }
  intros Hx. destruct (Hgen [] Hx) as [[]|Hx']; exact Hx'.
Qed.

Lemma reduce_logprob g rhs x lp :
  In (x, lp) (reduce g rhs) ->
  exists r, In r (rules g) /\ rule_logprob r = lp.
Proof.
  unfold reduce. intros H. apply of_list_In in H.
  apply in_map_iff in H. destruct H as (r & [= _ <-] & Hr).
  apply filter_In in Hr. exists r. tauto.
Qed.

Section Above.
Context {Laws : LogProbLaws LP}.
Variable g : ProbabilisticContextFreeGrammar.
Hypothesis Hrules :
  forall r, In r (rules g) -> gt_neg_inf (rule_logprob r) = true.

Lemma store_above (c : Chart) i j s :
  CKY_all_above c ->
  (forall e, In e s -> gt_neg_inf (logprob_of e) = true) ->
  i < List.length (CKYChart._chart c) ->
  j < List.length (nth i (CKYChart._chart c) []) ->
  CKY_all_above (CKYChart.store c i j s).
Proof.
  intros Hc Hs Hi Hj i' j' e He.
  destruct (Nat.eq_dec i' i) as [->|Hi'];
    [destruct (Nat.eq_dec j' j) as [->|Hj']|].
  - rewrite cell_store_eq in He by auto. auto.
  - rewrite cell_store_neq in He by congruence. eapply Hc; eauto.
  - rewrite cell_store_neq in He by congruence. eapply Hc; eauto.
Qed.

Lemma chart_add_above (c c' : Chart) i j e :
  CKY_all_above c -> gt_neg_inf (logprob_of e) = true ->
  chart_add c i j e = Ok c' -> CKY_all_above c'.
Proof.
  intros Hc He H. apply chart_add_Ok in H. destruct H as (Hi & Hj & ->).
  apply store_above; auto.
  intros x Hx. apply add_elim in Hx. destruct Hx as [Hx|[-> _]]; auto.
  eapply Hc; eauto.
Qed.

Lemma chart_remove_above (c c' : Chart) i j e :
  CKY_all_above c -> chart_remove c i j e = Ok c' -> CKY_all_above c'.
Proof.
  unfold chart_remove. intros Hc H.
  apply bind_Ok in H. destruct H as (s & Hs & H).
  apply getitem_Ok in Hs. destruct Hs as (Hi & Hj & ->).
  apply bind_Ok in H. destruct H as (s' & Hs' & H). injection H as <-.
  unfold Py.remove in Hs'. destruct (Py.mem e _); [|discriminate].
  injection Hs' as <-. apply store_above; auto.
  intros x Hx. apply filter_In in Hx. eapply Hc. apply Hx.
Qed.

Lemma combine_above b i j l r parent lp (c c' : Chart) :
  CKY_all_above c ->
  gt_neg_inf (logprob_of l) = true -> gt_neg_inf (logprob_of r) = true ->
  gt_neg_inf lp = true ->
  combine b i j l r parent lp c = Ok c' -> CKY_all_above c'.
Proof.
  intros Hc Hl Hr Hlp. unfold combine.
  assert (He : gt_neg_inf (lp_add (lp_add lp (logprob_of l)) (logprob_of r))
               = true) by (repeat apply lp_add_gt; auto).
  destruct b; [now apply chart_add_above|].
  intros H. apply bind_Ok in H. destruct H as (s & Hs & H).
  apply getitem_Ok in Hs. destruct Hs as (_ & _ & ->).
  destruct (filter _ (CKYChart.cell c i j)) as [|existing rest] eqn:Ef.
  - revert H. now apply chart_add_above.
  - apply bind_Ok in H. destruct H as (c1 & H1 & H).
    assert (Hex : In existing (CKYChart.cell c i j)).
    { assert (H' : In existing (existing :: rest)) by now left.
      rewrite <- Ef in H'. apply filter_In in H'. tauto. }
    revert H. apply chart_add_above.
    + eapply chart_remove_above; eauto.
    + simpl. apply logsumexp_gt; [discriminate|].
      repeat constructor; auto. eapply Hc; eauto.
Qed.

Lemma recursive_step_above b i j k (c c' : Chart) :
  CKY_all_above c -> recursive_step g b i j k c = Ok c' ->
  CKY_all_above c'.
Proof.
  unfold recursive_step. intros Hc H.
  apply bind_Ok in H. destruct H as (lefts & Hl & H).
  apply getitem_Ok in Hl. destruct Hl as (_ & _ & ->).
  revert H. apply for_inv; auto.
  intros l c1 c2 Hl H1 H.
  apply bind_Ok in H. destruct H as (rights & Hr & H).
  apply getitem_Ok in Hr. destruct Hr as (_ & _ & ->).
  revert H. apply for_inv; auto.
  intros r c3 c4 Hr H3. apply for_inv; auto.
  intros [parent lp] c5 c6 Hp H5. apply combine_above; auto.
  - eapply Hc; eauto.
  - eapply H1; eauto.
  - apply reduce_logprob in Hp. destruct Hp as (ru & Hru & <-). auto.
Qed.

Lemma cell_init n i j : CKYChart.cell (@CKYChart.__init__ CKYChartEntry n) i j = [].
Proof.
  unfold CKYChart.cell, CKYChart.__init__. simpl.
  assert (Hrow : forall (cols : list nat) m,
             nth m (map (fun _ : nat => @nil CKYChartEntry) cols) [] = []).
  { induction cols as [|x cols IH]; intros [|m]; simpl; auto. }
  assert (Hrows : forall (cols rows : list nat) a,
             nth j (nth a (map (fun _ : nat =>
                                  map (fun _ : nat => @nil CKYChartEntry) cols)
                               rows) []) [] = []).
  { intros cols. induction rows as [|x rows IH]; intros [|a]; simpl; auto;
      destruct j; reflexivity. }
  apply Hrows.
Qed.

Lemma fill_chart_above s b c :
  _fill_chart g s b = Ok c -> CKY_all_above c.
Proof.
  unfold _fill_chart. intros H.
  apply bind_Ok in H. destruct H as (c0 & H0 & H).
  assert (Hc0 : CKY_all_above c0).
  { revert H0. apply for_inv.
    - intros j c1 c2 _ H1 Hb. unfold base_step in Hb.
      apply bind_Ok in Hb. destruct Hb as (w & _ & Hb). revert Hb.
      apply for_inv; auto.
      intros [sym lp] c3 c4 Hp H3 Hb.
      apply bind_Ok in Hb. destruct Hb as (w' & _ & Hb).
      revert Hb. apply chart_add_above; auto. simpl.
      apply reduce_logprob in Hp. destruct Hp as (ru & Hru & <-). auto.
    - intros i j e He. rewrite cell_init in He. destruct He. }
  revert H. apply for_inv; auto.
  intros len c1 c2 _ H1. apply for_inv; auto.
  intros i c3 c4 _ H3. apply for_inv; auto.
  intros k c5 c6 _ H5. now apply recursive_step_above.
Qed.

Lemma filter_symbol_nonempty (x : string) (cell : list CKYChartEntry) :
  filter (fun e => eqb (symbol e) x) cell <> [] <-> In x (map symbol cell).
Proof.
  split.
  - intros H. destruct (filter _ cell) as [|e rest] eqn:Ef; [congruence|].
    assert (He : In e (e :: rest)) by now left.
    rewrite <- Ef in He. apply filter_In in He. destruct He as [He Hs].
    apply eqb_eq in Hs. subst x. now apply in_map.
  - intros H Hf. apply in_map_iff in H. destruct H as (e & <- & He).
    assert (Hin : In e (filter (fun e' => eqb (symbol e') (symbol e)) cell)).
    { apply filter_In. split; auto. now apply eqb_eq. }
    rewrite Hf in Hin. destruct Hin.
Qed.

(** With rules of log-probability above [-inf], the recogniser
    returns a value above [-inf] exactly when the parser returns
    a non-empty list. *)
Lemma recognize_iff_parse s :
  (exists lp, PCKY_recognize g s = Ok lp /\ gt_neg_inf lp = true) <->
  (exists l, PCKY_parse g s = Ok l /\ l <> []).
Proof.
  unfold PCKY_recognize, PCKY_parse.
  destruct (fill_chart_modes g s)
    as [(c1 & c2 & H1 & H2 & Hs1 & Hs2 & Hs)|(e & H1 & H2)].
  2:{ rewrite H1, H2. simpl.
      split; [intros (? & ? & _) | intros (? & ? & _)]; discriminate. }
  pose proof (fill_chart_above _ _ _ H1) as Habove.
  rewrite H1, H2. cbn [Py.bind].
  destruct (List.length s) as [|n] eqn:En.
  { simpl. split; [intros (? & ? & _) | intros (? & ? & _)]; discriminate. }
  change 0%Z with (Z.of_nat 0).
  rewrite (getitem_cell (S n) c1 0 (S n) Hs1) by lia.
  rewrite (getitem_cell (S n) c2 0 (S n) Hs2) by lia. cbn [Py.bind].
  set (start := start_variable g).
  pose proof (filter_symbol_nonempty start (CKYChart.cell c1 0 (S n))) as N1.
  pose proof (filter_symbol_nonempty start (CKYChart.cell c2 0 (S n))) as N2.
  specialize (Hs 0 (S n) start). unfold CKY_symbols in Hs.
  destruct (filter _ (CKYChart.cell c1 0 (S n))) as [|e1 l1] eqn:E1.
  - simpl. split.
    + intros (lp & [= <-] & Hgt). rewrite neg_inf_not_gt in Hgt.
      discriminate.
    + intros (l & [= <-] & Hne). exfalso. apply Hne.
      destruct (filter _ (CKYChart.cell c2 0 (S n))) as [|e2 l2];
        [reflexivity|].
      exfalso.
      assert (Hin : In start (map symbol (CKYChart.cell c1 0 (S n))))
        by (apply Hs; apply N2; discriminate).
      apply N1 in Hin. now apply Hin.
  - assert (Hin : In start (map symbol (CKYChart.cell c2 0 (S n)))).
    { apply Hs. apply N1. discriminate. }
    apply N2 in Hin. split.
    + intros _. eexists. split; [reflexivity|].
      destruct (filter _ (CKYChart.cell c2 0 (S n))); [congruence|].
      discriminate.
    + intros _. eexists. split; [reflexivity|].
      apply logsumexp_gt; [discriminate|].
      apply Forall_forall. intros x Hx.
      assert (Hx' : In x (map logprob_of (e1 :: l1))) by exact Hx.
      apply in_map_iff in Hx'. destruct Hx' as (e & <- & He).
      rewrite <- E1 in He. apply filter_In in He.
      eapply Habove. apply He.
Qed.
End Above.

End WithLogProb.
End PCKYAgreement.

(** ** Exact log-probabilities obey the laws *)

#[export] Instance Exact_laws : LogProbLaws Exact.ExactLogProb.
Proof.
  split.
  - reflexivity.
  - intros [na da] [nb db]. simpl. unfold Exact.positive_, Exact.mul. simpl.
    rewrite !N.ltb_lt. lia.
  - intros l Hne Hall. simpl. unfold Exact.positive_.
    destruct l as [|[n d] l]; [congruence|].
    inversion Hall as [|? ? Hx _]; subst. simpl in *.
    unfold Exact.positive_ in Hx. simpl in Hx.
    rewrite N.ltb_lt in *. lia.
Qed.

(** ** The Earley recogniser *)


(** C5.  For every grammar and every input there is a number of
    passes within which each closure loop has stopped: the filler as a
    whole, and the loop at any position of any chart the filler can
    hold.  Left-recursive and empty rules are not excluded. *)
Theorem Earley_closure_terminates
        (g : ContextFreeGrammar.t) (string : list string) (fuel : nat) :
  Earley.enough_fuel g string <= fuel ->
  (exists r, Earley._fill_chart_fuel fuel g string = Some r) /\
  (forall i chart,
      i <= List.length string -> Earley_chart_ok g string chart ->
      exists r, Earley.closure fuel g string i chart = Some r).
Proof.
  intros Hf. split.
  - destruct (EarleyTermination.fill_chart_fuel_stops g string fuel Hf)
      as (r & Hr & _). eauto.
  - intros i chart Hi Hc.
    destruct (EarleyTermination.closure_stops g string i Hi fuel chart Hc)
      as (r & Hr & _); [|eauto].
    unfold Earley.enough_fuel in Hf. lia.
Qed.

Lemma Earley_closure_terminates_witness :
  Earley.enough_fuel Examples.left_recursive ["a"; "a"]
  <= Earley.enough_fuel Examples.left_recursive ["a"; "a"] /\
  exists r,
    Earley._fill_chart_fuel
      (Earley.enough_fuel Examples.left_recursive ["a"; "a"])
      Examples.left_recursive ["a"; "a"] = Some r.
Proof.
  split; [apply le_n|].
  exact (proj1 (Earley_closure_terminates Examples.left_recursive ["a"; "a"]
                  _ (le_n _))).
Defined.

(** The loop stops on a left-recursive grammar with the expected
    answer, and on a grammar whose empty rule gets completed it stops
    with the RuntimeError of a set that grew while [_complete] was
    iterating over it. *)
Example left_recursive_recognized :
  Earley.Earley_recognize Examples.left_recursive ["a"; "a"] = Ok true.
Proof. vm_compute. reflexivity. Qed.

Example nullable_raises :
  Earley._fill_chart Examples.nullable []
  = Raise (RuntimeError "Set changed size during iteration").
Proof. vm_compute. reflexivity. Qed.

(** ** The "unhappiness" scenario *)


(** The plain CKY parser cannot run the scenario: its [_fill_chart]
    is the stub of the notes, which raises NotImplementedError in both
    modes. *)
Example unhappiness_plain_CKY :
  forall parses,
    CKY.CKY_recognize Examples.unhappiness ["un"; "happy"; "ness"]
    = Raise NotImplementedError /\
    CKY.CKY_parse parses Examples.unhappiness ["un"; "happy"; "ness"]
    = Raise NotImplementedError.
Proof. intros parses. split; reflexivity. Qed.

(** The CKY filler that the notes do give, the probabilistic one, never
    applies the unary rule [Word -> N]: on the same input it derives
    [N] for the whole span and not [Word]. *)
Example unhappiness_probabilistic_CKY :
  PCFG.PCKY_recognize Examples.unhappiness_pcfg ["un"; "happy"; "ness"]
  = Ok (@neg_inf Exact.ExactLogProb) /\
  PCFG.PCKY_parse Examples.unhappiness_pcfg ["un"; "happy"; "ness"] = Ok [].
Proof. split; vm_compute; reflexivity. Qed.

(** ** Recognition and parsing agree *)

(** C1, as the code has it.  For every grammar and input: the Earley
    recogniser returns true exactly when the Earley parser returns a
    non-empty set of trees (whatever tree the reconstruction builds
    for an accepting entry); the plain CKY parser returns in neither
    mode; and the probabilistic CKY recogniser returns a
    log-probability above [-inf] exactly when the probabilistic parser
    returns a non-empty list, provided every rule of the grammar has a
    log-probability above [-inf] and sums of such log-probabilities
    stay above [-inf]. *)
Theorem recognition_parse_agreement :
  (forall construct g s,
      Earley.Earley_recognize g s = Ok true <->
      exists trees, Earley.Earley_parse construct g s = Ok trees /\ trees <> []) /\
  (forall parses g s,
      CKY.CKY_recognize g s = Raise NotImplementedError /\
      CKY.CKY_parse parses g s = Raise NotImplementedError) /\
  (forall (LP : LogProb) (Laws : LogProbLaws LP)
          (g : PCFG.ProbabilisticContextFreeGrammar) (s : list string),
      (forall r, In r (PCFG.rules g) ->
                 gt_neg_inf (PCFG.rule_logprob r) = true) ->
      ((exists lp, PCFG.PCKY_recognize g s = Ok lp /\ gt_neg_inf lp = true) <->
       (exists l, PCFG.PCKY_parse g s = Ok l /\ l <> []))).
Proof.
  split; [|split].
  - intros construct g s. apply EarleyFacts.Earley_recognize_iff_parse.
  - intros parses g s. split; reflexivity.
  - intros LP Laws g s Hrules. now apply PCKYAgreement.recognize_iff_parse.
Qed.

Lemma recognition_parse_agreement_witness :
  (forall r, In r (PCFG.rules Examples.two_derivations) ->
             gt_neg_inf (PCFG.rule_logprob r) = true) /\
  (exists l, PCFG.PCKY_parse Examples.two_derivations ["a"; "b"] = Ok l /\ l <> []) /\
  (exists lp, PCFG.PCKY_recognize Examples.two_derivations ["a"; "b"] = Ok lp /\
              gt_neg_inf lp = true).
Proof.
  assert (Hrules : forall r, In r (PCFG.rules Examples.two_derivations) ->
                             gt_neg_inf (PCFG.rule_logprob r) = true).
  { simpl. intros r [<-|[<-|[<-|[<-|[<-|[]]]]]]; reflexivity. }
  assert (Hparse : exists l, PCFG.PCKY_parse Examples.two_derivations ["a"; "b"]
                             = Ok l /\ l <> []).
  { eexists. split; [vm_compute; reflexivity | discriminate]. }
  split; [exact Hrules | split; [exact Hparse|]].
  exact (proj2 (proj2 (proj2 recognition_parse_agreement)
                  Exact.ExactLogProb Exact_laws Examples.two_derivations
                  ["a"; "b"] Hrules) Hparse).
Defined.

(** C1 as stated fails for the probabilistic parser: with a rule of
    probability 0, that is of log-probability [-inf], the grammar is
    accepted by the constructor, "a" has a parse, and the recogniser
    returns [-inf]. *)
Lemma recognition_parse_counterexample :
  PCFG.__init__ (LP := Exact.ExactLogProb) (fun _ _ _ => Ok tt) ["a"; "b"] ["S"]
                [Examples.prule "S" ["a"] 0 1; Examples.prule "S" ["b"] 1 1] "S"
  = Ok Examples.zero_probability_rule /\
  (exists l, PCFG.PCKY_parse Examples.zero_probability_rule ["a"] = Ok l /\
             l <> []) /\
  PCFG.PCKY_recognize Examples.zero_probability_rule ["a"]
  = Ok (@neg_inf Exact.ExactLogProb) /\
  @gt_neg_inf Exact.ExactLogProb neg_inf = false.
Proof.
  split; [vm_compute; reflexivity|].
  split; [eexists; split; [vm_compute; reflexivity | discriminate]|].
  split; vm_compute; reflexivity.
Qed.

(** ** Charts only grow, except for aggregated entries *)

(** C2, as the code has it.  Predict, scan and complete of the Earley
    parser only add entries: whatever a position holds before, it
    holds after; completing an entry yields another entry, with the
    dot one further, and leaves the entry it started from in the
    chart.  The base step of the probabilistic CKY filler and, with
    [keep_backtraces=True], its recursive step only add entries.  With
    [keep_backtraces=False] the recursive step replaces the entry of a
    non-terminal by one with the summed probability: entries are
    removed, but every symbol a cell holds stays in the cell. *)
Theorem chart_filling_only_adds :
  (forall g c e p c', Earley._predict g c e p = Ok c' -> Earley_extends c c') /\
  (forall s c e p c', Earley._scan s c e p = Ok c' -> Earley_extends c c') /\
  (forall c e p c', Earley._complete c e p = Ok c' -> Earley_extends c c') /\
  (forall self entry edge completed,
      Earley.complete self entry edge = Ok completed ->
      Earley.dot (Earley.dotted_rule completed)
      = Earley.dot (Earley.dotted_rule self) + 1 /\ completed <> self) /\
  (forall (LP : LogProb) g s j c c',
      PCFG.base_step g s j c = Ok c' -> CKY_extends c c') /\
  (forall (LP : LogProb) g i j k c c',
      PCFG.recursive_step g true i j k c = Ok c' -> CKY_extends c c') /\
  (forall (LP : LogProb) g n i j k c c',
      CKY_shaped n c -> i < k -> k < j -> j <= n ->
      PCFG.recursive_step g false i j k c = Ok c' ->
      forall i' j' x, In x (CKY_symbols c i' j') -> In x (CKY_symbols c' i' j')).
Proof.
  split; [|split; [|split; [|split; [|split; [|split]]]]].
  - intros g c e p c'. apply EarleyFacts.predict_extends.
  - intros s c e p c'. apply EarleyFacts.scan_extends.
  - intros c e p c'. apply EarleyFacts.complete_extends.
  - intros self entry edge completed H. unfold Earley.complete in H.
    apply bind_Ok in H. destruct H as (sym & _ & H). injection H as <-.
    simpl. split; [reflexivity|].
    intros Heq. apply (f_equal (fun e => Earley.dot (Earley.dotted_rule e))) in Heq.
    simpl in Heq. lia.
  - intros LP g s j c c'. apply PCKYFacts.base_step_extends.
  - intros LP g i j k c c'. apply PCKYFacts.recursive_step_backtraces_extends.
  - intros LP g n i j k c c' Hc Hik Hkj Hjn H.
    exact (PCKYAgreement.recursive_step_keeps_symbols g n i j k false c c'
             Hc Hik Hkj Hjn H).
Qed.

Lemma chart_filling_only_adds_witness :
  exists c c',
    Earley.initial_chart Examples.unhappiness ["un"; "happy"; "ness"] = Ok c /\
    Earley._predict Examples.unhappiness c
      (Earley.mkEntry (Earley.mkDotted (mkRule "Word" ["N"]) (0, 0) 0) []) 0
    = Ok c' /\
    Earley_extends c c'.
Proof.
  eexists. eexists. split; [vm_compute; reflexivity|].
  refine ((fun E => conj E (proj1 chart_filling_only_adds _ _ _ _ _ E)) _).
  vm_compute. reflexivity.
Defined.

(** C2 as stated fails in aggregate mode: filling the chart for
    "a b", where [S -> A B] and [S -> A C] both apply, the second
    combination removes the entry the first one added. *)
Lemma aggregate_mode_counterexample :
  Py.for_ (Py.range 1 3) (PCFG.base_step Examples.two_derivations ["a"; "b"])
          (CKYChart.__init__ 2) = Ok Examples.ab_base /\
  PCFG.combine false 0 2 Examples.entry_A Examples.entry_B
               "S" (Exact.mkProb 1 2) Examples.ab_base
  = Ok Examples.ab_first /\
  PCFG.combine false 0 2 Examples.entry_A Examples.entry_C
               "S" (Exact.mkProb 1 2) Examples.ab_first
  = Ok Examples.ab_second /\
  PCFG._fill_chart Examples.two_derivations ["a"; "b"] false
  = Ok Examples.ab_second /\
  In (Examples.pentry "S" 1 2 []) (CKYChart.cell Examples.ab_first 0 2) /\
  ~ In (Examples.pentry "S" 1 2 []) (CKYChart.cell Examples.ab_second 0 2).
Proof.
  split; [vm_compute; reflexivity|].
  split; [vm_compute; reflexivity|].
  split; [vm_compute; reflexivity|].
  split; [vm_compute; reflexivity|].
  split; [left; reflexivity|].
  intros [H|[]]. discriminate.
Qed.

(** ** The empty input *)




Example empty_input_rejected :
  Earley.Earley_recognize Examples.left_recursive [] = Ok false.
Proof. vm_compute. reflexivity. Qed.



(** ** Slices *)

Module SliceFacts.

Lemma slice_length {A} (l : list A) (i j : nat) :
  i <= j -> j <= List.length l -> List.length (slice l i j) = j - i.
Proof.
  intros Hij Hj. unfold slice. rewrite length_firstn, length_skipn. lia.
Qed.

Lemma firstn_plus {A} (a b : nat) (l : list A) :
  firstn (a + b) l = firstn a l ++ firstn b (skipn a l).
Proof.
  revert l. induction a as [|a IH]; intros [|x l]; simpl; auto.
  - now rewrite firstn_nil.
  - now rewrite IH.
Qed.

Lemma slice_app {A} (l : list A) (i k j : nat) :
  i <= k -> k <= j -> slice l i k ++ slice l k j = slice l i j.
Proof.
  intros Hik Hkj. unfold slice.
  replace (j - i) with ((k - i) + (j - k)) by lia.
  rewrite firstn_plus. f_equal. rewrite skipn_skipn.
  replace (k - i + i) with k by lia. reflexivity.
Qed.

Lemma slice_full {A} (l : list A) : slice l 0 (List.length l) = l.
Proof. unfold slice. simpl. rewrite Nat.sub_0_r. apply firstn_all. Qed.

Lemma slice_one {A} (l : list A) (i : nat) (w : A) :
  nth_error l i = Some w -> slice l i (i + 1) = [w].
Proof.
  unfold slice. replace (i + 1 - i) with 1 by lia.
  revert i. induction l as [|x l IH]; intros [|i] H; simpl in *;
    try discriminate.
  - now injection H as ->.
  - now apply IH.
Qed.

Lemma app_eq_length {A} (a b u v : list A) :
  a ++ b = u ++ v -> List.length a = List.length u -> a = u /\ b = v.
Proof.
  revert u. induction a as [|x a IH]; intros [|y u] H Hl; simpl in *;
    try discriminate; auto.
  injection H as -> H. injection Hl as Hl.
  destruct (IH u H Hl) as [-> ->]. auto.
Qed.

Lemma slice_split {A} (l : list A) (i j : nat) (u v : list A) :
  i <= j -> j <= List.length l -> slice l i j = u ++ v ->
  u = slice l i (i + List.length u) /\ v = slice l (i + List.length u) j /\
  i + List.length u + List.length v = j.
Proof.
  intros Hij Hj H.
  assert (Hlen : List.length u + List.length v = j - i).
  { rewrite <- (slice_length l i j Hij Hj), H. now rewrite length_app. }
  rewrite <- (slice_app l i (i + List.length u) j) in H by lia.
  apply app_eq_length in H.
  - destruct H as [H1 H2]. repeat split; auto; lia.
  - rewrite slice_length by lia. lia.
Qed.

End SliceFacts.

(** ** Loops *)

Module LoopFacts.

(** As [for_spec], for a body that may rely on what the loop has
    established for the elements it has already gone over. *)
Lemma for_spec_hist {A S} (P : S -> Prop) (R : S -> S -> Prop)
      (Q : A -> S -> Prop) (xs : list A) (body : A -> S -> Result S) :
  (forall s, R s s) ->
  (forall a b c, R a b -> R b c -> R a c) ->
  (forall x s s', Q x s -> R s s' -> Q x s') ->
  (forall pre x post s,
      xs = pre ++ x :: post -> P s -> (forall y, In y pre -> Q y s) ->
      exists s', body x s = Ok s' /\ P s' /\ R s s' /\ Q x s') ->
  forall s, P s ->
            exists s', Py.for_ xs body s = Ok s' /\ P s' /\ R s s' /\
                       forall x, In x xs -> Q x s'.
Proof.
  intros Rrefl Rtrans Qmono Hb.
  assert (Hgen : forall post pre s,
             xs = pre ++ post -> P s -> (forall y, In y pre -> Q y s) ->
             exists s', Py.for_ post body s = Ok s' /\ P s' /\ R s s' /\
                        forall x, In x post -> Q x s').
  { induction post as [|x post IH]; intros pre s E Hs Hpre.
    - exists s. simpl. repeat split; auto. intros x [].
    - destruct (Hb pre x post s E Hs Hpre) as (s1 & H1 & P1 & R1 & Q1).
      destruct (IH (pre ++ [x]) s1) as (s' & H' & P' & R' & Q'); auto.
      + rewrite <- app_assoc. exact E.
      + intros y Hy. apply in_app_or in Hy. destruct Hy as [Hy|[<-|[]]]; eauto.
      + exists s'. simpl. rewrite H1. simpl. repeat split; eauto.
        intros y [<-|Hy]; eauto. }
  intros s Hs. apply (Hgen xs [] s); auto. intros y [].
Qed.

(** A loop whose body keeps [P] and, under [P], establishes [Q x] and
    preserves every [Q y]. *)
Lemma for_cover_inv {A S} (P : S -> Prop) (Q : A -> S -> Prop) (xs : list A)
      (body : A -> S -> Result S) :
  (forall x s s', In x xs -> P s -> body x s = Ok s' -> P s' /\ Q x s') ->
  (forall x y s s', Q x s -> P s -> body y s = Ok s' -> Q x s') ->
  forall s s', P s -> Py.for_ xs body s = Ok s' ->
               P s' /\ forall x, In x xs -> Q x s'.
Proof.
  intros Hb Hq. induction xs as [|y xs IH]; intros s s' Hs H; simpl in H.
  - injection H as <-. split; auto. intros x [].
  - apply bind_Ok in H. destruct H as (s1 & H1 & H).
    destruct (Hb y s s1 (or_introl eq_refl) Hs H1) as [P1 Q1].
    assert (Hkeep : Q y s').
    { assert (HPQ : P s' /\ Q y s'); [|tauto].
      apply (for_inv (fun t => P t /\ Q y t) xs body) with (s := s1);
        [|split; assumption|exact H].
      intros x t t' Hx [Pt Qt] Ht. split.
      - apply (Hb x t t'); auto. now right.
      - eapply Hq; eauto. }
    destruct (IH (fun a b c Ha => Hb a b c (or_intror Ha)) s1 s' P1 H)
      as [P' Q'].
    split; auto. intros x [<-|Hx]; auto.
Qed.

Lemma seq_split_In (a m : nat) (pre post : list nat) (x : nat) :
  seq a m = pre ++ x :: post -> forall y, a <= y < x -> In y pre.
Proof.
  revert a m. induction pre as [|p pre IH]; intros a m E y Hy.
  - destruct m as [|m]; simpl in E; [discriminate|]. injection E as <- _. lia.
  - destruct m as [|m]; simpl in E; [discriminate|]. injection E as <- E.
    destruct (Nat.eq_dec y a) as [->|Hne]; [now left|].
    right. apply (IH _ _ E). lia.
Qed.

End LoopFacts.


(** ** The probabilistic CKY filler builds the derivations of the input *)

Module PCKYCorrect.
Import PCFG CKYChartFacts PCKYFacts PCKYAgreement SliceFacts LoopFacts.

Section WithLogProb.
Context {LP : LogProb}.
Existing Instance PCFG.CKYChartEntry_Eq.
Existing Instance PCFG.logprob_Eq.

(** *** [reduce] *)

Lemma reduce_rule g rhs x lp :
  In (x, lp) (reduce g rhs) ->
  exists r, In r (rules g) /\ right_side (rule r) = rhs /\
            left_side (rule r) = x /\ rule_logprob r = lp.
Proof.
  unfold reduce. intros H. apply of_list_In in H.
  apply in_map_iff in H. destruct H as (r & [= <- <-] & Hr).
  apply filter_In in Hr. destruct Hr as [Hr Hrhs]. apply eqb_eq in Hrhs.
  exists r. auto.
Qed.

Lemma of_list_cover {A} `{Py.Eq A} (xs : list A) (x : A) :
  In x xs -> exists y, In y (Py.of_list xs) /\ (y = x \/ eqb x y = true).
Proof.
  unfold Py.of_list.
  assert (Hgen : forall acc,
             In x xs \/ (exists y, In y acc /\ (y = x \/ eqb x y = true)) ->
             exists y, In y (fold_left (fun s z => Py.add z s) xs acc) /\
                       (y = x \/ eqb x y = true)).
  { induction xs as [|z xs IH]; intros acc Hx; simpl.
    - destruct Hx as [[]|Hx]. exact Hx.
    - apply IH. destruct Hx as [[->|Hx]|(y & Hy & Hxy)].
      + right. unfold Py.add. destruct (Py.mem x acc) eqn:Em.
        * unfold Py.mem in Em. apply existsb_exists in Em.
          destruct Em as (y & Hy & Heq). exists y. auto.
        * exists x. split; [apply in_or_app; right; now left | now left].
      + now left.
      + right. exists y. split; [now apply In_add | exact Hxy]. }
  intros Hx. apply Hgen. now left.
Qed.

Lemma reduce_cover g r :
  In r (rules g) ->
  exists lp, In (left_side (rule r), lp) (reduce g (right_side (rule r))).
Proof.
  intros Hr. unfold reduce.
  destruct (of_list_cover
              (map (fun r0 => (left_side (rule r0), rule_logprob r0))
                   (filter (fun r0 => eqb (right_side (rule r0))
                                          (right_side (rule r))) (rules g)))
              (left_side (rule r), rule_logprob r))
    as ([x lp] & Hy & Hxy).
  - apply in_map_iff. exists r. split; [reflexivity|].
    apply filter_In. split; [exact Hr | now apply eqb_eq].
  - exists lp. destruct Hxy as [[= -> ->]|Heq]; [exact Hy|].
    unfold eqb, Py.prod_Eq in Heq. simpl in Heq.
    apply andb_true_iff in Heq. destruct Heq as [Heq _].
    apply eqb_eq in Heq. now rewrite Heq.
Qed.

(** *** Entries and the trees they stand for *)

Lemma build_tree_eqb : forall e e' : CKYChartEntry,
    eqb e e' = true -> _build_tree e = _build_tree e'.
Proof.
  unfold eqb, CKYChartEntry_Eq.
  fix IH 1. intros [s lp bs] [s' lp' bs']. simpl. intros H.
  apply andb_true_iff in H. destruct H as [Hs Hb].
  apply String.eqb_eq in Hs. subst s'. f_equal.
  revert bs' Hb. induction bs as [|b bs IHbs]; intros [|b' bs'] Hb;
    try discriminate; [reflexivity|].
  apply andb_true_iff in Hb. destruct Hb as [H1 H2]. simpl. f_equal.
  - now apply IH.
  - now apply IHbs.
Qed.

Lemma build_tree_inj : forall e e' : CKYChartEntry,
    _build_tree e = _build_tree e' -> eqb e e' = true.
Proof.
  unfold eqb, CKYChartEntry_Eq.
  fix IH 1. intros [s lp bs] [s' lp' bs']. simpl. intros H.
  injection H as -> Hb. rewrite String.eqb_refl. simpl.
  revert bs' Hb. induction bs as [|b bs IHbs]; intros [|b' bs'] Hb;
    try discriminate; [reflexivity|].
  simpl in Hb. injection Hb as H1 H2.
  rewrite (IH b b' H1). simpl. now apply IHbs.
Qed.

Lemma build_tree_symbol (e : CKYChartEntry) :
  exists cs, _build_tree e = Node (symbol e) cs.
Proof. destruct e as [s lp bs]. simpl. eauto. Qed.

Lemma add_cover (e : CKYChartEntry) (s : list CKYChartEntry) :
  exists e', In e' (Py.add e s) /\ eqb e e' = true.
Proof.
  unfold Py.add. destruct (Py.mem e s) eqn:Em.
  - unfold Py.mem in Em. apply existsb_exists in Em. exact Em.
  - exists e. split; [apply in_or_app; right; now left | apply entry_eqb_refl].
Qed.

Lemma tree_nonempty g t A w lp : CKY_tree g t A w lp -> w <> [].
Proof.
  induction 1; [discriminate|].
  destruct u; [contradiction | discriminate].
Qed.

Lemma tree_root g t A w lp :
  CKY_tree g t A w lp -> exists cs, t = Node A cs.
Proof. destruct 1; eauto. Qed.

Lemma tree_derives g t A w lp : CKY_tree g t A w lp -> CKY_derives g A w.
Proof.
  induction 1; [now apply CKY_derives_token|].
  eapply CKY_derives_pair; eauto.
Qed.

Lemma derives_tree g A w :
  CKY_derives g A w -> exists t lp, CKY_tree g t A w lp.
Proof.
  induction 1 as [r w Hr Hw | r B C u v Hr Hw _ (tl & lpl & Hl) _ (tr & lpr & Ht)].
  - eexists. eexists. now apply CKY_tree_token.
  - eexists. eexists. eapply CKY_tree_pair; eauto.
Qed.

(** A tree over one token is the tree of a rule for the token. *)
Lemma tree_token_inv g t A w lp :
  CKY_tree g t A [w] lp ->
  exists r, In r (rules g) /\ right_side (rule r) = [w] /\
            left_side (rule r) = A /\ t = Node A [Node w []].
Proof.
  intros H. remember [w] as ws eqn:E. destruct H as [r w' Hr Hw|r B C u v tl tr lpl lpr Hr Hw Hl Ht].
  - injection E as ->. exists r. auto.
  - exfalso. apply tree_nonempty in Hl. apply tree_nonempty in Ht.
    destruct u as [|a [|b u]]; try contradiction; simpl in E.
    + injection E as _ E. now subst v.
    + discriminate.
Qed.

(** A tree over a longer span splits into two trees over adjacent
    spans. *)
Lemma tree_pair_inv g s t A i j lp :
  i <= j -> j <= List.length s -> 2 <= j - i ->
  CKY_tree g t A (slice s i j) lp ->
  exists r B C tl tr lpl lpr k,
    i < k /\ k < j /\
    In r (rules g) /\ right_side (rule r) = [B; C] /\
    left_side (rule r) = A /\ t = Node A [tl; tr] /\
    CKY_tree g tl B (slice s i k) lpl /\ CKY_tree g tr C (slice s k j) lpr /\
    lp = lp_add (lp_add (rule_logprob r) lpl) lpr.
Proof.
  intros Hij Hj Hlen H. remember (slice s i j) as ws eqn:E.
  destruct H as [r w' Hr Hw|r B C u v tl tr lpl lpr Hr Hw Hl Ht].
  - exfalso. apply (f_equal (@List.length _)) in E.
    rewrite slice_length in E by lia. simpl in E. lia.
  - symmetry in E. apply slice_split in E; auto.
    destruct E as (Eu & Ev & Elen).
    pose proof (tree_nonempty _ _ _ _ _ Hl) as Nu.
    pose proof (tree_nonempty _ _ _ _ _ Ht) as Nv.
    exists r, B, C, tl, tr, lpl, lpr, (i + List.length u).
    rewrite <- Eu, <- Ev.
    destruct u; [contradiction|]. destruct v; [contradiction|]. simpl in *.
    repeat split; auto; lia.
Qed.

(** *** Every entry stands for a derivation tree *)

Lemma sound_init g s : CKY_entries_sound g s (CKYChart.__init__ (List.length s)).
Proof. intros i j e He. rewrite cell_init in He. destruct He. Qed.

Lemma chart_add_entries_sound g s c i j e c' :
  CKY_entries_sound g s c ->
  i < j <= List.length s ->
  CKY_tree g (_build_tree e) (symbol e) (slice s i j) (logprob_of e) ->
  chart_add c i j e = Ok c' -> CKY_entries_sound g s c'.
Proof.
  intros Hc Hij He H. apply chart_add_Ok in H. destruct H as (Hi & Hj & ->).
  intros i' j' e' He'.
  destruct (Nat.eq_dec i' i) as [->|Hi'];
    [destruct (Nat.eq_dec j' j) as [->|Hj']|].
  - rewrite cell_store_eq in He' by auto.
    apply add_elim in He'. destruct He' as [He'|[-> _]]; auto.
  - rewrite cell_store_neq in He' by congruence. auto.
  - rewrite cell_store_neq in He' by congruence. auto.
Qed.

Lemma base_step_sound g s j c c' :
  1 <= j -> CKY_entries_sound g s c ->
  base_step g s j c = Ok c' -> CKY_entries_sound g s c'.
Proof.
  intros Hj Hc H. unfold base_step in H.
  apply bind_Ok in H. destruct H as (w & Hw & H).
  pose proof Hw as Hw'.
  apply EarleyTermination.getitem_nat_Ok in Hw'. destruct Hw' as [Hlt Hnth].
  revert H. apply for_inv; auto.
  intros [sym lp] c1 c2 Hp H1 H. rewrite Hw in H. cbn [Py.bind] in H.
  revert H. apply chart_add_entries_sound; auto; [lia|]. simpl.
  apply reduce_rule in Hp. destruct Hp as (r & Hr & Hrhs & <- & <-).
  replace (slice s (j - 1) j) with [w].
  - now apply CKY_tree_token.
  - symmetry. replace j with (j - 1 + 1) at 2 by lia. now apply slice_one.
Qed.

Lemma recursive_step_sound g s i j k c c' :
  CKY_entries_sound g s c ->
  recursive_step g true i j k c = Ok c' -> CKY_entries_sound g s c'.
Proof.
  unfold recursive_step. intros Hc H.
  apply bind_Ok in H. destruct H as (lefts & Hl & H).
  apply getitem_Ok in Hl. destruct Hl as (_ & _ & ->).
  revert H. apply for_inv; auto.
  intros l c1 c2 Hl H1 H.
  apply bind_Ok in H. destruct H as (rights & Hr & H).
  apply getitem_Ok in Hr. destruct Hr as (_ & _ & ->).
  revert H. apply for_inv; auto.
  intros r c3 c4 Hr H3. apply for_inv; auto.
  intros [parent lp] c5 c6 Hp H5. unfold combine.
  destruct (Hc _ _ _ Hl) as [Bl Tl]. destruct (H1 _ _ _ Hr) as [Br Tr].
  apply chart_add_entries_sound; auto; [lia|]. simpl.
  apply reduce_rule in Hp. destruct Hp as (r0 & Hr0 & Hrhs & <- & <-).
  rewrite <- (slice_app s i k j) by lia.
  eapply CKY_tree_pair; eauto.
Qed.

Lemma fill_chart_entries_sound g s c :
  _fill_chart g s true = Ok c -> CKY_entries_sound g s c.
Proof.
  unfold _fill_chart. intros H.
  apply bind_Ok in H. destruct H as (c0 & H0 & H).
  assert (Hc0 : CKY_entries_sound g s c0).
  { revert H0. apply for_inv; [|apply sound_init].
    intros j c1 c2 Hj H1. apply in_range_iff in Hj.
    apply base_step_sound; auto; lia. }
  revert H. apply for_inv; auto.
  intros len c1 c2 _ H1. apply for_inv; auto.
  intros i c3 c4 _ H3. apply for_inv; auto.
  intros k c5 c6 _ H5. now apply recursive_step_sound.
Qed.

(** *** The filler returns *)

Lemma base_step_total g s j c :
  1 <= j <= List.length s -> CKY_shaped (List.length s) c ->
  exists c', base_step g s j c = Ok c' /\ CKY_shaped (List.length s) c'.
Proof.
  intros Hj Hc. unfold base_step. cbv zeta.
  assert (Hw : Py.getitem s (Z.of_nat (j - 1)) = Ok (nth (j - 1) s ""))
    by (apply getitem_nat; lia).
  destruct (for_total (CKY_shaped (List.length s))
              (reduce g [nth (j - 1) s ""])
              (fun '(symbol0, logprob) (chart : Chart) =>
                 w0 <- Py.getitem s (Z.of_nat (j - 1)) ;;
                 chart_add chart (j - 1) j
                           (entry symbol0 logprob [entry w0 lp_zero []])))
    with (s := c) as (c' & H' & S'); [|exact Hc|].
  - intros [sym lp] c1 _ H1. rewrite Hw. cbn [Py.bind].
    rewrite (chart_add_shaped (List.length s)) by (auto; lia).
    eexists. split; [reflexivity|]. now apply store_shaped.
  - exists c'. rewrite Hw at 1. cbn [Py.bind]. auto.
Qed.

Lemma recursive_step_total g n i j k b c :
  i < k -> k < j -> j <= n -> CKY_shaped n c ->
  exists c', recursive_step g b i j k c = Ok c' /\ CKY_shaped n c'.
Proof.
  intros Hik Hkj Hjn Hc.
  destruct (recursive_step_spec g n i j k Hik Hkj Hjn c Hc b)
    as (c' & H & (Hs & _) & _).
  eauto.
Qed.

Lemma fill_chart_total g s b :
  exists c, _fill_chart g s b = Ok c /\ CKY_shaped (List.length s) c.
Proof.
  set (n := List.length s).
  destruct (for_total (S := Chart) (CKY_shaped n) (Py.range 1 (n + 1))
                      (base_step g s))
    with (s := @CKYChart.__init__ CKYChartEntry n) as (c0 & H0 & S0);
    [|apply CKY_init_shaped|].
  { intros j c1 Hj H1. apply in_range_iff in Hj.
    apply base_step_total; [lia | exact H1]. }
  assert (Hrec : exists c,
             Py.for_ (Py.range 2 (n + 1))
               (fun length chart =>
                  Py.for_ (Py.range 0 (n - length + 1))
                    (fun i chart =>
                       Py.for_ (Py.range (i + 1) (i + length))
                               (recursive_step g b i (i + length)) chart)
                    chart) c0 = Ok c /\ CKY_shaped n c).
  { apply for_total; auto.
    intros len c1 Hlen H1. apply in_range_iff in Hlen.
    apply for_total; auto.
    intros i c2 Hi H2. apply in_range_iff in Hi.
    apply for_total; auto.
    intros k c3 Hk H3. apply in_range_iff in Hk.
    apply recursive_step_total; auto; lia. }
  destruct Hrec as (c & Hc & Sc). exists c. split; [|exact Sc].
  subst n. unfold _fill_chart. cbv zeta. rewrite H0. exact Hc.
Qed.


(** *** Every derivation tree has its entry *)

Lemma covers_extends g s c c' i j :
  CKY_covers g s c i j -> CKY_extends c c' -> CKY_covers g s c' i j.
Proof.
  intros Hc He t A lp Ht. destruct (Hc t A lp Ht) as (e & Hin & Hb).
  exists e. split; [now apply He | exact Hb].
Qed.

Lemma split_covers_extends g s c c' i j k :
  CKY_split_covers g s c i j k -> CKY_extends c c' ->
  CKY_split_covers g s c' i j k.
Proof.
  intros Hc He r B C tl tr lpl lpr Hr Hrhs Hl Ht.
  destruct (Hc r B C tl tr lpl lpr Hr Hrhs Hl Ht) as (e & Hin & Hb).
  exists e. split; [now apply He | exact Hb].
Qed.

Lemma covers_below_extends g s L c c' :
  CKY_covers_below g s L c -> CKY_extends c c' -> CKY_covers_below g s L c'.
Proof.
  intros Hc He i j Hij Hj HL. eapply covers_extends; eauto.
Qed.

Lemma base_step_covers g s j c c' :
  1 <= j -> base_step g s j c = Ok c' -> CKY_covers g s c' (j - 1) j.
Proof.
  intros Hj H. unfold base_step in H.
  apply bind_Ok in H. destruct H as (w & Hw & H).
  pose proof Hw as Hw'.
  apply EarleyTermination.getitem_nat_Ok in Hw'. destruct Hw' as [Hlt Hnth].
  assert (Hall : forall p, In p (reduce g [w]) ->
                   exists e, In e (CKYChart.cell c' (j - 1) j) /\
                             _build_tree e = Node (fst p) [Node w []]).
  { revert H.
    apply (EarleyEmpty.for_cover
             (fun (p : string * logprob) (c1 : Chart) =>
                exists e, In e (CKYChart.cell c1 (j - 1) j) /\
                          _build_tree e = Node (fst p) [Node w []])).
    - intros [sym lp] c1 c2 H. rewrite Hw in H. cbn [Py.bind] in H.
      apply chart_add_Ok in H. destruct H as (Hi & Hj' & ->).
      rewrite cell_store_eq by auto.
      destruct (add_cover (entry sym lp [entry w lp_zero []])
                          (CKYChart.cell c1 (j - 1) j)) as (e' & He' & Heq).
      exists e'. split; [exact He'|].
      apply build_tree_eqb in Heq. now rewrite <- Heq.
    - intros p [sym lp] c1 c2 (e & He & Hb) H.
      rewrite Hw in H. cbn [Py.bind] in H.
      exists e. split; [|exact Hb].
      eapply chart_add_CKY_extends; eauto. }
  intros t A lp Ht.
  replace (slice s (j - 1) j) with [w] in Ht.
  2:{ symmetry. replace j with (j - 1 + 1) at 2 by lia. now apply slice_one. }
  apply tree_token_inv in Ht. destruct Ht as (r & Hr & Hrhs & <- & ->).
  destruct (reduce_cover g r Hr) as (lp' & Hp). rewrite Hrhs in Hp.
  exact (Hall _ Hp).
Qed.

(** One step with [keep_backtraces=True] enters every combination of
    an entry of [chart[i, k]], an entry of [chart[k, j]] and a rule
    for their symbols. *)
Lemma recursive_step_covers g i j k c c' :
  recursive_step g true i j k c = Ok c' ->
  forall l r p,
    In l (CKYChart.cell c i k) -> In r (CKYChart.cell c k j) ->
    In p (reduce g [symbol l; symbol r]) ->
    exists e, In e (CKYChart.cell c' i j) /\
              _build_tree e = Node (fst p) [_build_tree l; _build_tree r].
Proof.
  unfold recursive_step. intros H.
  apply bind_Ok in H. destruct H as (lefts & Hl & H).
  apply getitem_Ok in Hl. destruct Hl as (_ & _ & ->).
  set (Qe := fun l r (p : string * logprob) (c1 : Chart) =>
               exists e, In e (CKYChart.cell c1 i j) /\
                         _build_tree e
                         = Node (fst p) [_build_tree l; _build_tree r]).
  assert (Qmono : forall l r p c1 c2, Qe l r p c1 -> CKY_extends c1 c2 ->
                                      Qe l r p c2).
  { intros l r p c1 c2 (e & He & Hb) Hext. exists e. split; auto. }
  assert (Hrules : forall l r c1 c2,
             Py.for_ (reduce g [symbol l; symbol r])
               (fun '(parent, rule_logprob) chart =>
                  combine true i j l r parent rule_logprob chart) c1 = Ok c2 ->
             CKY_extends c1 c2 /\
             forall p, In p (reduce g [symbol l; symbol r]) -> Qe l r p c2).
  { intros l r c1 c2 Hf. split.
    - revert Hf. apply for_CKY_extends.
      intros [parent lp] c3 c4 _. apply combine_backtraces_extends.
    - revert Hf. apply (EarleyEmpty.for_cover (Qe l r)).
      + intros [parent lp] c3 c4 Hc. unfold combine in Hc.
        apply chart_add_Ok in Hc. destruct Hc as (Hi & Hj & ->).
        unfold Qe. rewrite cell_store_eq by auto.
        destruct (add_cover
                    (entry parent
                           (lp_add (lp_add lp (logprob_of l)) (logprob_of r))
                           [l; r]) (CKYChart.cell c3 i j)) as (e' & He' & Heq).
        exists e'. split; [exact He'|].
        apply build_tree_eqb in Heq. now rewrite <- Heq.
      + intros p [parent lp] c3 c4 Hq Hc. apply (Qmono _ _ _ c3); auto.
        eapply combine_backtraces_extends; eauto. }
  assert (Hrights : forall l c1 c2,
             Py.for_ (CKYChart.cell c1 k j)
               (fun right_entry chart =>
                  Py.for_ (reduce g [symbol l; symbol right_entry])
                    (fun '(parent, rule_logprob) chart =>
                       combine true i j l right_entry parent rule_logprob chart)
                    chart) c1 = Ok c2 ->
             CKY_extends c1 c2 /\
             forall r, In r (CKYChart.cell c1 k j) ->
                       forall p, In p (reduce g [symbol l; symbol r]) ->
                                 Qe l r p c2).
  { intros l c1 c2 Hf. split.
    - revert Hf. apply for_CKY_extends.
      intros r c3 c4 _ Hr. now apply Hrules in Hr.
    - revert Hf.
      apply (EarleyEmpty.for_cover
               (fun r c3 => forall p, In p (reduce g [symbol l; symbol r]) ->
                                      Qe l r p c3)).
      + intros r c3 c4 Hr. now apply Hrules in Hr.
      + intros r r' c3 c4 Hq Hr p Hp. apply (Qmono _ _ _ c3); auto.
        now apply Hrules in Hr. }
  assert (Hlefts :
            CKY_extends c c' /\
            forall l, In l (CKYChart.cell c i k) ->
              forall r, In r (CKYChart.cell c k j) ->
                forall p, In p (reduce g [symbol l; symbol r]) -> Qe l r p c').
  { revert H.
    apply (for_cover_inv (CKY_extends c)
             (fun l c1 => forall r, In r (CKYChart.cell c k j) ->
                forall p, In p (reduce g [symbol l; symbol r]) -> Qe l r p c1)).
    - intros l c1 c2 Hl Hext Hb.
      apply bind_Ok in Hb. destruct Hb as (rights & Hr & Hb).
      apply getitem_Ok in Hr. destruct Hr as (_ & _ & ->).
      apply Hrights in Hb. destruct Hb as [Hext' Hq]. split.
      + eapply CKY_extends_trans; eauto.
      + intros r Hr p Hp. apply Hq; auto.
    - intros l l' c1 c2 Hq Hext Hb r Hr p Hp.
      apply bind_Ok in Hb. destruct Hb as (rights & Hr' & Hb).
      apply getitem_Ok in Hr'. destruct Hr' as (_ & _ & ->).
      apply Hrights in Hb. destruct Hb as [Hext' _].
      apply (Qmono _ _ _ c1); auto.
    - apply CKY_extends_refl. }
  intros l r p Hl Hr Hp. now apply Hlefts.
Qed.

Lemma recursive_step_split_covers g s i j k c c' :
  CKY_covers g s c i k -> CKY_covers g s c k j ->
  recursive_step g true i j k c = Ok c' -> CKY_split_covers g s c' i j k.
Proof.
  intros Hik Hkj Hstep r B C tl tr lpl lpr Hr Hrhs Hl Ht.
  destruct (Hik _ _ _ Hl) as (l & Hlin & Hlb).
  destruct (Hkj _ _ _ Ht) as (e & Hein & Heb).
  destruct (tree_root _ _ _ _ _ Hl) as (csl & El).
  destruct (tree_root _ _ _ _ _ Ht) as (csr & Er).
  destruct (build_tree_symbol l) as (csl' & El').
  destruct (build_tree_symbol e) as (csr' & Er').
  assert (Sl : symbol l = B) by congruence.
  assert (Se : symbol e = C) by congruence.
  destruct (reduce_cover g r Hr) as (lp' & Hp).
  rewrite Hrhs, <- Sl, <- Se in Hp.
  destruct (recursive_step_covers g i j k c c' Hstep l e _ Hlin Hein Hp)
    as (e' & He' & Hb').
  exists e'. split; [exact He'|]. simpl in Hb'. congruence.
Qed.

Lemma covers_of_splits g s c i j :
  i < j -> j <= List.length s -> 2 <= j - i ->
  (forall k, i < k -> k < j -> CKY_split_covers g s c i j k) ->
  CKY_covers g s c i j.
Proof.
  intros Hij Hj Hlen Hsplit t A lp Ht.
  apply tree_pair_inv in Ht; auto; [|lia].
  destruct Ht as (r & B & C & tl & tr & lpl & lpr & k & Hik & Hkj & Hr & Hrhs
                  & <- & -> & Hl & Htr & _).
  exact (Hsplit k Hik Hkj r B C tl tr lpl lpr Hr Hrhs Hl Htr).
Qed.

(** With [keep_backtraces=True] the filler returns a chart in which
    every entry stands for a derivation tree of its span and every
    derivation tree of a span has its entry. *)
Lemma fill_chart_backtraces g s :
  exists c, _fill_chart g s true = Ok c /\
            CKY_shaped (List.length s) c /\
            CKY_entries_sound g s c /\
            forall i j, i < j -> j <= List.length s -> CKY_covers g s c i j.
Proof.
  set (n := List.length s).
  (* the base case *)
  destruct (for_spec (S := Chart) (CKY_shaped n) CKY_extends
              (fun j c => CKY_covers g s c (j - 1) j)
              (Py.range 1 (n + 1)) (base_step g s))
    with (s := @CKYChart.__init__ CKYChartEntry n)
    as (c0 & H0 & S0 & _ & Q0);
    [exact CKY_extends_refl | exact CKY_extends_trans | | |
     apply CKY_init_shaped |].
  { intros j c1 c2 Hq Hext. eapply covers_extends; eauto. }
  { intros j c1 Hj H1. apply in_range_iff in Hj.
    destruct (base_step_total g s j c1) as (c2 & H2 & S2); [lia | exact H1|].
    exists c2. split; [exact H2|]. split; [exact S2|]. split.
    - eapply base_step_extends; eauto.
    - eapply base_step_covers; eauto. lia. }
  (* the recursive case *)
  assert (Hrec : exists c,
             Py.for_ (Py.range 2 (n + 1))
               (fun length chart =>
                  Py.for_ (Py.range 0 (n - length + 1))
                    (fun i chart =>
                       Py.for_ (Py.range (i + 1) (i + length))
                               (recursive_step g true i (i + length)) chart)
                    chart) c0 = Ok c /\
             (CKY_shaped n c /\ CKY_covers_below g s 2 c) /\
             CKY_extends c0 c /\
             forall len, In len (Py.range 2 (n + 1)) ->
                         forall i, i + len <= n -> CKY_covers g s c i (i + len)).
  { apply (for_spec_hist (S := Chart)
             (fun c => CKY_shaped n c /\ CKY_covers_below g s 2 c) CKY_extends
             (fun len c => forall i, i + len <= n ->
                                     CKY_covers g s c i (i + len)));
      [exact CKY_extends_refl | exact CKY_extends_trans | | |].
    - intros len c1 c2 Hq Hext i Hi. eapply covers_extends; eauto.
    - intros pre len post c1 Hsplit [S1 B1] Hpre.
      assert (Hlen : 2 <= len < n + 1).
      { apply in_range_iff. unfold Py.range in *. rewrite Hsplit.
        apply in_or_app. right. now left. }
      assert (Hbelow : CKY_covers_below g s len c1).
      { intros i j Hij Hj Hl.
        destruct (Nat.eq_dec (j - i) 1) as [E1|N1].
        - apply B1; auto. lia.
        - replace j with (i + (j - i)) by lia. apply Hpre; [|lia].
          unfold Py.range in Hsplit.
          apply (seq_split_In _ _ _ _ _ Hsplit). lia. }
      destruct (for_spec (S := Chart)
                  (fun c => CKY_shaped n c /\ CKY_covers_below g s len c)
                  CKY_extends
                  (fun i c => CKY_covers g s c i (i + len))
                  (Py.range 0 (n - len + 1))
                  (fun i chart =>
                     Py.for_ (Py.range (i + 1) (i + len))
                             (recursive_step g true i (i + len)) chart))
        with (s := c1) as (c2 & H2 & [S2 B2] & E2 & Q2);
        [exact CKY_extends_refl | exact CKY_extends_trans | | | split; auto |].
      + intros i c2 c3 Hq Hext. eapply covers_extends; eauto.
      + intros i c2 Hi [S2 B2]. apply in_range_iff in Hi.
        destruct (for_spec (S := Chart)
                    (fun c => CKY_shaped n c /\ CKY_covers_below g s len c)
                    CKY_extends
                    (fun k c => CKY_split_covers g s c i (i + len) k)
                    (Py.range (i + 1) (i + len))
                    (recursive_step g true i (i + len)))
          with (s := c2) as (c3 & H3 & [S3 B3] & E3 & Q3);
          [exact CKY_extends_refl | exact CKY_extends_trans | | | split; auto |].
        * intros k c3 c4 Hq Hext. eapply split_covers_extends; eauto.
        * intros k c3 Hk [S3 B3]. apply in_range_iff in Hk.
          destruct (recursive_step_total g n i (i + len) k true c3)
            as (c4 & H4 & S4); auto; try lia.
          pose proof (recursive_step_backtraces_extends _ _ _ _ _ _ H4) as E4.
          exists c4. split; [exact H4|]. split; [|split; [exact E4|]].
          -- split; [exact S4|]. eapply covers_below_extends; eauto.
          -- eapply recursive_step_split_covers; eauto.
             ++ apply B3; lia.
             ++ apply B3; lia.
        * exists c3. split; [exact H3|]. split; [split; auto|].
          split; [exact E3|].
          apply covers_of_splits; try lia.
          intros k Hik Hkj. apply Q3. apply in_range_iff. lia.
      + exists c2. split; [exact H2|]. split; [split; auto|].
        * intros i j Hij Hj Hl. apply B2; auto. lia.
        * split; [exact E2|]. intros i Hi. apply Q2. apply in_range_iff. lia.
    - split; [exact S0|]. intros i j Hij Hj Hl.
      replace i with (j - 1) by lia. apply Q0. apply in_range_iff. lia. }
  destruct Hrec as (c & Hc & [Sc Bc] & Ec & Qc). exists c.
  assert (Hfill : _fill_chart g s true = Ok c).
  { subst n. unfold _fill_chart. cbv zeta. rewrite H0. exact Hc. }
  split; [exact Hfill|]. split; [exact Sc|].
  split; [now apply fill_chart_entries_sound|].
  intros i j Hij Hj. destruct (Nat.eq_dec (j - i) 1) as [E1|N1].
  - apply Bc; auto. lia.
  - replace j with (i + (j - i)) by lia. apply Qc; [|lia].
    apply in_range_iff. lia.
Qed.


(** *** The symbols of a cell, in both modes *)

Lemma fill_chart_symbols g s b :
  exists c, _fill_chart g s b = Ok c /\
            CKY_shaped (List.length s) c /\
            forall i j x, i < j -> j <= List.length s ->
              (In x (CKY_symbols c i j) <-> CKY_derives g x (slice s i j)).
Proof.
  destruct (fill_chart_backtraces g s) as (c & Hc & Sc & Snd & Cov).
  assert (Hsym : forall i j x, i < j -> j <= List.length s ->
             (In x (CKY_symbols c i j) <-> CKY_derives g x (slice s i j))).
  { intros i j x Hij Hj. split.
    - intros Hx. apply in_map_iff in Hx. destruct Hx as (e & <- & He).
      destruct (Snd _ _ _ He) as [_ Ht]. eapply tree_derives; eauto.
    - intros Hd. apply derives_tree in Hd. destruct Hd as (t & lp & Ht).
      destruct (Cov i j Hij Hj _ _ _ Ht) as (e & He & Hb).
      destruct (tree_root _ _ _ _ _ Ht) as (cs & Et).
      destruct (build_tree_symbol e) as (cs' & Ee).
      assert (Es : symbol e = x) by congruence.
      rewrite <- Es. now apply in_map. }
  destruct b; [exists c; auto|].
  destruct (fill_chart_modes g s)
    as [(c1 & c2 & H1 & H2 & S1 & S2 & Hs)|(e & H1 & H2)];
    [|congruence].
  assert (c2 = c) by congruence. subst c2.
  exists c1. split; [exact H1|]. split; [exact S1|].
  intros i j x Hij Hj. rewrite Hs. now apply Hsym.
Qed.

(** *** [_parse] and [_recognize] *)

Lemma top_cell g s b c :
  s <> [] -> _fill_chart g s b = Ok c -> CKY_shaped (List.length s) c ->
  CKYChart.__getitem__ c (0%Z, Z.of_nat (List.length s))
  = Ok (CKYChart.cell c 0 (List.length s)).
Proof.
  intros Hs _ Sc. change 0%Z with (Z.of_nat 0).
  apply (getitem_cell (List.length s)); auto.
  destruct s; [contradiction | simpl; lia].
Qed.

Lemma parse_spec g s :
  s <> [] ->
  exists c, _fill_chart g s true = Ok c /\
    CKY_entries_sound g s c /\
    CKY_covers g s c 0 (List.length s) /\
    PCKY_parse g s
    = Ok (map (fun e => (_build_tree e, logprob_of e))
              (filter (fun e => eqb (symbol e) (start_variable g))
                      (CKYChart.cell c 0 (List.length s)))).
Proof.
  intros Hs. destruct (fill_chart_backtraces g s) as (c & Hc & Sc & Snd & Cov).
  exists c. split; [exact Hc|]. split; [exact Snd|]. split.
  - apply Cov; auto. destruct s; [contradiction | simpl; lia].
  - unfold PCKY_parse. rewrite Hc. cbn [Py.bind].
    rewrite (top_cell g s true c Hs Hc Sc). reflexivity.
Qed.

Lemma recognize_derives g s :
  s <> [] ->
  exists c, _fill_chart g s false = Ok c /\
    CKY_shaped (List.length s) c /\
    (forall x, In x (CKY_symbols c 0 (List.length s))
               <-> CKY_derives g x s) /\
    PCKY_recognize g s
    = match map logprob_of
                (filter (fun e => eqb (symbol e) (start_variable g))
                        (CKYChart.cell c 0 (List.length s))) with
      | [] => Ok neg_inf
      | logprobs => Ok (logsumexp logprobs)
      end.
Proof.
  intros Hs. destruct (fill_chart_symbols g s false) as (c & Hc & Sc & Hsym).
  exists c. split; [exact Hc|]. split; [exact Sc|]. split.
  - intros x. rewrite Hsym.
    + now rewrite slice_full.
    + destruct s; [contradiction | simpl; lia].
    + lia.
  - unfold PCKY_recognize. rewrite Hc. cbn [Py.bind].
    rewrite (top_cell g s false c Hs Hc Sc). reflexivity.
Qed.

Lemma derives_tokens_known g A w :
  CKY_derives g A w ->
  forall x, In x w -> exists r, In r (rules g) /\ right_side (rule r) = [x].
Proof.
  induction 1 as [r w Hr Hw | r B C u v Hr Hw _ IHu _ IHv]; intros x Hx.
  - destruct Hx as [<-|[]]. eauto.
  - apply in_app_or in Hx. destruct Hx; auto.
Qed.

Lemma rejects g s :
  s <> [] -> ~ CKY_derives g (start_variable g) s ->
  PCKY_recognize g s = Ok neg_inf /\ PCKY_parse g s = Ok [].
Proof.
  intros Hs Hnd. split.
  - destruct (recognize_derives g s Hs) as (c & _ & _ & Hsym & ->).
    destruct (filter _ (CKYChart.cell c 0 (List.length s))) as [|e l] eqn:Ef;
      [reflexivity|].
    exfalso. apply Hnd. apply Hsym.
    assert (He : In e (e :: l)) by now left.
    rewrite <- Ef in He. apply filter_In in He. destruct He as [He Hsy].
    apply eqb_eq in Hsy. rewrite <- Hsy. now apply in_map.
  - destruct (parse_spec g s Hs) as (c & _ & Snd & _ & ->).
    destruct (filter _ (CKYChart.cell c 0 (List.length s))) as [|e l] eqn:Ef;
      [reflexivity|].
    exfalso. apply Hnd.
    assert (He : In e (e :: l)) by now left.
    rewrite <- Ef in He. apply filter_In in He. destruct He as [He Hsy].
    apply eqb_eq in Hsy. destruct (Snd _ _ _ He) as [_ Ht].
    apply tree_derives in Ht. rewrite Hsy, slice_full in Ht. exact Ht.
Qed.

(** *** No tree twice *)

Lemma filter_keeps_distinct {K} (key : CKYChartEntry -> K)
      (keep : CKYChartEntry -> bool) (es : list CKYChartEntry)
      (Hes : NoDup (map key es)) :
  NoDup (map key (filter keep es)).
Proof.
  induction es as [|e es IH]; simpl in *; [constructor|].
  apply NoDup_cons_iff in Hes. destruct Hes as [He Hes].
  destruct (keep e); simpl; [|now apply IH].
  apply NoDup_cons; [|now apply IH].
  intros Hin. apply He. apply in_map_iff in Hin.
  destruct Hin as (y & Ey & Hy). apply filter_In in Hy.
  rewrite <- Ey. apply in_map. tauto.
Qed.

Lemma add_distinct (e : CKYChartEntry) (s : list CKYChartEntry) :
  NoDup (map _build_tree s) -> NoDup (map _build_tree (Py.add e s)).
Proof.
  intros Hs. unfold Py.add. destruct (Py.mem e s) eqn:Em; [exact Hs|].
  rewrite map_app. simpl.
  apply NoDup_app_remove_l with (l := []). simpl.
  assert (Hn : ~ In (_build_tree e) (map _build_tree s)).
  { intros Hin. apply in_map_iff in Hin. destruct Hin as (y & Ey & Hy).
    symmetry in Ey. apply build_tree_inj in Ey.
    unfold Py.mem in Em.
    assert (Ht : existsb (eqb e) s = true)
      by (apply existsb_exists; eauto).
    congruence. }
  clear Em. induction s as [|y s IH]; simpl.
  - constructor; [intros [] | constructor].
  - inversion Hs as [|? ? Hy Hs']; subst. constructor.
    + intros Hin. apply in_app_or in Hin. destruct Hin as [Hin|[Hin|[]]].
      * now apply Hy.
      * apply Hn. left. now symmetry.
    + apply IH; auto. intros Hin. apply Hn. now right.
Qed.

Lemma fill_chart_distinct g s c :
  _fill_chart g s true = Ok c ->
  forall i j, NoDup (map _build_tree (CKYChart.cell c i j)).
Proof.
  set (P := fun c : Chart =>
              forall i j, NoDup (map _build_tree (CKYChart.cell c i j))).
  assert (Hadd : forall c1 c2 i j e,
             P c1 -> chart_add c1 i j e = Ok c2 -> P c2).
  { intros c1 c2 i j e H1 H. apply chart_add_Ok in H.
    destruct H as (Hi & Hj & ->). intros i' j'.
    destruct (Nat.eq_dec i' i) as [->|Hi'];
      [destruct (Nat.eq_dec j' j) as [->|Hj']|].
    - rewrite cell_store_eq by auto. apply add_distinct. apply H1.
    - rewrite cell_store_neq by congruence. apply H1.
    - rewrite cell_store_neq by congruence. apply H1. }
  unfold _fill_chart. intros H.
  apply bind_Ok in H. destruct H as (c0 & H0 & H).
  assert (Hc0 : P c0).
  { revert H0. apply for_inv.
    - intros j c1 c2 _ H1 Hb. unfold base_step in Hb.
      apply bind_Ok in Hb. destruct Hb as (w & _ & Hb). revert Hb.
      apply for_inv; auto.
      intros [sym lp] c3 c4 _ H3 Hb.
      apply bind_Ok in Hb. destruct Hb as (w' & _ & Hb). eauto.
    - intros i j. rewrite cell_init. constructor. }
  revert H. apply (for_inv P); auto.
  intros len c1 c2 _ H1. apply (for_inv P); auto.
  intros i c3 c4 _ H3. apply (for_inv P); auto.
  intros k c5 c6 _ H5 Hstep. unfold recursive_step in Hstep.
  apply bind_Ok in Hstep. destruct Hstep as (lefts & _ & Hstep).
  revert Hstep. apply (for_inv P); auto.
  intros l c7 c8 _ H7 Hb.
  apply bind_Ok in Hb. destruct Hb as (rights & _ & Hb).
  revert Hb. apply (for_inv P); auto.
  intros r c9 c10 _ H9. apply (for_inv P); auto.
  intros [parent lp] c11 c12 _ H11 Hc. unfold combine in Hc. eauto.
Qed.


(** *** One entry per symbol with [keep_backtraces=False] *)

Lemma store_aggregated (c : Chart) i j s :
  CKY_aggregated c ->
  i < List.length (CKYChart._chart c) ->
  j < List.length (nth i (CKYChart._chart c) []) ->
  (i + 2 <= j -> NoDup (map symbol s) /\ Forall (fun e => backpointers e = []) s) ->
  CKY_aggregated (CKYChart.store c i j s).
Proof.
  intros Hc Hi Hj Hs i' j' Hij. unfold CKY_symbols.
  destruct (Nat.eq_dec i' i) as [->|Hi'];
    [destruct (Nat.eq_dec j' j) as [->|Hj']|].
  - rewrite cell_store_eq by auto. auto.
  - rewrite cell_store_neq by congruence. now apply Hc.
  - rewrite cell_store_neq by congruence. now apply Hc.
Qed.

Lemma add_aggregated (parent : string) (lp : logprob) (s : list CKYChartEntry) :
  NoDup (map symbol s) -> Forall (fun e => backpointers e = []) s ->
  ~ In parent (map symbol s) ->
  NoDup (map symbol (Py.add (entry parent lp []) s)) /\
  Forall (fun e => backpointers e = []) (Py.add (entry parent lp []) s).
Proof.
  intros Hn Hb Hp. unfold Py.add. destruct (Py.mem _ s); [auto|]. split.
  - rewrite map_app. simpl. clear Hb.
    induction s as [|y s IH]; simpl.
    + constructor; [intros [] | constructor].
    + inversion Hn as [|? ? Hy Hs']; subst. constructor.
      * intros Hin. apply in_app_or in Hin. destruct Hin as [Hin|[Hin|[]]].
        -- now apply Hy.
        -- apply Hp. left. now symmetry.
      * apply IH; auto. intros Hin. apply Hp. now right.
  - apply Forall_app. split; [exact Hb|]. now constructor.
Qed.

Lemma eqb_no_backpointers (e e' : CKYChartEntry) :
  symbol e = symbol e' -> backpointers e = [] -> backpointers e' = [] ->
  eqb e e' = true.
Proof.
  destruct e as [x lp bs], e' as [x' lp' bs']. simpl.
  intros -> -> ->. unfold eqb, CKYChartEntry_Eq. simpl.
  now rewrite String.eqb_refl.
Qed.

Lemma combine_aggregated i j l r parent lp (c c' : Chart) :
  CKY_aggregated c -> combine false i j l r parent lp c = Ok c' ->
  CKY_aggregated c'.
Proof.
  intros Hc H. unfold combine in H.
  apply bind_Ok in H. destruct H as (s & Hs & H).
  apply getitem_Ok in Hs. destruct Hs as (Hi & Hj & ->).
  destruct (filter _ (CKYChart.cell c i j)) as [|existing rest] eqn:Ef.
  - apply chart_add_Ok in H. destruct H as (_ & _ & ->).
    apply store_aggregated; auto. intros Hij.
    destruct (Hc i j Hij) as [Hn Hb]. apply add_aggregated; auto.
    intros Hin. apply filter_symbol_nonempty in Hin. now apply Hin.
  - apply bind_Ok in H. destruct H as (c1 & H1 & H).
    unfold chart_remove in H1.
    apply bind_Ok in H1. destruct H1 as (s & Hs & H1).
    apply getitem_Ok in Hs. destruct Hs as (_ & _ & ->).
    apply bind_Ok in H1. destruct H1 as (s' & Hs' & H1). injection H1 as <-.
    unfold Py.remove in Hs'. destruct (Py.mem existing _); [|discriminate].
    injection Hs' as <-.
    assert (Hex : In existing (CKYChart.cell c i j) /\
                  symbol existing = parent).
    { assert (H' : In existing (existing :: rest)) by now left.
      rewrite <- Ef in H'. apply filter_In in H'. destruct H' as [H1 H2].
      split; auto. now apply eqb_eq in H2. }
    destruct Hex as [Hin Hsym].
    set (s' := filter (fun y => negb (eqb existing y)) (CKYChart.cell c i j)) in *.
    assert (Hagg : CKY_aggregated (CKYChart.store c i j s')).
    { apply store_aggregated; auto. intros Hij.
      destruct (Hc i j Hij) as [Hn Hb]. split.
      - now apply filter_keeps_distinct.
      - apply Forall_forall. intros y Hy. apply filter_In in Hy.
        rewrite Forall_forall in Hb. apply Hb. tauto. }
    apply chart_add_Ok in H. destruct H as (Hi' & Hj' & ->).
    apply store_aggregated; auto. intros Hij.
    destruct (Hagg i j Hij) as [Hn Hb].
    apply add_aggregated; auto.
    rewrite cell_store_eq by auto.
    intros Hp. apply in_map_iff in Hp. destruct Hp as (y & Ey & Hy).
    apply filter_In in Hy. destruct Hy as [Hy Hneq].
    destruct (Hc i j Hij) as [_ Hb0]. rewrite Forall_forall in Hb0.
    rewrite (eqb_no_backpointers existing y) in Hneq; auto; [discriminate|].
    congruence.
Qed.

Lemma fill_chart_aggregated g s c :
  _fill_chart g s false = Ok c -> CKY_aggregated c.
Proof.
  unfold _fill_chart. intros H.
  apply bind_Ok in H. destruct H as (c0 & H0 & H).
  assert (Hc0 : CKY_aggregated c0).
  { revert H0. apply for_inv.
    - intros j c1 c2 _ H1 Hb. unfold base_step in Hb.
      apply bind_Ok in Hb. destruct Hb as (w & _ & Hb). revert Hb.
      apply for_inv; auto.
      intros [sym lp] c3 c4 _ H3 Hb.
      apply bind_Ok in Hb. destruct Hb as (w' & _ & Hb).
      apply chart_add_Ok in Hb. destruct Hb as (Hi & Hj & ->).
      apply store_aggregated; auto. lia.
    - intros i j _. unfold CKY_symbols. rewrite cell_init.
      split; constructor. }
  revert H. apply for_inv; auto.
  intros len c1 c2 _ H1. apply for_inv; auto.
  intros i c3 c4 _ H3. apply for_inv; auto.
  intros k c5 c6 _ H5 Hstep. unfold recursive_step in Hstep.
  apply bind_Ok in Hstep. destruct Hstep as (lefts & _ & Hstep).
  revert Hstep. apply for_inv; auto.
  intros l c7 c8 _ H7 Hb.
  apply bind_Ok in Hb. destruct Hb as (rights & _ & Hb).
  revert Hb. apply for_inv; auto.
  intros r c9 c10 _ H9. apply for_inv; auto.
  intros [parent lp] c11 c12 _ H11. now apply combine_aggregated.
Qed.


Lemma filter_symbol_unique (x : string) (cell : list CKYChartEntry) :
  NoDup (map symbol cell) ->
  filter (fun e => eqb (symbol e) x) cell = [] \/
  exists e, filter (fun e => eqb (symbol e) x) cell = [e].
Proof.
  induction cell as [|y cell IH]; simpl; intros Hn; [now left|].
  inversion Hn as [|? ? Hy Hc]; subst.
  destruct (eqb (symbol y) x) eqn:E.
  - right. exists y. f_equal. apply eqb_eq in E.
    destruct (filter _ cell) as [|z rest] eqn:Ef; [reflexivity|].
    exfalso. apply Hy. rewrite E.
    apply (filter_symbol_nonempty x cell). congruence.
  - now apply IH.
Qed.

End WithLogProb.
End PCKYCorrect.

(** ** What the parser and the recogniser return *)

Module PCKYParse.
Import PCFG PCKYFacts PCKYAgreement PCKYCorrect SliceFacts.

Section WithLogProb.
Context {LP : LogProb}.
Implicit Types g : ProbabilisticContextFreeGrammar.

Lemma parse_sound g s l t lp :
  PCKY_parse g s = Ok l -> In (t, lp) l ->
  CKY_tree g t (start_variable g) s lp.
Proof.
  intros Hp Hin.
  assert (Hs : s <> []) by (intros ->; discriminate Hp).
  destruct (parse_spec g s Hs) as (c & _ & Snd & _ & E).
  rewrite E in Hp. injection Hp as <-.
  apply in_map_iff in Hin. destruct Hin as (e & [= <- <-] & He).
  apply filter_In in He. destruct He as [He Hsym]. apply eqb_eq in Hsym.
  destruct (Snd _ _ _ He) as [_ Ht].
  rewrite Hsym in Ht. now rewrite slice_full in Ht.
Qed.

Lemma parse_complete g s t lp :
  CKY_tree g t (start_variable g) s lp ->
  exists l, PCKY_parse g s = Ok l /\ In t (map fst l) /\ NoDup (map fst l).
Proof.
  intros Ht. pose proof (tree_nonempty _ _ _ _ _ Ht) as Hs.
  destruct (parse_spec g s Hs) as (c & Hc & _ & Cov & E).
  eexists. split; [exact E|]. rewrite map_map. cbn [fst]. split.
  - rewrite <- (slice_full s) in Ht.
    destruct (Cov _ _ _ Ht) as (e & He & Hb).
    rewrite <- Hb. apply in_map. apply filter_In. split; [exact He|].
    apply eqb_eq.
    destruct (tree_root _ _ _ _ _ Ht) as (cs & Et).
    destruct (build_tree_symbol e) as (cs' & Ee). congruence.
  - apply filter_keeps_distinct.
    now apply (fill_chart_distinct g s c Hc).
Qed.

(** With rules of log-probability above [-inf], the recogniser
    returns a value above [-inf] exactly for the inputs that the start
    variable derives. *)
Lemma recognize_decides {Laws : LogProbLaws LP} g s :
  (forall r, In r (rules g) -> gt_neg_inf (rule_logprob r) = true) ->
  s <> [] ->
  exists lp, PCKY_recognize g s = Ok lp /\
             (gt_neg_inf lp = true <-> CKY_derives g (start_variable g) s).
Proof.
  intros Hrules Hs.
  destruct (recognize_derives g s Hs) as (c & _ & _ & _ & E).
  assert (Hex : exists lp, PCKY_recognize g s = Ok lp).
  { rewrite E. destruct (map logprob_of _); eauto. }
  destruct Hex as (lp & Hlp). exists lp. split; [exact Hlp|].
  pose proof (recognize_iff_parse g Hrules s) as Hiff. split.
  - intros Hgt. destruct (proj1 Hiff) as (l & Hl & Hne); [eauto|].
    destruct l as [|[t lp'] l]; [congruence|].
    apply (tree_derives g t _ _ lp').
    apply (parse_sound g s _ t lp' Hl). now left.
  - intros Hd. apply derives_tree in Hd. destruct Hd as (t & lp' & Ht).
    destruct (parse_complete g s t lp' Ht) as (l & Hl & Hin & _).
    destruct (proj2 Hiff) as (lp'' & Hlp'' & Hgt).
    { exists l. split; [exact Hl|]. intros ->. destruct Hin. }
    congruence.
Qed.

End WithLogProb.
End PCKYParse.


(* ================================================================= *)
(** * Part III: further properties of the code                        *)
(* ================================================================= *)

(** ** The probabilistic CKY parser and the derivations of the input *)

(** X1.  In either mode the probabilistic CKY filler returns a chart
    (it never raises), and for every span [i < j <= n] the cell
    [(i, j)] holds an entry for a symbol exactly when the symbol
    derives the tokens [i .. j-1] by rules whose right side is one
    token or two symbols.  Rules of any other shape (a unary rule over
    a non-terminal, an empty rule, three symbols or more) have no
    effect. *)
Theorem PCKY_chart_correct
        (LP : LogProb) (g : PCFG.ProbabilisticContextFreeGrammar)
        (s : list string) (keep_backtraces : bool) :
  exists c,
    PCFG._fill_chart g s keep_backtraces = Ok c /\
    CKY_shaped (List.length s) c /\
    forall i j x, i < j -> j <= List.length s ->
      (In x (CKY_symbols c i j) <-> CKY_derives g x (slice s i j)).
Proof. apply PCKYCorrect.fill_chart_symbols. Qed.

(** X2.  Every pair that [_parse] returns is a derivation tree of the
    whole input from the start variable together with the
    log-probability of that tree: the log-probability of the rule at
    each node added to those of the two subtrees. *)
Theorem PCKY_parse_sound
        (LP : LogProb) (g : PCFG.ProbabilisticContextFreeGrammar)
        (s : list string) (l : list (Tree * logprob)) (t : Tree)
        (lp : logprob) :
  PCFG.PCKY_parse g s = Ok l -> In (t, lp) l ->
  CKY_tree g t (PCFG.start_variable g) s lp.
Proof. apply PCKYParse.parse_sound. Qed.

(** The derivation [S -> A B], [A -> a], [B -> b] of "a b". *)
Lemma two_derivations_tree :
  CKY_tree Examples.two_derivations
           (Node "S" [Node "A" [Node "a" []]; Node "B" [Node "b" []]])
           "S" ["a"; "b"] (Exact.mkProb 1 2).
Proof.
  exact (CKY_tree_pair Examples.two_derivations
           (Examples.prule "S" ["A"; "B"] 1 2) "A" "B" ["a"] ["b"] _ _ _ _
           (or_introl eq_refl) eq_refl
           (CKY_tree_token Examples.two_derivations
              (Examples.prule "A" ["a"] 1 1) "a"
              (or_intror (or_intror (or_introl eq_refl))) eq_refl)
           (CKY_tree_token Examples.two_derivations
              (Examples.prule "B" ["b"] 1 1) "b"
              (or_intror (or_intror (or_intror (or_introl eq_refl)))) eq_refl)).
Qed.

Lemma PCKY_parse_sound_witness :
  PCFG.PCKY_parse Examples.two_derivations ["a"; "b"]
  = Ok [(Node "S" [Node "A" [Node "a" []]; Node "B" [Node "b" []]],
         Exact.mkProb 1 2);
        (Node "S" [Node "A" [Node "a" []]; Node "C" [Node "b" []]],
         Exact.mkProb 1 2)] /\
  CKY_tree Examples.two_derivations
           (Node "S" [Node "A" [Node "a" []]; Node "C" [Node "b" []]])
           "S" ["a"; "b"] (Exact.mkProb 1 2).
Proof.
  assert (H : PCFG.PCKY_parse Examples.two_derivations ["a"; "b"]
              = Ok [(Node "S" [Node "A" [Node "a" []]; Node "B" [Node "b" []]],
                     Exact.mkProb 1 2);
                    (Node "S" [Node "A" [Node "a" []]; Node "C" [Node "b" []]],
                     Exact.mkProb 1 2)])
    by (vm_compute; reflexivity).
  split; [exact H|].
  apply (PCKY_parse_sound Exact.ExactLogProb Examples.two_derivations
           ["a"; "b"] _ _ _ H).
  right. left. reflexivity.
Defined.

(** X3.  [_parse] returns every derivation tree of the whole input
    from the start variable, and none of them twice.  (When two rules
    with the same sides carry different log-probabilities a tree has
    more than one log-probability; it is returned once, with one of
    them.) *)
Theorem PCKY_parse_complete
        (LP : LogProb) (g : PCFG.ProbabilisticContextFreeGrammar)
        (s : list string) (t : Tree) (lp : logprob) :
  CKY_tree g t (PCFG.start_variable g) s lp ->
  exists l, PCFG.PCKY_parse g s = Ok l /\
            In t (map fst l) /\ NoDup (map fst l).
Proof. apply PCKYParse.parse_complete. Qed.

Lemma PCKY_parse_complete_witness :
  CKY_tree Examples.two_derivations
           (Node "S" [Node "A" [Node "a" []]; Node "B" [Node "b" []]])
           "S" ["a"; "b"] (Exact.mkProb 1 2) /\
  exists l, PCFG.PCKY_parse Examples.two_derivations ["a"; "b"] = Ok l /\
            In (Node "S" [Node "A" [Node "a" []]; Node "B" [Node "b" []]])
               (map fst l) /\
            NoDup (map fst l).
Proof.
  split; [exact two_derivations_tree|].
  exact (PCKY_parse_complete Exact.ExactLogProb Examples.two_derivations
           ["a"; "b"] _ _ two_derivations_tree).
Defined.

(** X4.  When the start variable does not derive a non-empty input,
    [_recognize] returns [-inf] and [_parse] returns the empty list;
    neither raises. *)
Theorem PCKY_rejects_underivable
        (LP : LogProb) (g : PCFG.ProbabilisticContextFreeGrammar)
        (s : list string) :
  s <> [] -> ~ CKY_derives g (PCFG.start_variable g) s ->
  PCFG.PCKY_recognize g s = Ok neg_inf /\ PCFG.PCKY_parse g s = Ok [].
Proof. apply PCKYCorrect.rejects. Qed.

Lemma two_derivations_no_c :
  forall r, In r (PCFG.rules Examples.two_derivations) ->
            right_side (PCFG.rule r) <> ["c"].
Proof.
  simpl. intros r [<-|[<-|[<-|[<-|[<-|[]]]]]]; discriminate.
Qed.

Lemma PCKY_rejects_underivable_witness :
  ["a"; "c"] <> [] /\
  ~ CKY_derives Examples.two_derivations "S" ["a"; "c"] /\
  PCFG.PCKY_recognize Examples.two_derivations ["a"; "c"]
  = Ok (@neg_inf Exact.ExactLogProb) /\
  PCFG.PCKY_parse Examples.two_derivations ["a"; "c"] = Ok [].
Proof.
  assert (Hne : ["a"; "c"] <> @nil string) by discriminate.
  assert (Hnd : ~ CKY_derives Examples.two_derivations "S" ["a"; "c"]).
  { intros H.
    destruct (PCKYCorrect.derives_tokens_known _ _ _ H "c")
      as (r & Hr & Hrhs); [right; now left|].
    exact (two_derivations_no_c r Hr Hrhs). }
  split; [exact Hne|]. split; [exact Hnd|].
  exact (PCKY_rejects_underivable Exact.ExactLogProb Examples.two_derivations
           ["a"; "c"] Hne Hnd).
Defined.

(** X5.  When some token of the input is the right side of no rule,
    [_recognize] returns [-inf] and [_parse] returns the empty list:
    an unknown token is not an error. *)
Theorem PCKY_unknown_token
        (LP : LogProb) (g : PCFG.ProbabilisticContextFreeGrammar)
        (s : list string) (w : string) :
  In w s ->
  (forall r, In r (PCFG.rules g) -> right_side (PCFG.rule r) <> [w]) ->
  PCFG.PCKY_recognize g s = Ok neg_inf /\ PCFG.PCKY_parse g s = Ok [].
Proof.
  intros Hw Hno. apply PCKYCorrect.rejects.
  - intros ->. destruct Hw.
  - intros H.
    destruct (PCKYCorrect.derives_tokens_known _ _ _ H w Hw) as (r & Hr & Hrhs).
    exact (Hno r Hr Hrhs).
Qed.

Lemma PCKY_unknown_token_witness :
  In "c" ["c"; "b"] /\
  PCFG.PCKY_recognize Examples.two_derivations ["c"; "b"]
  = Ok (@neg_inf Exact.ExactLogProb) /\
  PCFG.PCKY_parse Examples.two_derivations ["c"; "b"] = Ok [].
Proof.
  assert (Hin : In "c" ["c"; "b"]) by (left; reflexivity).
  split; [exact Hin|].
  exact (PCKY_unknown_token Exact.ExactLogProb Examples.two_derivations
           ["c"; "b"] "c" Hin two_derivations_no_c).
Defined.

(** X6.  With [keep_backtraces=False] the chart that the filler
    returns holds, in every cell for a span of two tokens or more, one
    entry for each of its symbols, without backpointers: the entry that
    carries the summed probability.  For an input of two tokens or
    more [_recognize] therefore returns [-inf] or the [logsumexp] of a
    single value, the log-probability of the entry of the start
    variable. *)
Theorem PCKY_aggregate_one_entry_per_symbol
        (LP : LogProb) (g : PCFG.ProbabilisticContextFreeGrammar)
        (s : list string) :
  exists c,
    PCFG._fill_chart g s false = Ok c /\
    CKY_aggregated c /\
    (2 <= List.length s ->
     PCFG.PCKY_recognize g s = Ok neg_inf \/
     exists e, In e (CKYChart.cell c 0 (List.length s)) /\
               PCFG.symbol e = PCFG.start_variable g /\
               PCFG.PCKY_recognize g s = Ok (logsumexp [PCFG.logprob_of e])).
Proof.
  destruct (PCKYCorrect.fill_chart_total g s false) as (c & Hc & Sc).
  pose proof (PCKYCorrect.fill_chart_aggregated g s c Hc) as Hagg.
  exists c. split; [exact Hc|]. split; [exact Hagg|].
  intros Hlen. unfold PCFG.PCKY_recognize. rewrite Hc. cbn [Py.bind].
  rewrite (PCKYCorrect.top_cell g s false c) by (auto; intros ->; simpl in Hlen; lia).
  cbn [Py.bind].
  destruct (Hagg 0 (List.length s)) as [Hn _]; [lia|].
  destruct (PCKYCorrect.filter_symbol_unique (PCFG.start_variable g) _ Hn)
    as [E|(e & E)]; rewrite E; simpl; [now left|].
  right. exists e. assert (He : In e [e]) by now left.
  rewrite <- E in He. apply filter_In in He. destruct He as [He Hsym].
  apply eqb_eq in Hsym. auto.
Qed.

(** X24.  When every rule has a log-probability above [-inf] (and sums
    of such values stay above [-inf]), [_recognize] returns, for a
    non-empty input, a log-probability that is above [-inf] exactly
    when the start variable derives the input. *)
Theorem PCKY_recognize_decides
        (LP : LogProb) (Laws : LogProbLaws LP)
        (g : PCFG.ProbabilisticContextFreeGrammar) (s : list string) :
  (forall r, In r (PCFG.rules g) -> gt_neg_inf (PCFG.rule_logprob r) = true) ->
  s <> [] ->
  exists lp, PCFG.PCKY_recognize g s = Ok lp /\
             (gt_neg_inf lp = true <->
              CKY_derives g (PCFG.start_variable g) s).
Proof. apply PCKYParse.recognize_decides. Qed.

Lemma PCKY_recognize_decides_witness :
  exists lp,
    PCFG.PCKY_recognize Examples.two_derivations ["a"; "b"] = Ok lp /\
    (gt_neg_inf lp = true <->
     CKY_derives Examples.two_derivations "S" ["a"; "b"]).
Proof.
  apply (PCKY_recognize_decides Exact.ExactLogProb Exact_laws
           Examples.two_derivations ["a"; "b"]).
  - simpl. intros r [<-|[<-|[<-|[<-|[<-|[]]]]]]; reflexivity.
  - discriminate.
Defined.

(** ** Sums of exact probabilities *)

Module ExactQFacts.
Import QArith.
Local Open Scope nat_scope.
Import Exact ExactQ.

Lemma toQ_mul p q : (toQ (mul p q) == toQ p * toQ q)%Q.
Proof.
  unfold toQ, mul, Qeq, Qmult. simpl. rewrite N2Z.inj_mul. reflexivity.
Qed.

Lemma toQ_plus p q : (toQ (plus p q) == toQ p + toQ q)%Q.
Proof.
  unfold toQ, plus, Qeq, Qplus. simpl.
  rewrite N2Z.inj_add, !N2Z.inj_mul. simpl. reflexivity.
Qed.

Lemma toQ_zero : (toQ zero == 0)%Q.
Proof. reflexivity. Qed.

Lemma Prob_eqb_toQ p q : Prob_eqb p q = true <-> (toQ p == toQ q)%Q.
Proof.
  unfold Prob_eqb, toQ, Qeq. simpl. rewrite N.eqb_eq. split.
  - intros H. apply (f_equal Z.of_N) in H.
    rewrite !N2Z.inj_mul in H. simpl in H. exact H.
  - intros H. apply N2Z.inj. rewrite !N2Z.inj_mul. simpl. exact H.
Qed.

Lemma toQ_sum (l : list Prob) : (toQ (sum l) == total toQ l)%Q.
Proof.
  induction l as [|p l IH]; simpl; [reflexivity|].
  now rewrite toQ_plus, IH.
Qed.

Lemma total_map {A B} (h : A -> B) (f : B -> Q) (l : list A) :
  total f (map h l) = total (fun x => f (h x)) l.
Proof. induction l as [|x l IH]; simpl; congruence. Qed.

Lemma total_app {A} (f : A -> Q) (l l' : list A) :
  (total f (l ++ l') == total f l + total f l')%Q.
Proof.
  induction l as [|x l IH]; simpl; [ring|]. rewrite IH. ring.
Qed.

Lemma total_ext {A} (f f' : A -> Q) (l : list A) :
  (forall x, In x l -> (f x == f' x)%Q) -> (total f l == total f' l)%Q.
Proof.
  induction l as [|x l IH]; simpl; intros H; [reflexivity|].
  rewrite (H x (or_introl eq_refl)), IH; [reflexivity|].
  intros y Hy. apply H. now right.
Qed.

Lemma total_zero {A} (l : list A) : (total (fun _ => 0%Q) l == 0)%Q.
Proof. induction l as [|x l IH]; simpl; [reflexivity|]. rewrite IH. ring. Qed.

Lemma total_plus {A} (f f' : A -> Q) (l : list A) :
  (total (fun x => f x + f' x) l == total f l + total f' l)%Q.
Proof.
  induction l as [|x l IH]; simpl; [ring|]. rewrite IH. ring.
Qed.

Lemma total_scale {A} (a : Q) (f : A -> Q) (l : list A) :
  (total (fun x => a * f x) l == a * total f l)%Q.
Proof.
  induction l as [|x l IH]; simpl; [ring|]. rewrite IH. ring.
Qed.

Lemma total_flat_map {A B} (h : A -> list B) (f : B -> Q) (l : list A) :
  (total f (flat_map h l) == total (fun x => total f (h x)) l)%Q.
Proof.
  induction l as [|x l IH]; simpl; [reflexivity|].
  now rewrite total_app, IH.
Qed.

Lemma total_filter {A} (keep : A -> bool) (f : A -> Q) (l : list A) :
  (total f (filter keep l)
   == total (fun x => if keep x then f x else 0) l)%Q.
Proof.
  induction l as [|x l IH]; simpl; [reflexivity|].
  destruct (keep x); simpl; rewrite IH; ring.
Qed.

(** Over a list without duplicates the sum of a function that
    vanishes but at [a] is its value at [a]. *)
Lemma total_only {A} (f : A -> Q) (l : list A) (a : A) :
  NoDup l -> In a l -> (forall x, In x l -> x <> a -> (f x == 0)%Q) ->
  (total f l == f a)%Q.
Proof.
  induction l as [|x l IH]; simpl; intros Hn Hin Hz; [destruct Hin|].
  inversion Hn as [|? ? Hx Hl]; subst.
  destruct Hin as [->|Hin].
  - rewrite (total_ext f (fun _ => 0%Q) l), total_zero; [ring|].
    intros y Hy. apply Hz; [now right|]. intros ->. contradiction.
  - rewrite IH by auto. rewrite (Hz x); [ring|now left|].
    intros ->. contradiction.
Qed.

End ExactQFacts.

(** ** The recurrence of the inside algorithm, with [keep_backtraces=False] *)

Module InsideAggregate.
Import QArith.
Local Open Scope nat_scope.
Import PCFG CKYChartFacts PCKYFacts PCKYAgreement PCKYCorrect LoopFacts.
Import Exact ExactQ ExactQFacts Inside.
#[local] Existing Instance Exact.ExactLogProb.
#[local] Existing Instance PCFG.CKYChartEntry_Eq.
#[local] Existing Instance PCFG.logprob_Eq.

(** *** Loops that accumulate *)

Lemma for_sum {A S} (P : S -> Prop) (M : S -> Q) (w : A -> Q) (xs : list A)
      (body : A -> S -> Result S) :
  (forall x c c', In x xs -> P c -> body x c = Ok c' ->
                  P c' /\ (M c' == M c + w x)%Q) ->
  forall c c', P c -> Py.for_ xs body c = Ok c' ->
               P c' /\ (M c' == M c + total w xs)%Q.
Proof.
  induction xs as [|x xs IH]; intros Hb c c' Hc H; simpl in H.
  - injection H as <-. split; [exact Hc|]. simpl. ring.
  - apply bind_Ok in H. destruct H as (c1 & H1 & H).
    destruct (Hb x c c1 (or_introl eq_refl) Hc H1) as [P1 M1].
    destruct (IH (fun y a b Hy => Hb y a b (or_intror Hy)) c1 c' P1 H)
      as [P' M'].
    split; [exact P'|]. rewrite M', M1. simpl. ring.
Qed.

Lemma for_range_inv {S} (P : nat -> S -> Prop) (body : nat -> S -> Result S) :
  forall len a c c',
    (forall m c1 c2, a <= m < a + len -> P m c1 -> body m c1 = Ok c2 ->
                     P (Datatypes.S m) c2) ->
    P a c -> Py.for_ (seq a len) body c = Ok c' -> P (a + len) c'.
Proof.
  induction len as [|len IH]; intros a c c' Hb Hc H; simpl in H.
  - injection H as <-. now rewrite Nat.add_0_r.
  - apply bind_Ok in H. destruct H as (c1 & H1 & H).
    replace (a + Datatypes.S len) with (Datatypes.S a + len) by lia.
    apply (IH (Datatypes.S a) c1 c'); auto.
    + intros m c2 c3 Hm. apply Hb. lia.
    + apply (Hb a c c1); auto. lia.
Qed.

(** *** The mass of a cell *)

Lemma mass_app (l l' : list Entry) X :
  (mass (l ++ l') X == mass l X + mass l' X)%Q.
Proof. unfold mass. rewrite filter_app. apply total_app. Qed.

Lemma mass_nil X : (mass [] X == 0)%Q.
Proof. reflexivity. Qed.

Lemma mass_single (e : Entry) X :
  (mass [e] X == if Py.eqb (symbol e) X then weight e else 0)%Q.
Proof.
  unfold mass. simpl. destruct (Py.eqb (symbol e) X); simpl; ring.
Qed.

Lemma add_fresh (e : Entry) (s : list Entry) :
  (forall y, In y s -> symbol y <> symbol e) -> Py.add e s = s ++ [e].
Proof.
  intros H. unfold Py.add.
  destruct (Py.mem e s) eqn:Em; [|reflexivity]. exfalso.
  unfold Py.mem in Em. apply existsb_exists in Em.
  destruct Em as (y & Hy & Heq). apply entry_eqb_symbol in Heq.
  apply (H y Hy). congruence.
Qed.

Lemma mass_add_fresh (e : Entry) (s : list Entry) X :
  (forall y, In y s -> symbol y <> symbol e) ->
  (mass (Py.add e s) X
   == mass s X + (if Py.eqb (symbol e) X then weight e else 0))%Q.
Proof.
  intros H. rewrite (add_fresh e s H), mass_app, mass_single. reflexivity.
Qed.

Lemma mass_without (cell : list Entry) (P X : string) :
  (mass (filter (fun y => negb (Py.eqb (symbol y) P)) cell) X
   == if Py.eqb P X then 0 else mass cell X)%Q.
Proof.
  unfold mass. induction cell as [|y cell IH]; simpl.
  - destruct (Py.eqb P X); reflexivity.
  - destruct (Py.eqb (symbol y) P) eqn:E1; simpl.
    + apply Py.eqb_eq in E1. rewrite E1.
      destruct (Py.eqb P X) eqn:E2; simpl; [exact IH|]. exact IH.
    + destruct (Py.eqb (symbol y) X) eqn:E2; simpl.
      * destruct (Py.eqb P X) eqn:E3.
        -- apply Py.eqb_eq in E2, E3. subst.
           assert (Ht : Py.eqb (symbol y) (symbol y) = true) by now apply Py.eqb_eq.
           congruence.
        -- now rewrite IH.
      * exact IH.
Qed.

Lemma remove_is_without (cell : list Entry) (existing : Entry) :
  Forall (fun e => backpointers e = []) cell -> In existing cell ->
  filter (fun y => negb (Py.eqb existing y)) cell
  = filter (fun y => negb (Py.eqb (symbol y) (symbol existing))) cell.
Proof.
  intros Hb Hin. apply filter_ext_in. intros y Hy. f_equal.
  rewrite Forall_forall in Hb.
  destruct (Py.eqb existing y) eqn:E.
  - apply entry_eqb_symbol in E. symmetry. apply Py.eqb_eq. congruence.
  - destruct (Py.eqb (symbol y) (symbol existing)) eqn:E'; [|reflexivity].
    apply Py.eqb_eq in E'.
    pose proof (eqb_no_backpointers existing y (eq_sym E') (Hb _ Hin) (Hb _ Hy))
      as Ht.
    unfold Py.eqb in *. congruence.
Qed.

Lemma mass_of_existing (cell : list Entry) (existing : Entry)
      (rest : list Entry) (parent : string) :
  NoDup (map symbol cell) ->
  filter (fun e => Py.eqb (symbol e) parent) cell = existing :: rest ->
  (mass cell parent == weight existing)%Q /\ In existing cell /\
  symbol existing = parent.
Proof.
  intros Hn Ef.
  assert (Hin : In existing (filter (fun e => Py.eqb (symbol e) parent) cell))
    by (rewrite Ef; now left).
  apply filter_In in Hin. destruct Hin as [Hin Hs]. apply Py.eqb_eq in Hs.
  split; [|auto].
  destruct (filter_symbol_unique parent cell Hn) as [E|(e & E)];
    rewrite E in Ef; [discriminate|].
  injection Ef as -> <-. unfold mass. rewrite E. simpl. ring.
Qed.

(** *** One cell *)

Section Cell.
Variable g : Grammar.
Variable n : nat.
Variables i j : nat.
Hypothesis Hij : i + 2 <= j.
Hypothesis Hjn : j <= n.
Variable c0 : Chart.

(** One rule applied to a pair of entries adds the probability of
    the derivation to the mass of the symbol. *)
Lemma combine_mass l r parent p (c1 c2 : Chart) X :
  framed n i j c0 c1 -> combine false i j l r parent p c1 = Ok c2 ->
  framed n i j c0 c2 /\
  (mass (CKYChart.cell c2 i j) X
   == mass (CKYChart.cell c1 i j) X
      + (if Py.eqb parent X
         then toQ (mul (mul p (logprob_of l)) (logprob_of r)) else 0))%Q.
Proof.
  intros (Hs & Ha & Hf) H.
  pose proof (combine_aggregated _ _ _ _ _ _ _ _ Ha H) as Ha2.
  destruct (Ha i j Hij) as [Hn Hb]. unfold CKY_symbols in Hn.
  unfold combine in H. rewrite (getitem_cell n c1 i j Hs) in H by lia.
  cbn [Py.bind] in H.
  destruct (filter (fun e => Py.eqb (symbol e) parent) (CKYChart.cell c1 i j))
    as [|existing rest] eqn:Ef.
  - rewrite (chart_add_shaped n c1 i j _ Hs) in H by lia. injection H as <-.
    split; [split; [now apply store_shaped|split; [exact Ha2|]]|].
    + intros i' j' Hne. rewrite cell_store_neq by auto. now apply Hf.
    + rewrite (cell_store_shaped n) by (auto; lia).
      rewrite mass_add_fresh; [reflexivity|].
      intros y Hy Hsym. simpl in Hsym.
      assert (Hin : In y (filter (fun e => Py.eqb (symbol e) parent)
                                 (CKYChart.cell c1 i j))).
      { apply filter_In. split; [exact Hy|]. now apply Py.eqb_eq. }
      rewrite Ef in Hin. destruct Hin.
  - destruct (mass_of_existing _ _ _ _ Hn Ef) as (Hm & Hin & Hsym).
    unfold chart_remove in H. rewrite (getitem_cell n c1 i j Hs) in H by lia.
    cbn [Py.bind] in H. unfold Py.remove in H.
    rewrite (mem_of_In _ _ Hin) in H. cbn [Py.bind] in H.
    set (s' := filter (fun y => negb (Py.eqb existing y))
                      (CKYChart.cell c1 i j)) in *.
    assert (Hs' : CKY_shaped n (CKYChart.store c1 i j s'))
      by now apply store_shaped.
    rewrite (chart_add_shaped n _ i j _ Hs') in H by lia.
    rewrite (cell_store_shaped n) in H by (auto; lia).
    injection H as <-.
    split; [split; [now apply store_shaped|split; [exact Ha2|]]|].
    + intros i' j' Hne. rewrite !cell_store_neq by auto. now apply Hf.
    + rewrite (cell_store_shaped n) by (auto; lia).
      assert (Es' : s' = filter (fun y => negb (Py.eqb (symbol y) parent))
                               (CKYChart.cell c1 i j)).
      { unfold s'. rewrite (remove_is_without _ existing Hb Hin).
        now rewrite Hsym. }
      rewrite mass_add_fresh.
      2:{ intros y Hy Hy'. simpl in Hy'. rewrite Es' in Hy.
          apply filter_In in Hy. destruct Hy as [_ Hy].
          apply negb_true_iff in Hy.
          assert (Ht : Py.eqb (symbol y) parent = true) by now apply Py.eqb_eq.
          congruence. }
      rewrite Es', mass_without. cbn [symbol].
      destruct (Py.eqb parent X) eqn:E.
      * unfold weight at 1. cbn [logprob_of].
        change (logsumexp ?l) with (Exact.sum l). cbn [Exact.sum fold_right].
        rewrite !toQ_plus, toQ_zero.
        apply Py.eqb_eq in E. subst X. rewrite Hm. unfold weight. ring.
      * ring.
Qed.

Lemma rules_mass l r (c3 c4 : Chart) X :
  framed n i j c0 c3 ->
  Py.for_ (reduce g [symbol l; symbol r])
    (fun '(parent, rule_logprob) chart =>
       combine false i j l r parent rule_logprob chart) c3 = Ok c4 ->
  framed n i j c0 c4 /\
  (mass (CKYChart.cell c4 i j) X
   == mass (CKYChart.cell c3 i j) X + contribution g X l r)%Q.
Proof.
  intros H3 H. unfold contribution.
  refine (for_sum (framed n i j c0) (fun c => mass (CKYChart.cell c i j) X)
                  _ _ _ _ c3 c4 H3 H).
  intros [parent p] c5 c6 _ H5 Hc. simpl. now apply combine_mass.
Qed.

Lemma rights_mass l rights (c1 c2 : Chart) X :
  framed n i j c0 c1 ->
  Py.for_ rights
    (fun right_entry chart =>
       Py.for_ (reduce g [symbol l; symbol right_entry])
         (fun '(parent, rule_logprob) chart =>
            combine false i j l right_entry parent rule_logprob chart)
         chart) c1 = Ok c2 ->
  framed n i j c0 c2 /\
  (mass (CKYChart.cell c2 i j) X
   == mass (CKYChart.cell c1 i j) X
      + total (fun r => contribution g X l r) rights)%Q.
Proof.
  intros H1 H.
  refine (for_sum (framed n i j c0) (fun c => mass (CKYChart.cell c i j) X)
                  _ _ _ _ c1 c2 H1 H).
  intros r c3 c4 _ H3 Hr. now apply rules_mass.
Qed.

Lemma recursive_step_mass k (c c' : Chart) X :
  i < k -> k < j -> framed n i j c0 c ->
  recursive_step g false i j k c = Ok c' ->
  framed n i j c0 c' /\
  (mass (CKYChart.cell c' i j) X
   == mass (CKYChart.cell c i j) X + split_mass g c0 i j k X)%Q.
Proof.
  intros Hik Hkj Hc H. pose proof Hc as (Hs & _ & Hf).
  unfold recursive_step in H.
  rewrite (getitem_cell n c i k Hs) in H by lia. cbn [Py.bind] in H.
  rewrite Hf in H by (intros E; injection E; lia).
  unfold split_mass.
  refine (for_sum (framed n i j c0) (fun c => mass (CKYChart.cell c i j) X)
                  _ _ _ _ c c' Hc H).
  intros l c1 c2 _ H1 Hl. pose proof H1 as (Hs1 & _ & Hf1).
  rewrite (getitem_cell n c1 k j Hs1) in Hl by lia. cbn [Py.bind] in Hl.
  rewrite Hf1 in Hl by (intros E; injection E; lia).
  now apply rights_mass.
Qed.

(** The loop over the split points of the span, from a chart whose
    cell [(i, j)] is empty. *)
Lemma cell_mass (c' : Chart) X :
  CKY_shaped n c0 -> CKY_aggregated c0 -> CKYChart.cell c0 i j = [] ->
  Py.for_ (Py.range (i + 1) j) (recursive_step g false i j) c0 = Ok c' ->
  framed n i j c0 c' /\
  (mass (CKYChart.cell c' i j) X == span_mass g c0 i j X)%Q.
Proof.
  intros Hs Ha He H.
  assert (H0 : framed n i j c0 c0) by (split; [|split]; auto).
  destruct (for_sum (framed n i j c0) (fun c => mass (CKYChart.cell c i j) X)
                    (fun k => split_mass g c0 i j k X)
                    (Py.range (i + 1) j) (recursive_step g false i j))
    with (c := c0) (c' := c') as [Hf Hm]; auto.
  - intros k c1 c2 Hk H1 Hstep. apply in_range_iff in Hk.
    apply recursive_step_mass; auto; lia.
  - split; [exact Hf|]. rewrite Hm, He, mass_nil. unfold span_mass. ring.
Qed.

End Cell.

(** The sums over a span read the cells of its shorter spans only. *)
Lemma span_mass_same (g : Grammar) (c c' : Chart) i j X :
  (forall i' j', j' - i' < j - i ->
                 CKYChart.cell c' i' j' = CKYChart.cell c i' j') ->
  (span_mass g c' i j X == span_mass g c i j X)%Q.
Proof.
  intros H. unfold span_mass. apply total_ext. intros k Hk.
  apply in_range_iff in Hk. unfold split_mass.
  rewrite !H by lia. reflexivity.
Qed.

(** *** The whole chart *)

(** The base case fills the cells of the single tokens only. *)
Lemma base_phase_cells (g : Grammar) s n (c0 : Chart) :
  Py.for_ (Py.range 1 (n + 1)) (base_step g s) (CKYChart.__init__ n) = Ok c0 ->
  CKY_shaped n c0 /\
  forall i j, j <> i + 1 -> CKYChart.cell c0 i j = [].
Proof.
  pose (P := fun c : Chart =>
               CKY_shaped n c /\
               forall i j, j <> i + 1 -> CKYChart.cell c i j = []).
  apply (for_inv P).
  - intros j c1 c2 Hj H1 H. apply in_range_iff in Hj.
    unfold base_step in H. apply bind_Ok in H. destruct H as (w & _ & H).
    revert H. apply (for_inv P); [|exact H1].
    intros [sym lp] c3 c4 _ [Hs3 He3] H.
    apply bind_Ok in H. destruct H as (w' & _ & H).
    apply chart_add_Ok in H. destruct H as (_ & _ & ->).
    split; [now apply store_shaped|].
    intros i' j' Hne. rewrite cell_store_neq; [now apply He3|].
    intros E. injection E as -> ->. lia.
  - split; [apply CKY_init_shaped|]. intros i j _. apply cell_init.
Qed.

Lemma empty_aggregated (c : Chart) :
  (forall i j, j <> i + 1 -> CKYChart.cell c i j = []) -> CKY_aggregated c.
Proof.
  intros He i j Hij. unfold CKY_symbols. rewrite He by lia.
  split; constructor.
Qed.

Section Chart.
Variable g : Grammar.
Variable n : nat.
Variable c0 : Chart.

Local Abbreviation filled := (Inside.filled g n c0).

Lemma cell_filled L m (c c' : Chart) :
  2 <= L -> m + L <= n -> filled L m c ->
  Py.for_ (Py.range (m + 1) (m + L)) (recursive_step g false m (m + L)) c
  = Ok c' ->
  filled L (S m) c'.
Proof.
  intros HL Hm (Hs & Ha & Hrec & Hemp & Hbase) H.
  assert (He : CKYChart.cell c m (m + L) = []) by (apply Hemp; lia).
  assert (Hcell : forall X,
             framed n m (m + L) c c' /\
             (mass (CKYChart.cell c' m (m + L)) X
              == span_mass g c m (m + L) X)%Q).
  { intros X. apply (cell_mass g n m (m + L)); auto; lia. }
  destruct (Hcell EmptyString) as [(Hs' & Ha' & Hf) _].
  split; [exact Hs'|]. split; [exact Ha'|]. split; [|split].
  - intros i j X Hij Hj Hdone.
    rewrite (span_mass_same g c c') by (intros i' j' Hlt; apply Hf;
                                       intros E; injection E as -> ->; lia).
    destruct (Nat.eq_dec i m) as [->|Hne].
    + destruct (Nat.eq_dec j (m + L)) as [->|Hne'].
      * apply Hcell.
      * rewrite Hf by congruence. apply Hrec; auto. lia.
    + rewrite Hf by congruence. apply Hrec; auto. lia.
  - intros i j Hlen Hnot. rewrite Hf; [apply Hemp; auto; lia|].
    intros E. injection E as -> ->. lia.
  - intros i j Hlen. rewrite Hf; [now apply Hbase|].
    intros E. injection E as -> ->. lia.
Qed.

Lemma length_filled L (c c' : Chart) :
  2 <= L -> L <= n -> filled L 0 c ->
  Py.for_ (Py.range 0 (n - L + 1))
    (fun i chart =>
       let j := i + L in
       Py.for_ (Py.range (i + 1) j) (recursive_step g false i j) chart)
    c = Ok c' ->
  filled (S L) 0 c'.
Proof.
  intros HL HLn Hc H. unfold Py.range at 1 in H. rewrite Nat.sub_0_r in H.
  eapply (for_range_inv (filled L)) in H; [|clear H|exact Hc].
  - simpl in H. destruct H as (Hs & Ha & Hrec & Hemp & Hbase).
    split; [exact Hs|]. split; [exact Ha|]. split; [|split].
    + intros i j X Hij Hj Hdone. apply Hrec; auto. lia.
    + intros i j Hlen Hnot. apply Hemp; auto. lia.
    + exact Hbase.
  - intros m c1 c2 Hm H1 Hstep. apply (cell_filled L m c1 c2); auto. lia.
Qed.

Lemma recursive_phase_filled (c : Chart) :
  CKY_shaped n c0 ->
  (forall i j, j <> i + 1 -> CKYChart.cell c0 i j = []) ->
  Py.for_ (Py.range 2 (n + 1))
    (fun length chart =>
       Py.for_ (Py.range 0 (n - length + 1))
         (fun i chart =>
            let j := i + length in
            Py.for_ (Py.range (i + 1) j) (recursive_step g false i j) chart)
         chart)
    c0 = Ok c ->
  recurrence g n c /\
  forall i j, j - i < 2 -> CKYChart.cell c i j = CKYChart.cell c0 i j.
Proof.
  intros Hs He H. unfold Py.range at 1 in H.
  eapply (for_range_inv (fun L => filled L 0)) in H; [|clear H|].
  - destruct H as (_ & _ & Hrec & _ & Hbase). split; [|exact Hbase].
    intros i j X Hij Hj. apply Hrec; auto. lia.
  - intros L c1 c2 HL H1 Hstep. apply (length_filled L c1 c2); auto; lia.
  - split; [exact Hs|]. split; [now apply empty_aggregated|].
    split; [|split]; auto.
    + intros i j X Hij Hj Hdone. lia.
    + intros i j Hlen _. apply He. lia.
Qed.

End Chart.

(** With [keep_backtraces=False] the filled chart obeys the
    recurrence, and its cells for single tokens are those of the base
    case. *)
Lemma fill_chart_recurrence (g : Grammar) s (c : Chart) :
  _fill_chart g s false = Ok c ->
  exists c0,
    Py.for_ (Py.range 1 (List.length s + 1)) (base_step g s)
            (CKYChart.__init__ (List.length s)) = Ok c0 /\
    recurrence g (List.length s) c /\
    forall i j, j - i < 2 -> CKYChart.cell c i j = CKYChart.cell c0 i j.
Proof.
  unfold _fill_chart. cbv zeta. intros H.
  apply bind_Ok in H. destruct H as (c0 & H0 & H).
  exists c0. split; [exact H0|].
  destruct (base_phase_cells g s _ c0 H0) as [Hs He].
  now apply (recursive_phase_filled g (List.length s) c0).
Qed.

End InsideAggregate.

(** ** The recurrence of the inside algorithm, with [keep_backtraces=True] *)

Module InsideBacktrace.
Import QArith.
Local Open Scope nat_scope.
Import PCFG CKYChartFacts PCKYFacts PCKYAgreement PCKYCorrect SliceFacts.
Import LoopFacts Exact ExactQ ExactQFacts Inside.
#[local] Existing Instance Exact.ExactLogProb.
#[local] Existing Instance PCFG.CKYChartEntry_Eq.
#[local] Existing Instance PCFG.logprob_Eq.

(** *** Lists without repetition *)

Lemma same_key {E K} (key : E -> K) (es : list E) (a b : E) :
  NoDup (map key es) -> In a es -> In b es -> key a = key b -> a = b.
Proof.
  induction es as [|e es IH]; simpl; intros Hn Ha Hb Hk; [destruct Ha|].
  apply NoDup_cons_iff in Hn. destruct Hn as [He Hes].
  destruct Ha as [->|Ha], Hb as [->|Hb]; auto.
  - exfalso. apply He. rewrite Hk. now apply in_map.
  - exfalso. apply He. rewrite <- Hk. now apply in_map.
Qed.

Lemma distinct_flat_map {E B K} (key : B -> K) (f : E -> list B)
      (es : list E) :
  NoDup es ->
  (forall e, In e es -> NoDup (map key (f e))) ->
  (forall e e' b b', In e es -> In e' es -> In b (f e) -> In b' (f e') ->
                     key b = key b' -> e = e') ->
  NoDup (map key (flat_map f es)).
Proof.
  induction es as [|e es IH]; simpl; intros Hn Hin Hout; [constructor|].
  apply NoDup_cons_iff in Hn. destruct Hn as [He Hes].
  rewrite map_app. apply NoDup_app.
  - apply Hin. now left.
  - apply IH; auto. intros e1 e2 b b' H1 H2. apply Hout; now right.
  - intros t Ht Ht'. apply in_map_iff in Ht. destruct Ht as (b & <- & Hb).
    apply in_map_iff in Ht'. destruct Ht' as (b' & Hk & Hb').
    apply in_flat_map in Hb'. destruct Hb' as (e' & He' & Hb').
    assert (e' = e).
    { apply (Hout e' e b' b); auto; solve [now right | now left]. }
    subst e'. contradiction.
Qed.

Lemma of_list_distinct {E} `{Py.Eq E} (es : list E) :
  (forall e : E, Py.eqb e e = true) -> NoDup (Py.of_list es).
Proof.
  intros Hrefl. unfold Py.of_list.
  assert (Hgen : forall acc, NoDup acc ->
             NoDup (fold_left (fun s x => Py.add x s) es acc)).
  { induction es as [|e es IH]; simpl; intros acc Hacc; [exact Hacc|].
    apply IH. unfold Py.add. destruct (Py.mem e acc) eqn:Em; [exact Hacc|].
    apply NoDup_app; auto.
    - constructor; [intros [] | constructor].
    - intros a Ha [<-|[]].
      assert (Py.mem e acc = true); [|congruence].
      unfold Py.mem. apply existsb_exists. exists e. auto. }
  apply Hgen. constructor.
Qed.

(** Sums over two lists whose elements correspond by a key. *)
Lemma total_matched {E B K} (ka : E -> K) (kb : B -> K)
      (wa : E -> Q) (wb : B -> Q) :
  forall (es : list E) (bs : list B),
    NoDup (map ka es) -> NoDup (map kb bs) ->
    (forall t, In t (map ka es) <-> In t (map kb bs)) ->
    (forall a b, In a es -> In b bs -> ka a = kb b -> (wa a == wb b)%Q) ->
    (total wa es == total wb bs)%Q.
Proof.
  induction es as [|a es IH]; intros bs Hna Hnb Hsame Hw.
  - destruct bs as [|b bs]; [reflexivity|].
    exfalso. apply (proj2 (Hsame (kb b))). now left.
  - simpl in Hna. apply NoDup_cons_iff in Hna. destruct Hna as [Ha Hes].
    assert (Hb : In (ka a) (map kb bs)) by (apply Hsame; now left).
    apply in_map_iff in Hb. destruct Hb as (b & Hk & Hb).
    apply in_split in Hb. destruct Hb as (pre & post & ->).
    rewrite map_app in Hnb. simpl in Hnb.
    pose proof (NoDup_remove_1 _ _ _ Hnb) as Hrest.
    pose proof (NoDup_remove_2 _ _ _ Hnb) as Hfresh.
    rewrite <- map_app in Hrest, Hfresh.
    simpl. rewrite total_app. simpl.
    rewrite (IH (pre ++ post)); auto.
    + rewrite total_app.
      rewrite (Hw a b);
        [ring | now left | apply in_or_app; right; now left | now symmetry].
    + intros t. split.
      * intros Ht.
        assert (Ht' : In t (map kb (pre ++ b :: post)))
          by (apply Hsame; now right).
        rewrite map_app in Ht'. simpl in Ht'. rewrite map_app.
        apply in_app_or in Ht'. apply in_or_app.
        destruct Ht' as [Ht'|[Ht'|Ht']]; auto.
        exfalso. apply Ha. congruence.
      * intros Ht.
        assert (Ht' : In t (map ka (a :: es))).
        { apply Hsame. rewrite map_app in *. simpl.
          apply in_app_or in Ht. apply in_or_app.
          destruct Ht; auto. right. now right. }
        destruct Ht' as [Ht'|Ht']; auto.
        exfalso. apply Hfresh. congruence.
    + intros a' b' Ha' Hb'. apply Hw; [now right|].
      apply in_app_or in Hb'. apply in_or_app.
      destruct Hb'; auto. right. now right.
Qed.

(** *** Trees *)

Lemma tree_yield (g : Grammar) t A w lp :
  CKY_tree g t A w lp ->
  forall A' w' lp', CKY_tree g t A' w' lp' -> w = w'.
Proof.
  induction 1 as [r w Hr Hw | r B C u v tl tr lpl lpr Hr Hw Hl IHl Ht IHt];
    intros A' w' lp' H'; inversion H'; subst.
  - reflexivity.
  - f_equal; eauto.
Qed.

Lemma same_rule (g : Grammar) (r r' : ProbabilisticRule) :
  NoDup (map rule (rules g)) -> In r (rules g) -> In r' (rules g) ->
  left_side (rule r) = left_side (rule r') ->
  right_side (rule r) = right_side (rule r') -> r = r'.
Proof.
  intros Hn Hr Hr' Hl Hrs. apply (same_key rule (rules g)); auto.
  destruct (rule r), (rule r'). simpl in *. congruence.
Qed.

(** With one rule for each pair of sides, a tree has one
    probability. *)
Lemma tree_logprob (g : Grammar) t A w lp :
  NoDup (map rule (rules g)) ->
  CKY_tree g t A w lp ->
  forall A' w' lp', CKY_tree g t A' w' lp' -> lp = lp'.
Proof.
  intros Hn.
  induction 1 as [r w Hr Hw | r B C u v tl tr lpl lpr Hr Hw Hl IHl Ht IHt];
    intros A' w' lp' H'; inversion H' as [r' x Hr' Hw' | r' B' C' u' v' tl' tr' lpl' lpr' Hr' Hw' Hl' Ht']; subst.
  - assert (r = r') by (apply (same_rule g); auto; congruence).
    now subst.
  - destruct (tree_root _ _ _ _ _ Hl) as (cs & El).
    destruct (tree_root _ _ _ _ _ Hl') as (cs' & El').
    destruct (tree_root _ _ _ _ _ Ht) as (ds & Et).
    destruct (tree_root _ _ _ _ _ Ht') as (ds' & Et').
    assert (B = B') by congruence. assert (C = C') by congruence.
    assert (r = r') by (apply (same_rule g); auto; congruence).
    subst. f_equal; [f_equal|]; eauto.
Qed.

(** *** [reduce] *)

Lemma reduce_distinct (g : Grammar) rhs : NoDup (reduce g rhs).
Proof.
  unfold reduce. apply of_list_distinct. intros [x p].
  unfold Py.eqb, Py.prod_Eq. simpl. apply andb_true_iff. split.
  - apply String.eqb_refl.
  - apply N.eqb_refl.
Qed.

Lemma reduce_one_logprob (g : Grammar) rhs X p p' :
  NoDup (map rule (rules g)) ->
  In (X, p) (reduce g rhs) -> In (X, p') (reduce g rhs) -> p = p'.
Proof.
  intros Hn H H'.
  apply reduce_rule in H. destruct H as (r & Hr & Hrhs & Hl & Hp).
  apply reduce_rule in H'. destruct H' as (r' & Hr' & Hrhs' & Hl' & Hp').
  assert (r = r') by (apply (same_rule g); auto; congruence).
  congruence.
Qed.

Lemma reduce_for_symbol (g : Grammar) rhs X :
  NoDup (map rule (rules g)) ->
  List.length (filter (fun yp => Py.eqb (fst yp) X) (reduce g rhs)) <= 1.
Proof.
  intros Hn.
  match goal with
  | |- List.length ?l <= 1 => remember l as found eqn:Ef
  end.
  assert (Hd : NoDup found)
    by (subst found; apply NoDup_filter, reduce_distinct).
  assert (Hin : forall yp, In yp found ->
                           In yp (reduce g rhs) /\ fst yp = X).
  { intros yp H. subst found. apply filter_In in H. destruct H as [H1 H2].
    split; [exact H1|]. now apply Py.eqb_eq in H2. }
  clear Ef. destruct found as [|[x p] [|[x' p'] rest]]; simpl; try lia.
  exfalso.
  destruct (Hin (x, p)) as [H1 E1]; [now left|].
  destruct (Hin (x', p')) as [H2 E2]; [right; now left|].
  simpl in E1, E2. subst x x'.
  assert (p = p') by (eapply reduce_one_logprob; eauto). subst p'.
  apply NoDup_cons_iff in Hd. apply (proj1 Hd). now left.
Qed.

(** *** The candidates of a cell *)

Lemma candidates_In (g : Grammar) (c : Chart) i j X l r p :
  In (l, r, p) (candidates g c i j X) <->
  exists k, i < k < j /\ In l (CKYChart.cell c i k) /\
            In r (CKYChart.cell c k j) /\
            In (X, p) (reduce g [symbol l; symbol r]).
Proof.
  unfold candidates. split.
  - intros H. apply in_flat_map in H. destruct H as (k & Hk & H).
    apply in_flat_map in H. destruct H as (l' & Hl & H).
    apply in_flat_map in H. destruct H as (r' & Hr & H).
    apply in_map_iff in H. destruct H as ([x q] & [= -> -> ->] & H).
    apply filter_In in H. destruct H as [H Hx]. simpl in Hx.
    apply Py.eqb_eq in Hx. subst x.
    apply in_range_iff in Hk. exists k. repeat split; auto; lia.
  - intros (k & Hk & Hl & Hr & H).
    apply in_flat_map. exists k. split; [apply in_range_iff; lia|].
    apply in_flat_map. exists l. split; [exact Hl|].
    apply in_flat_map. exists r. split; [exact Hr|].
    apply in_map_iff. exists (X, p). split; [reflexivity|].
    apply filter_In. split; [exact H|]. simpl. now apply Py.eqb_eq.
Qed.

Lemma candidates_total (g : Grammar) (c : Chart) i j X :
  (total candidate_weight (candidates g c i j X) == span_mass g c i j X)%Q.
Proof.
  unfold candidates, span_mass. rewrite total_flat_map.
  apply total_ext. intros k _. unfold split_mass.
  rewrite total_flat_map. apply total_ext. intros l _.
  rewrite total_flat_map. apply total_ext. intros r _.
  unfold contribution. rewrite total_map, total_filter.
  apply total_ext. intros [x p] _. unfold candidate_weight. simpl.
  reflexivity.
Qed.

Section Cell.
Variable g : Grammar.
Variable s : list string.
Variable c : Chart.
Hypothesis Hrules : NoDup (map rule (rules g)).
Hypothesis Hsound : CKY_entries_sound g s c.
Hypothesis Hcover :
  forall i j, i < j -> j <= List.length s -> CKY_covers g s c i j.
Hypothesis Hdistinct :
  forall i j, NoDup (map _build_tree (CKYChart.cell c i j)).
Variables i j : nat.
Variable X : string.
Hypothesis Hij : i + 2 <= j.
Hypothesis Hj : j <= List.length s.

Lemma cell_distinct i' j' : NoDup (CKYChart.cell c i' j').
Proof. apply (NoDup_map_inv _build_tree). apply Hdistinct. Qed.

Lemma entry_of_tree i' j' (a b : Entry) :
  In a (CKYChart.cell c i' j') -> In b (CKYChart.cell c i' j') ->
  _build_tree a = _build_tree b -> a = b.
Proof. apply same_key. apply Hdistinct. Qed.

(** An entry belongs to the cell of one span. *)
Lemma split_of_entry k k' (a b : Entry) :
  k <= List.length s -> k' <= List.length s ->
  In a (CKYChart.cell c i k) -> In b (CKYChart.cell c i k') ->
  _build_tree a = _build_tree b -> k = k'.
Proof.
  intros Hk Hk' Ha Hb E.
  destruct (Hsound _ _ _ Ha) as [Bk Ta].
  destruct (Hsound _ _ _ Hb) as [Bk' Tb]. rewrite <- E in Tb.
  pose proof (tree_yield _ _ _ _ _ Ta _ _ _ Tb) as Ey.
  apply (f_equal (@List.length _)) in Ey.
  rewrite !slice_length in Ey by lia. lia.
Qed.

Lemma candidates_distinct :
  NoDup (map (candidate_tree X) (candidates g c i j X)).
Proof.
  unfold candidates.
  assert (Hinner : forall l r x,
             In x (map (fun yp : string * Prob => (l, r, snd yp))
                       (filter (fun yp => Py.eqb (fst yp) X)
                               (reduce g [symbol l; symbol r]))) ->
             fst (fst x) = l /\ snd (fst x) = r).
  { intros l r x H. apply in_map_iff in H.
    destruct H as (yp & <- & _). auto. }
  apply distinct_flat_map.
  - apply seq_NoDup.
  - intros k Hk. apply in_range_iff in Hk. apply distinct_flat_map.
    + apply cell_distinct.
    + intros l Hl. apply distinct_flat_map.
      * apply cell_distinct.
      * intros r Hr. rewrite map_map.
        pose proof (reduce_for_symbol g [symbol l; symbol r] X Hrules) as H1.
        destruct (filter _ (reduce g [symbol l; symbol r])) as [|yp [|yq rest]];
          simpl in *; try lia; repeat constructor. intros [].
      * intros r r' b b' Hr Hr' Hb Hb' E.
        apply Hinner in Hb. apply Hinner in Hb'.
        destruct Hb as (_ & <-), Hb' as (_ & <-).
        unfold candidate_tree in E. injection E as _ E.
        now apply (entry_of_tree k j).
    + intros l l' b b' Hl Hl' Hb Hb' E.
      apply in_flat_map in Hb. destruct Hb as (r & Hr & Hb).
      apply in_flat_map in Hb'. destruct Hb' as (r' & Hr' & Hb').
      apply Hinner in Hb. apply Hinner in Hb'.
      destruct Hb as (<- & _), Hb' as (<- & _).
      unfold candidate_tree in E. injection E as E _.
      now apply (entry_of_tree i k).
  - intros k k' b b' Hk Hk' Hb Hb' E.
    apply in_range_iff in Hk. apply in_range_iff in Hk'.
    apply in_flat_map in Hb. destruct Hb as (l & Hl & Hb).
    apply in_flat_map in Hb'. destruct Hb' as (l' & Hl' & Hb').
    apply in_flat_map in Hb. destruct Hb as (r & Hr & Hb).
    apply in_flat_map in Hb'. destruct Hb' as (r' & Hr' & Hb').
    apply Hinner in Hb. apply Hinner in Hb'.
    destruct Hb as (El & _), Hb' as (El' & _).
    unfold candidate_tree in E. injection E as E _.
    rewrite El, El' in E.
    apply (split_of_entry k k' l l'); auto; lia.
Qed.

(** The tree of a candidate is a derivation tree of the span, with the
    probability of the candidate. *)
Lemma candidate_derivation l r p :
  In (l, r, p) (candidates g c i j X) ->
  CKY_tree g (candidate_tree X (l, r, p)) X (slice s i j)
           (mul (mul p (logprob_of l)) (logprob_of r)).
Proof.
  intros H. apply candidates_In in H.
  destruct H as (k & Hk & Hl & Hr & H).
  destruct (reduce_rule g _ _ _ H) as (r0 & Hr0 & Hrhs & <- & <-).
  destruct (Hsound _ _ _ Hl) as [_ Tl].
  destruct (Hsound _ _ _ Hr) as [_ Tr].
  rewrite <- (slice_app s i k j) by lia.
  unfold candidate_tree. simpl.
  exact (CKY_tree_pair g r0 _ _ _ _ _ _ _ _ Hr0 Hrhs Tl Tr).
Qed.

Lemma backtrace_cell_mass :
  (mass (CKYChart.cell c i j) X == span_mass g c i j X)%Q.
Proof.
  rewrite <- candidates_total. unfold mass.
  apply (total_matched _build_tree (candidate_tree X)).
  - apply filter_keeps_distinct. apply Hdistinct.
  - apply candidates_distinct.
  - intros t. split.
    + intros H. apply in_map_iff in H. destruct H as (e & <- & He).
      apply filter_In in He. destruct He as [He Hx].
      apply Py.eqb_eq in Hx.
      destruct (Hsound _ _ _ He) as [_ Te]. rewrite Hx in Te.
      apply tree_pair_inv in Te; [|lia|lia|lia].
      destruct Te as (r0 & B & C & tl & tr & lpl & lpr & k & Hik & Hkj &
                      Hr0 & Hrhs & Hl0 & Et & Tl & Tr & _).
      destruct (Hcover i k Hik ltac:(lia) _ _ _ Tl) as (l & Hl & El).
      destruct (Hcover k j Hkj Hj _ _ _ Tr) as (r & Hr & Er).
      assert (Sl : symbol l = B).
      { destruct (tree_root _ _ _ _ _ Tl) as (cs & E1).
        destruct (build_tree_symbol l) as (cs' & E2). congruence. }
      assert (Sr : symbol r = C).
      { destruct (tree_root _ _ _ _ _ Tr) as (cs & E1).
        destruct (build_tree_symbol r) as (cs' & E2). congruence. }
      destruct (reduce_cover g r0 Hr0) as (p & Hp).
      rewrite Hrhs, Hl0 in Hp.
      apply in_map_iff. exists (l, r, p). split.
      * unfold candidate_tree. simpl. congruence.
      * apply candidates_In. exists k. rewrite Sl, Sr. auto.
    + intros H. apply in_map_iff in H. destruct H as ([[l r] p] & <- & H).
      pose proof (candidate_derivation l r p H) as T.
      destruct (Hcover i j ltac:(lia) Hj _ _ _ T) as (e & He & Ee).
      apply in_map_iff. exists e. split; [exact Ee|].
      apply filter_In. split; [exact He|]. apply Py.eqb_eq.
      destruct (build_tree_symbol e) as (cs & E2).
      unfold candidate_tree in Ee. congruence.
  - intros e [[l r] p] He H E.
    apply filter_In in He. destruct He as [He _].
    destruct (Hsound _ _ _ He) as [_ Te].
    pose proof (candidate_derivation l r p H) as T. rewrite <- E in T.
    unfold weight, candidate_weight. simpl.
    now rewrite (tree_logprob g _ _ _ _ Hrules Te _ _ _ T).
Qed.

End Cell.

(** With [keep_backtraces=True] and one rule for each pair of sides,
    the filled chart obeys the recurrence. *)
Lemma backtrace_recurrence (g : Grammar) s (c : Chart) :
  NoDup (map rule (rules g)) ->
  _fill_chart g s true = Ok c ->
  recurrence g (List.length s) c.
Proof.
  intros Hn Hc.
  destruct (fill_chart_backtraces g s) as (c' & Hc' & _ & Hsound & Hcover).
  assert (c' = c) by congruence. subst c'.
  intros i j X Hij Hj.
  apply (backtrace_cell_mass g s c); auto.
  apply (fill_chart_distinct g s c Hc).
Qed.

End InsideBacktrace.

(** ** The two modes of the filler carry the same probability mass *)

Module InsideAgree.
Import QArith.
Local Open Scope nat_scope.
Import PCFG CKYChartFacts PCKYFacts PCKYAgreement PCKYCorrect SliceFacts.
Import LoopFacts Exact ExactQ ExactQFacts Inside.
#[local] Existing Instance Exact.ExactLogProb.
#[local] Existing Instance PCFG.CKYChartEntry_Eq.
#[local] Existing Instance PCFG.logprob_Eq.

(** *** Sums over a cell, symbol by symbol *)

Lemma contribution_factor (g : Grammar) X (l r : Entry) :
  (contribution g X l r
   == weight l * (weight r * rule_mass g X (symbol l) (symbol r)))%Q.
Proof.
  unfold contribution, rule_mass.
  rewrite <- (total_scale (weight r)), <- (total_scale (weight l)).
  apply total_ext. intros [x p] _. simpl.
  destruct (Py.eqb x X); [|ring].
  rewrite !toQ_mul. unfold weight. ring.
Qed.

Lemma mass_cons (e : Entry) (cell : list Entry) X :
  (mass (e :: cell) X
   == (if Py.eqb (symbol e) X then weight e else 0) + mass cell X)%Q.
Proof.
  unfold mass. simpl. destruct (Py.eqb (symbol e) X); simpl; ring.
Qed.

Lemma total_by_symbol (F : string -> Q) (cell : list Entry)
      (syms : list string) :
  NoDup syms -> (forall e, In e cell -> In (symbol e) syms) ->
  (total (fun e => weight e * F (symbol e)) cell
   == total (fun B => mass cell B * F B) syms)%Q.
Proof.
  intros Hn. induction cell as [|e cell IH]; intros Hin.
  - simpl. rewrite (total_ext _ (fun _ => 0%Q)), total_zero; [reflexivity|].
    intros B _. unfold mass. simpl. ring.
  - simpl.
    rewrite (total_ext (fun B => (mass (e :: cell) B * F B)%Q)
               (fun B => ((if Py.eqb (symbol e) B then weight e else 0) * F B
                          + mass cell B * F B)%Q)).
    + rewrite total_plus, <- IH by (intros e' He'; apply Hin; now right).
      rewrite (total_only _ syms (symbol e)); auto.
      * rewrite (proj2 (Py.eqb_eq (symbol e) (symbol e)) eq_refl).
        reflexivity.
      * apply Hin. now left.
      * intros B _ HB. destruct (Py.eqb (symbol e) B) eqn:E; [|ring].
        apply Py.eqb_eq in E. congruence.
    + intros B _. rewrite mass_cons. ring.
Qed.

(** Two cells that carry the same mass for every symbol give the same
    sum. *)
Lemma regroup (F : string -> Q) (cell cell' : list Entry) :
  (forall Y, (mass cell Y == mass cell' Y)%Q) ->
  (total (fun e => weight e * F (symbol e)) cell
   == total (fun e => weight e * F (symbol e)) cell')%Q.
Proof.
  intros Hm.
  set (syms := nodup string_dec (map symbol cell ++ map symbol cell')).
  assert (Hn : NoDup syms) by apply NoDup_nodup.
  rewrite (total_by_symbol F cell syms), (total_by_symbol F cell' syms); auto.
  - apply total_ext. intros B _. now rewrite Hm.
  - intros e He. apply nodup_In. apply in_or_app. right. now apply in_map.
  - intros e He. apply nodup_In. apply in_or_app. left. now apply in_map.
Qed.

Lemma pairs_factor (g : Grammar) X (lefts rights : list Entry) :
  (total (fun l => total (fun r => contribution g X l r) rights) lefts
   == total (fun l =>
               weight l *
               total (fun r => weight r * rule_mass g X (symbol l) (symbol r))
                     rights) lefts)%Q.
Proof.
  apply total_ext. intros l _. rewrite <- total_scale.
  apply total_ext. intros r _. apply contribution_factor.
Qed.

Lemma pairs_agree (g : Grammar) X (lefts lefts' rights rights' : list Entry) :
  (forall Y, (mass lefts Y == mass lefts' Y)%Q) ->
  (forall Y, (mass rights Y == mass rights' Y)%Q) ->
  (total (fun l => total (fun r => contribution g X l r) rights) lefts
   == total (fun l => total (fun r => contribution g X l r) rights') lefts')%Q.
Proof.
  intros Hl Hr. rewrite !pairs_factor.
  transitivity
    (total (fun l =>
              weight l *
              total (fun r => weight r * rule_mass g X (symbol l) (symbol r))
                    rights')%Q lefts).
  - apply total_ext. intros l _.
    rewrite (regroup (fun C => rule_mass g X (symbol l) C) rights rights' Hr).
    reflexivity.
  - exact (regroup
             (fun B => total (fun r => (weight r
                                        * rule_mass g X B (symbol r))%Q)
                             rights') lefts lefts' Hl).
Qed.

(** Two charts that obey the recurrence and have the same cells for
    the single tokens carry the same mass in every cell. *)
Lemma masses_agree (g : Grammar) n (ca cb : Chart) :
  recurrence g n ca -> recurrence g n cb ->
  (forall i j, j - i < 2 -> CKYChart.cell ca i j = CKYChart.cell cb i j) ->
  forall i j X, j <= n ->
    (mass (CKYChart.cell ca i j) X == mass (CKYChart.cell cb i j) X)%Q.
Proof.
  intros Ha Hb Hbase.
  assert (Hlen : forall len i j X, j - i < len -> j <= n ->
             (mass (CKYChart.cell ca i j) X
              == mass (CKYChart.cell cb i j) X)%Q).
  { induction len as [|len IH]; intros i j X Hlt Hj; [lia|].
    destruct (Nat.lt_ge_cases (j - i) 2) as [Hs|Hs].
    - now rewrite Hbase.
    - pose proof (Ha i j X ltac:(lia) Hj) as Ra.
      pose proof (Hb i j X ltac:(lia) Hj) as Rb.
      rewrite Ra, Rb. unfold span_mass.
      apply total_ext. intros k Hk. apply in_range_iff in Hk.
      unfold split_mass. apply pairs_agree.
      + intros Y. apply IH; lia.
      + intros Y. apply IH; lia. }
  intros i j X Hj. apply (Hlen (S (j - i))); auto.
Qed.

(** *** The cells of the single tokens *)

(** In both modes the recursive case leaves the cells of the single
    tokens as the base case filled them. *)
Lemma fill_chart_base (g : Grammar) s b (c : Chart) :
  _fill_chart g s b = Ok c ->
  exists c0,
    Py.for_ (Py.range 1 (List.length s + 1)) (base_step g s)
            (CKYChart.__init__ (List.length s)) = Ok c0 /\
    forall i j, j - i < 2 -> CKYChart.cell c i j = CKYChart.cell c0 i j.
Proof.
  unfold _fill_chart. cbv zeta. intros H.
  apply bind_Ok in H. destruct H as (c0 & H0 & H).
  exists c0. split; [exact H0|].
  set (n := List.length s) in *.
  pose (P := fun c1 : Chart =>
               CKY_shaped n c1 /\
               forall i j, j - i < 2 ->
                           CKYChart.cell c1 i j = CKYChart.cell c0 i j).
  assert (HP : P c); [|exact (proj2 HP)].
  revert H. apply (for_inv P).
  - intros len c1 c2 Hlen H1. apply in_range_iff in Hlen.
    apply (for_inv P).
    + intros i c3 c4 Hi H3. apply in_range_iff in Hi. cbv zeta.
      apply (for_inv P); [|exact H3].
      intros k c5 c6 Hk [S5 B5] H. apply in_range_iff in Hk.
      destruct (recursive_step_spec g n i (i + len) k ltac:(lia) ltac:(lia)
                  ltac:(lia) c5 S5 b) as (c' & H' & (S' & F' & _) & _).
      assert (c' = c6) by congruence. subst c'.
      split; [exact S'|]. intros i' j' Hs.
      rewrite F'; [now apply B5|]. intros [= -> ->]. lia.
    + exact H1.
  - split; [|reflexivity]. now apply (base_phase_shaped g s).
Qed.

(** *** The top cell *)

Lemma fill_chart_masses (g : Grammar) s (ca cb : Chart) :
  NoDup (map rule (rules g)) ->
  _fill_chart g s false = Ok ca -> _fill_chart g s true = Ok cb ->
  forall i j X, j <= List.length s ->
    (mass (CKYChart.cell ca i j) X == mass (CKYChart.cell cb i j) X)%Q.
Proof.
  intros Hn Ha Hb.
  destruct (InsideAggregate.fill_chart_recurrence g s ca Ha)
    as (c0 & H0 & Ra & Ba).
  destruct (fill_chart_base g s true cb Hb) as (c0' & H0' & Bb).
  assert (c0' = c0) by congruence. subst c0'.
  apply (masses_agree g (List.length s) ca cb); auto.
  - now apply InsideBacktrace.backtrace_recurrence.
  - intros i j Hs. now rewrite Ba, Bb.
Qed.

Lemma recognize_is_sum (g : Grammar) s :
  NoDup (map rule (rules g)) -> s <> [] ->
  exists p l,
    PCKY_recognize g s = Ok p /\ PCKY_parse g s = Ok l /\
    Prob_eqb p (sum (map snd l)) = true.
Proof.
  intros Hn Hs.
  destruct (fill_chart_total g s false) as (ca & Ha & Sa).
  destruct (fill_chart_total g s true) as (cb & Hb & Sb).
  pose proof (fill_chart_masses g s ca cb Hn Ha Hb 0 (List.length s)
                (start_variable g) (le_n _)) as Hm.
  exists (sum (map logprob_of
                   (filter (fun e => Py.eqb (symbol e) (start_variable g))
                           (CKYChart.cell ca 0 (List.length s))))).
  exists (map (fun e => (_build_tree e, logprob_of e))
              (filter (fun e => Py.eqb (symbol e) (start_variable g))
                      (CKYChart.cell cb 0 (List.length s)))).
  split; [|split].
  - unfold PCKY_recognize. rewrite Ha. cbn [Py.bind].
    rewrite (top_cell g s false ca Hs Ha Sa). cbn [Py.bind].
    destruct (map logprob_of _); reflexivity.
  - unfold PCKY_parse. rewrite Hb. cbn [Py.bind].
    rewrite (top_cell g s true cb Hs Hb Sb). reflexivity.
  - rewrite map_map. simpl.
    apply Prob_eqb_toQ. rewrite !toQ_sum, !total_map. exact Hm.
Qed.

End InsideAgree.

(** ** The probability of a string is the sum over its parses *)

(** X25.  Over exact probabilities, where adding log-probabilities is
    multiplying and [logsumexp] is adding: for a grammar whose rules
    are a set, one rule for each pair of sides, and a non-empty
    input, both modes of the probabilistic CKY parser return, and the
    probability that [_recognize] returns is the sum of the
    probabilities of the trees that [_parse] returns. *)
Theorem PCKY_inside_probability
        (g : @PCFG.ProbabilisticContextFreeGrammar Exact.ExactLogProb)
        (s : list string) :
  NoDup (map PCFG.rule (PCFG.rules g)) -> s <> [] ->
  exists p l,
    PCFG.PCKY_recognize g s = Ok p /\ PCFG.PCKY_parse g s = Ok l /\
    Exact.Prob_eqb p (Exact.sum (map snd l)) = true.
Proof. apply InsideAgree.recognize_is_sum. Qed.

Lemma PCKY_inside_probability_witness :
  exists p l,
    PCFG.PCKY_recognize Examples.two_derivations ["a"; "b"] = Ok p /\
    PCFG.PCKY_parse Examples.two_derivations ["a"; "b"] = Ok l /\
    Exact.Prob_eqb p (Exact.sum (map snd l)) = true.
Proof.
  apply (PCKY_inside_probability Examples.two_derivations ["a"; "b"]).
  - repeat (apply NoDup_cons;
            [simpl; intros H; repeat destruct H as [H|H];
             try discriminate H; exact H|]).
    apply NoDup_nil.
  - discriminate.
Defined.


(** ** What the Earley chart asserts is derivable *)

Module EarleySound.
Import Earley EarleyFacts EarleyTermination SliceFacts.

Lemma derives_seq_app g xs ys u v :
  CFG_derives_seq g xs u -> CFG_derives_seq g ys v ->
  CFG_derives_seq g (xs ++ ys) (u ++ v).
Proof.
  intros Hx Hy. induction Hx as [|x xs u1 u2 Hd _ IH]; simpl; [exact Hy|].
  rewrite <- app_assoc. now constructor.
Qed.

Lemma derives_seq_one g x u :
  CFG_derives g x u -> CFG_derives_seq g [x] u.
Proof.
  intros H. rewrite <- (app_nil_r u). constructor; [exact H | constructor].
Qed.

Lemma derives_seq_one_inv g x u :
  CFG_derives_seq g [x] u -> CFG_derives g x u.
Proof.
  intros H. inversion H as [|? ? u1 u2 Hd Hr]; subst.
  inversion Hr; subst. now rewrite app_nil_r.
Qed.

Lemma firstn_succ {A} (l : list A) (n : nat) (x : A) :
  nth_error l n = Some x -> firstn (n + 1) l = firstn n l ++ [x].
Proof.
  revert n. induction l as [|y l IH]; intros [|n] H; simpl in *;
    try discriminate.
  - now injection H as ->.
  - f_equal. now apply IH.
Qed.

Lemma next_symbol_nth e sym :
  next_symbol e = Ok sym ->
  nth_error (right_side (rule (dotted_rule e))) (dot (dotted_rule e)) = Some sym.
Proof.
  unfold next_symbol, DottedRule_next_symbol.
  destruct (DottedRule_is_complete _); [discriminate|].
  intros H. now apply getitem_nat_Ok in H.
Qed.

Lemma chart_add_sound g s c p e c' :
  Earley_sound g s c -> Earley_sound_entry g s p e ->
  chart_add c p e = Ok c' -> Earley_sound g s c'.
Proof.
  intros Hc He H. apply chart_add_spec in H.
  destruct H as (_ & _ & _ & Hcell & Ho).
  intros q x Hx. destruct (Nat.eq_dec q p) as [->|Hq].
  - rewrite Hcell in Hx. apply add_elim in Hx.
    destruct Hx as [Hx|[-> _]]; auto.
  - rewrite Ho in Hx by auto. auto.
Qed.

Lemma predict_sound g s c e p c' :
  Earley_sound g s c -> p <= List.length s ->
  _predict g c e p = Ok c' -> Earley_sound g s c'.
Proof.
  unfold _predict. intros Hc Hp H.
  apply bind_Ok in H. destruct H as (sym & _ & H).
  revert H. apply for_inv; auto.
  intros r c1 c2 Hr Hc1. apply chart_add_sound; auto.
  unfold ContextFreeGrammar.rules in Hr. apply filter_In in Hr.
  unfold Earley_sound_entry. simpl.
  split; [left; tauto|]. repeat split; auto.
  unfold slice. rewrite Nat.sub_diag. simpl. constructor.
Qed.

(** The entry that [complete] returns for an entry at position [p']
    whose next symbol derives the tokens from [p'] to [p]. *)
Lemma complete_sound g s self entry p' p ce :
  Earley_sound_entry g s p' self -> p' <= p -> p <= List.length s ->
  (forall sym, next_symbol self = Ok sym -> CFG_derives g sym (slice s p' p)) ->
  complete self entry p = Ok ce -> Earley_sound_entry g s p ce.
Proof.
  unfold complete. intros (Hr & Hf & Hsn & Hp' & Hd) Hle Hp Hsym H.
  apply bind_Ok in H. destruct H as (sym & Hs & H). injection H as <-.
  specialize (Hsym _ Hs). apply next_symbol_nth in Hs.
  unfold Earley_sound_entry. simpl.
  split; [exact Hr|]. split; [lia|]. split; [reflexivity|]. split; [exact Hp|].
  rewrite (firstn_succ _ _ _ Hs).
  rewrite <- (slice_app s _ p' p) by lia.
  apply derives_seq_app; [exact Hd|]. now apply derives_seq_one.
Qed.

Lemma scan_sound g s c e p c' :
  Earley_sound g s c -> Earley_sound_entry g s p e ->
  (forall sym, next_symbol e = Ok sym ->
               In sym (ContextFreeGrammar.alphabet g)) ->
  _scan s c e p = Ok c' -> Earley_sound g s c'.
Proof.
  unfold _scan. intros Hc He Hterm H.
  apply bind_Ok in H. destruct H as (word & Hw & H).
  apply bind_Ok in H. destruct H as (expected & Hx & H).
  apply getitem_nat_Ok in Hw. destruct Hw as [Hp Hw].
  destruct (eqb word expected) eqn:Eq.
  2:{ injection H as <-. exact Hc. }
  apply eqb_eq in Eq. subst expected.
  pose proof (Hterm _ Hx) as Hin.
  assert (Hslice : slice s p (p + 1) = [word]) by now apply slice_one.
  apply bind_Ok in H. destruct H as (c1 & H1 & H).
  apply bind_Ok in H. destruct H as (ce & Hce & H).
  eapply chart_add_sound; [| |exact H].
  - eapply chart_add_sound; [exact Hc| |exact H1].
    unfold Earley_sound_entry. simpl.
    split; [right; exists word; auto|].
    repeat split; try lia. rewrite Hslice.
    apply derives_seq_one. now constructor.
  - eapply complete_sound; [exact He | | |  |exact Hce]; try lia.
    intros sym Hsym. assert (sym = word) by congruence. subst sym.
    rewrite Hslice. now constructor.
Qed.

(** What a complete entry derives. *)
Lemma complete_entry_derives g s p e :
  Earley_sound_entry g s p e -> is_complete e = true ->
  CFG_derives g (left_side (rule (dotted_rule e)))
              (slice s (fst (span (dotted_rule e))) p).
Proof.
  intros (Hr & _ & _ & _ & Hd) Hc.
  unfold is_complete, DottedRule_is_complete in Hc.
  apply Nat.eqb_eq in Hc. rewrite Hc, firstn_all in Hd.
  destruct Hr as [Hr|(w & Hw & Hr)].
  - now apply CFG_derives_rule.
  - rewrite Hr in *. simpl in *. now apply derives_seq_one_inv.
Qed.

Lemma complete_loop_sound g s prevs grown e start p c c' :
  Earley_sound g s c -> Forall (Earley_sound_entry g s start) prevs ->
  start <= p -> p <= List.length s ->
  CFG_derives g (left_side (rule (dotted_rule e))) (slice s start p) ->
  complete_loop prevs grown e start p p c = Ok c' ->
  Earley_sound g s c'.
Proof.
  intros Hc Hprevs Hsp Hp Hd. revert grown c Hc.
  induction Hprevs as [|prev rest Hprev Hrest IH]; intros grown c Hc;
    simpl; destruct grown; try discriminate.
  - now intros [= <-].
  - intros H. apply bind_Ok in H. destruct H as (waits & Hwaits & H).
    destruct waits.
    + apply bind_Ok in H. destruct H as (ce & Hce & H).
      apply bind_Ok in H. destruct H as (c1 & H1 & H).
      eapply IH; [|exact H].
      eapply chart_add_sound; [exact Hc| |exact H1].
      eapply complete_sound; [exact Hprev| | | |exact Hce]; auto.
      intros sym Hsym.
      destruct (negb (is_complete prev)); [|discriminate].
      unfold is_completion_of in Hwaits. unfold next_symbol in Hsym.
      rewrite Hsym in Hwaits. cbn [Py.bind] in Hwaits.
      injection Hwaits as Hw. apply eqb_eq in Hw. now rewrite <- Hw.
    + eapply IH; eauto.
Qed.

Lemma complete_op_sound g s c e p c' :
  Earley_sound g s c -> Earley_sound_entry g s p e -> is_complete e = true ->
  _complete c e p = Ok c' -> Earley_sound g s c'.
Proof.
  unfold _complete. intros Hc He Hcomp.
  pose proof (complete_entry_derives g s p e He Hcomp) as Hd.
  pose proof He as (_ & Hf & Hsn & Hp & _).
  destruct (span (dotted_rule e)) as [start end_]. simpl in *. subst end_.
  intros H. apply bind_Ok in H. destruct H as (prevs & Hpr & H).
  apply cell_of_getitem in Hpr. subst prevs.
  eapply complete_loop_sound; [exact Hc| | | | exact Hd | exact H]; auto.
  apply Forall_forall. intros x Hx. now apply Hc.
Qed.

(** *** Through the filler *)

Lemma process_sound g s i e c c' :
  Earley_sound g s c -> Earley_sound_entry g s i e ->
  process g s i e c = Ok c' -> Earley_sound g s c'.
Proof.
  unfold process. intros Hc He.
  pose proof He as (_ & _ & _ & Hi & _).
  destruct (is_complete e) eqn:Ec; simpl.
  - now apply complete_op_sound.
  - intros H. apply bind_Ok in H. destruct H as (sym & Hsym & H).
    destruct (Py.mem sym (ContextFreeGrammar.variables g)).
    + eapply predict_sound; eauto.
    + destruct (Py.mem sym (ContextFreeGrammar.alphabet g)) eqn:Em; simpl in H.
      * destruct (Nat.ltb i (List.length s)).
        -- eapply scan_sound; eauto.
           intros sym' Hsym'. assert (sym' = sym) by congruence. subst sym'.
           now apply mem_In.
        -- now injection H as <-.
      * now injection H as <-.
Qed.

Lemma pass_sound g s i c c' :
  Earley_sound g s c -> pass g s i c = Ok c' -> Earley_sound g s c'.
Proof.
  unfold pass. intros Hc H.
  apply bind_Ok in H. destruct H as (es & Hes & H).
  apply cell_of_getitem in Hes. subst es.
  revert H. apply for_inv; auto.
  intros e c1 c2 He Hc1. apply process_sound; auto.
Qed.

Lemma closure_sound g s i fuel c c' :
  Earley_sound g s c -> closure fuel g s i c = Some (Ok c') ->
  Earley_sound g s c'.
Proof.
  revert c. induction fuel as [|fuel IH]; intros c Hc; simpl; [discriminate|].
  destruct (pass g s i c) as [c1|e] eqn:Hp; [|discriminate].
  apply pass_sound in Hp; auto.
  destruct (Nat.eqb _ _); [now intros [= <-] | now apply IH].
Qed.

Lemma positions_sound g s fuel todo c c' :
  Earley_sound g s c -> positions fuel g s todo c = Some (Ok c') ->
  Earley_sound g s c'.
Proof.
  revert c. induction todo as [|i todo IH]; intros c Hc; simpl.
  - now intros [= <-].
  - destruct (closure fuel g s i c) as [[c1|e]|] eqn:Hcl; try discriminate.
    apply closure_sound in Hcl; auto. now apply IH.
Qed.

Lemma initial_cell n start p : cell (EarleyChart__init__ n start) p = [].
Proof.
  unfold cell, EarleyChart__init__. simpl.
  generalize (Py.range 0 (n + 1)). intros l. revert p.
  induction l as [|x l IH]; intros [|p]; simpl; auto.
Qed.

Lemma initial_chart_sound g s c :
  initial_chart g s = Ok c -> Earley_sound g s c.
Proof.
  unfold initial_chart. apply for_inv.
  - intros r c1 c2 Hr Hc1. apply chart_add_sound; auto.
    unfold ContextFreeGrammar.rules in Hr. apply filter_In in Hr.
    unfold Earley_sound_entry. simpl.
    split; [left; tauto|]. repeat split; auto; try lia.
    unfold slice. simpl. constructor.
  - intros p e He. rewrite initial_cell in He. destruct He.
Qed.

Lemma fill_chart_sound g s c :
  _fill_chart g s = Ok c -> Earley_sound g s c.
Proof.
  intros H. pose proof (fill_chart_is_fuel g s) as Hf. rewrite H in Hf.
  unfold _fill_chart_fuel in Hf.
  destruct (initial_chart g s) as [c0|e] eqn:H0; [|discriminate].
  apply initial_chart_sound in H0. eapply positions_sound; eauto.
Qed.

Lemma recognize_sound g s :
  Earley_recognize g s = Ok true ->
  CFG_derives g (ContextFreeGrammar.start_variable g) s.
Proof.
  intros H. apply recognize_true in H.
  destruct H as (c & Hc & e & He & Hcomp & Hleft & Hspan).
  apply fill_chart_sound in Hc.
  pose proof (complete_entry_derives g s _ e (Hc _ _ He) Hcomp) as Hd.
  rewrite Hleft, Hspan in Hd. simpl in Hd. now rewrite slice_full in Hd.
Qed.

End EarleySound.

(** ** What the Earley operations add *)

Module EarleyAdds.
Import Earley EarleyFacts EarleyTermination EarleySound.

(** The entry that [complete] builds. *)
Lemma complete_value self entry edge sym :
  next_symbol self = Ok sym ->
  complete self entry edge
  = Ok (mkEntry (DottedRule_complete (dotted_rule self) edge)
                (backpointers self ++ [(sym, snd (span (dotted_rule self)))])).
Proof.
  unfold complete, next_symbol. intros ->. reflexivity.
Qed.

Lemma next_symbol_incomplete e sym :
  next_symbol e = Ok sym -> is_complete e = false.
Proof. intros H. now apply next_symbol_Ok in H. Qed.

Lemma chart_add_In c p e c' :
  chart_add c p e = Ok c' -> In e (cell c' p).
Proof.
  intros H. apply chart_add_spec in H.
  destruct H as (_ & _ & _ & -> & _). apply add_In.
Qed.

Lemma extends_In c c' p e :
  Earley_extends c c' -> In e (cell c p) -> In e (cell c' p).
Proof. intros (_ & _ & H). apply H. Qed.

(** Predict enters every rule of the symbol after the dot. *)
Lemma predict_adds g c e p c' sym r :
  _predict g c e p = Ok c' -> next_symbol e = Ok sym ->
  In r (ContextFreeGrammar.rules g sym) ->
  In (mkEntry (mkDotted r (p, p) 0) []) (cell c' p).
Proof.
  unfold _predict. intros H Hsym Hr. rewrite Hsym in H. cbn [Py.bind] in H.
  refine (EarleyEmpty.for_cover
            (fun r c => In (mkEntry (mkDotted r (p, p) 0) []) (cell c p))
            _ _ _ _ c c' H r Hr).
  - intros x c1 c2 Hadd. now apply chart_add_In in Hadd.
  - intros x y c1 c2 Hx Hadd. apply chart_add_extends in Hadd.
    eapply extends_In; eauto.
Qed.

(** Scan, when the token at the position is the symbol after the dot,
    enters the entry advanced over it at the next position. *)
Lemma scan_adds s c e p c' w :
  _scan s c e p = Ok c' -> nth_error s p = Some w -> next_symbol e = Ok w ->
  In (mkEntry (mkDotted (mkRule w [w]) (p, p + 1) 1) []) (cell c' (p + 1)) /\
  In (mkEntry (DottedRule_complete (dotted_rule e) (p + 1))
              (backpointers e ++ [(w, snd (span (dotted_rule e)))]))
     (cell c' (p + 1)).
Proof.
  unfold _scan. intros H Hw Hsym.
  assert (Hp : p < List.length s) by (apply nth_error_Some; congruence).
  rewrite (getitem_nat s p w Hp) in H.
  rewrite (nth_error_nth s p w Hw) in H. cbn [Py.bind] in H.
  rewrite Hsym in H. cbn [Py.bind] in H.
  replace (eqb w w) with true in H by (symmetry; now apply eqb_eq).
  apply bind_Ok in H. destruct H as (c1 & H1 & H).
  rewrite (complete_value e _ (p + 1) w Hsym) in H. cbn [Py.bind] in H.
  split.
  - apply chart_add_extends in H. eapply extends_In; [exact H|].
    now apply chart_add_In in H1.
  - now apply chart_add_In in H.
Qed.

Lemma complete_loop_adds prevs e start end_ p lhs :
  lhs = left_side (rule (dotted_rule e)) ->
  forall grown c c',
    complete_loop prevs grown e start end_ p c = Ok c' ->
    forall prev, In prev prevs -> next_symbol prev = Ok lhs ->
      In (mkEntry (DottedRule_complete (dotted_rule prev) end_)
                  (backpointers prev ++ [(lhs, snd (span (dotted_rule prev)))]))
         (cell c' p).
Proof.
  intros El. induction prevs as [|x rest IH]; intros grown c c' H prev Hin Hnext.
  - destruct Hin.
  - simpl in H. destruct grown; [discriminate|].
    apply bind_Ok in H. destruct H as (waits & Hwaits & H).
    destruct Hin as [->|Hin].
    + rewrite (next_symbol_incomplete _ _ Hnext) in Hwaits. simpl in Hwaits.
      unfold is_completion_of in Hwaits. unfold next_symbol in Hnext.
      rewrite Hnext in Hwaits. cbn [Py.bind] in Hwaits.
      injection Hwaits as <-.
      replace (eqb (left_side (rule (dotted_rule e))) lhs) with true in H
        by (symmetry; apply eqb_eq; congruence).
      rewrite (complete_value prev e end_ lhs Hnext) in H. cbn [Py.bind] in H.
      apply bind_Ok in H. destruct H as (c1 & H1 & H).
      apply complete_loop_extends in H. eapply extends_In; [exact H|].
      now apply chart_add_In in H1.
    + destruct waits.
      * apply bind_Ok in H. destruct H as (ce & _ & H).
        apply bind_Ok in H. destruct H as (c1 & _ & H). eauto.
      * eauto.
Qed.

(** Complete enters, at the position, the advanced entry of every
    entry that waits for the left side where the span begins. *)
Lemma complete_adds c e p c' prev :
  _complete c e p = Ok c' ->
  In prev (cell c (fst (span (dotted_rule e)))) ->
  next_symbol prev = Ok (left_side (rule (dotted_rule e))) ->
  In (mkEntry (DottedRule_complete (dotted_rule prev)
                                   (snd (span (dotted_rule e))))
              (backpointers prev
               ++ [(left_side (rule (dotted_rule e)),
                    snd (span (dotted_rule prev)))]))
     (cell c' p).
Proof.
  unfold _complete. destruct (span (dotted_rule e)) as [start end_]. simpl.
  intros H Hin Hnext. apply bind_Ok in H. destruct H as (prevs & Hp & H).
  apply cell_of_getitem in Hp. subst prevs.
  eapply complete_loop_adds; eauto.
Qed.

End EarleyAdds.

(** ** A saturated chart holds what the grammar derives *)

Module EarleyComplete.
Import Earley EarleyFacts EarleyTermination EarleySound EarleyAdds SliceFacts.

Lemma slice_one_inv {A} (l : list A) (i j : nat) (w : A) :
  i <= j -> j <= List.length l -> slice l i j = [w] ->
  j = i + 1 /\ nth_error l i = Some w.
Proof.
  intros Hij Hj H.
  assert (Hlen : j - i = 1).
  { rewrite <- (slice_length l i j Hij Hj), H. reflexivity. }
  split; [lia|]. unfold slice in H. rewrite Hlen in H.
  clear Hlen Hij Hj. revert i H.
  induction l as [|x l IH]; intros [|i] H; simpl in *; try discriminate.
  - now injection H as ->.
  - now apply IH.
Qed.

Lemma skipn_cons_nth {A} (l : list A) (n : nat) (x : A) (rest : list A) :
  skipn n l = x :: rest ->
  nth_error l n = Some x /\ skipn (n + 1) l = rest /\ n < List.length l.
Proof.
  revert n. induction l as [|y l IH]; intros [|n] H; simpl in *;
    try discriminate.
  - injection H as -> ->. repeat split; auto. lia.
  - destruct (IH n H) as (H1 & H2 & H3). repeat split; auto. lia.
Qed.

Lemma next_symbol_of_nth e x :
  nth_error (right_side (rule (dotted_rule e))) (dot (dotted_rule e)) = Some x ->
  next_symbol e = Ok x.
Proof.
  intros H. unfold next_symbol, DottedRule_next_symbol, DottedRule_is_complete.
  assert (Hlt : dot (dotted_rule e)
                < List.length (right_side (rule (dotted_rule e))))
    by (apply nth_error_Some; congruence).
  replace (Nat.eqb _ _) with false by (symmetry; apply Nat.eqb_neq; lia).
  rewrite (getitem_nat _ _ x Hlt). f_equal. now apply nth_error_nth.
Qed.

Section Saturated.
Variable g : ContextFreeGrammar.t.
Variable s : list string.
Variable c : EarleyChart.
Hypothesis Hpos : Earley_positioned c.
Hypothesis Hsat : Earley_saturated g s c.
Hypothesis Hleft :
  forall r, In r (ContextFreeGrammar._rules g) ->
            In (left_side r) (ContextFreeGrammar.variables g).

(** An entry waiting at [p] for a symbol that derives the tokens from
    [p] to [q] is found advanced at [q]; an entry whose symbols after
    the dot begin with a sequence that derives them is found at [q]
    with its dot moved over the sequence. *)
Lemma advance :
  (forall x w, CFG_derives g x w ->
     forall e p q, In e (cell c p) -> next_symbol e = Ok x ->
                   p <= q -> q <= List.length s -> slice s p q = w ->
                   Earley_advanced c e q) /\
  (forall xs w, CFG_derives_seq g xs w ->
     forall e p q rest,
       In e (cell c p) ->
       skipn (dot (dotted_rule e)) (right_side (rule (dotted_rule e)))
       = xs ++ rest ->
       p <= q -> q <= List.length s -> slice s p q = w ->
       exists e', In e' (cell c q) /\
                  rule (dotted_rule e') = rule (dotted_rule e) /\
                  span (dotted_rule e') = (fst (span (dotted_rule e)), q) /\
                  dot (dotted_rule e') = dot (dotted_rule e) + List.length xs).
Proof.
  apply CFG_derives_mutind.
  - (* a terminal *)
    intros a Ha e p q He Hnext Hpq Hq Hs.
    apply slice_one_inv in Hs; auto. destruct Hs as [-> Hnth].
    destruct (Hsat p e He) as (_ & Hscan & _). eauto.
  - (* a rule *)
    intros r w Hr _ IH e p q He Hnext Hpq Hq Hs.
    destruct (Hsat p e He) as (Hpred & _ & _).
    assert (H0 : In (mkEntry (mkDotted r (p, p) 0) []) (cell c p)).
    { apply (Hpred (left_side r)); auto.
      unfold ContextFreeGrammar.rules. apply filter_In. split; auto.
      now apply eqb_eq. }
    destruct (IH _ p q [] H0) as (e1 & He1 & Hrule & Hspan & Hdot); auto.
    { simpl. now rewrite app_nil_r. }
    simpl in Hrule, Hspan, Hdot.
    destruct (Hsat q e1 He1) as (_ & _ & Hcomp).
    apply Hcomp.
    + unfold is_complete, DottedRule_is_complete.
      rewrite Hdot, Hrule. now apply Nat.eqb_eq.
    + now rewrite Hspan.
    + now rewrite Hrule.
  - (* no symbol *)
    intros e p q rest He _ Hpq Hq Hs.
    assert (q = p).
    { apply (f_equal (@List.length string)) in Hs.
      rewrite slice_length in Hs by auto. simpl in Hs. lia. }
    subst q. exists e. split; [exact He|]. split; [reflexivity|]. split.
    + pose proof (Hpos p e He) as Hend.
      destruct (span (dotted_rule e)) as [a b]. simpl in *. now subst b.
    + simpl. lia.
  - (* a symbol and the symbols after it *)
    intros x xs u v Hx IHx Hxs IHxs e p q rest He Hskip Hpq Hq Hs.
    simpl in Hskip. apply skipn_cons_nth in Hskip.
    destruct Hskip as (Hnth & Hrest & _).
    apply next_symbol_of_nth in Hnth.
    apply slice_split in Hs; auto. destruct Hs as (Hu & Hv & Hlen).
    destruct (IHx e p (p + List.length u)) as (ce & Hce & Hdr); auto; try lia.
    destruct (IHxs ce (p + List.length u) q rest)
      as (e' & He' & Hrule & Hspan & Hdot); auto; try lia.
    { rewrite Hdr. simpl. exact Hrest. }
    exists e'. split; [exact He'|]. rewrite Hdr in Hrule, Hspan, Hdot.
    simpl in *. repeat split; auto. lia.
Qed.

(** The chart of a derivable input holds an accepting entry. *)
Lemma accepts :
  Earley_started g c ->
  ~ In (ContextFreeGrammar.start_variable g) (ContextFreeGrammar.alphabet g) ->
  CFG_derives g (ContextFreeGrammar.start_variable g) s ->
  exists e, In e (cell c (List.length s)) /\
            Earley_accepting (ContextFreeGrammar.start_variable g)
                             (List.length s) e.
Proof.
  intros Hstart Hnot Hd.
  inversion Hd as [a Ha Ea Es | r w Hr Hseq El Ew]; subst.
  - contradiction.
  - assert (H0 : In (mkEntry (mkDotted r (0, 0) 0) []) (cell c 0)).
    { apply Hstart. unfold ContextFreeGrammar.rules. apply filter_In.
      split; auto. now apply eqb_eq. }
    destruct (proj2 advance _ _ Hseq _ 0 (List.length s) [] H0)
      as (e1 & He1 & Hrule & Hspan & Hdot); auto; try lia.
    { simpl. now rewrite app_nil_r. }
    { apply slice_full. }
    simpl in Hrule, Hspan, Hdot. exists e1. split; [exact He1|].
    unfold Earley_accepting, is_complete, DottedRule_is_complete.
    rewrite Hdot, Hrule, Hspan. repeat split; auto. now apply Nat.eqb_eq.
Qed.

End Saturated.

(** A chart that the operations leave as it is is saturated. *)
Lemma closed_saturated g s c :
  Earley_positioned c -> Earley_closed g s c -> Earley_saturated g s c.
Proof.
  intros Hpos Hcl p e He. destruct (Hcl p e He) as (Hpred & Hscan & Hcomp).
  split; [|split].
  - intros sym r Hnext Hv Hr.
    exact (predict_adds g c e p c sym r (Hpred sym Hnext Hv) Hnext Hr).
  - intros sym Hnext Ha Hnth.
    assert (Hp : p < List.length s) by (apply nth_error_Some; congruence).
    destruct (scan_adds s c e p c sym (Hscan sym Hnext Ha Hp) Hnth Hnext)
      as [_ H].
    eexists. split; [exact H|reflexivity].
  - intros Hc prev Hprev Hnext.
    pose proof (complete_adds c e p c prev (Hcomp Hc) Hprev Hnext) as H.
    rewrite (Hpos p e He) in H.
    eexists. split; [exact H|reflexivity].
Qed.

End EarleyComplete.

(** ** The filler saturates the chart of a grammar without empty rules *)

Module EarleyFiller.
Import Earley EarleyFacts EarleyTermination EarleySound EarleyAdds
       EarleyComplete SliceFacts.

Local Abbreviation stable := Earley_stable.

Lemma stable_refl i c : stable i c c.
Proof. split; [apply extends_refl | auto]. Qed.

Lemma stable_trans i c1 c2 c3 :
  stable i c1 c2 -> stable i c2 c3 -> stable i c1 c3.
Proof.
  intros [E1 F1] [E2 F2]. split; [eapply extends_trans; eauto|].
  intros q Hq. rewrite F2, F1; auto.
Qed.

Lemma stable_weaken i j c c' : j <= i -> stable i c c' -> stable j c c'.
Proof. intros Hj [E F]. split; auto. intros q Hq. apply F. lia. Qed.

Lemma chart_add_stable i c p e c' :
  i <= p -> chart_add c p e = Ok c' -> stable i c c'.
Proof.
  intros Hi H. split; [eapply chart_add_extends; eauto|].
  apply chart_add_spec in H. destruct H as (_ & _ & _ & _ & Ho).
  intros q Hq. apply Ho. lia.
Qed.

Lemma for_stable {A} i (xs : list A)
      (body : A -> EarleyChart -> Result EarleyChart) :
  (forall x c c', In x xs -> body x c = Ok c' -> stable i c c') ->
  forall c c', Py.for_ xs body c = Ok c' -> stable i c c'.
Proof.
  intros Hb c c' Hf.
  apply (for_inv (stable i c) xs body) with (s := c); auto using stable_refl.
  intros x s1 s2 Hx H1 H2. eapply stable_trans; eauto.
Qed.

Lemma predict_stable g c e p c' : _predict g c e p = Ok c' -> stable p c c'.
Proof.
  unfold _predict. intros H. apply bind_Ok in H. destruct H as (sym & _ & H).
  revert H. apply for_stable. intros r c1 c2 _. now apply chart_add_stable.
Qed.

Lemma scan_stable s c e p c' : _scan s c e p = Ok c' -> stable p c c'.
Proof.
  unfold _scan. intros H.
  apply bind_Ok in H. destruct H as (word & _ & H).
  apply bind_Ok in H. destruct H as (expected & _ & H).
  destruct (eqb word expected).
  - apply bind_Ok in H. destruct H as (c1 & H1 & H).
    apply bind_Ok in H. destruct H as (ce & _ & H).
    eapply stable_trans; eapply chart_add_stable; try eassumption; lia.
  - injection H as <-. apply stable_refl.
Qed.

Lemma complete_loop_stable prevs grown e start end_ p c c' :
  complete_loop prevs grown e start end_ p c = Ok c' -> stable p c c'.
Proof.
  revert grown c. induction prevs as [|prev rest IH]; intros grown c;
    simpl; destruct grown; try discriminate.
  - intros [= <-]. apply stable_refl.
  - intros H. apply bind_Ok in H. destruct H as (waits & _ & H).
    destruct waits.
    + apply bind_Ok in H. destruct H as (ce & _ & H).
      apply bind_Ok in H. destruct H as (c1 & H1 & H).
      eapply stable_trans; [eapply chart_add_stable; [|exact H1]; lia | eauto].
    + eauto.
Qed.

Lemma complete_stable c e p c' : _complete c e p = Ok c' -> stable p c c'.
Proof.
  unfold _complete. destruct (span (dotted_rule e)) as [start end_].
  intros H. apply bind_Ok in H. destruct H as (prevs & _ & H).
  eapply complete_loop_stable; eauto.
Qed.

Lemma process_stable g s i e c c' :
  process g s i e c = Ok c' -> stable i c c'.
Proof.
  unfold process. destruct (negb (is_complete e)).
  - intros H. apply bind_Ok in H. destruct H as (sym & _ & H).
    destruct (Py.mem sym (ContextFreeGrammar.variables g)).
    + eapply predict_stable; eauto.
    + destruct (_ && _).
      * eapply scan_stable; eauto.
      * injection H as <-. apply stable_refl.
  - apply complete_stable.
Qed.

(** *** Preservation of what has been saturated *)

Lemma advanced_mono c c' e q :
  Earley_extends c c' -> Earley_advanced c e q -> Earley_advanced c' e q.
Proof.
  intros Hext (ce & Hce & Hd). exists ce. split; auto.
  eapply extends_In; eauto.
Qed.

Lemma saturated_mono g s c c' p e :
  Earley_extends c c' ->
  (is_complete e = true ->
   cell c' (fst (span (dotted_rule e))) = cell c (fst (span (dotted_rule e)))) ->
  Earley_saturated_at g s c p e -> Earley_saturated_at g s c' p e.
Proof.
  intros Hext Hsame (Hpred & Hscan & Hcomp). split; [|split].
  - intros sym r Hn Hv Hr. eapply extends_In; eauto.
  - intros sym Hn Ha Hnth. eapply advanced_mono; eauto.
  - intros Hc prev Hprev Hn. eapply advanced_mono; eauto.
    apply Hcomp; auto. now rewrite <- (Hsame Hc).
Qed.

(** *** Grammars without empty rules *)

Section NoEmptyRule.
Variable g : ContextFreeGrammar.t.
Variable s : list string.
Hypothesis Hvalid : CFG_valid g.
Hypothesis Hne : CFG_no_empty_rule g.

Lemma derives_nonempty :
  (forall x w, CFG_derives g x w -> w <> []) /\
  (forall xs w, CFG_derives_seq g xs w -> xs <> [] -> w <> []).
Proof.
  apply CFG_derives_mutind.
  - intros a _. discriminate.
  - intros r w Hr _ IH. apply IH. now apply Hne.
  - intros H. congruence.
  - intros x xs u v _ IHx _ _ _ H. apply app_eq_nil in H.
    destruct H as [H _]. contradiction.
Qed.

(** A complete entry spans at least one token. *)
Lemma complete_span p e :
  Earley_sound_entry g s p e -> is_complete e = true ->
  fst (span (dotted_rule e)) < p.
Proof.
  intros He Hc. pose proof (complete_entry_derives g s p e He Hc) as Hd.
  destruct He as (_ & Hf & _ & Hp & _).
  apply (proj1 derives_nonempty) in Hd.
  destruct (Nat.eq_dec (fst (span (dotted_rule e))) p) as [E|E]; [|lia].
  exfalso. apply Hd. rewrite E. unfold slice. rewrite Nat.sub_diag. reflexivity.
Qed.

Local Abbreviation Inv := (Earley_filler_inv g s).

Lemma Inv_wf c p e : Inv c -> In e (cell c p) -> Earley_wf_entry g s e.
Proof.
  intros [[_ Hok] _] He. destruct (Hok p) as [_ Hw].
  rewrite Forall_forall in Hw. auto.
Qed.

Lemma Inv_process i e c c' :
  Inv c -> In e (cell c i) -> i <= List.length s ->
  process g s i e c = Ok c' -> Inv c'.
Proof.
  intros HI He Hi H. pose proof (Inv_wf c i e HI He) as Hw.
  destruct HI as [Hok Hsnd]. split.
  - eapply process_ok; eauto.
  - eapply process_sound; eauto.
Qed.

(** What one turn of the loop over the entries of position [i] does
    for its entry. *)
Lemma process_saturates i e c c' :
  Inv c -> In e (cell c i) ->
  process g s i e c = Ok c' -> Earley_saturated_at g s c' i e.
Proof.
  intros [Hok Hsnd] He H. pose proof (process_stable _ _ _ _ _ _ H) as Hst.
  unfold process in H. destruct (is_complete e) eqn:Ec; simpl in H.
  - (* complete *)
    split; [|split].
    + intros sym r Hn. apply next_symbol_incomplete in Hn. congruence.
    + intros sym Hn. apply next_symbol_incomplete in Hn. congruence.
    + intros _ prev Hprev Hn.
      pose proof (complete_span i e (Hsnd _ _ He) Ec) as Hlt.
      destruct Hst as [_ Hsame]. rewrite (Hsame _ Hlt) in Hprev.
      pose proof (complete_adds c e i c' prev H Hprev Hn) as Hin.
      destruct (Hsnd _ _ He) as (_ & _ & Hend & _). rewrite Hend in Hin.
      eexists. split; [exact Hin|reflexivity].
  - (* waiting for a symbol *)
    apply bind_Ok in H. destruct H as (sym0 & Hsym0 & H).
    split; [|split].
    + intros sym r Hn Hv Hr. assert (sym = sym0) by congruence. subst sym0.
      apply mem_In in Hv. rewrite Hv in H.
      eapply predict_adds; eauto.
    + intros sym Hn Ha Hnth. assert (sym = sym0) by congruence. subst sym0.
      assert (Hnv : Py.mem sym (ContextFreeGrammar.variables g) = false).
      { apply mem_false. now apply (proj1 Hvalid). }
      assert (Hi : i < List.length s) by (apply nth_error_Some; congruence).
      rewrite Hnv in H. apply mem_In in Ha. rewrite Ha in H.
      replace (Nat.ltb i (List.length s)) with true in H
        by (symmetry; now apply Nat.ltb_lt).
      simpl in H.
      destruct (scan_adds s c e i c' sym H Hnth Hn) as [_ Hin].
      eexists. split; [exact Hin|reflexivity].
    + congruence.
Qed.

Lemma same_cell (c c' : EarleyChart) i :
  NoDup (cell c i) -> Earley_extends c c' ->
  List.length (cell c' i) = List.length (cell c i) ->
  forall e, In e (cell c' i) -> In e (cell c i).
Proof.
  intros Hn (_ & _ & Hm) Hl.
  apply NoDup_length_incl; [exact Hn | lia | intros e; apply Hm].
Qed.

(** A pass that does not change the number of entries at its position
    leaves the position saturated. *)
Lemma pass_saturates i c c' :
  Inv c -> i <= List.length s -> pass g s i c = Ok c' ->
  Inv c' /\ stable i c c' /\
  (List.length (cell c' i) = List.length (cell c i) ->
   forall e, In e (cell c' i) -> Earley_saturated_at g s c' i e).
Proof.
  intros HI Hi H. unfold pass in H.
  apply bind_Ok in H. destruct H as (es & Hes & H).
  apply cell_of_getitem in Hes. subst es.
  destruct (LoopFacts.for_cover_inv
              (fun c1 => Inv c1 /\ stable i c c1)
              (fun e c1 => In e (cell c i) /\ Earley_saturated_at g s c1 i e)
              (cell c i) (process g s i)) with (s := c) (s' := c')
    as [[HI' Hst'] Hall]; auto.
  - intros e c1 c2 He [HI1 Hst1] Hp.
    assert (He1 : In e (cell c1 i)) by (eapply extends_In; [apply Hst1|exact He]).
    split; [split|split].
    + eapply Inv_process; eauto.
    + eapply stable_trans; [exact Hst1|]. eapply process_stable; eauto.
    + exact He.
    + eapply process_saturates; eauto.
  - intros e y c1 c2 [He Hsat] [HI1 Hst1] Hp. split; [exact He|].
    pose proof (process_stable _ _ _ _ _ _ Hp) as [Hext Hsame].
    eapply saturated_mono; [exact Hext| |exact Hsat].
    intros Hc. apply Hsame.
    destruct HI as [_ Hsnd]. exact (complete_span i e (Hsnd _ _ He) Hc).
  - split; [exact HI | apply stable_refl].
  - split; [exact HI'|]. split; [exact Hst'|].
    intros Hl e He. apply Hall.
    destruct HI as [[_ Hok] _]. destruct Hst' as [Hext _].
    eapply same_cell; eauto. apply Hok.
Qed.

Lemma closure_saturates i :
  i <= List.length s ->
  forall fuel c c',
    Inv c -> closure fuel g s i c = Some (Ok c') ->
    Inv c' /\ stable i c c' /\
    forall e, In e (cell c' i) -> Earley_saturated_at g s c' i e.
Proof.
  intros Hi. induction fuel as [|fuel IH]; intros c c' HI H; simpl in H;
    [discriminate|].
  destruct (pass g s i c) as [c1|] eqn:Hp; [|discriminate].
  destruct (pass_saturates i c c1 HI Hi Hp) as (HI1 & Hst1 & Hsat1).
  destruct (Nat.eqb_spec (List.length (cell c1 i)) (List.length (cell c i)))
    as [E|E].
  - injection H as <-. auto.
  - destruct (IH c1 c' HI1 H) as (HI' & Hst' & Hsat').
    split; [exact HI'|]. split; [eapply stable_trans; eauto | exact Hsat'].
Qed.

Lemma positions_saturate fuel :
  forall k i c c',
    Inv c -> i + k <= List.length s + 1 ->
    (forall p e, p < i -> In e (cell c p) -> Earley_saturated_at g s c p e) ->
    positions fuel g s (seq i k) c = Some (Ok c') ->
    Inv c' /\
    forall p e, p < i + k -> In e (cell c' p) -> Earley_saturated_at g s c' p e.
Proof.
  induction k as [|k IH]; intros i c c' HI Hik Hbelow H; simpl in H.
  - injection H as <-. split; [exact HI|].
    intros p e Hp. apply Hbelow. lia.
  - destruct (closure fuel g s i c) as [[c1|]|] eqn:Hc; try discriminate.
    destruct (closure_saturates i ltac:(lia) fuel c c1 HI Hc)
      as (HI1 & [Hext Hsame] & Hsat1).
    destruct (IH (S i) c1 c' HI1 ltac:(lia)) as [HI' Hall]; auto.
    + intros p e Hp He.
      destruct (Nat.eq_dec p i) as [->|Hne']; [now apply Hsat1|].
      assert (Hlt : p < i) by lia.
      rewrite (Hsame p Hlt) in He.
      eapply saturated_mono; [exact Hext| |apply Hbelow; auto].
      intros _. apply Hsame.
      destruct HI as [_ Hsnd]. destruct (Hsnd _ _ He) as (_ & Hf & _). lia.
    + split; [exact HI'|]. intros p e Hp. apply Hall. lia.
Qed.

Lemma fill_chart_saturated c :
  _fill_chart g s = Ok c -> Earley_saturated g s c.
Proof.
  intros H. pose proof (fill_chart_shape g s c H) as [Hsh _].
  pose proof (fill_chart_is_fuel g s) as Hf. rewrite H in Hf.
  unfold _fill_chart_fuel in Hf.
  destruct (initial_chart g s) as [c0|] eqn:H0; [|discriminate].
  assert (HI0 : Inv c0).
  { split; [now apply initial_chart_ok | now apply initial_chart_sound]. }
  unfold Py.range in Hf. rewrite Nat.sub_0_r in Hf.
  destruct (positions_saturate (enough_fuel g s) (List.length s + 1) 0 c0 c
              HI0 (le_n _)) as [_ Hall]; auto.
  { intros p e Hp. lia. }
  intros p e He. apply Hall; auto.
  destruct (Nat.lt_ge_cases p (List.length s + 1)) as [Hp|Hp]; auto.
  exfalso. unfold cell in He. rewrite nth_overflow in He; [destruct He|].
  unfold Earley_shaped in Hsh. lia.
Qed.

(** *** The filler does not raise *)

Lemma next_symbol_total e :
  dot (dotted_rule e) <= List.length (right_side (rule (dotted_rule e))) ->
  is_complete e = false -> exists sym, next_symbol e = Ok sym.
Proof.
  unfold is_complete, next_symbol, DottedRule_next_symbol, DottedRule_is_complete.
  intros Hle Hc. rewrite Hc. apply Nat.eqb_neq in Hc.
  rewrite (getitem_nat _ _ EmptyString) by lia. eauto.
Qed.

Lemma chart_add_length c p e c' :
  chart_add c p e = Ok c' -> List.length (_chart c') = List.length (_chart c).
Proof. intros H. apply chart_add_spec in H. tauto. Qed.

Lemma predict_total c e p sym :
  p < List.length (_chart c) -> next_symbol e = Ok sym ->
  exists c', _predict g c e p = Ok c'.
Proof.
  intros Hp Hn. unfold _predict. rewrite Hn. cbn [Py.bind].
  destruct (for_total
              (fun c1 => List.length (_chart c1) = List.length (_chart c))
              (ContextFreeGrammar.rules g sym)
              (fun rule chart =>
                 chart_add chart p (mkEntry (mkDotted rule (p, p) 0) [])))
    with (s := c) as (c' & Hc' & _); eauto.
  intros r c1 _ Hl.
  destruct (chart_add_total c1 p (mkEntry (mkDotted r (p, p) 0) []))
    as (c2 & H2); [lia|].
  exists c2. split; [exact H2|]. apply chart_add_length in H2. congruence.
Qed.

Lemma scan_total c e p sym :
  p < List.length s -> p + 1 < List.length (_chart c) ->
  next_symbol e = Ok sym -> exists c', _scan s c e p = Ok c'.
Proof.
  intros Hp Hl Hn. unfold _scan.
  rewrite (getitem_nat s p EmptyString Hp). cbn [Py.bind].
  rewrite Hn. cbn [Py.bind].
  destruct (eqb _ sym); [|eauto].
  destruct (chart_add_total c (p + 1)
              (mkEntry (mkDotted (mkRule sym [nth p s EmptyString])
                                 (p, p + 1) 1) []) Hl) as (c1 & H1).
  rewrite H1. cbn [Py.bind].
  rewrite (complete_value e _ (p + 1) sym Hn). cbn [Py.bind].
  apply chart_add_total. apply chart_add_length in H1. lia.
Qed.

Lemma complete_loop_total e start end_ p :
  start <> p ->
  forall prevs c,
    Forall (fun prev => dot (dotted_rule prev)
                        <= List.length (right_side (rule (dotted_rule prev))))
           prevs ->
    p < List.length (_chart c) ->
    exists c', complete_loop prevs false e start end_ p c = Ok c'.
Proof.
  intros Hsp. induction prevs as [|prev rest IH]; intros c Hall Hp; simpl.
  - eauto.
  - inversion Hall as [|? ? Hprev Hrest]; subst.
    destruct (is_complete prev) eqn:Ec; simpl.
    + now apply IH.
    + destruct (next_symbol_total prev Hprev Ec) as (sym & Hn).
      unfold is_completion_of. unfold next_symbol in Hn. rewrite Hn.
      cbn [Py.bind].
      destruct (eqb (left_side (rule (dotted_rule e))) sym); [|now apply IH].
      rewrite (complete_value prev e end_ sym Hn). cbn [Py.bind].
      destruct (chart_add_total c p
                  (mkEntry (DottedRule_complete (dotted_rule prev) end_)
                           (backpointers prev
                            ++ [(sym, snd (span (dotted_rule prev)))])) Hp)
        as (c1 & H1).
      rewrite H1. cbn [Py.bind].
      replace (Nat.eqb start p) with false by (symmetry; now apply Nat.eqb_neq).
      simpl. apply IH; auto. apply chart_add_length in H1. lia.
Qed.

Lemma Inv_length c : Inv c -> List.length (_chart c) = List.length s + 1.
Proof. intros [[Hsh _] _]. exact Hsh. Qed.

Lemma process_total i e c :
  Inv c -> In e (cell c i) -> i <= List.length s ->
  exists c', process g s i e c = Ok c'.
Proof.
  intros HI He Hi. pose proof (Inv_length c HI) as Hl.
  pose proof (Inv_wf c i e HI He) as (_ & Hstart & _ & _ & Hdot & _).
  unfold process. destruct (is_complete e) eqn:Ec; simpl.
  - destruct HI as [[_ Hok] Hsnd].
    pose proof (complete_span i e (Hsnd _ _ He) Ec) as Hlt.
    unfold _complete. destruct (span (dotted_rule e)) as [start end_].
    simpl in Hlt. unfold __getitem__.
    rewrite (getitem_nat _ start []) by lia. cbn [Py.bind].
    apply complete_loop_total; [lia| |lia].
    destruct (Hok start) as [_ Hw]. eapply Forall_impl; [|exact Hw].
    intros prev (_ & _ & _ & _ & Hd & _). exact Hd.
  - destruct (next_symbol_total e Hdot Ec) as (sym & Hn).
    rewrite Hn. cbn [Py.bind].
    destruct (Py.mem sym (ContextFreeGrammar.variables g)).
    + apply (predict_total c e i sym); [lia | exact Hn].
    + destruct (Py.mem sym (ContextFreeGrammar.alphabet g)); simpl; [|eauto].
      destruct (Nat.ltb_spec i (List.length s)); [|eauto].
      apply (scan_total c e i sym); auto. lia.
Qed.

Lemma pass_total i c :
  Inv c -> i <= List.length s -> exists c', pass g s i c = Ok c'.
Proof.
  intros HI Hi. unfold pass, __getitem__.
  rewrite (getitem_nat _ i []) by (rewrite (Inv_length c HI); lia).
  cbn [Py.bind]. fold (cell c i).
  destruct (for_total (fun c1 => Inv c1 /\ stable i c c1)
                      (cell c i) (process g s i)) with (s := c)
    as (c' & Hc' & _); eauto.
  - intros e c1 He [HI1 Hst1].
    assert (He1 : In e (cell c1 i)) by (eapply extends_In; [apply Hst1|exact He]).
    destruct (process_total i e c1 HI1 He1 Hi) as (c2 & H2).
    exists c2. split; [exact H2|]. split.
    + eapply Inv_process; eauto.
    + eapply stable_trans; [exact Hst1|]. eapply process_stable; eauto.
  - split; [exact HI | apply stable_refl].
Qed.

Lemma closure_returns i :
  i <= List.length s ->
  forall fuel c r,
    Inv c -> closure fuel g s i c = Some r -> exists c', r = Ok c' /\ Inv c'.
Proof.
  intros Hi. induction fuel as [|fuel IH]; intros c r HI H; simpl in H;
    [discriminate|].
  destruct (pass_total i c HI Hi) as (c1 & Hp). rewrite Hp in H.
  destruct (pass_saturates i c c1 HI Hi Hp) as (HI1 & _).
  destruct (Nat.eqb _ _).
  - injection H as <-. eauto.
  - eauto.
Qed.

Lemma positions_return fuel :
  forall todo c r,
    Forall (fun i => i <= List.length s) todo -> Inv c ->
    positions fuel g s todo c = Some r -> exists c', r = Ok c'.
Proof.
  induction todo as [|i todo IH]; intros c r Ht HI H; simpl in H.
  - injection H as <-. eauto.
  - inversion Ht; subst.
    destruct (closure fuel g s i c) as [r1|] eqn:Hc; [|discriminate].
    destruct (closure_returns i ltac:(assumption) fuel c r1 HI Hc)
      as (c1 & -> & HI1).
    eauto.
Qed.

Lemma initial_chart_total : exists c, initial_chart g s = Ok c.
Proof.
  unfold initial_chart.
  destruct (for_total
              (fun c1 => List.length (_chart c1) = List.length s + 1)
              (ContextFreeGrammar.rules g (ContextFreeGrammar.start_variable g))
              (fun rule chart =>
                 chart_add chart 0 (mkEntry (mkDotted rule (0, 0) 0) [])))
    with (s := EarleyChart__init__ (List.length s)
                 (ContextFreeGrammar.start_variable g))
    as (c & Hc & _); eauto.
  - intros r c1 _ Hl.
    destruct (chart_add_total c1 0 (mkEntry (mkDotted r (0, 0) 0) []))
      as (c2 & H2); [lia|].
    exists c2. split; [exact H2|]. apply chart_add_length in H2. congruence.
  - apply Earley_init_shaped.
Qed.

Lemma fill_chart_returns : exists c, _fill_chart g s = Ok c.
Proof.
  pose proof (fill_chart_is_fuel g s) as Hf. unfold _fill_chart_fuel in Hf.
  destruct initial_chart_total as (c0 & H0). rewrite H0 in Hf.
  apply positions_return in Hf.
  - exact Hf.
  - apply Forall_forall. intros i Hi. unfold Py.range in Hi.
    apply in_seq in Hi. lia.
  - split; [now apply initial_chart_ok | now apply initial_chart_sound].
Qed.

(** The recogniser answers, and answers true exactly for the
    sequences that the start variable derives. *)
Lemma recognize_correct :
  (forall r, In r (ContextFreeGrammar._rules g) ->
             In (left_side r) (ContextFreeGrammar.variables g)) ->
  exists b, Earley_recognize g s = Ok b /\
            (b = true <->
             CFG_derives g (ContextFreeGrammar.start_variable g) s).
Proof.
  intros Hleft. destruct fill_chart_returns as (c & Hc).
  assert (Hb : exists b, Earley_recognize g s = Ok b).
  { eexists. apply recognize_spec. exists c. split; [exact Hc|reflexivity]. }
  destruct Hb as (b & Hb). exists b. split; [exact Hb|]. split.
  - intros ->. now apply recognize_sound.
  - intros Hd. destruct b; [reflexivity|]. exfalso.
    assert (Ht : Earley_recognize g s = Ok true); [|congruence].
    apply recognize_true. exists c. split; [exact Hc|].
    apply (accepts g s c); auto.
    + intros p e He. pose proof (fill_chart_sound g s c Hc p e He) as Hs.
      destruct Hs as (_ & _ & Hend & _). exact Hend.
    + now apply fill_chart_saturated.
    + intros r Hr. eapply EarleyEmpty.fill_chart_start_rules; eauto.
    + intros Ha. exact (proj1 Hvalid _ Ha (proj2 Hvalid)).
Qed.

(** In parse mode a set of trees is returned, and it is not empty
    exactly for those sequences (whatever tree the reconstruction
    builds for an accepting entry). *)
Lemma parse_correct (construct : EarleyChart -> EarleyChartEntry -> Tree) :
  (forall r, In r (ContextFreeGrammar._rules g) ->
             In (left_side r) (ContextFreeGrammar.variables g)) ->
  exists trees, Earley_parse construct g s = Ok trees /\
                (trees <> [] <->
                 CFG_derives g (ContextFreeGrammar.start_variable g) s).
Proof.
  intros Hleft. destruct (recognize_correct Hleft) as (b & Hb & Hiff).
  destruct fill_chart_returns as (c & Hc).
  destruct (fill_chart_shape _ _ _ Hc) as [Hsh _].
  destruct (parses_nonempty construct _ _ Hsh) as (trees & Ht & _).
  assert (Hp : Earley_parse construct g s = Ok trees).
  { unfold Earley_parse. rewrite Hc. exact Ht. }
  exists trees. split; [exact Hp|].
  pose proof (Earley_recognize_iff_parse construct g s) as Hrp.
  rewrite <- Hiff. split.
  - intros Hnil. assert (Ht' : Earley_recognize g s = Ok true).
    { apply Hrp. exists trees. auto. }
    congruence.
  - intros ->. apply Hrp in Hb. destruct Hb as (trees' & Hp' & Hnil).
    congruence.
Qed.

End NoEmptyRule.

End EarleyFiller.

(** ** The exact effect of the Earley operations *)

Module EarleyEffects.
Import Earley EarleyFacts EarleyTermination EarleySound EarleyAdds.

Lemma update_same {A} (l : list A) (k : nat) (d : A) :
  Py.update l k (nth k l d) = l.
Proof.
  revert k. induction l as [|x l IH]; intros [|k]; simpl; auto.
  now rewrite IH.
Qed.

(** Adding an entry that the position holds leaves the chart as it
    is. *)
Lemma chart_add_present c p e :
  p < List.length (_chart c) -> In e (cell c p) -> chart_add c p e = Ok c.
Proof.
  intros Hp He. unfold chart_add, __getitem__.
  rewrite (getitem_nat _ p [] Hp). cbn [Py.bind]. fold (cell c p).
  unfold Py.add. apply mem_In in He. rewrite He.
  unfold cell. rewrite update_same. now destruct c.
Qed.

Lemma chart_add_iff c p e c' :
  chart_add c p e = Ok c' ->
  forall q x, In x (cell c' q) <-> In x (cell c q) \/ (q = p /\ x = e).
Proof.
  intros H q x. apply chart_add_spec in H.
  destruct H as (_ & _ & _ & Hcell & Ho).
  destruct (Nat.eq_dec q p) as [->|Hq].
  - rewrite Hcell. split.
    + intros Hx. apply add_elim in Hx. tauto.
    + intros [Hx|[_ ->]]; [now apply In_add | apply add_In].
  - rewrite (Ho q Hq). split; [auto | intros [Hx|[Hx _]]; [auto | contradiction]].
Qed.

Lemma predict_effect g c e p c' sym :
  _predict g c e p = Ok c' -> next_symbol e = Ok sym ->
  forall q x,
    In x (cell c' q) <->
    In x (cell c q) \/
    (q = p /\ exists r, In r (ContextFreeGrammar.rules g sym) /\
                        x = Earley_predicted r p).
Proof.
  intros H Hn q x. split.
  - unfold _predict in H. rewrite Hn in H. cbn [Py.bind] in H.
    revert q x.
    refine (for_inv
              (fun c1 => forall q x, In x (cell c1 q) ->
                 In x (cell c q) \/
                 (q = p /\ exists r, In r (ContextFreeGrammar.rules g sym) /\
                                     x = Earley_predicted r p))
              _ _ _ c c' _ H); [|auto].
    intros r c1 c2 Hr IH Hadd q x Hx.
    apply (chart_add_iff _ _ _ _ Hadd) in Hx.
    destruct Hx as [Hx|[-> ->]]; [auto|]. right. split; [reflexivity|].
    exists r. split; [exact Hr|reflexivity].
  - intros [Hx|[-> (r & Hr & ->)]].
    + apply predict_extends in H. eapply extends_In; eauto.
    + eapply predict_adds; eauto.
Qed.

Lemma scan_effect s c e p c' :
  _scan s c e p = Ok c' ->
  forall q x,
    In x (cell c' q) <->
    In x (cell c q) \/
    (q = p + 1 /\ exists w, nth_error s p = Some w /\ next_symbol e = Ok w /\
                            (x = Earley_token w p \/ x = Earley_moved e w (p + 1))).
Proof.
  intros H q x. split.
  - unfold _scan in H.
    apply bind_Ok in H. destruct H as (word & Hw & H).
    apply bind_Ok in H. destruct H as (expected & Hx & H).
    apply getitem_nat_Ok in Hw. destruct Hw as [Hp Hw].
    destruct (eqb word expected) eqn:Eq.
    2:{ injection H as <-. auto. }
    apply eqb_eq in Eq. subst expected.
    apply bind_Ok in H. destruct H as (c1 & H1 & H).
    rewrite (complete_value e _ (p + 1) word Hx) in H. cbn [Py.bind] in H.
    intros Hin. apply (chart_add_iff _ _ _ _ H) in Hin.
    destruct Hin as [Hin|[-> ->]].
    + apply (chart_add_iff _ _ _ _ H1) in Hin.
      destruct Hin as [Hin|[-> ->]]; [auto|].
      right. split; [reflexivity|]. exists word. auto.
    + right. split; [reflexivity|]. exists word. auto.
  - intros [Hx|[-> (w & Hw & Hn & Hx)]].
    + apply scan_extends in H. eapply extends_In; eauto.
    + destruct (scan_adds s c e p c' w H Hw Hn) as [H1 H2].
      destruct Hx as [-> | ->]; assumption.
Qed.

Lemma waits_next e prev :
  (if negb (is_complete prev) then is_completion_of e prev else Ok false)
  = Ok true ->
  next_symbol prev = Ok (left_side (rule (dotted_rule e))).
Proof.
  destruct (is_complete prev); simpl; [discriminate|].
  unfold is_completion_of, next_symbol. intros H.
  apply bind_Ok in H. destruct H as (sym & Hs & H).
  injection H as H. apply eqb_eq in H. now rewrite H.
Qed.

Lemma complete_loop_effect prevs e start end_ p :
  forall grown c c',
    complete_loop prevs grown e start end_ p c = Ok c' ->
    forall q x,
      In x (cell c' q) ->
      In x (cell c q) \/
      (q = p /\ exists prev,
          In prev prevs /\
          next_symbol prev = Ok (left_side (rule (dotted_rule e))) /\
          x = Earley_moved prev (left_side (rule (dotted_rule e))) end_).
Proof.
  induction prevs as [|y rest IH]; intros grown c c' H q x Hx; simpl in H;
    destruct grown; try discriminate.
  - injection H as <-. auto.
  - apply bind_Ok in H. destruct H as (waits & Hwaits & H).
    destruct waits.
    + apply waits_next in Hwaits.
      rewrite (complete_value y e end_ _ Hwaits) in H. cbn [Py.bind] in H.
      apply bind_Ok in H. destruct H as (c1 & H1 & H).
      destruct (IH _ _ _ H q x Hx) as [Hin|(-> & prev & Hp & Hn & ->)].
      * apply (chart_add_iff _ _ _ _ H1) in Hin.
        destruct Hin as [Hin|[-> ->]]; [auto|].
        right. split; [reflexivity|]. exists y. split; [now left|]. auto.
      * right. split; [reflexivity|]. exists prev. split; [now right|]. auto.
    + destruct (IH _ _ _ H q x Hx) as [Hin|(-> & prev & Hp & Hn & ->)]; auto.
      right. split; [reflexivity|]. exists prev. split; [now right|]. auto.
Qed.

Lemma complete_effect c e p c' :
  _complete c e p = Ok c' ->
  forall q x,
    In x (cell c' q) <->
    In x (cell c q) \/
    (q = p /\ exists prev,
        In prev (cell c (fst (span (dotted_rule e)))) /\
        next_symbol prev = Ok (left_side (rule (dotted_rule e))) /\
        x = Earley_moved prev (left_side (rule (dotted_rule e)))
                         (snd (span (dotted_rule e)))).
Proof.
  intros H q x. split.
  - unfold _complete in H. destruct (span (dotted_rule e)) as [start end_].
    apply bind_Ok in H. destruct H as (prevs & Hp & H).
    apply cell_of_getitem in Hp. subst prevs. simpl.
    now apply (complete_loop_effect _ _ _ _ _ _ _ _ H).
  - intros [Hx|[-> (prev & Hp & Hn & ->)]].
    + apply complete_extends in H. eapply extends_In; eauto.
    + now apply (complete_adds c e p c' prev).
Qed.

(** *** Completing an entry that begins where it is completed *)

Lemma complete_loop_same prevs e end_ p :
  forall c c',
    p < List.length (_chart c) ->
    complete_loop prevs false e p end_ p c = Ok c' -> c' = c.
Proof.
  induction prevs as [|y rest IH]; intros c c' Hp H; simpl in H.
  - now injection H as <-.
  - apply bind_Ok in H. destruct H as (waits & _ & H).
    destruct waits; [|eauto].
    apply bind_Ok in H. destruct H as (ce & _ & H).
    apply bind_Ok in H. destruct H as (c1 & H1 & H).
    rewrite Nat.eqb_refl in H. simpl in H.
    pose proof (chart_add_spec _ _ _ _ H1) as (_ & _ & Hl & Hcell & _).
    destruct (Nat.eqb_spec (List.length (cell c1 p)) (List.length (cell c p)))
      as [E|E]; simpl in H.
    + assert (Hin : In ce (cell c p)).
      { rewrite Hcell, length_add in E.
        destruct (Py.mem ce (cell c p)) eqn:Em; [now apply mem_In|lia]. }
      rewrite (chart_add_present c p ce Hp Hin) in H1. injection H1 as <-.
      eauto.
    + destruct rest; discriminate.
Qed.

Lemma complete_same c e p c' :
  fst (span (dotted_rule e)) = p -> _complete c e p = Ok c' -> c' = c.
Proof.
  unfold _complete. destruct (span (dotted_rule e)) as [start end_]. simpl.
  intros -> H. apply bind_Ok in H. destruct H as (prevs & Hp & H).
  apply getitem_nat_Ok in Hp. destruct Hp as [Hp _].
  eapply complete_loop_same; eauto.
Qed.

Lemma complete_loop_raises e end_ p c :
  p < List.length (_chart c) ->
  forall prevs,
    Forall (fun prev => dot (dotted_rule prev)
                        <= List.length (right_side (rule (dotted_rule prev))))
           prevs ->
    (exists prev,
        In prev prevs /\
        next_symbol prev = Ok (left_side (rule (dotted_rule e))) /\
        ~ In (Earley_moved prev (left_side (rule (dotted_rule e))) end_)
             (cell c p)) ->
    complete_loop prevs false e p end_ p c
    = Raise (RuntimeError "Set changed size during iteration").
Proof.
  intros Hp. induction prevs as [|y rest IH]; intros Hall (prev & Hin & Hn & Hnew).
  - destruct Hin.
  - inversion Hall as [|? ? Hy Hrest]; subst. simpl.
    assert (Hother : prev <> y -> complete_loop rest false e p end_ p c
                     = Raise (RuntimeError "Set changed size during iteration")).
    { intros Hne. apply IH; auto. exists prev. destruct Hin as [->|Hin]; auto.
      congruence. }
    destruct (is_complete y) eqn:Ec; simpl.
    + apply Hother. intros ->. apply next_symbol_incomplete in Hn. congruence.
    + destruct (EarleyFiller.next_symbol_total y Hy Ec) as (sym & Hs).
      unfold is_completion_of. unfold next_symbol in Hs. rewrite Hs.
      cbn [Py.bind].
      destruct (eqb (left_side (rule (dotted_rule e))) sym) eqn:Eq.
      * apply eqb_eq in Eq. subst sym.
        rewrite (complete_value y e end_ _ Hs). cbn [Py.bind].
        change (mkEntry (DottedRule_complete (dotted_rule y) end_) _)
          with (Earley_moved y (left_side (rule (dotted_rule e))) end_).
        destruct (chart_add_total c p
                    (Earley_moved y (left_side (rule (dotted_rule e))) end_) Hp)
          as (c1 & H1).
        rewrite H1. cbn [Py.bind].
        rewrite Nat.eqb_refl. simpl.
        pose proof (chart_add_spec _ _ _ _ H1) as (_ & _ & _ & Hcell & _).
        destruct (Py.mem (Earley_moved y (left_side (rule (dotted_rule e))) end_)
                         (cell c p)) eqn:Em.
        -- apply mem_In in Em.
           rewrite (chart_add_present c p _ Hp Em) in H1. injection H1 as <-.
           rewrite Nat.eqb_refl. simpl. apply Hother. intros ->. contradiction.
        -- rewrite Hcell, length_add, Em.
           replace (Nat.eqb (S (List.length (cell c p))) (List.length (cell c p)))
             with false by (symmetry; apply Nat.eqb_neq; lia).
           simpl. destruct rest; reflexivity.
      * apply Hother. intros ->. unfold next_symbol in Hn.
        assert (sym = left_side (rule (dotted_rule e))) by congruence.
        subst sym. assert (Ht : eqb (left_side (rule (dotted_rule e)))
                                    (left_side (rule (dotted_rule e))) = true)
          by now apply eqb_eq.
        congruence.
Qed.

End EarleyEffects.


(** ** The chart that [_complete] leaves *)

Module EarleyLeaves.
Import Earley EarleyFacts EarleyTermination EarleySound EarleyAdds.
Import EarleyEffects.

(** When the call returns, the chart it leaves is the chart it
    returns. *)
Lemma loop_leaves_returned prevs e start end_ p :
  forall grown c c',
    complete_loop prevs grown e start end_ p c = Ok c' ->
    Earley_complete_loop_leaves prevs grown e start end_ p c = c'.
Proof.
  induction prevs as [|y rest IH]; intros grown c c' H; simpl in *;
    destruct grown; try discriminate.
  - now injection H as <-.
  - destruct (if negb (is_complete y) then is_completion_of e y else Ok false)
      as [[|]|x]; cbn [Py.bind] in H; try discriminate.
    + destruct (complete y e end_) as [ce|x]; cbn [Py.bind] in H;
        try discriminate.
      destruct (chart_add c p ce) as [c1|x]; cbn [Py.bind] in H;
        try discriminate.
      now apply IH.
    + now apply IH.
Qed.

Lemma leaves_returned c e p c' :
  _complete c e p = Ok c' -> Earley_complete_leaves c e p = c'.
Proof.
  unfold _complete, Earley_complete_leaves.
  destruct (span (dotted_rule e)) as [start end_].
  destruct (__getitem__ c (Z.of_nat start)) as [prevs|x]; cbn [Py.bind];
    [|discriminate].
  apply loop_leaves_returned.
Qed.

(** At its own start, the call that raises leaves the chart with one
    entry more. *)
Lemma loop_leaves_grown e end_ p c :
  p < List.length (_chart c) ->
  forall prevs,
    Forall (fun prev => dot (dotted_rule prev)
                        <= List.length (right_side (rule (dotted_rule prev))))
           prevs ->
    (exists prev,
        In prev prevs /\
        next_symbol prev = Ok (left_side (rule (dotted_rule e))) /\
        ~ In (Earley_moved prev (left_side (rule (dotted_rule e))) end_)
             (cell c p)) ->
    exists prev,
      In prev prevs /\
      next_symbol prev = Ok (left_side (rule (dotted_rule e))) /\
      ~ In (Earley_moved prev (left_side (rule (dotted_rule e))) end_)
           (cell c p) /\
      chart_add c p (Earley_moved prev (left_side (rule (dotted_rule e))) end_)
      = Ok (Earley_complete_loop_leaves prevs false e p end_ p c).
Proof.
  intros Hp. induction prevs as [|y rest IH]; intros Hall (prev & Hin & Hn & Hnew).
  - destruct Hin.
  - inversion Hall as [|? ? Hy Hrest]; subst.
    assert (Hother :
              prev <> y ->
              exists prev0,
                In prev0 (y :: rest) /\
                next_symbol prev0 = Ok (left_side (rule (dotted_rule e))) /\
                ~ In (Earley_moved prev0 (left_side (rule (dotted_rule e))) end_)
                     (cell c p) /\
                chart_add c p
                  (Earley_moved prev0 (left_side (rule (dotted_rule e))) end_)
                = Ok (Earley_complete_loop_leaves rest false e p end_ p c)).
    { intros Hne. destruct (IH Hrest) as (q & Hq & Hqn & Hqa & Hqc).
      - exists prev. destruct Hin as [->|Hin]; [congruence | auto].
      - exists q. split; [now right | auto]. }
    simpl. destruct (is_complete y) eqn:Ec; simpl.
    + apply Hother. intros ->. apply next_symbol_incomplete in Hn. congruence.
    + destruct (EarleyFiller.next_symbol_total y Hy Ec) as (sym & Hs).
      unfold is_completion_of. unfold next_symbol in Hs. rewrite Hs.
      cbn [Py.bind].
      destruct (eqb (left_side (rule (dotted_rule e))) sym) eqn:Eq.
      * apply eqb_eq in Eq. subst sym.
        rewrite (complete_value y e end_ _ Hs).
        change (mkEntry (DottedRule_complete (dotted_rule y) end_) _)
          with (Earley_moved y (left_side (rule (dotted_rule e))) end_).
        destruct (chart_add_total c p
                    (Earley_moved y (left_side (rule (dotted_rule e))) end_) Hp)
          as (c1 & H1).
        rewrite H1. rewrite Nat.eqb_refl. simpl.
        pose proof (chart_add_spec _ _ _ _ H1) as (_ & _ & _ & Hcell & _).
        destruct (Py.mem (Earley_moved y (left_side (rule (dotted_rule e))) end_)
                         (cell c p)) eqn:Em.
        -- apply mem_In in Em. pose proof H1 as H1'.
           rewrite (chart_add_present c p _ Hp Em) in H1'. injection H1' as <-.
           rewrite Nat.eqb_refl. simpl. apply Hother. intros ->. contradiction.
        -- rewrite Hcell, length_add, Em.
           replace (Nat.eqb (S (List.length (cell c p))) (List.length (cell c p)))
             with false by (symmetry; apply Nat.eqb_neq; lia).
           simpl. exists y. split; [now left|]. split; [exact Hs|].
           split; [now apply mem_false in Em|].
           rewrite H1. destruct rest; reflexivity.
      * apply Hother. intros ->. unfold next_symbol in Hn.
        assert (sym = left_side (rule (dotted_rule e))) by congruence.
        subst sym. assert (Ht : eqb (left_side (rule (dotted_rule e)))
                                    (left_side (rule (dotted_rule e))) = true)
          by now apply eqb_eq.
        congruence.
Qed.

End EarleyLeaves.


(** ** The Earley operations and the derivations of the input *)

(** X7.  Predict, scan and complete keep the chart sound: if every
    entry at every position [p] has a rule of the grammar (or the rule
    of a scanned terminal), a span ending at [p] and, before its dot,
    symbols that derive the tokens of its span, then the same holds
    after predicting at a position of the input, after scanning from
    an entry of the chart whose next symbol is a terminal, and after
    completing with a complete entry of the chart. *)
Theorem Earley_operations_sound (g : ContextFreeGrammar.t) (s : list string) :
  (forall c e p c',
      Earley_sound g s c -> p <= List.length s ->
      Earley._predict g c e p = Ok c' -> Earley_sound g s c') /\
  (forall c e p c',
      Earley_sound g s c -> In e (Earley.cell c p) ->
      (forall sym, Earley.next_symbol e = Ok sym ->
                   In sym (ContextFreeGrammar.alphabet g)) ->
      Earley._scan s c e p = Ok c' -> Earley_sound g s c') /\
  (forall c e p c',
      Earley_sound g s c -> In e (Earley.cell c p) ->
      Earley.is_complete e = true ->
      Earley._complete c e p = Ok c' -> Earley_sound g s c').
Proof.
  split; [|split].
  - intros c e p c'. apply EarleySound.predict_sound.
  - intros c e p c' Hc He. apply EarleySound.scan_sound; auto.
  - intros c e p c' Hc He. apply EarleySound.complete_op_sound; auto.
Qed.

Lemma Earley_operations_sound_witness :
  exists c c',
    Earley.initial_chart Examples.unhappiness ["un"; "happy"; "ness"] = Ok c /\
    Earley._predict Examples.unhappiness c
      (Earley.mkEntry (Earley.mkDotted (mkRule "Word" ["N"]) (0, 0) 0) []) 0
    = Ok c' /\
    Earley_sound Examples.unhappiness ["un"; "happy"; "ness"] c'.
Proof.
  eexists. eexists. split; [vm_compute; reflexivity|].
  refine ((fun E => conj E
             (proj1 (Earley_operations_sound Examples.unhappiness
                       ["un"; "happy"; "ness"]) _ _ 0 _
                    (EarleySound.initial_chart_sound Examples.unhappiness
                       ["un"; "happy"; "ness"] _ eq_refl)
                    (Nat.le_0_l _) E)) _).
  vm_compute. reflexivity.
Defined.

(** X8.  When the Earley recogniser answers true, the start variable
    derives the input: the recogniser accepts no sequence outside the
    language of the grammar.  (The filler is the closure loop of the
    notes' pseudocode over the predict, scan and complete of the
    notes.) *)
Theorem Earley_recognize_sound (g : ContextFreeGrammar.t) (s : list string) :
  Earley.Earley_recognize g s = Ok true ->
  CFG_derives g (ContextFreeGrammar.start_variable g) s.
Proof. apply EarleySound.recognize_sound. Qed.

Lemma Earley_recognize_sound_witness :
  Earley.Earley_recognize Examples.unhappiness ["un"; "happy"; "ness"]
  = Ok true /\
  CFG_derives Examples.unhappiness "Word" ["un"; "happy"; "ness"].
Proof.
  assert (H : Earley.Earley_recognize Examples.unhappiness
                ["un"; "happy"; "ness"] = Ok true)
    by (vm_compute; reflexivity).
  split; [exact H|].
  exact (Earley_recognize_sound Examples.unhappiness _ H).
Defined.

(** X20.  What the three operations change, exactly.  [_predict]
    enters at the position the dotted rules, with the dot in front, of
    the symbol after the dot of the entry; [_scan], when the token at
    the position is the symbol after the dot, enters at the next
    position the entry of the token and the entry moved over it;
    [_complete] enters at the position the moved entries of the
    entries that wait for the left side of the entry where its span
    begins.  Every other entry of the chart is an entry it held
    before, at the same position. *)
Theorem Earley_operations_effect
        (g : ContextFreeGrammar.t) (s : list string)
        (c c' : Earley.EarleyChart) (e : Earley.EarleyChartEntry) (p : nat) :
  (forall sym,
      Earley._predict g c e p = Ok c' -> Earley.next_symbol e = Ok sym ->
      forall q x,
        In x (Earley.cell c' q) <->
        In x (Earley.cell c q) \/
        (q = p /\ exists r, In r (ContextFreeGrammar.rules g sym) /\
                            x = Earley_predicted r p)) /\
  (Earley._scan s c e p = Ok c' ->
   forall q x,
     In x (Earley.cell c' q) <->
     In x (Earley.cell c q) \/
     (q = p + 1 /\
      exists w, nth_error s p = Some w /\ Earley.next_symbol e = Ok w /\
                (x = Earley_token w p \/ x = Earley_moved e w (p + 1)))) /\
  (Earley._complete c e p = Ok c' ->
   forall q x,
     In x (Earley.cell c' q) <->
     In x (Earley.cell c q) \/
     (q = p /\
      exists prev,
        In prev (Earley.cell c (fst (Earley.span (Earley.dotted_rule e)))) /\
        Earley.next_symbol prev
        = Ok (left_side (Earley.rule (Earley.dotted_rule e))) /\
        x = Earley_moved prev (left_side (Earley.rule (Earley.dotted_rule e)))
                         (snd (Earley.span (Earley.dotted_rule e))))).
Proof.
  split; [|split].
  - intros sym H Hn. exact (EarleyEffects.predict_effect g c e p c' sym H Hn).
  - exact (EarleyEffects.scan_effect s c e p c').
  - exact (EarleyEffects.complete_effect c e p c').
Qed.

(** X21.  Completing an entry whose span begins at the position where
    it is completed (an entry that covers no token): [_complete]
    iterates over the set it adds to.  A call that returns has left
    the chart as it was: every moved entry was there already.
    Otherwise, when some entry that waits for the left side has no
    moved entry in the set yet, Python raises RuntimeError for a set
    that changed size during iteration; by then the chart has gained
    one entry, the moved entry of such a waiting entry. *)
Theorem Earley_complete_at_own_start
        (c : Earley.EarleyChart) (e : Earley.EarleyChartEntry) :
  let p := fst (Earley.span (Earley.dotted_rule e)) in
  let lhs := left_side (Earley.rule (Earley.dotted_rule e)) in
  let end_ := snd (Earley.span (Earley.dotted_rule e)) in
  (forall c', Earley._complete c e p = Ok c' ->
              c' = c /\ Earley_complete_leaves c e p = c) /\
  (p < List.length (Earley._chart c) ->
   Forall (fun prev =>
             Earley.dot (Earley.dotted_rule prev)
             <= List.length (right_side (Earley.rule (Earley.dotted_rule prev))))
          (Earley.cell c p) ->
   (exists prev, In prev (Earley.cell c p) /\
                 Earley.next_symbol prev = Ok lhs /\
                 ~ In (Earley_moved prev lhs end_) (Earley.cell c p)) ->
   Earley._complete c e p
   = Raise (RuntimeError "Set changed size during iteration") /\
   exists prev,
     In prev (Earley.cell c p) /\
     Earley.next_symbol prev = Ok lhs /\
     ~ In (Earley_moved prev lhs end_) (Earley.cell c p) /\
     Earley.chart_add c p (Earley_moved prev lhs end_)
     = Ok (Earley_complete_leaves c e p)).
Proof.
  cbv zeta. split.
  - intros c' H.
    pose proof (EarleyEffects.complete_same c e _ c' eq_refl H) as E.
    split; [exact E|]. rewrite <- E at 2.
    now apply EarleyLeaves.leaves_returned.
  - intros Hp Hall Hnew. unfold Earley._complete, Earley_complete_leaves.
    destruct (Earley.span (Earley.dotted_rule e)) as [start end_] eqn:Es.
    simpl in *. unfold Earley.__getitem__.
    rewrite (getitem_nat _ start [] Hp). cbn [Py.bind]. split.
    + exact (EarleyEffects.complete_loop_raises e end_ start c Hp _ Hall Hnew).
    + exact (EarleyLeaves.loop_leaves_grown e end_ start c Hp _ Hall Hnew).
Qed.

(** In a chart of [Examples.nullable] that holds [S -> . A] and
    [A -> .] at position 0, completing [A -> .] raises, and leaves the
    chart with [S -> A .] added at position 0. *)
Lemma Earley_complete_at_own_start_witness :
  Earley._complete OperationExamples.nullable_chart
                   (Earley_predicted (mkRule "A" []) 0) 0
  = Raise (RuntimeError "Set changed size during iteration") /\
  exists prev,
    Earley.chart_add OperationExamples.nullable_chart 0
                     (Earley_moved prev "A" 0)
    = Ok (Earley_complete_leaves OperationExamples.nullable_chart
                                 (Earley_predicted (mkRule "A" []) 0) 0).
Proof.
  destruct (proj2 (Earley_complete_at_own_start
                     OperationExamples.nullable_chart
                     (Earley_predicted (mkRule "A" []) 0)))
    as (Hraise & prev & _ & _ & _ & Hleaves).
  - simpl. lia.
  - repeat constructor; simpl; lia.
  - exists (Earley_predicted (mkRule "S" ["A"]) 0). split; [now left|].
    split; [reflexivity|]. simpl. intros [H|[H|[]]]; discriminate H.
  - split; [exact Hraise|]. exists prev. exact Hleaves.
Defined.

Example nullable_completion_leaves :
  Earley.cell (Earley_complete_leaves OperationExamples.nullable_chart
                                      (Earley_predicted (mkRule "A" []) 0) 0)
              0
  = Earley.cell OperationExamples.nullable_chart 0
    ++ [Earley_moved (Earley_predicted (mkRule "S" ["A"]) 0) "A" 0].
Proof. vm_compute. reflexivity. Qed.

(** X22.  A chart that predict, scan and complete leave as it is holds
    what the grammar derives.  In such a chart, whose entries are
    stored where their spans end, an entry that waits at [p] for a
    symbol deriving the tokens from [p] to [q] is found, with its dot
    moved over the symbol, at [q]; and when the chart holds the dotted
    start rules at position 0 and the start variable derives the
    input, the last position holds an entry that the recogniser
    accepts.  (The left side of every rule is to be a variable and the
    start variable not a terminal.) *)
Theorem Earley_closed_chart_complete
        (g : ContextFreeGrammar.t) (s : list string) (c : Earley.EarleyChart) :
  Earley_positioned c -> Earley_closed g s c ->
  (forall r, In r (ContextFreeGrammar._rules g) ->
             In (left_side r) (ContextFreeGrammar.variables g)) ->
  (forall x w e p q,
      In e (Earley.cell c p) -> Earley.next_symbol e = Ok x ->
      CFG_derives g x w ->
      p <= q -> q <= List.length s -> slice s p q = w ->
      Earley_advanced c e q) /\
  (Earley_started g c ->
   ~ In (ContextFreeGrammar.start_variable g) (ContextFreeGrammar.alphabet g) ->
   CFG_derives g (ContextFreeGrammar.start_variable g) s ->
   exists e, In e (Earley.cell c (List.length s)) /\
             Earley_accepting (ContextFreeGrammar.start_variable g)
                              (List.length s) e).
Proof.
  intros Hpos Hcl Hleft.
  pose proof (EarleyComplete.closed_saturated g s c Hpos Hcl) as Hsat.
  split.
  - intros x w e p q He Hn Hd. revert e p q He Hn.
    exact (proj1 (EarleyComplete.advance g s c Hpos Hsat Hleft) x w Hd).
  - now apply EarleyComplete.accepts.
Qed.

Lemma only_a_chart_closed :
  Earley_closed OperationExamples.only_a ["a"] OperationExamples.only_a_chart.
Proof.
  intros p e He. destruct p as [|[|p]].
  - destruct He as [<-|[]]. split; [|split].
    + intros sym Hn [<-|[]]. discriminate Hn.
    + intros sym _ _ _. reflexivity.
    + intros Hc. discriminate Hc.
  - destruct He as [<-|[<-|[]]]; (split; [|split]);
      try (intros sym Hn; discriminate Hn); intros _; reflexivity.
  - exfalso. simpl in He. destruct p; destruct He.
Qed.

Lemma Earley_closed_chart_complete_witness :
  exists e,
    In e (Earley.cell OperationExamples.only_a_chart 1) /\
    Earley_accepting "A" 1 e.
Proof.
  refine (proj2 (Earley_closed_chart_complete
                   OperationExamples.only_a ["a"]
                   OperationExamples.only_a_chart _ only_a_chart_closed _)
                _ _ _).
  - intros p e He. destruct p as [|[|p]].
    + destruct He as [<-|[]]. reflexivity.
    + destruct He as [<-|[<-|[]]]; reflexivity.
    + exfalso. simpl in He. destruct p; destruct He.
  - intros r [<-|[]]. now left.
  - intros r [<-|[]]. now left.
  - intros [H|[]]. discriminate H.
  - apply (CFG_derives_rule OperationExamples.only_a (mkRule "A" ["a"]) ["a"]);
      [now left|].
    apply (CFG_derives_cons OperationExamples.only_a "a" [] ["a"] []).
    + apply CFG_derives_terminal. now left.
    + apply CFG_derives_nil.
Defined.

(** X23.  For a grammar that the constructor accepts (no terminal is a
    variable, the start variable is a variable), whose rules have a
    variable on the left and a right side that is not empty, the
    Earley recogniser answers for every input, and answers true
    exactly when the start variable derives the input; in parse mode
    a set of trees is returned, and it is not empty exactly then.
    (The filler is the closure loop of the notes' pseudocode over the
    predict, scan and complete of the notes; the trees are whatever
    the reconstruction builds.) *)
Theorem Earley_recognize_correct (g : ContextFreeGrammar.t) (s : list string) :
  CFG_valid g -> CFG_no_empty_rule g ->
  (forall r, In r (ContextFreeGrammar._rules g) ->
             In (left_side r) (ContextFreeGrammar.variables g)) ->
  (exists b, Earley.Earley_recognize g s = Ok b /\
             (b = true <->
              CFG_derives g (ContextFreeGrammar.start_variable g) s)) /\
  (forall construct,
      exists trees,
        Earley.Earley_parse construct g s = Ok trees /\
        (trees <> [] <->
         CFG_derives g (ContextFreeGrammar.start_variable g) s)).
Proof.
  intros Hv Hne Hleft. split.
  - now apply EarleyFiller.recognize_correct.
  - intros construct. now apply EarleyFiller.parse_correct.
Qed.

Lemma unhappiness_valid : CFG_valid Examples.unhappiness.
Proof.
  split; [|now left].
  intros x Ha Hv. simpl in Ha, Hv.
  repeat (destruct Ha as [<-|Ha]; [intuition discriminate|]). destruct Ha.
Qed.

Lemma Earley_recognize_correct_witness :
  exists b,
    Earley.Earley_recognize Examples.unhappiness ["happy"; "un"] = Ok b /\
    (b = true <-> CFG_derives Examples.unhappiness "Word" ["happy"; "un"]).
Proof.
  apply (fun H1 H2 =>
           proj1 (Earley_recognize_correct Examples.unhappiness ["happy"; "un"]
                    unhappiness_valid H1 H2)).
  - intros r Hr. simpl in Hr.
    repeat (destruct Hr as [<-|Hr]; [discriminate|]). destruct Hr.
  - intros r Hr. simpl in Hr.
    repeat (destruct Hr as [<-|Hr]; [simpl; tauto|]). destruct Hr.
Defined.


(** ** Operations on grammars *)

Module GrammarFacts.
Import ContextFreeGrammar Grammars.

Lemma length_append (a b : string) :
  String.length (String.append a b) = String.length a + String.length b.
Proof. induction a as [|c a IH]; simpl; auto. Qed.

Lemma candidate_length base k :
  String.length (candidate base k) = String.length base + k.
Proof.
  induction k as [|k IH]; simpl; [lia|].
  rewrite length_append, IH. simpl. lia.
Qed.

Lemma candidate_inj base k k' : candidate base k = candidate base k' -> k = k'.
Proof.
  intros H. apply (f_equal String.length) in H.
  rewrite !candidate_length in H. lia.
Qed.

(** The loop returns the first candidate that is not in use, or is
    still running after having found [fuel] candidates in use. *)
Lemma fresh_loop_spec in_use base fuel :
  forall k,
    match fresh_loop fuel in_use (candidate base k) with
    | Some x =>
        exists k', x = candidate base k' /\ k <= k' < k + fuel /\
                   in_use x = false /\
                   forall j, k <= j < k' -> in_use (candidate base j) = true
    | None => forall j, k <= j < k + fuel -> in_use (candidate base j) = true
    end.
Proof.
  induction fuel as [|fuel IH]; intros k; simpl; [intros j Hj; lia|].
  destruct (in_use (candidate base k)) eqn:E.
  - specialize (IH (S k)). simpl in IH.
    destruct (fresh_loop fuel in_use _) as [x|].
    + destruct IH as (k' & -> & Hk & Hfree & Hused).
      exists k'. split; [reflexivity|]. split; [lia|]. split; [exact Hfree|].
      intros j Hj. destruct (Nat.eq_dec j k) as [->|Hne]; auto.
      apply Hused. lia.
    + intros j Hj. destruct (Nat.eq_dec j k) as [->|Hne]; auto.
      apply IH. lia.
  - exists k. split; [reflexivity|]. split; [lia|]. split; [exact E|].
    intros j Hj. lia.
Qed.

Lemma NoDup_candidates base n k :
  NoDup (map (candidate base) (seq k n)).
Proof.
  revert k. induction n as [|n IH]; intros k; simpl; constructor; auto.
  intros Hin. apply in_map_iff in Hin. destruct Hin as (j & Ej & Hj).
  apply candidate_inj in Ej. apply in_seq in Hj. lia.
Qed.

(** The loop stops: a list of [len(vs)] variables cannot hold
    [len(vs) + 1] different candidates. *)
Lemma fresh_start_spec vs base :
  exists k, fresh_start vs base = Ok (candidate base k) /\
            k <= List.length vs /\
            ~ In (candidate base k) vs /\
            forall j, j < k -> In (candidate base j) vs.
Proof.
  unfold fresh_start.
  pose proof (fresh_loop_spec (fun x => Py.mem x vs) base (S (List.length vs)) 0)
    as H.
  change (candidate base 0) with base in H.
  destruct (fresh_loop _ _ base) as [x|].
  - destruct H as (k & -> & Hk & Hfree & Hused). exists k.
    split; [reflexivity|]. split; [lia|]. split.
    + now apply mem_false.
    + intros j Hj. apply mem_In. apply Hused. lia.
  - exfalso.
    assert (Hincl : incl (map (candidate base) (seq 0 (S (List.length vs)))) vs).
    { intros x Hx. apply in_map_iff in Hx. destruct Hx as (j & <- & Hj).
      apply in_seq in Hj. apply mem_In. apply H. lia. }
    apply NoDup_incl_length in Hincl; [|apply NoDup_candidates].
    rewrite length_map, length_seq in Hincl. lia.
Qed.

(** *** Set union *)

Lemma set_union_In {A} `{Py.EqLaws A} (a b : list A) (x : A) :
  In x (set_union a b) <-> In x a \/ In x b.
Proof.
  unfold set_union. revert a. induction b as [|y b IH]; intros a; simpl.
  - tauto.
  - rewrite IH. split.
    + intros [Hx|Hx]; auto. apply add_elim in Hx.
      destruct Hx as [Hx|[-> _]]; auto.
    + intros [Hx|[<-|Hx]]; auto.
      * left. now apply In_add.
      * left. apply add_In.
Qed.

Lemma of_list_In_iff {A} `{Py.EqLaws A} (xs : list A) (x : A) :
  In x (Py.of_list xs) <-> In x xs.
Proof.
  change (Py.of_list xs) with (set_union [] xs).
  rewrite set_union_In. simpl. tauto.
Qed.

Lemma add_In_iff {A} `{Py.EqLaws A} (y : A) (s : list A) (x : A) :
  In x (Py.add y s) <-> In x s \/ x = y.
Proof.
  split.
  - intros Hx. apply add_elim in Hx. destruct Hx as [Hx|[-> _]]; auto.
  - intros [Hx| ->]; [now apply In_add | apply add_In].
Qed.

(** *** The constructor *)

Lemma init_Ok alphabet variables rules start g :
  __init__ alphabet variables rules start = Ok g ->
  g = mk alphabet variables rules start /\
  (forall x, In x alphabet -> ~ In x variables) /\ In start variables.
Proof.
  unfold __init__, _validate_variables.
  destruct (Py.inter alphabet variables) as [|y l] eqn:Ei; [|discriminate].
  destruct (Py.mem start variables) eqn:Em; simpl; [|discriminate].
  intros [= <-]. split; [reflexivity|]. split.
  - intros x Ha Hv. assert (Hn : Py.inter alphabet variables <> [])
      by (eapply inter_nonempty; eauto).
    contradiction.
  - now apply mem_In.
Qed.

Lemma init_total alphabet variables rules start :
  (forall x, In x alphabet -> ~ In x variables) -> In start variables ->
  __init__ alphabet variables rules start
  = Ok (mk alphabet variables rules start).
Proof.
  intros Hd Hs. unfold __init__, _validate_variables.
  destruct (Py.inter alphabet variables) as [|y l] eqn:Ei.
  - apply mem_In in Hs. rewrite Hs. reflexivity.
  - exfalso. assert (Hy : In y (Py.inter alphabet variables))
      by (rewrite Ei; now left).
    unfold Py.inter in Hy. apply filter_In in Hy. destruct Hy as [Ha Hv].
    apply mem_In in Hv. exact (Hd y Ha Hv).
Qed.

Lemma init_raises alphabet variables rules start :
  (exists x, In x alphabet /\ In x variables) \/ ~ In start variables ->
  exists msg, __init__ alphabet variables rules start = Raise (ValueError msg).
Proof.
  intros H. unfold __init__.
  destruct (CFG_validate_variables_raises alphabet variables start H)
    as (msg & ->).
  exists msg. reflexivity.
Qed.

(** *** What [union] and [concatenate] construct *)

(** The grammar that both operations hand to the constructor, for the
    rules [extra] that they add. *)
Lemma union_unfold self other :
  exists k,
    let ns := candidate "S_union" k in
    ~ In ns (variables self ++ variables other) /\
    (forall j, j < k -> In (candidate "S_union" j)
                           (variables self ++ variables other)) /\
    fresh_start (variables self ++ variables other) "S_union" = Ok ns /\
    union self other
    = __init__ (set_union (alphabet self) (alphabet other))
               (set_union (set_union (variables self) (variables other)) [ns])
               (set_union (set_union (_rules self) (_rules other))
                          (Py.of_list [mkRule ns [start_variable self];
                                       mkRule ns [start_variable other]]))
               ns.
Proof.
  destruct (fresh_start_spec (variables self ++ variables other) "S_union")
    as (k & Hk & _ & Hfree & Hused).
  exists k. cbv zeta. split; [exact Hfree|]. split; [exact Hused|].
  split; [exact Hk|]. unfold union. rewrite Hk. reflexivity.
Qed.

Lemma concatenate_unfold self other :
  exists k,
    let ns := candidate "S_concat" k in
    ~ In ns (variables self ++ variables other) /\
    (forall j, j < k -> In (candidate "S_concat" j)
                           (variables self ++ variables other)) /\
    fresh_start (variables self ++ variables other) "S_concat" = Ok ns /\
    concatenate self other
    = __init__ (set_union (alphabet self) (alphabet other))
               (set_union (set_union (variables self) (variables other)) [ns])
               (Py.add (mkRule ns [start_variable self; start_variable other])
                       (set_union (_rules self) (_rules other)))
               ns.
Proof.
  destruct (fresh_start_spec (variables self ++ variables other) "S_concat")
    as (k & Hk & _ & Hfree & Hused).
  exists k. cbv zeta. split; [exact Hfree|]. split; [exact Hused|].
  split; [exact Hk|]. unfold concatenate. rewrite Hk. reflexivity.
Qed.

Lemma kleene_star_unfold self :
  exists k,
    let ns := candidate "S_star" k in
    let rules :=
      Py.add (mkRule ns [])
             (Py.add (mkRule ns [ns; start_variable self]) (_rules self)) in
    ~ In ns (variables self) /\
    (forall j, j < k -> In (candidate "S_star" j) (variables self)) /\
    kleene_star self
    = (mk (alphabet self) (variables self) rules (start_variable self),
       __init__ (alphabet self) (set_union (variables self) [ns]) rules ns).
Proof.
  destruct (fresh_start_spec (variables self) "S_star")
    as (k & Hk & _ & Hfree & Hused).
  exists k. cbv zeta. split; [exact Hfree|]. split; [exact Hused|].
  unfold kleene_star. rewrite Hk. reflexivity.
Qed.

(** *** Derivations *)

Lemma derives_mono g1 g2 :
  (forall a, In a (alphabet g1) -> In a (alphabet g2)) ->
  (forall r, In r (_rules g1) -> In r (_rules g2)) ->
  (forall x w, CFG_derives g1 x w -> CFG_derives g2 x w) /\
  (forall xs w, CFG_derives_seq g1 xs w -> CFG_derives_seq g2 xs w).
Proof.
  intros Ha Hr. apply CFG_derives_mutind.
  - intros a H. apply CFG_derives_terminal. auto.
  - intros r w H _ IH. apply CFG_derives_rule; auto.
  - constructor.
  - intros x xs u v _ IH1 _ IH2. now constructor.
Qed.

Lemma derives_by_rule g l rhs w :
  In (mkRule l rhs) (_rules g) -> CFG_derives_seq g rhs w -> CFG_derives g l w.
Proof. intros Hr Hd. exact (CFG_derives_rule g (mkRule l rhs) w Hr Hd). Qed.

Lemma derives_seq_single g x w :
  CFG_derives g x w -> CFG_derives_seq g [x] w.
Proof.
  intros H. rewrite <- (app_nil_r w). constructor; [exact H | constructor].
Qed.

Lemma derives_seq_single_inv g x w :
  CFG_derives_seq g [x] w -> CFG_derives g x w.
Proof.
  intros H. inversion H as [|? ? u v Hd Hr]; subst.
  inversion Hr; subst. now rewrite app_nil_r.
Qed.

(** In the union of two well-formed grammars with disjoint variables, a
    symbol of the first grammar derives what it derives in the first
    grammar. *)
Lemma derives_restrict g g1 :
  CFG_wellformed g1 ->
  (forall x, In x (alphabet g) -> ~ In x (variables g)) ->
  (forall r, In r (_rules g) -> In (left_side r) (variables g)) ->
  (forall x, In x (variables g1) -> In x (variables g)) ->
  (forall x, In x (alphabet g1) -> In x (alphabet g)) ->
  (forall r, In r (_rules g) -> In (left_side r) (variables g1) ->
             In r (_rules g1)) ->
  (forall x w, CFG_derives g x w ->
               In x (variables g1) \/ In x (alphabet g1) ->
               CFG_derives g1 x w) /\
  (forall xs w, CFG_derives_seq g xs w ->
                (forall x, In x xs -> In x (variables g1) \/ In x (alphabet g1)) ->
                CFG_derives_seq g1 xs w).
Proof.
  intros (_ & Wl & Wr) Hvalid Hleft Hv Ha Hrules. apply CFG_derives_mutind.
  - intros a Hin [Hx|Hx].
    + exfalso. apply (Hvalid a Hin). auto.
    + now apply CFG_derives_terminal.
  - intros r w Hr _ IH [Hx|Hx].
    + pose proof (Hrules r Hr Hx) as Hr1.
      apply CFG_derives_rule; auto. apply IH. intros x Hin. eauto.
    + exfalso. apply (Hvalid (left_side r)); auto.
  - constructor.
  - intros x xs u v _ IH1 _ IH2 Hall. constructor.
    + apply IH1. apply Hall. now left.
    + apply IH2. intros y Hy. apply Hall. now right.
Qed.

Lemma add_present {A} `{Py.EqLaws A} (x : A) (s : list A) :
  In x s -> Py.add x s = s.
Proof. intros Hx. unfold Py.add. apply mem_In in Hx. now rewrite Hx. Qed.

(** *** The languages of the grammars constructed *)

Lemma union_includes self other g :
  union self other = Ok g ->
  forall w, CFG_derives self (start_variable self) w \/
            CFG_derives other (start_variable other) w ->
            CFG_derives g (start_variable g) w.
Proof.
  intros H. destruct (union_unfold self other) as (k & _ & _ & _ & E).
  cbv zeta in E. rewrite E in H. apply init_Ok in H. destruct H as (-> & _ & _).
  set (ns := candidate "S_union" k) in *. simpl.
  match goal with |- forall w, _ \/ _ -> CFG_derives ?g0 _ _ => set (g := g0) end.
  assert (Ha : forall a, In a (alphabet self) \/ In a (alphabet other) ->
                         In a (alphabet g)).
  { intros a Ha. unfold g. simpl. now apply set_union_In. }
  assert (Hr : forall r, In r (_rules self) \/ In r (_rules other) ->
                         In r (_rules g)).
  { intros r Hr. unfold g. simpl. apply set_union_In. left.
    now apply set_union_In. }
  assert (Hnew : forall x, x = start_variable self \/ x = start_variable other ->
                           In (mkRule ns [x]) (_rules g)).
  { intros x Hx. unfold g. simpl. apply set_union_In. right.
    apply of_list_In_iff. destruct Hx as [-> | ->]; simpl; auto. }
  intros w [Hw|Hw].
  - apply (derives_by_rule g ns [start_variable self]); [apply Hnew; auto|].
    apply derives_seq_single.
    apply (proj1 (derives_mono self g (fun a Ha' => Ha a (or_introl Ha'))
                               (fun r Hr' => Hr r (or_introl Hr')))).
    exact Hw.
  - apply (derives_by_rule g ns [start_variable other]); [apply Hnew; auto|].
    apply derives_seq_single.
    apply (proj1 (derives_mono other g (fun a Ha' => Ha a (or_intror Ha'))
                               (fun r Hr' => Hr r (or_intror Hr')))).
    exact Hw.
Qed.

Lemma concatenate_includes self other g :
  concatenate self other = Ok g ->
  forall u v, CFG_derives self (start_variable self) u ->
              CFG_derives other (start_variable other) v ->
              CFG_derives g (start_variable g) (u ++ v).
Proof.
  intros H. destruct (concatenate_unfold self other) as (k & _ & _ & _ & E).
  cbv zeta in E. rewrite E in H. apply init_Ok in H. destruct H as (-> & _ & _).
  set (ns := candidate "S_concat" k) in *.
  cbn [start_variable].
  match goal with |- forall u v, _ -> _ -> CFG_derives ?g0 _ _ => set (g := g0) end.
  assert (Ha : forall a, In a (alphabet self) \/ In a (alphabet other) ->
                         In a (alphabet g)).
  { intros a Ha. unfold g. cbn [alphabet]. now apply set_union_In. }
  assert (Hr : forall r, In r (_rules self) \/ In r (_rules other) ->
                         In r (_rules g)).
  { intros r Hr. unfold g. cbn [_rules]. apply add_In_iff. left.
    now apply set_union_In. }
  assert (Hnew : In (mkRule ns [start_variable self; start_variable other])
                    (_rules g)).
  { unfold g. cbn [_rules]. apply add_In_iff. now right. }
  intros u v Hu Hv.
  apply (derives_by_rule g ns _ _ Hnew).
  constructor.
  - apply (proj1 (derives_mono self g (fun a Ha' => Ha a (or_introl Ha'))
                               (fun r Hr' => Hr r (or_introl Hr')))).
    exact Hu.
  - apply derives_seq_single.
    apply (proj1 (derives_mono other g (fun a Ha' => Ha a (or_intror Ha'))
                               (fun r Hr' => Hr r (or_intror Hr')))).
    exact Hv.
Qed.

Lemma kleene_star_includes self self' g :
  kleene_star self = (self', Ok g) ->
  CFG_derives g (start_variable g) [] /\
  forall w u, CFG_derives g (start_variable g) w ->
              CFG_derives self (start_variable self) u ->
              CFG_derives g (start_variable g) (w ++ u).
Proof.
  intros H. destruct (kleene_star_unfold self) as (k & _ & _ & E).
  cbv zeta in E. rewrite E in H. injection H as _ H.
  apply init_Ok in H. destruct H as (-> & _ & _).
  set (ns := candidate "S_star" k) in *.
  cbn [start_variable].
  match goal with |- CFG_derives ?g0 _ _ /\ _ => set (g := g0) end.
  assert (Hr : forall r, In r (_rules self) -> In r (_rules g)).
  { intros r Hr. unfold g. cbn [_rules]. apply add_In_iff. left.
    apply add_In_iff. now left. }
  assert (Hnil : In (mkRule ns []) (_rules g)).
  { unfold g. cbn [_rules]. apply add_In_iff. now right. }
  assert (Hrep : In (mkRule ns [ns; start_variable self]) (_rules g)).
  { unfold g. cbn [_rules]. apply add_In_iff. left. apply add_In_iff. now right. }
  split.
  - apply (derives_by_rule g ns [] [] Hnil). constructor.
  - intros w u Hw Hu. apply (derives_by_rule g ns _ _ Hrep).
    constructor; [exact Hw|]. apply derives_seq_single.
    apply (proj1 (derives_mono self g (fun a Ha => Ha) Hr)). exact Hu.
Qed.

(** The union of two well-formed grammars without a common variable
    generates nothing else. *)
Lemma union_excludes self other g :
  union self other = Ok g ->
  CFG_wellformed self -> CFG_wellformed other ->
  (forall x, In x (variables self) -> ~ In x (variables other)) ->
  forall w, CFG_derives g (start_variable g) w ->
            CFG_derives self (start_variable self) w \/
            CFG_derives other (start_variable other) w.
Proof.
  intros H W1 W2 Hdisj.
  destruct (union_unfold self other) as (k & Hfree & _ & _ & E).
  cbv zeta in E, Hfree. rewrite E in H. apply init_Ok in H.
  destruct H as (-> & Hvalid & Hstart).
  set (ns := candidate "S_union" k) in *.
  cbn [start_variable].
  match goal with |- forall w, CFG_derives ?g0 _ _ -> _ => set (g := g0) in * end.
  pose proof W1 as (Hs1 & Hl1 & Hr1). pose proof W2 as (Hs2 & Hl2 & Hr2).
  assert (Hn1 : ~ In ns (variables self))
    by (intros Hin; apply Hfree; apply in_or_app; auto).
  assert (Hn2 : ~ In ns (variables other))
    by (intros Hin; apply Hfree; apply in_or_app; auto).
  assert (Hrules : forall r, In r (_rules g) <->
             In r (_rules self) \/ In r (_rules other) \/
             r = mkRule ns [start_variable self] \/
             r = mkRule ns [start_variable other]).
  { intros r. unfold g. cbn [_rules].
    rewrite !set_union_In, of_list_In_iff. simpl. intuition congruence. }
  assert (Hvars : forall x, In x (variables g) <->
             In x (variables self) \/ In x (variables other) \/ x = ns).
  { intros x. unfold g. cbn [variables]. rewrite !set_union_In. simpl.
    intuition congruence. }
  assert (Halph : forall x, In x (alphabet g) <->
             In x (alphabet self) \/ In x (alphabet other)).
  { intros x. unfold g. cbn [alphabet]. now rewrite set_union_In. }
  assert (Hleft : forall r, In r (_rules g) -> In (left_side r) (variables g)).
  { intros r Hr. apply Hrules in Hr. apply Hvars.
    destruct Hr as [Hr|[Hr|[-> | ->]]]; auto. }
  assert (Hvalid' : forall x, In x (alphabet g) -> ~ In x (variables g))
    by exact Hvalid.
  assert (R1 : forall x w, CFG_derives g x w ->
                           In x (variables self) \/ In x (alphabet self) ->
                           CFG_derives self x w).
  { apply (derives_restrict g self W1 Hvalid' Hleft).
    - intros x Hx. apply Hvars. auto.
    - intros x Hx. apply Halph. auto.
    - intros r Hr Hin. apply Hrules in Hr.
      destruct Hr as [Hr|[Hr|[-> | ->]]]; auto.
      + exfalso. exact (Hdisj _ Hin (Hl2 r Hr)).
      + contradiction.
      + contradiction. }
  assert (R2 : forall x w, CFG_derives g x w ->
                           In x (variables other) \/ In x (alphabet other) ->
                           CFG_derives other x w).
  { apply (derives_restrict g other W2 Hvalid' Hleft).
    - intros x Hx. apply Hvars. auto.
    - intros x Hx. apply Halph. auto.
    - intros r Hr Hin. apply Hrules in Hr.
      destruct Hr as [Hr|[Hr|[-> | ->]]]; auto.
      + exfalso. exact (Hdisj _ (Hl1 r Hr) Hin).
      + contradiction.
      + contradiction. }
  intros w Hw. inversion Hw as [a Ha Ea Ew | r w' Hr Hseq El Ew]; subst.
  - exfalso. apply (Hvalid ns Ha). apply Hvars. auto.
  - apply Hrules in Hr. destruct Hr as [Hr|[Hr|[-> | ->]]].
    + exfalso. apply Hn1. rewrite <- El. auto.
    + exfalso. apply Hn2. rewrite <- El. auto.
    + left. apply R1; auto. now apply derives_seq_single_inv.
    + right. apply R2; auto. now apply derives_seq_single_inv.
Qed.

End GrammarFacts.

(** ** The accessors of a grammar *)

Module AccessorFacts.
Import ContextFreeGrammar Grammars GrammarFacts.

Lemma unary_with_first (r : Rule) (w : string) :
  is_unary r && eqb (first_symbol r) w = eqb (right_side r) [w].
Proof.
  unfold is_unary, first_symbol. destruct (right_side r) as [|x [|y l]].
  - reflexivity.
  - change (eqb [x] [w]) with (eqb x w && true). simpl.
    now rewrite andb_true_r.
  - change (eqb (x :: y :: l) [w]) with (eqb x w && false). simpl.
    now rewrite andb_false_r.
Qed.

Lemma parts_of_speech_word g w :
  parts_of_speech g (Some w) = reduce g [w].
Proof.
  unfold parts_of_speech, reduce. f_equal. f_equal.
  apply filter_ext. intros r. apply unary_with_first.
Qed.

Lemma parts_of_speech_any g x :
  In x (parts_of_speech g None) <->
  exists w, In w (alphabet g) /\ In x (reduce g [w]).
Proof.
  unfold parts_of_speech, reduce. rewrite of_list_In_iff, in_map_iff. split.
  - intros (r & <- & Hr). apply filter_In in Hr. destruct Hr as [Hr Hp].
    apply andb_true_iff in Hp. destruct Hp as [Hu Hm]. apply mem_In in Hm.
    exists (first_symbol r). split; [exact Hm|].
    apply of_list_In_iff, in_map_iff. exists r. split; [reflexivity|].
    apply filter_In. split; [exact Hr|].
    rewrite <- unary_with_first, Hu. simpl. now apply eqb_eq.
  - intros (w & Hw & Hx). apply of_list_In_iff, in_map_iff in Hx.
    destruct Hx as (r & <- & Hr). apply filter_In in Hr. destruct Hr as [Hr Hp].
    exists r. split; [reflexivity|]. apply filter_In. split; [exact Hr|].
    rewrite <- unary_with_first in Hp. apply andb_true_iff in Hp.
    destruct Hp as [Hu Hf]. apply eqb_eq in Hf. rewrite Hu, Hf. simpl.
    now apply mem_In.
Qed.

Lemma left_sides_split g x :
  (exists r, In r (_rules g) /\ left_side r = x) <->
  In x (parts_of_speech g None) \/ In x (snd (phrase_variables g None)).
Proof.
  unfold parts_of_speech, phrase_variables. cbn [snd].
  rewrite !of_list_In_iff, !in_map_iff. split.
  - intros (r & Hr & <-).
    destruct (is_unary r && Py.mem (first_symbol r) (alphabet g)) eqn:E.
    + left. exists r. split; [reflexivity|]. apply filter_In. auto.
    + right. exists r. split; [reflexivity|]. apply filter_In. split; [exact Hr|].
      rewrite <- negb_andb, E. reflexivity.
  - intros [(r & <- & Hr)|(r & <- & Hr)]; apply filter_In in Hr;
      exists r; tauto.
Qed.

Lemma phrase_variables_In g x :
  In x (snd (phrase_variables g None)) <->
  exists r, In r (_rules g) /\ left_side r = x /\
            (List.length (right_side r) <> 1 \/
             ~ In (first_symbol r) (alphabet g)).
Proof.
  unfold phrase_variables. cbn [snd].
  rewrite of_list_In_iff, in_map_iff. split.
  - intros (r & <- & Hr). apply filter_In in Hr. destruct Hr as [Hr Hp].
    exists r. split; [exact Hr|]. split; [reflexivity|].
    apply orb_true_iff in Hp. destruct Hp as [Hp|Hp].
    + left. unfold is_unary in Hp. apply negb_true_iff in Hp.
      now apply Nat.eqb_neq in Hp.
    + right. apply negb_true_iff in Hp. now apply mem_false.
  - intros (r & Hr & <- & Hp). exists r. split; [reflexivity|].
    apply filter_In. split; [exact Hr|]. apply orb_true_iff.
    destruct Hp as [Hp|Hp].
    + left. unfold is_unary. apply negb_true_iff. now apply Nat.eqb_neq.
    + right. apply negb_true_iff. now apply mem_false.
Qed.

(** After [kleene_star] the set kept by an earlier read lacks the new
    start variable, which a first read would hold. *)
Lemma phrase_variables_stale g :
  (forall r, In r (_rules g) -> In (left_side r) (variables g)) ->
  exists ns,
    In (mkRule ns []) (_rules (fst (kleene_star g))) /\
    ~ In ns (snd (phrase_variables (fst (kleene_star g))
                                   (fst (phrase_variables g None)))) /\
    In ns (snd (phrase_variables (fst (kleene_star g)) None)).
Proof.
  intros Hleft.
  destruct (kleene_star_unfold g) as (k & Hfree & _ & E).
  cbv zeta in *. rewrite E. cbn [fst].
  set (ns := candidate "S_star" k) in *.
  exists ns. split; [|split].
  - cbn [_rules]. apply add_In_iff. now right.
  - change (fst (phrase_variables g None))
      with (Some (snd (phrase_variables g None))).
    cbn [phrase_variables snd]. intros Hin.
    change (In ns (snd (phrase_variables g None))) in Hin.
    apply phrase_variables_In in Hin. destruct Hin as (r & Hr & Hl & _).
    apply Hfree. rewrite <- Hl. now apply Hleft.
  - apply phrase_variables_In. exists (mkRule ns []).
    split; [cbn [_rules]; apply add_In_iff; now right|].
    split; [reflexivity|]. left. simpl. discriminate.
Qed.

End AccessorFacts.

(** ** The languages of the concatenation and of the Kleene closure *)

Module LanguageFacts.
Import ContextFreeGrammar Grammars GrammarFacts.

(** The concatenation of two well-formed grammars without a common
    variable generates nothing but concatenations. *)
Lemma concatenate_excludes self other g :
  concatenate self other = Ok g ->
  CFG_wellformed self -> CFG_wellformed other ->
  (forall x, In x (variables self) -> ~ In x (variables other)) ->
  forall w, CFG_derives g (start_variable g) w ->
            exists u v, w = u ++ v /\
                        CFG_derives self (start_variable self) u /\
                        CFG_derives other (start_variable other) v.
Proof.
  intros H W1 W2 Hdisj.
  destruct (concatenate_unfold self other) as (k & Hfree & _ & _ & E).
  cbv zeta in E, Hfree. rewrite E in H. apply init_Ok in H.
  destruct H as (-> & Hvalid & Hstart).
  set (ns := candidate "S_concat" k) in *.
  cbn [start_variable].
  match goal with |- forall w, CFG_derives ?g0 _ _ -> _ => set (g := g0) in * end.
  pose proof W1 as (Hs1 & Hl1 & Hr1). pose proof W2 as (Hs2 & Hl2 & Hr2).
  assert (Hn1 : ~ In ns (variables self))
    by (intros Hin; apply Hfree; apply in_or_app; auto).
  assert (Hn2 : ~ In ns (variables other))
    by (intros Hin; apply Hfree; apply in_or_app; auto).
  assert (Hrules : forall r, In r (_rules g) <->
             In r (_rules self) \/ In r (_rules other) \/
             r = mkRule ns [start_variable self; start_variable other]).
  { intros r. unfold g. cbn [_rules].
    rewrite add_In_iff, set_union_In. intuition congruence. }
  assert (Hvars : forall x, In x (variables g) <->
             In x (variables self) \/ In x (variables other) \/ x = ns).
  { intros x. unfold g. cbn [variables]. rewrite !set_union_In. simpl.
    intuition congruence. }
  assert (Halph : forall x, In x (alphabet g) <->
             In x (alphabet self) \/ In x (alphabet other)).
  { intros x. unfold g. cbn [alphabet]. now rewrite set_union_In. }
  assert (Hleft : forall r, In r (_rules g) -> In (left_side r) (variables g)).
  { intros r Hr. apply Hrules in Hr. apply Hvars.
    destruct Hr as [Hr|[Hr| ->]]; auto. }
  assert (Hvalid' : forall x, In x (alphabet g) -> ~ In x (variables g))
    by exact Hvalid.
  assert (R1 : forall x w, CFG_derives g x w ->
                           In x (variables self) \/ In x (alphabet self) ->
                           CFG_derives self x w).
  { apply (derives_restrict g self W1 Hvalid' Hleft).
    - intros x Hx. apply Hvars. auto.
    - intros x Hx. apply Halph. auto.
    - intros r Hr Hin. apply Hrules in Hr.
      destruct Hr as [Hr|[Hr| ->]]; auto.
      + exfalso. exact (Hdisj _ Hin (Hl2 r Hr)).
      + contradiction. }
  assert (R2 : forall x w, CFG_derives g x w ->
                           In x (variables other) \/ In x (alphabet other) ->
                           CFG_derives other x w).
  { apply (derives_restrict g other W2 Hvalid' Hleft).
    - intros x Hx. apply Hvars. auto.
    - intros x Hx. apply Halph. auto.
    - intros r Hr Hin. apply Hrules in Hr.
      destruct Hr as [Hr|[Hr| ->]]; auto.
      + exfalso. exact (Hdisj _ (Hl1 r Hr) Hin).
      + contradiction. }
  intros w Hw. inversion Hw as [a Ha Ea Ew | r w' Hr Hseq El Ew]; subst.
  - exfalso. apply (Hvalid ns Ha). apply Hvars. auto.
  - apply Hrules in Hr. destruct Hr as [Hr|[Hr| ->]].
    + exfalso. apply Hn1. rewrite <- El. auto.
    + exfalso. apply Hn2. rewrite <- El. auto.
    + cbn [right_side] in Hseq.
      inversion Hseq as [|? ? u v Hu Hv]; subst.
      apply derives_seq_single_inv in Hv.
      exists u, v. split; [reflexivity|]. split; [apply R1 | apply R2]; auto.
Qed.

(** The Kleene closure of a well-formed grammar generates nothing but
    concatenations of sequences of the language of the grammar. *)
Lemma kleene_star_excludes self g :
  snd (kleene_star self) = Ok g ->
  CFG_wellformed self ->
  forall w, CFG_derives g (start_variable g) w ->
            exists ws, w = List.concat ws /\
                       Forall (CFG_derives self (start_variable self)) ws.
Proof.
  intros H W1.
  destruct (kleene_star_unfold self) as (k & Hfree & _ & E).
  cbv zeta in E, Hfree. rewrite E in H. cbn [snd] in H. apply init_Ok in H.
  destruct H as (-> & Hvalid & Hstart).
  set (ns := candidate "S_star" k) in *.
  cbn [start_variable].
  match goal with |- forall w, CFG_derives ?g0 _ _ -> _ => set (g := g0) in * end.
  pose proof W1 as (Hs1 & Hl1 & Hr1).
  assert (Hrules : forall r, In r (_rules g) <->
             In r (_rules self) \/
             r = mkRule ns [ns; start_variable self] \/ r = mkRule ns []).
  { intros r. unfold g. cbn [_rules]. rewrite !add_In_iff. tauto. }
  assert (Hvars : forall x, In x (variables g) <->
             In x (variables self) \/ x = ns).
  { intros x. unfold g. cbn [variables]. rewrite set_union_In. simpl.
    intuition congruence. }
  assert (Hleft : forall r, In r (_rules g) -> In (left_side r) (variables g)).
  { intros r Hr. apply Hrules in Hr. apply Hvars.
    destruct Hr as [Hr|[-> | ->]]; auto. }
  assert (Hvalid' : forall x, In x (alphabet g) -> ~ In x (variables g))
    by exact Hvalid.
  assert (R1 : forall x w, CFG_derives g x w ->
                           In x (variables self) \/ In x (alphabet self) ->
                           CFG_derives self x w).
  { apply (derives_restrict g self W1 Hvalid' Hleft).
    - intros x Hx. apply Hvars. auto.
    - intros x Hx. exact Hx.
    - intros r Hr Hin. apply Hrules in Hr.
      destruct Hr as [Hr|[-> | ->]]; auto; contradiction. }
  set (L := CFG_derives self (start_variable self)).
  assert (Hind :
    (forall x w, CFG_derives g x w ->
                 x = ns -> exists ws, w = List.concat ws /\ Forall L ws) /\
    (forall xs w, CFG_derives_seq g xs w ->
                  forall ys, xs = ns :: ys ->
                  exists ws v, w = List.concat ws ++ v /\ Forall L ws /\
                               CFG_derives_seq g ys v)).
  { apply CFG_derives_mutind.
    - intros a Ha ->. exfalso. apply (Hvalid ns Ha). apply Hvars. auto.
    - intros r w Hr Hseq IH El. apply Hrules in Hr.
      destruct Hr as [Hr|[-> | ->]].
      + exfalso. apply Hfree. rewrite <- El. auto.
      + destruct (IH _ eq_refl) as (ws & v & -> & Hws & Hv).
        apply derives_seq_single_inv in Hv.
        exists (ws ++ [v]). split.
        * rewrite List.concat_app. simpl. now rewrite app_nil_r.
        * apply Forall_app. split; [exact Hws|]. constructor; [|constructor].
          apply R1; auto.
      + cbn [right_side] in Hseq. inversion Hseq; subst.
        exists []. split; [reflexivity|constructor].
    - intros ys Hys. discriminate Hys.
    - intros x xs u v Hx IHx Hxs _ ys [= -> ->].
      destruct (IHx eq_refl) as (ws & -> & Hws).
      exists ws, v. auto. }
  intros w Hw. exact (proj1 Hind ns w Hw eq_refl).
Qed.

(** The Kleene closure generates every such concatenation. *)
Lemma kleene_star_all self g :
  snd (kleene_star self) = Ok g ->
  forall ws, Forall (CFG_derives self (start_variable self)) ws ->
             CFG_derives g (start_variable g) (List.concat ws).
Proof.
  intros H.
  destruct (kleene_star_includes self (fst (kleene_star self)) g) as [Hnil Hrep].
  { rewrite <- H. now destruct (kleene_star self). }
  intros ws. induction ws as [|u ws IH] using rev_ind; intros Hws.
  - exact Hnil.
  - apply Forall_app in Hws. destruct Hws as [Hws Hu].
    rewrite List.concat_app. simpl. rewrite app_nil_r.
    apply Hrep; [now apply IH | now inversion Hu].
Qed.

End LanguageFacts.


(** ** Union, concatenation and Kleene closure of grammars *)

(** X9.  What [union] and [concatenate] return, when they return: a
    grammar whose start variable is new (it is a variable of neither
    operand: "S_union", resp. "S_concat", followed by the least number
    of underscores that makes it so), whose variables are those of the
    operands and the new start variable, whose alphabet is the union
    of the alphabets, and whose rules are the rules of the operands
    and the rules from the new start variable to the start variables
    of the operands. *)
Theorem union_concatenate_result (self other g : ContextFreeGrammar.t) :
  let V1 := ContextFreeGrammar.variables self in
  let V2 := ContextFreeGrammar.variables other in
  let S1 := ContextFreeGrammar.start_variable self in
  let S2 := ContextFreeGrammar.start_variable other in
  let S := ContextFreeGrammar.start_variable g in
  let components :=
    ~ In S V1 /\ ~ In S V2 /\
    (forall x, In x (ContextFreeGrammar.variables g) <->
               In x V1 \/ In x V2 \/ x = S) /\
    (forall x, In x (ContextFreeGrammar.alphabet g) <->
               In x (ContextFreeGrammar.alphabet self) \/
               In x (ContextFreeGrammar.alphabet other)) in
  (Grammars.union self other = Ok g ->
   components /\
   (exists k, S = Grammars.candidate "S_union" k /\
              forall j, j < k ->
                        In (Grammars.candidate "S_union" j) (V1 ++ V2)) /\
   (forall r, In r (ContextFreeGrammar._rules g) <->
              In r (ContextFreeGrammar._rules self) \/
              In r (ContextFreeGrammar._rules other) \/
              r = mkRule S [S1] \/ r = mkRule S [S2])) /\
  (Grammars.concatenate self other = Ok g ->
   components /\
   (exists k, S = Grammars.candidate "S_concat" k /\
              forall j, j < k ->
                        In (Grammars.candidate "S_concat" j) (V1 ++ V2)) /\
   (forall r, In r (ContextFreeGrammar._rules g) <->
              In r (ContextFreeGrammar._rules self) \/
              In r (ContextFreeGrammar._rules other) \/
              r = mkRule S [S1; S2])).
Proof.
  cbv zeta. split; intros H.
  - destruct (GrammarFacts.union_unfold self other) as (k & Hfree & Hused & _ & E).
    cbv zeta in *. rewrite E in H. apply GrammarFacts.init_Ok in H.
    destruct H as (-> & _ & _).
    cbn [ContextFreeGrammar.variables ContextFreeGrammar.alphabet
         ContextFreeGrammar._rules ContextFreeGrammar.start_variable].
    split; [|split].
    + split; [intros Hin; apply Hfree; apply in_or_app; auto|].
      split; [intros Hin; apply Hfree; apply in_or_app; auto|]. split.
      * intros x. rewrite !GrammarFacts.set_union_In. simpl.
        intuition congruence.
      * intros x. now rewrite GrammarFacts.set_union_In.
    + exists k. auto.
    + intros r. rewrite !GrammarFacts.set_union_In, GrammarFacts.of_list_In_iff.
      simpl. intuition congruence.
  - destruct (GrammarFacts.concatenate_unfold self other)
      as (k & Hfree & Hused & _ & E).
    cbv zeta in *. rewrite E in H. apply GrammarFacts.init_Ok in H.
    destruct H as (-> & _ & _).
    cbn [ContextFreeGrammar.variables ContextFreeGrammar.alphabet
         ContextFreeGrammar._rules ContextFreeGrammar.start_variable].
    split; [|split].
    + split; [intros Hin; apply Hfree; apply in_or_app; auto|].
      split; [intros Hin; apply Hfree; apply in_or_app; auto|]. split.
      * intros x. rewrite !GrammarFacts.set_union_In. simpl.
        intuition congruence.
      * intros x. now rewrite GrammarFacts.set_union_In.
    + exists k. auto.
    + intros r. rewrite GrammarFacts.add_In_iff, !GrammarFacts.set_union_In.
      tauto.
Qed.

Lemma union_concatenate_result_witness :
  Grammars.union OperationExamples.taken OperationExamples.only_b
  = Ok (ContextFreeGrammar.mk
          ["a"; "b"] ["S_union"; "B"; "S_union_"]
          [mkRule "S_union" ["a"]; mkRule "B" ["b"];
           mkRule "S_union_" ["S_union"]; mkRule "S_union_" ["B"]]
          "S_union_") /\
  ~ In "S_union_" ["S_union"].
Proof.
  assert (H : Grammars.union OperationExamples.taken OperationExamples.only_b
              = Ok (ContextFreeGrammar.mk
                      ["a"; "b"] ["S_union"; "B"; "S_union_"]
                      [mkRule "S_union" ["a"]; mkRule "B" ["b"];
                       mkRule "S_union_" ["S_union"]; mkRule "S_union_" ["B"]]
                      "S_union_"))
    by (vm_compute; reflexivity).
  split; [exact H|].
  exact (proj1 (proj1 (proj1 (union_concatenate_result _ _ _) H))).
Defined.

(** X10.  When [union] and [concatenate] return and when they raise.
    The loop that looks for a new start variable always stops.  The
    call then returns a grammar when no terminal of either operand is
    a variable of either operand or the new start variable, and raises
    ValueError otherwise: also for two operands that are each a valid
    grammar. *)
Theorem union_concatenate_returns (self other : ContextFreeGrammar.t) :
  let clash (x ns : string) :=
    (In x (ContextFreeGrammar.alphabet self) \/
     In x (ContextFreeGrammar.alphabet other)) /\
    (In x (ContextFreeGrammar.variables self) \/
     In x (ContextFreeGrammar.variables other) \/ x = ns) in
  (exists ns,
      Grammars.fresh_start (ContextFreeGrammar.variables self ++
                            ContextFreeGrammar.variables other) "S_union"
      = Ok ns /\
      ((forall x, ~ clash x ns) ->
       exists g, Grammars.union self other = Ok g /\
                 ContextFreeGrammar.start_variable g = ns) /\
      ((exists x, clash x ns) ->
       exists msg, Grammars.union self other = Raise (ValueError msg))) /\
  (exists ns,
      Grammars.fresh_start (ContextFreeGrammar.variables self ++
                            ContextFreeGrammar.variables other) "S_concat"
      = Ok ns /\
      ((forall x, ~ clash x ns) ->
       exists g, Grammars.concatenate self other = Ok g /\
                 ContextFreeGrammar.start_variable g = ns) /\
      ((exists x, clash x ns) ->
       exists msg, Grammars.concatenate self other = Raise (ValueError msg))).
Proof.
  cbv zeta. split.
  - destruct (GrammarFacts.union_unfold self other) as (k & _ & _ & Hk & E).
    cbv zeta in *. eexists. split; [exact Hk|]. rewrite E. split.
    + intros Hno.
      rewrite GrammarFacts.init_total; [eexists; split; reflexivity| |].
      * intros x Ha Hv. apply (Hno x). split.
        -- now apply GrammarFacts.set_union_In in Ha.
        -- apply GrammarFacts.set_union_In in Hv. destruct Hv as [Hv|Hv].
           ++ apply GrammarFacts.set_union_In in Hv. tauto.
           ++ destruct Hv as [<-|[]]. auto.
      * apply GrammarFacts.set_union_In. right. now left.
    + intros (x & Ha & Hv). apply GrammarFacts.init_raises. left. exists x.
      split; [now apply GrammarFacts.set_union_In|].
      rewrite !GrammarFacts.set_union_In. simpl. intuition congruence.
  - destruct (GrammarFacts.concatenate_unfold self other) as (k & _ & _ & Hk & E).
    cbv zeta in *. eexists. split; [exact Hk|]. rewrite E. split.
    + intros Hno.
      rewrite GrammarFacts.init_total; [eexists; split; reflexivity| |].
      * intros x Ha Hv. apply (Hno x). split.
        -- now apply GrammarFacts.set_union_In in Ha.
        -- apply GrammarFacts.set_union_In in Hv. destruct Hv as [Hv|Hv].
           ++ apply GrammarFacts.set_union_In in Hv. tauto.
           ++ destruct Hv as [<-|[]]. auto.
      * apply GrammarFacts.set_union_In. right. now left.
    + intros (x & Ha & Hv). apply GrammarFacts.init_raises. left. exists x.
      split; [now apply GrammarFacts.set_union_In|].
      rewrite !GrammarFacts.set_union_In. simpl. intuition congruence.
Qed.

(** Two grammars that the constructor accepts and whose union raises:
    "A" is a variable of the first and a terminal of the second. *)
Example union_of_valid_grammars_raises :
  ContextFreeGrammar.__init__ ["a"] ["A"] [mkRule "A" ["a"]] "A"
  = Ok OperationExamples.only_a /\
  ContextFreeGrammar.__init__ ["A"] ["C"] [mkRule "C" ["A"]] "C"
  = Ok OperationExamples.clashing /\
  Grammars.union OperationExamples.only_a OperationExamples.clashing
  = Raise (ValueError "alphabet and variables must not share elements").
Proof. repeat split; vm_compute; reflexivity. Qed.

(** X11.  The grammars constructed generate at least the languages
    they are meant for: the union whatever either operand generates,
    the concatenation every concatenation of a sequence of the first
    operand's language with one of the second's, the Kleene closure
    the empty sequence and every sequence of its language followed by
    one of the operand's. *)
Theorem operations_generate (self other g : ContextFreeGrammar.t) :
  let L1 := CFG_derives self (ContextFreeGrammar.start_variable self) in
  let L2 := CFG_derives other (ContextFreeGrammar.start_variable other) in
  let L := CFG_derives g (ContextFreeGrammar.start_variable g) in
  (Grammars.union self other = Ok g -> forall w, L1 w \/ L2 w -> L w) /\
  (Grammars.concatenate self other = Ok g ->
   forall u v, L1 u -> L2 v -> L (u ++ v)) /\
  (snd (Grammars.kleene_star self) = Ok g ->
   L [] /\ forall w u, L w -> L1 u -> L (w ++ u)).
Proof.
  cbv zeta. split; [|split].
  - apply GrammarFacts.union_includes.
  - apply GrammarFacts.concatenate_includes.
  - intros H. apply (GrammarFacts.kleene_star_includes self
                       (fst (Grammars.kleene_star self))).
    rewrite <- H. now destruct (Grammars.kleene_star self).
Qed.

Lemma only_a_derives_a :
  CFG_derives OperationExamples.only_a "A" ["a"].
Proof.
  apply (GrammarFacts.derives_by_rule OperationExamples.only_a "A" ["a"]);
    [now left|].
  apply GrammarFacts.derives_seq_single. apply CFG_derives_terminal. now left.
Qed.

Lemma operations_generate_witness :
  Grammars.union OperationExamples.only_a OperationExamples.only_b
  = Ok OperationExamples.union_ab /\
  CFG_derives OperationExamples.union_ab "S_union" ["a"].
Proof.
  assert (H : Grammars.union OperationExamples.only_a OperationExamples.only_b
              = Ok OperationExamples.union_ab) by (vm_compute; reflexivity).
  split; [exact H|].
  exact (proj1 (operations_generate _ _ _) H ["a"] (or_introl only_a_derives_a)).
Defined.

(** X12.  The union of two well-formed grammars that have no variable
    in common generates exactly the union of their languages. *)
Theorem union_language (self other g : ContextFreeGrammar.t) :
  Grammars.union self other = Ok g ->
  CFG_wellformed self -> CFG_wellformed other ->
  (forall x, In x (ContextFreeGrammar.variables self) ->
             ~ In x (ContextFreeGrammar.variables other)) ->
  forall w,
    CFG_derives g (ContextFreeGrammar.start_variable g) w <->
    CFG_derives self (ContextFreeGrammar.start_variable self) w \/
    CFG_derives other (ContextFreeGrammar.start_variable other) w.
Proof.
  intros H W1 W2 Hd w. split.
  - now apply GrammarFacts.union_excludes.
  - now apply GrammarFacts.union_includes.
Qed.

Lemma only_a_wellformed : CFG_wellformed OperationExamples.only_a.
Proof.
  split; [now left|]. split.
  - intros r [<-|[]]. now left.
  - intros r x [<-|[]] [<-|[]]. right. now left.
Qed.

Lemma only_b_wellformed : CFG_wellformed OperationExamples.only_b.
Proof.
  split; [now left|]. split.
  - intros r [<-|[]]. now left.
  - intros r x [<-|[]] [<-|[]]. right. now left.
Qed.

Lemma union_language_witness :
  Grammars.union OperationExamples.only_a OperationExamples.only_b
  = Ok OperationExamples.union_ab /\
  (CFG_derives OperationExamples.union_ab "S_union" ["a"] <->
   CFG_derives OperationExamples.only_a "A" ["a"] \/
   CFG_derives OperationExamples.only_b "B" ["a"]).
Proof.
  assert (H : Grammars.union OperationExamples.only_a OperationExamples.only_b
              = Ok OperationExamples.union_ab) by (vm_compute; reflexivity).
  split; [exact H|].
  apply (union_language _ _ _ H only_a_wellformed only_b_wellformed).
  intros x [<-|[]] [E|[]]. discriminate.
Defined.

(** X18.  The concatenation of two well-formed grammars that have no
    variable in common generates exactly the sequences made of a
    sequence of the first language followed by one of the second. *)
Theorem concatenate_language (self other g : ContextFreeGrammar.t) :
  Grammars.concatenate self other = Ok g ->
  CFG_wellformed self -> CFG_wellformed other ->
  (forall x, In x (ContextFreeGrammar.variables self) ->
             ~ In x (ContextFreeGrammar.variables other)) ->
  forall w,
    CFG_derives g (ContextFreeGrammar.start_variable g) w <->
    exists u v,
      w = u ++ v /\
      CFG_derives self (ContextFreeGrammar.start_variable self) u /\
      CFG_derives other (ContextFreeGrammar.start_variable other) v.
Proof.
  intros H W1 W2 Hd w. split.
  - now apply LanguageFacts.concatenate_excludes.
  - intros (u & v & -> & Hu & Hv).
    now apply (GrammarFacts.concatenate_includes self other).
Qed.

Lemma concatenate_language_witness :
  Grammars.concatenate OperationExamples.only_a OperationExamples.only_b
  = Ok OperationExamples.concat_ab /\
  (CFG_derives OperationExamples.concat_ab "S_concat" ["b"; "a"] <->
   exists u v,
     ["b"; "a"] = u ++ v /\
     CFG_derives OperationExamples.only_a "A" u /\
     CFG_derives OperationExamples.only_b "B" v).
Proof.
  assert (H : Grammars.concatenate OperationExamples.only_a
                                   OperationExamples.only_b
              = Ok OperationExamples.concat_ab) by (vm_compute; reflexivity).
  split; [exact H|].
  apply (concatenate_language _ _ _ H only_a_wellformed only_b_wellformed).
  intros x [<-|[]] [E|[]]. discriminate E.
Defined.

(** X19.  The Kleene closure of a well-formed grammar generates
    exactly the concatenations of finitely many sequences of the
    language of the grammar (the language meant is that of the
    grammar as it is before the call). *)
Theorem kleene_star_language (self g : ContextFreeGrammar.t) :
  snd (Grammars.kleene_star self) = Ok g ->
  CFG_wellformed self ->
  forall w,
    CFG_derives g (ContextFreeGrammar.start_variable g) w <->
    exists ws,
      w = List.concat ws /\
      Forall (CFG_derives self (ContextFreeGrammar.start_variable self)) ws.
Proof.
  intros H W w. split.
  - now apply LanguageFacts.kleene_star_excludes.
  - intros (ws & -> & Hws). now apply (LanguageFacts.kleene_star_all self).
Qed.

Lemma kleene_star_language_witness :
  snd (Grammars.kleene_star OperationExamples.only_a)
  = Ok OperationExamples.star_a /\
  (CFG_derives OperationExamples.star_a "S_star" ["a"; "a"] <->
   exists ws,
     ["a"; "a"] = List.concat ws /\
     Forall (CFG_derives OperationExamples.only_a "A") ws).
Proof.
  assert (H : snd (Grammars.kleene_star OperationExamples.only_a)
              = Ok OperationExamples.star_a) by (vm_compute; reflexivity).
  split; [exact H|].
  exact (kleene_star_language _ _ H only_a_wellformed ["a"; "a"]).
Defined.

(** X13.  [kleene_star] changes the grammar it is called on:
    [rules = self.rules()] is the receiver's own rule set, so the two
    rules of the new start variable are added to it.  After the call
    the receiver has the same alphabet, variables and start variable
    as before and a rule set that holds its former rules and the two
    new rules, whose left side is not one of its variables; the grammar
    returned has this very rule set.  A second call changes nothing
    more and returns the same result. *)
Theorem kleene_star_changes_receiver (self : ContextFreeGrammar.t) :
  let self' := fst (Grammars.kleene_star self) in
  let result := snd (Grammars.kleene_star self) in
  ContextFreeGrammar.alphabet self' = ContextFreeGrammar.alphabet self /\
  ContextFreeGrammar.variables self' = ContextFreeGrammar.variables self /\
  ContextFreeGrammar.start_variable self'
  = ContextFreeGrammar.start_variable self /\
  (exists ns,
      ~ In ns (ContextFreeGrammar.variables self) /\
      (forall r, In r (ContextFreeGrammar._rules self') <->
                 In r (ContextFreeGrammar._rules self) \/
                 r = mkRule ns [ns; ContextFreeGrammar.start_variable self] \/
                 r = mkRule ns []) /\
      (forall g, result = Ok g ->
                 ContextFreeGrammar.start_variable g = ns /\
                 ContextFreeGrammar._rules g
                 = ContextFreeGrammar._rules self')) /\
  Grammars.kleene_star self' = (self', result).
Proof.
  cbv zeta.
  destruct (GrammarFacts.kleene_star_unfold self) as (k & Hfree & Hused & E).
  cbv zeta in *. rewrite E. cbn [fst snd].
  cbn [ContextFreeGrammar.alphabet ContextFreeGrammar.variables
       ContextFreeGrammar._rules ContextFreeGrammar.start_variable].
  split; [reflexivity|]. split; [reflexivity|]. split; [reflexivity|]. split.
  - eexists. split; [exact Hfree|]. split.
    + intros r. rewrite !GrammarFacts.add_In_iff. tauto.
    + intros g Hg. apply GrammarFacts.init_Ok in Hg. destruct Hg as (-> & _ & _).
      split; reflexivity.
  - set (ns := Grammars.candidate "S_star" k) in *.
    set (R := Py.add (mkRule ns [])
                (Py.add (mkRule ns [ns; ContextFreeGrammar.start_variable self])
                        (ContextFreeGrammar._rules self))).
    destruct (GrammarFacts.kleene_star_unfold
                (ContextFreeGrammar.mk (ContextFreeGrammar.alphabet self)
                                       (ContextFreeGrammar.variables self) R
                                       (ContextFreeGrammar.start_variable self)))
      as (k' & Hfree' & Hused' & E').
    cbv zeta in *.
    cbn [ContextFreeGrammar.alphabet ContextFreeGrammar.variables
         ContextFreeGrammar._rules ContextFreeGrammar.start_variable] in *.
    rewrite E'.
    assert (Ek : k' = k).
    { destruct (Nat.lt_trichotomy k' k) as [Hlt|[Heq|Hgt]]; auto.
      - exfalso. apply Hfree'. now apply Hused.
      - exfalso. apply Hfree. now apply Hused'. }
    subst k'. fold ns.
    assert (ER : Py.add (mkRule ns [])
                   (Py.add (mkRule ns [ns; ContextFreeGrammar.start_variable self]) R)
                 = R).
    { rewrite (GrammarFacts.add_present
                 (mkRule ns [ns; ContextFreeGrammar.start_variable self]) R).
      - apply GrammarFacts.add_present. unfold R. apply GrammarFacts.add_In_iff.
        now right.
      - unfold R. apply GrammarFacts.add_In_iff. left.
        apply GrammarFacts.add_In_iff. now right. }
    rewrite ER. reflexivity.
Qed.


(** ** Validation of a probabilistic grammar *)

Module PCFGValidation.
Import PCFG.

Section WithLogProb.
Context {LP : LogProb}.

(** A loop that only checks: it returns when every check does. *)
Lemma for_checks {A} (xs : list A) (body : A -> unit -> Result unit) :
  Py.for_ xs body tt = Ok tt <-> forall x, In x xs -> body x tt = Ok tt.
Proof.
  induction xs as [|y xs IH]; simpl.
  - split; [intros _ x [] | reflexivity].
  - destruct (body y tt) as [[]|e] eqn:E; simpl.
    + rewrite IH. split.
      * intros H x [<-|Hx]; auto.
      * intros H x Hx. apply H. now right.
    + split; [discriminate|]. intros H.
      specialize (H y (or_introl eq_refl)). congruence.
Qed.

(** The log-probabilities of the rules of [rs] with left side [nt],
    in the order of [rs]. *)
Local Abbreviation mass rs nt :=
  (map rule_logprob
       (filter (fun r : ProbabilisticRule => eqb (left_side (rule r)) nt) rs)).

Lemma dict_append_keys d k v :
  map fst (dict_append d k v)
  = if Py.mem k (map fst d) then map fst d else map fst d ++ [k].
Proof.
  induction d as [|[k' vs] d IH]; simpl; [reflexivity|].
  unfold Py.mem in *. simpl.
  destruct (eqb k' k) eqn:E.
  - apply eqb_eq in E. subst k'. simpl.
    now rewrite (proj2 (eqb_eq k k) eq_refl).
  - simpl. rewrite IH.
    assert (E' : eqb k k' = false).
    { destruct (eqb k k') eqn:E2; auto. apply eqb_eq in E2. subst.
      now rewrite (proj2 (eqb_eq k' k') eq_refl) in E. }
    rewrite E'. simpl. now destruct (existsb _ _).
Qed.

Lemma dict_append_In d k v k' vs' :
  NoDup (map fst d) ->
  (In (k', vs') (dict_append d k v) <->
   (k' <> k /\ In (k', vs') d) \/
   (k' = k /\ ((exists vs, In (k, vs) d /\ vs' = vs ++ [v]) \/
               (~ In k (map fst d) /\ vs' = [v])))).
Proof.
  induction d as [|[k0 vs0] d IH]; simpl; intros Hn.
  - split.
    + intros [[= <- <-]|[]]. right. split; auto.
    + intros [[_ []]|[-> [(vs & [] & _)|[_ ->]]]]. now left.
  - inversion Hn as [|? ? Hk0 Hd]; subst. specialize (IH Hd).
    assert (Hfst : forall a b, In (a, b) d -> In a (map fst d)).
    { intros a b Hin. now apply (in_map fst) in Hin. }
    destruct (eqb k0 k) eqn:E.
    + apply eqb_eq in E. subst k0. simpl. split.
      * intros [[= <- <-]|Hin].
        -- right. split; auto. left. exists vs0. auto.
        -- left. split; [|now right]. intros ->. eauto.
      * intros [[Hne [H|Hin]]|[-> [(vs & [H|Hin] & ->)|[Hnk _]]]].
        -- injection H as -> ->. congruence.
        -- now right.
        -- injection H as ->. now left.
        -- exfalso. eauto.
        -- exfalso. apply Hnk. now left.
    + assert (Hne0 : k0 <> k).
      { intros ->. now rewrite (proj2 (eqb_eq k k) eq_refl) in E. }
      simpl. rewrite IH. split.
      * intros [[= <- <-]|[[Hne Hin]|[-> [(vs & Hin & ->)|[Hnk ->]]]]].
        -- left. auto.
        -- left. auto.
        -- right. split; auto. left. exists vs. auto.
        -- right. split; auto. right. split; auto. intros [H|H]; auto.
      * intros [[Hne [H|Hin]]|[-> [(vs & [H|Hin] & ->)|[Hnk ->]]]].
        -- injection H as -> ->. now left.
        -- right. left. auto.
        -- injection H as -> ->. congruence.
        -- right. right. split; auto. left. eauto.
        -- right. right. split; auto. right. split; auto.
Qed.

(** The dictionary [log_probs] after the rules [rs]: one key for each
    left side, with the log-probabilities of its rules. *)
Lemma log_probs_spec (todo : list ProbabilisticRule) :
  forall done d,
    NoDup (map fst d) ->
    (forall nt lps, In (nt, lps) d <->
                    In nt (map (fun r => left_side (rule r)) done) /\
                    lps = mass done nt) ->
    let d' := fold_left
                (fun d r => dict_append d (left_side (rule r)) (rule_logprob r))
                todo d in
    NoDup (map fst d') /\
    forall nt lps, In (nt, lps) d' <->
                   In nt (map (fun r => left_side (rule r)) (done ++ todo)) /\
                   lps = mass (done ++ todo) nt.
Proof.
  induction todo as [|r todo IH]; intros done d Hn Hd; simpl.
  - rewrite app_nil_r. auto.
  - replace (done ++ r :: todo) with ((done ++ [r]) ++ todo)
      by (now rewrite <- app_assoc).
    apply IH.
    + rewrite dict_append_keys. destruct (Py.mem _ _) eqn:Em; auto.
      apply NoDup_app_remove_l with (l := []). simpl.
      apply mem_false in Em. clear - Hn Em.
      induction (map fst d) as [|y l IHl]; simpl.
      * constructor; [intros [] | constructor].
      * inversion Hn; subst. constructor.
        -- intros Hin. apply in_app_or in Hin. destruct Hin as [Hin|[<-|[]]];
             auto. apply Em. now left.
        -- apply IHl; auto. intros Hin. apply Em. now right.
    + intros nt lps. rewrite dict_append_In by auto.
      rewrite map_app, in_app_iff, filter_app, map_app. simpl.
      destruct (eqb (left_side (rule r)) nt) eqn:E.
      * apply eqb_eq in E. subst nt. simpl. split.
        -- intros [[Hne _]|[_ [(vs & Hin & ->)|[Hnk ->]]]]; [congruence| |].
           ++ apply Hd in Hin. destruct Hin as [_ ->]. auto.
           ++ split; auto.
              assert (Hnone : mass done (left_side (rule r)) = []).
              { destruct (mass done (left_side (rule r))) as [|x l] eqn:Em;
                  [reflexivity|]. exfalso. apply Hnk.
                assert (Hx : In x (mass done (left_side (rule r))))
                  by (rewrite Em; now left).
                apply in_map_iff in Hx. destruct Hx as (r0 & _ & Hr0).
                apply filter_In in Hr0. destruct Hr0 as [Hr0 E0].
                apply eqb_eq in E0.
                assert (Hk : In (left_side (rule r), mass done (left_side (rule r))) d).
                { apply Hd. split; auto. apply in_map_iff. eauto. }
                now apply (in_map fst) in Hk. }
              now rewrite Hnone.
        -- intros [_ ->]. right. split; auto.
           destruct (in_dec string_dec (left_side (rule r)) (map fst d))
             as [Hin|Hnin].
           ++ left. apply in_map_iff in Hin. destruct Hin as ([k0 vs] & Ek & Hin).
              simpl in Ek. subst k0. exists vs. split; auto.
              apply Hd in Hin. destruct Hin as [_ ->]. reflexivity.
           ++ right. split; auto.
              assert (Hnone : mass done (left_side (rule r)) = []).
              { destruct (mass done (left_side (rule r))) as [|x l] eqn:Em;
                  [reflexivity|]. exfalso. apply Hnin.
                assert (Hx : In x (mass done (left_side (rule r))))
                  by (rewrite Em; now left).
                apply in_map_iff in Hx. destruct Hx as (r0 & _ & Hr0).
                apply filter_In in Hr0. destruct Hr0 as [Hr0 E0].
                apply eqb_eq in E0.
                assert (Hk : In (left_side (rule r), mass done (left_side (rule r))) d).
                { apply Hd. split; auto. apply in_map_iff. eauto. }
                now apply (in_map fst) in Hk. }
              now rewrite Hnone.
      * assert (Hne : nt <> left_side (rule r)).
        { intros ->. now rewrite (proj2 (eqb_eq _ _) eq_refl) in E. }
        simpl. rewrite app_nil_r. split.
        -- intros [[_ Hin]|[-> _]]; [|congruence].
           apply Hd in Hin. destruct Hin as [Hin ->]. auto.
        -- intros [[Hin|[Hin|[]]] ->]; [|congruence].
           left. split; auto. apply Hd. auto.
Qed.

Section Validation.
Variable validate : ProbabilisticRule -> list string -> list string -> Result unit.

Lemma validate_rules_Ok alphabet variables rs :
  _validate_rules validate alphabet variables rs = Ok tt <->
  (forall r, In r rs -> validate r alphabet variables = Ok tt) /\
  (forall nt, In nt (map (fun r => left_side (rule r)) rs) ->
              sums_to_one (mass rs nt) = true).
Proof.
  unfold _validate_rules.
  destruct (log_probs_spec rs [] []) as [Hn Hd]; [constructor| |].
  { intros nt lps. simpl. tauto. }
  cbv zeta in Hd. simpl app in Hd.
  set (log_probs := fold_left _ rs []) in *.
  destruct (Py.for_ rs (fun r _ => validate r alphabet variables) tt)
    as [[]|e] eqn:Ev; cbn [Py.bind].
  - pose proof (proj1 (for_checks _ _) Ev) as Hv. cbv beta in Hv.
    rewrite for_checks. split.
    + intros H. split; [exact Hv|]. intros nt Hnt.
      assert (Hin : In (nt, mass rs nt) log_probs) by (apply Hd; auto).
      specialize (H _ Hin). cbv beta iota in H.
      destruct (sums_to_one (mass rs nt)); [reflexivity | discriminate].
    + intros [_ H] [nt lps] Hin. apply Hd in Hin. destruct Hin as [Hnt ->].
      now rewrite (H nt Hnt).
  - split; [discriminate|]. intros [H _].
    pose proof (proj2 (for_checks rs (fun r _ => validate r alphabet variables)) H).
    congruence.
Qed.

End Validation.
End WithLogProb.
End PCFGValidation.


(** ** The accessors of a grammar *)

(** X14.  [parts_of_speech(word)] and [reduce(word)] are the same set:
    the left sides of the rules whose right side is the word alone.
    Without a word, [parts_of_speech()] is what [reduce] returns for
    some terminal of the alphabet. *)
Theorem parts_of_speech_is_reduce (g : ContextFreeGrammar.t) :
  (forall w, Grammars.parts_of_speech g (Some w)
             = ContextFreeGrammar.reduce g [w]) /\
  (forall x, In x (Grammars.parts_of_speech g None) <->
             exists w, In w (ContextFreeGrammar.alphabet g) /\
                       In x (ContextFreeGrammar.reduce g [w])).
Proof.
  split.
  - apply AccessorFacts.parts_of_speech_word.
  - apply AccessorFacts.parts_of_speech_any.
Qed.

(** X15.  The first read of [phrase_variables] gives the left sides of
    the rules that do not rewrite to a single terminal; together with
    [parts_of_speech()] they cover the left sides of all the rules,
    and nothing else (a symbol with rules of both kinds is in both).
    The set is kept and later reads return it as it is, whatever the
    rules are by then: after [kleene_star] has added its two rules to
    the rule set of a grammar whose left sides are variables, the set
    returned lacks the new start variable, which a first read would
    hold. *)
Theorem phrase_variables_complement (g : ContextFreeGrammar.t) (x : string) :
  let first := Grammars.phrase_variables g None in
  (In x (snd first) <->
   exists r, In r (ContextFreeGrammar._rules g) /\ left_side r = x /\
             (List.length (right_side r) <> 1 \/
              ~ In (Grammars.first_symbol r) (ContextFreeGrammar.alphabet g))) /\
  ((exists r, In r (ContextFreeGrammar._rules g) /\ left_side r = x) <->
   In x (Grammars.parts_of_speech g None) \/ In x (snd first)) /\
  (forall g', Grammars.phrase_variables g' (fst first) = first) /\
  ((forall r, In r (ContextFreeGrammar._rules g) ->
              In (left_side r) (ContextFreeGrammar.variables g)) ->
   exists ns,
     In (mkRule ns [])
        (ContextFreeGrammar._rules (fst (Grammars.kleene_star g))) /\
     ~ In ns (snd (Grammars.phrase_variables (fst (Grammars.kleene_star g))
                                             (fst first))) /\
     In ns (snd (Grammars.phrase_variables (fst (Grammars.kleene_star g))
                                           None))).
Proof.
  cbv zeta. split; [|split; [|split]].
  - apply AccessorFacts.phrase_variables_In.
  - apply AccessorFacts.left_sides_split.
  - intros g'. reflexivity.
  - apply AccessorFacts.phrase_variables_stale.
Qed.

(** In the grammar of the worked example "Adj" has a rule of each
    kind. *)
Example unhappiness_accessors :
  Grammars.parts_of_speech Examples.unhappiness None
  = ["Adj"; "Prefix"; "Suffix"] /\
  snd (Grammars.phrase_variables Examples.unhappiness None)
  = ["Adj"; "N"; "Word"] /\
  Grammars.parts_of_speech Examples.unhappiness (Some "happy") = ["Adj"].
Proof. repeat split; vm_compute; reflexivity. Qed.

(** [only_a] read before and after its Kleene closure is taken: the
    second read returns the set of the first, without "S_star". *)
Example phrase_variables_after_kleene_star :
  let (kept, before) := Grammars.phrase_variables OperationExamples.only_a None in
  let self' := fst (Grammars.kleene_star OperationExamples.only_a) in
  before = [] /\
  snd (Grammars.phrase_variables self' kept) = [] /\
  snd (Grammars.phrase_variables self' None) = ["S_star"].
Proof. repeat split; vm_compute; reflexivity. Qed.

(** ** Construction of a probabilistic grammar *)

(** X16.  The constructor of a probabilistic grammar returns exactly
    when the alphabet and the variables are disjoint, the start
    variable is a variable, [validate] accepts every rule and, for
    every left side of a rule, the log-probabilities of the rules with
    that left side pass the test [sums_to_one]; it then returns the
    grammar with the components given.  A variable that has no rule is
    not tested. *)
Theorem PCFG_construction
        (LP : LogProb)
        (validate : PCFG.ProbabilisticRule -> list string -> list string
                    -> Result unit)
        (alphabet variables : list string)
        (rules : list PCFG.ProbabilisticRule) (start : string)
        (g : PCFG.ProbabilisticContextFreeGrammar) :
  PCFG.__init__ validate alphabet variables rules start = Ok g <->
  g = PCFG.mkPCFG alphabet variables rules start /\
  (forall x, In x alphabet -> ~ In x variables) /\
  In start variables /\
  (forall r, In r rules -> validate r alphabet variables = Ok tt) /\
  (forall nt, In nt (map (fun r => left_side (PCFG.rule r)) rules) ->
     sums_to_one
       (map PCFG.rule_logprob
            (filter (fun r => eqb (left_side (PCFG.rule r)) nt) rules))
     = true).
Proof.
  unfold PCFG.__init__, PCFG._validate_variables.
  pose proof (PCFGValidation.validate_rules_Ok validate alphabet variables rules)
    as Hv.
  destruct (Py.inter alphabet variables) as [|y l] eqn:Ei.
  - assert (Hdisj : forall x, In x alphabet -> ~ In x variables).
    { intros x Ha Hx. assert (Hn : Py.inter alphabet variables <> [])
        by (eapply inter_nonempty; eauto). contradiction. }
    destruct (Py.mem start variables) eqn:Em; cbn [Py.bind].
    + apply mem_In in Em.
      destruct (PCFG._validate_rules validate alphabet variables rules)
        as [[]|e]; cbn [Py.bind].
      * split.
        -- intros [= <-]. split; [reflexivity|]. split; [exact Hdisj|].
           split; [exact Em|]. now apply Hv.
        -- intros (-> & _). reflexivity.
      * split; [discriminate|]. intros (_ & _ & _ & H).
        apply Hv in H. discriminate.
    + split; [discriminate|]. intros (_ & _ & Hs & _).
      apply mem_In in Hs. congruence.
  - split; [discriminate|]. intros (_ & Hd & _). exfalso.
    assert (Hy : In y (Py.inter alphabet variables)) by (rewrite Ei; now left).
    unfold Py.inter in Hy. apply filter_In in Hy. destruct Hy as [Ha Hx].
    apply mem_In in Hx. exact (Hd y Ha Hx).
Qed.


(** ** Writing to and reading from a CKY chart *)

Module ChartRoundTrip.
Import CKYChartFacts.

Lemma position_lt len i :
  in_range len i -> list_position len i < len.
Proof. unfold in_range, list_position. destruct (i <? 0)%Z eqn:E; lia. Qed.

Lemma getitem_position {A} (l : list A) (i : Z) (d : A) :
  in_range (List.length l) i ->
  Py.getitem l i = Ok (nth (list_position (List.length l) i) l d).
Proof.
  intros Hi. pose proof (position_lt _ _ Hi) as Hlt.
  unfold Py.getitem, list_position in *.
  set (k := if (i <? 0)%Z then (Z.of_nat (List.length l) + i)%Z else i) in *.
  assert (Hk : (0 <= k < Z.of_nat (List.length l))%Z).
  { unfold in_range in Hi. subst k. destruct (i <? 0)%Z eqn:E; lia. }
  replace ((0 <=? k)%Z && (k <? Z.of_nat (List.length l))%Z) with true
    by (symmetry; apply andb_true_iff; split; lia).
  rewrite (nth_error_nth' l d Hlt). reflexivity.
Qed.

Lemma setitem_position {A} (l : list A) (i : Z) (a : A) :
  in_range (List.length l) i ->
  Py.setitem l i a = Ok (Py.update l (list_position (List.length l) i) a).
Proof.
  intros Hi. unfold Py.setitem, list_position.
  set (k := if (i <? 0)%Z then (Z.of_nat (List.length l) + i)%Z else i) in *.
  assert (Hk : (0 <= k < Z.of_nat (List.length l))%Z).
  { unfold in_range in Hi. subst k. destruct (i <? 0)%Z eqn:E; lia. }
  replace ((0 <=? k)%Z && (k <? Z.of_nat (List.length l))%Z) with true
    by (symmetry; apply andb_true_iff; split; lia).
  reflexivity.
Qed.

Section Chart.
Context {E : Type}.
Implicit Types c : CKYChart.t E.

Lemma row_length n c a :
  CKY_shaped n c -> a < n + 1 ->
  List.length (nth a (CKYChart._chart c) []) = n + 1.
Proof.
  intros [Hl Hr] Ha. rewrite Forall_forall in Hr. apply Hr.
  apply nth_In. lia.
Qed.

Lemma setitem_store n c i j item :
  CKY_shaped n c -> in_range (n + 1) i -> in_range (n + 1) j ->
  CKYChart.__setitem__ c (i, j) item
  = Ok (CKYChart.store c (list_position (n + 1) i) (list_position (n + 1) j)
                       item).
Proof.
  intros Hc Hi Hj. pose proof Hc as [Hl Hr].
  pose proof (position_lt _ _ Hi) as Pi.
  pose proof (row_length n c _ Hc Pi) as Hrow.
  assert (Hi' : in_range (List.length (CKYChart._chart c)) i)
    by (rewrite Hl; exact Hi).
  assert (Hj' : in_range (List.length (nth (list_position (n + 1) i)
                                           (CKYChart._chart c) [])) j)
    by (rewrite Hrow; exact Hj).
  unfold CKYChart.__setitem__.
  rewrite (getitem_position _ i [] Hi'). cbn [Py.bind]. rewrite Hl.
  rewrite (setitem_position _ j item Hj'). cbn [Py.bind]. rewrite Hrow.
  rewrite (setitem_position _ i _ Hi'). cbn [Py.bind]. rewrite Hl.
  reflexivity.
Qed.

Lemma getitem_read n c i j :
  CKY_shaped n c -> (i < j)%Z -> in_range (n + 1) i -> in_range (n + 1) j ->
  CKYChart.__getitem__ c (i, j)
  = Ok (CKYChart.cell c (list_position (n + 1) i) (list_position (n + 1) j)).
Proof.
  intros Hc Hij Hi Hj. pose proof Hc as [Hl Hr].
  pose proof (position_lt _ _ Hi) as Pi.
  pose proof (row_length n c _ Hc Pi) as Hrow.
  assert (Hi' : in_range (List.length (CKYChart._chart c)) i)
    by (rewrite Hl; exact Hi).
  assert (Hj' : in_range (List.length (nth (list_position (n + 1) i)
                                           (CKYChart._chart c) [])) j)
    by (rewrite Hrow; exact Hj).
  unfold CKYChart.__getitem__, CKYChart._validate_index, CKYChart.cell.
  replace (negb (i <? j)%Z) with false
    by (symmetry; apply negb_false_iff; lia).
  rewrite (getitem_position _ i [] Hi'). cbn [Py.bind]. rewrite Hl.
  rewrite (getitem_position _ j [] Hj'). cbn [Py.bind]. rewrite Hrow.
  reflexivity.
Qed.

Lemma round_trip n c i j item :
  CKY_shaped n c -> in_range (n + 1) i -> in_range (n + 1) j ->
  exists c',
    CKYChart.__setitem__ c (i, j) item = Ok c' /\
    CKY_shaped n c' /\
    CKYChart.cell c' (list_position (n + 1) i) (list_position (n + 1) j) = item /\
    (forall a b, (a, b) <> (list_position (n + 1) i, list_position (n + 1) j) ->
                 CKYChart.cell c' a b = CKYChart.cell c a b) /\
    (forall i' j', (i' < j')%Z -> in_range (n + 1) i' -> in_range (n + 1) j' ->
       CKYChart.__getitem__ c' (i', j')
       = Ok (CKYChart.cell c' (list_position (n + 1) i')
                           (list_position (n + 1) j'))).
Proof.
  intros Hc Hi Hj. pose proof Hc as [Hl Hr].
  pose proof (position_lt _ _ Hi) as Pi. pose proof (position_lt _ _ Hj) as Pj.
  eexists. split; [now apply (setitem_store n)|].
  assert (Hc' : CKY_shaped n (CKYChart.store c (list_position (n + 1) i)
                                             (list_position (n + 1) j) item))
    by now apply store_shaped.
  split; [exact Hc'|]. split; [|split].
  - apply cell_store_eq; [lia|]. rewrite (row_length n c _ Hc Pi). exact Pj.
  - intros a b Hab. now apply cell_store_neq.
  - intros i' j' Hij' Hi' Hj'. now apply (getitem_read n).
Qed.

End Chart.
End ChartRoundTrip.

(** X17.  A value stored in a CKY chart with [chart[i, j] = item] is
    the value held by the cell that [i] and [j] denote (a negative
    index counting from the end), every other cell keeps its value,
    and [chart[i', j']] reads the cell that [i'] and [j'] denote
    whenever [i' < j'] and both are within the table.  The guard of
    [__getitem__] compares the indices as they are given, before they
    are resolved: [chart[-1, 0]] reads row [n], column 0 of the lower
    triangle. *)
Theorem CKYChart_store_and_read
        {E : Type} (n : nat) (c : CKYChart.t E) (i j : Z) (item : list E) :
  CKY_shaped n c -> in_range (n + 1) i -> in_range (n + 1) j ->
  exists c',
    CKYChart.__setitem__ c (i, j) item = Ok c' /\
    CKY_shaped n c' /\
    CKYChart.cell c' (list_position (n + 1) i) (list_position (n + 1) j) = item /\
    (forall a b, (a, b) <> (list_position (n + 1) i, list_position (n + 1) j) ->
                 CKYChart.cell c' a b = CKYChart.cell c a b) /\
    (forall i' j', (i' < j')%Z -> in_range (n + 1) i' -> in_range (n + 1) j' ->
       CKYChart.__getitem__ c' (i', j')
       = Ok (CKYChart.cell c' (list_position (n + 1) i')
                           (list_position (n + 1) j'))).
Proof. apply ChartRoundTrip.round_trip. Qed.

Lemma CKYChart_store_and_read_witness :
  exists c',
    CKYChart.__setitem__ (@CKYChart.__init__ nat 2) (2, 0)%Z [7] = Ok c' /\
    CKYChart.__getitem__ c' (-1, 0)%Z = Ok [7].
Proof.
  destruct (CKYChart_store_and_read 2 (@CKYChart.__init__ nat 2) 2 0 [7]
              (CKY_init_shaped 2))
    as (c' & Hset & _ & Hcell & _ & Hget);
    [unfold in_range; simpl; lia | unfold in_range; simpl; lia|].
  exists c'. split; [exact Hset|].
  rewrite (Hget (-1)%Z 0%Z) by (unfold in_range; simpl; lia).
  f_equal. exact Hcell.
Defined.

(** ** Span validation on reading a chart *)

(** C6, as the code has it.  Reading a CKY chart, [chart[i, j]],
    raises ValueError when [i >= j] and when [i] or [j] is outside the
    index range of the table (for a Python list of [n + 1] elements
    that is [-(n + 1) <= index <= n]), and returns the cell that [i]
    and [j] denote otherwise.  The Earley chart has no guard of its
    own: a position outside the index range raises the IndexError of
    the underlying list, and a position within it gives the set at
    that position. *)
Theorem span_validation_on_read {E} (n : nat) (c : CKYChart.t E)
        (e : Earley.EarleyChart) (i j : Z) :
  CKY_shaped n c -> Earley_shaped n e ->
  ((exists msg, CKYChart.__getitem__ c (i, j) = Raise (ValueError msg))
   <-> (i >= j)%Z \/ ~ in_range (n + 1) i \/ ~ in_range (n + 1) j) /\
  ((i < j)%Z -> in_range (n + 1) i -> in_range (n + 1) j ->
   CKYChart.__getitem__ c (i, j)
   = Ok (CKYChart.cell c (list_position (n + 1) i)
                       (list_position (n + 1) j))) /\
  (~ in_range (n + 1) i -> Earley.__getitem__ e i = Raise IndexError) /\
  (in_range (n + 1) i ->
   Earley.__getitem__ e i = Ok (Earley.cell e (list_position (n + 1) i))).
Proof.
  intros Hc He. split; [|split; [|split]].
  - destruct (CKY_getitem_spec n c i j Hc) as [Hok Hbad]. split.
    + intros [msg Hm].
      destruct (Z_lt_dec i j) as [Hij|]; [|lia].
      destruct (Z_le_dec (- Z.of_nat (n + 1)) i); [|right; left; unfold in_range; lia].
      destruct (Z_lt_dec i (Z.of_nat (n + 1))); [|right; left; unfold in_range; lia].
      destruct (Z_le_dec (- Z.of_nat (n + 1)) j); [|right; right; unfold in_range; lia].
      destruct (Z_lt_dec j (Z.of_nat (n + 1))); [|right; right; unfold in_range; lia].
      destruct Hok as [s Hs]; [unfold in_range; lia | congruence].
    + intros H. apply Hbad. intros (Hij & Hi & Hj).
      destruct H as [H|[H|H]]; [lia | tauto | tauto].
  - intros Hij Hi Hj. now apply ChartRoundTrip.getitem_read.
  - intros Hi. unfold Earley.__getitem__. apply getitem_out_of_range.
    now rewrite He.
  - intros Hi. unfold Earley.__getitem__, Earley.cell.
    rewrite <- He in *. now apply ChartRoundTrip.getitem_position.
Qed.

Lemma span_validation_on_read_witness :
  CKY_shaped 2 (@CKYChart.__init__ nat 2) /\
  Earley_shaped 2 (Earley.EarleyChart__init__ 2 "S") /\
  (exists msg, CKYChart.__getitem__ (@CKYChart.__init__ nat 2) (2, 1)%Z
               = Raise (ValueError msg)) /\
  CKYChart.__getitem__ (@CKYChart.__init__ nat 2) (-3, -1)%Z
  = Ok (CKYChart.cell (@CKYChart.__init__ nat 2) 0 2) /\
  Earley.__getitem__ (Earley.EarleyChart__init__ 2 "S") 5%Z = Raise IndexError.
Proof.
  pose proof (span_validation_on_read 2 (@CKYChart.__init__ nat 2)
                (Earley.EarleyChart__init__ 2 "S") 2%Z 1%Z
                (CKY_init_shaped 2) (Earley_init_shaped 2 "S")) as [H1 _].
  pose proof (span_validation_on_read 2 (@CKYChart.__init__ nat 2)
                (Earley.EarleyChart__init__ 2 "S") (-3)%Z (-1)%Z
                (CKY_init_shaped 2) (Earley_init_shaped 2 "S"))
    as (_ & H3 & _).
  pose proof (span_validation_on_read 2 (@CKYChart.__init__ nat 2)
                (Earley.EarleyChart__init__ 2 "S") 5%Z 6%Z
                (CKY_init_shaped 2) (Earley_init_shaped 2 "S"))
    as (_ & _ & H2 & _).
  split; [apply CKY_init_shaped | split; [apply Earley_init_shaped | split]].
  - apply H1. left. lia.
  - split.
    + apply H3; unfold in_range; simpl; lia.
    + apply H2. unfold in_range. simpl. lia.
Defined.

(** C6 as stated fails: writing to a CKY chart is not guarded (a cell
    below the diagonal is assigned without complaint), and an Earley
    chart indexed past its end raises IndexError, not ValueError. *)
Lemma span_validation_counterexample :
  (exists c, CKYChart.__setitem__ (@CKYChart.__init__ nat 2) (2, 1)%Z [7]
             = Ok c) /\
  Earley.__getitem__ (Earley.EarleyChart__init__ 2 "S") 5%Z = Raise IndexError /\
  (forall msg, IndexError <> ValueError msg).
Proof.
  split; [eexists; reflexivity | split; [reflexivity | discriminate]].
Qed.

(** ** The sum-to-one test at construction *)

Module DistributionFacts.
Import PCFG PCFGValidation.

Section WithLogProb.
Context {LP : LogProb}.

(** The loop over [log_probs] returns or raises ValueError. *)
Lemma sums_loop_result (d : list (string * list logprob)) :
  let test := fun '(nt, lps) (_ : unit) =>
                if sums_to_one lps then Ok tt
                else Raise (ValueError
                              (String.append "Rules for "
                                 (String.append nt " do not sum to 1.0"))) in
  Py.for_ d test tt = Ok tt \/
  exists msg, Py.for_ d test tt = Raise (ValueError msg).
Proof.
  cbv zeta. induction d as [|[nt lps] d IH]; simpl; [now left|].
  destruct (sums_to_one lps); cbn [Py.bind]; [exact IH|].
  right. eexists. reflexivity.
Qed.

Lemma validate_rules_result validate alphabet variables rs :
  (forall r, In r rs -> validate r alphabet variables = Ok tt) ->
  _validate_rules validate alphabet variables rs = Ok tt \/
  exists msg,
    _validate_rules validate alphabet variables rs = Raise (ValueError msg).
Proof.
  intros Hv. unfold _validate_rules.
  rewrite (proj2 (for_checks rs (fun r _ => validate r alphabet variables)) Hv).
  cbn [Py.bind]. apply sums_loop_result.
Qed.

Lemma validate_variables_result alphabet variables start :
  _validate_variables alphabet variables start = Ok tt \/
  exists msg,
    _validate_variables alphabet variables start = Raise (ValueError msg).
Proof.
  unfold _validate_variables.
  destruct (Py.inter alphabet variables); [|right; eexists; reflexivity].
  destruct (Py.mem start variables); [now left|].
  right. eexists. reflexivity.
Qed.

End WithLogProb.
End DistributionFacts.

(** C8, as the code has it.  When [validate] accepts every rule,
    constructing a probabilistic grammar raises ValueError if the
    log-probabilities of the rules of some left side fail the test
    [sums_to_one]; and it returns the grammar when the alphabet and the
    variables are disjoint, the start variable is a variable and the
    rules of every left side pass the test.  The test is applied to
    the symbols that are the left side of a rule: a variable that has
    no rule is not tested.  When the alphabet and the variables share
    an element, or the start variable is not a variable, construction
    raises ValueError whatever the rules sum to. *)
Theorem probability_distribution_validation
        (LP : LogProb)
        (validate : PCFG.ProbabilisticRule -> list string -> list string
                    -> Result unit)
        (alphabet variables : list string)
        (rules : list PCFG.ProbabilisticRule) (start : string) :
  (forall r, In r rules -> validate r alphabet variables = Ok tt) ->
  ((exists nt,
       In nt (map (fun r => left_side (PCFG.rule r)) rules) /\
       sums_to_one
         (map PCFG.rule_logprob
              (filter (fun r => eqb (left_side (PCFG.rule r)) nt) rules))
       = false) ->
   exists msg,
     PCFG.__init__ validate alphabet variables rules start
     = Raise (ValueError msg)) /\
  ((forall x, In x alphabet -> ~ In x variables) ->
   In start variables ->
   (forall nt,
       In nt (map (fun r => left_side (PCFG.rule r)) rules) ->
       sums_to_one
         (map PCFG.rule_logprob
              (filter (fun r => eqb (left_side (PCFG.rule r)) nt) rules))
       = true) ->
   PCFG.__init__ validate alphabet variables rules start
   = Ok (PCFG.mkPCFG alphabet variables rules start)) /\
  ((exists x, In x alphabet /\ In x variables) \/ ~ In start variables ->
   exists msg,
     PCFG.__init__ validate alphabet variables rules start
     = Raise (ValueError msg)).
Proof.
  intros Hv.
  pose proof (PCFGValidation.validate_rules_Ok validate alphabet variables rules)
    as Hok.
  split; [|split].
  - intros (nt & Hnt & Hfail). unfold PCFG.__init__.
    destruct (DistributionFacts.validate_variables_result
                alphabet variables start) as [E|[msg E]]; rewrite E;
      cbn [Py.bind]; [|eauto].
    destruct (DistributionFacts.validate_rules_result
                validate alphabet variables rules Hv) as [R|[msg R]];
      rewrite R; cbn [Py.bind]; [|eauto].
    exfalso. apply Hok in R. destruct R as [_ R].
    rewrite (R nt Hnt) in Hfail. discriminate.
  - intros Hdisj Hstart Hsum. unfold PCFG.__init__, PCFG._validate_variables.
    destruct (Py.inter alphabet variables) as [|y l] eqn:Ei.
    + apply mem_In in Hstart. rewrite Hstart. cbn [Py.bind].
      rewrite (proj2 Hok (conj Hv Hsum)). reflexivity.
    + exfalso.
      assert (Hy : In y (Py.inter alphabet variables))
        by (rewrite Ei; now left).
      unfold Py.inter in Hy. apply filter_In in Hy. destruct Hy as [Ha Hx].
      apply mem_In in Hx. exact (Hdisj y Ha Hx).
  - intros H. destruct (PCFG_validate_variables_raises _ _ _ H) as [msg Hm].
    exists msg. unfold PCFG.__init__. now rewrite Hm.
Qed.

(** The rules of "S" carry one half in all: construction raises. *)
Lemma probability_distribution_validation_witness :
  exists msg,
    PCFG.__init__ (LP := Exact.ExactLogProb) (fun _ _ _ => Ok tt)
                  ["a"; "b"] ["S"]
                  [Examples.prule "S" ["a"] 1 4; Examples.prule "S" ["b"] 1 4]
                  "S"
    = Raise (ValueError msg).
Proof.
  apply (proj1 (probability_distribution_validation
                  Exact.ExactLogProb (fun _ _ _ => Ok tt)
                  ["a"; "b"] ["S"]
                  [Examples.prule "S" ["a"] 1 4; Examples.prule "S" ["b"] 1 4]
                  "S" (fun _ _ => eq_refl))).
  exists "S". split; [now left | reflexivity].
Defined.

(** C8 as stated fails in both directions.  The variable "A" has no
    rule, so the probabilities of its rules sum to 0 and the empty
    list fails the test, yet the grammar is constructed: only the left
    sides of rules are tested.  And with "S" both a terminal and a
    variable, construction raises although the rules of every
    variable sum to 1. *)
Lemma probability_distribution_counterexample :
  @sums_to_one Exact.ExactLogProb [] = false /\
  PCFG.__init__ (LP := Exact.ExactLogProb) (fun _ _ _ => Ok tt)
                ["a"] ["S"; "A"] [Examples.prule "S" ["a"] 1 1] "S"
  = Ok (PCFG.mkPCFG ["a"] ["S"; "A"] [Examples.prule "S" ["a"] 1 1] "S") /\
  @sums_to_one Exact.ExactLogProb [Exact.mkProb 1 1] = true /\
  PCFG.__init__ (LP := Exact.ExactLogProb) (fun _ _ _ => Ok tt)
                ["a"; "S"] ["S"] [Examples.prule "S" ["a"] 1 1] "S"
  = Raise (ValueError "alphabet and variables must not share elements").
Proof. repeat split; vm_compute; reflexivity. Qed.
